(** * MethSCAn (scbs): the sparse methylation-matrix engine

    A shallow embedding of [src/scbs/scbs.py]: ingestion
    ([_get_cell_names], [_line_to_values], [_dump_coo_files], [prepare] and
    its summary statistics), the baseline smoother ([Smoother], [smooth],
    [_load_smoothed_chrom]), the region statistics ([_calc_region_stats],
    [_calc_mean_shrunken_residuals]), the region matrix ([_iter_bed],
    [matrix]) and the genome scanner ([_find_peaks], [_move_windows],
    [scan]).  The models come first, module by module; the theorems
    follow.

    Conventions.
    - Python [int] is [Z].  NumPy [int64] counters and positions are [Z] as
      well: a counter of the code grows by at most one [int8] value for
      each element of an array, and a position is an index of an array, so
      the wrap-around at [2^63] is out of reach.  [_find_peaks] is given a
      second time with the arithmetic of [int64]
      ([Peaks._find_peaks_int64]), for its use on arbitrary positions.  The
      [int8] values of the store wrap around where SciPy adds them
      ([Csr.wrap8]).
    - The functions under [@njit] are read as Numba compiles them: a local
      that no branch has assigned holds the null value of its type
      ([n_obs_cpg] in [_calc_region_stats]).
    - NumPy [float64] is the binary64 type [float] of the standard library,
      with its single NaN; [np.seterr(divide="ignore", invalid="ignore")]
      makes a division by zero return NaN or an infinity silently, which is
      what the division of [float] computes.
    - A Python exception is the [None] of an [option].
    - Arrays are lists; indexing and slicing follow NumPy ([Np.get],
      [Np.slice]), negative indices included.
    - [np.log1p], [np.sum], [np.nanvar] and [np.nanquantile] are parameters
      of the modules that call them, and so are the functions of Python on
      text: [int], [str.lower], [str.strip] and [str.split],
      [os.path.basename] and [os.path.splitext].  [np.nanquantile] raises
      for a level outside of 0 to 1 ([Scan.np_nanquantile]).
    - A file is the list of its lines, and a line that the code writes is
      the tuple of its fields: the formatting of a number as text and its
      reading back are not part of the model. *)

From Stdlib Require Import ZArith List Floats Lia Bool Sorted.
From stdpp Require Import gmap strings list fin_maps.

#[local] Open Scope Z_scope.
#[local] Set Warnings "-inexact-float".

(** ** Genome scanner: peak calling *)

Module Peaks.

(** The locals of [_find_peaks]: the two result lists, the flag and the loop
    variable [pos], unbound until the first iteration. *)
Record state := mkState {
  peak_starts : list Z;
  peak_ends : list Z;
  in_peak : bool;
  pos : option Z
}.

Definition init : state := mkState [] [] false None.

(** Python's [max] on a non-empty list. *)
Definition py_max (l : list Z) : Z :=
  match l with
  | [] => 0
  | x :: l' => fold_left Z.max l' x
  end.

(** [bool(peak_ends)]: a list is true when it is not empty. *)
Definition truthy {A} (l : list A) : bool :=
  match l with [] => false | _ => true end.

(** One iteration of [for var, pos in zip(smoothed_vars, swindow_centers)]. *)
Definition step (var_cutoff : float) (half_bw : Z) (st : state)
    (w : float * Z) : state :=
  let '(var, p) := w in
  if (var_cutoff <? var)%float then
    if negb (in_peak st) then
      if truthy (peak_ends st) && (p - half_bw <=? py_max (peak_ends st)) then
        mkState (peak_starts st) (removelast (peak_ends st)) true (Some p)
      else
        mkState (peak_starts st ++ [p - half_bw]) (peak_ends st) true (Some p)
    else mkState (peak_starts st) (peak_ends st) (in_peak st) (Some p)
  else
    if in_peak st then
      mkState (peak_starts st) (peak_ends st ++ [p + half_bw]) false (Some p)
    else mkState (peak_starts st) (peak_ends st) (in_peak st) (Some p).

Definition run (var_cutoff : float) (half_bw : Z) (ws : list (float * Z))
    : state :=
  fold_left (step var_cutoff half_bw) ws init.

(** What follows the loop: the open peak is closed at [pos], then the
    assertion is checked. *)
Definition finish (st : state) : option (list Z * list Z) :=
  let ends :=
    if in_peak st then
      match pos st with
      | Some p => Some (peak_ends st ++ [p])
      | None => None
      end
    else Some (peak_ends st) in
  match ends with
  | Some e =>
      if (length (peak_starts st) =? length e)%nat
      then Some (peak_starts st, e) else None
  | None => None
  end.

Definition _find_peaks (smoothed_vars : list float) (swindow_centers : list Z)
    (var_cutoff : float) (half_bw : Z) : option (list Z * list Z) :=
  finish (run var_cutoff half_bw (combine smoothed_vars swindow_centers)).

(** [_find_peaks] is compiled by Numba ([@njit]): the positions are [int64]
    and the compiled code computes [pos - half_bw] and [pos + half_bw] with
    wrap-around.  [step_int64] is the iteration with this arithmetic and
    [_find_peaks_int64] the function it gives; it is [_find_peaks] as long
    as no window reaches beyond the range of [int64]. *)
Definition wrap64 (z : Z) : Z := (z + 2 ^ 63) mod 2 ^ 64 - 2 ^ 63.

Definition step_int64 (var_cutoff : float) (half_bw : Z) (st : state)
    (w : float * Z) : state :=
  let '(var, p) := w in
  if (var_cutoff <? var)%float then
    if negb (in_peak st) then
      if truthy (peak_ends st)
         && (wrap64 (p - half_bw) <=? py_max (peak_ends st)) then
        mkState (peak_starts st) (removelast (peak_ends st)) true (Some p)
      else
        mkState (peak_starts st ++ [wrap64 (p - half_bw)]) (peak_ends st)
          true (Some p)
    else mkState (peak_starts st) (peak_ends st) (in_peak st) (Some p)
  else
    if in_peak st then
      mkState (peak_starts st) (peak_ends st ++ [wrap64 (p + half_bw)])
        false (Some p)
    else mkState (peak_starts st) (peak_ends st) (in_peak st) (Some p).

Definition _find_peaks_int64 (smoothed_vars : list float)
    (swindow_centers : list Z) (var_cutoff : float) (half_bw : Z)
    : option (list Z * list Z) :=
  finish (fold_left (step_int64 var_cutoff half_bw)
            (combine smoothed_vars swindow_centers) init).

End Peaks.

(** ** Ingestion: staging of the calls, one stream per chromosome *)

Module Ingest.

Section LineToValues.

(** Python's [int] on a text field; [None] stands for its [ValueError]. *)
Variable py_int : string -> option Z.

Definition _line_to_values (line : list string)
    (c_col p_col m_col u_col : nat) (coverage : bool)
    : option (string * Z * Z * Z) :=
  chrom ← line !! c_col;
  pos ← line !! p_col ≫= py_int;
  n_meth ← line !! m_col ≫= py_int;
  u ← line !! u_col ≫= py_int;
  let n_unmeth := if coverage then u - n_meth else u in
  Some (chrom, pos, n_meth, n_unmeth).

End LineToValues.

(** A line of a [.coo] file: [genomic_pos,cell_n,meth_value]. *)
Abbreviation coo_line := (Z * Z * Z)%type.

(** The two dictionaries of [_dump_coo_files].  A file handle is modelled by
    the lines written to it so far. *)
Record state := mkState {
  coo_files : gmap string (list coo_line);
  chrom_sizes : gmap string Z
}.

Definition empty : state := mkState ∅ ∅.

(** The body of the inner loop of [_dump_coo_files] for one record of the
    cell with index [cell_n]. *)
Definition dump_line (cell_n : Z) (st : state) (line_vals : string * Z * Z * Z)
    : option state :=
  let '(chrom, genomic_pos, n_meth, n_unmeth) := line_vals in
  if negb (n_meth =? 0) && negb (n_unmeth =? 0) then Some st
  else
    let meth_value := if n_meth >? 0 then 1 else -1 in
    let st1 :=
      match coo_files st !! chrom with
      | None => mkState (<[chrom := []]> (coo_files st))
                        (<[chrom := 0]> (chrom_sizes st))
      | Some _ => st
      end in
    size ← chrom_sizes st1 !! chrom;
    let sizes :=
      if genomic_pos >? size
      then <[chrom := genomic_pos]> (chrom_sizes st1)
      else chrom_sizes st1 in
    fhandle ← coo_files st1 !! chrom;
    Some (mkState
            (<[chrom := fhandle ++ [(genomic_pos, cell_n, meth_value)]]>
               (coo_files st1))
            sizes).

(** A loop whose body may raise. *)
Fixpoint foldM {A B} (f : B -> A -> option B) (l : list A) (b : B)
    : option B :=
  match l with
  | [] => Some b
  | a :: l' => match f b a with Some b' => foldM f l' b' | None => None end
  end.

(** [for line_vals in _iterate_covfile(cov_file, ...)]. *)
Definition dump_cell (st : state) (cell : Z * list (string * Z * Z * Z))
    : option state :=
  foldM (dump_line (fst cell)) (snd cell) st.

(** [enumerate(fpaths)], each file already read by [_iterate_covfile]. *)
Definition enumerate {A} (l : list A) : list (Z * A) :=
  combine (map Z.of_nat (seq 0 (length l))) l.

Definition _dump_coo_files (cells : list (list (string * Z * Z * Z)))
    : option state :=
  foldM dump_cell (enumerate cells) empty.

(** A record is dropped when both counts are nonzero. *)
Definition ambiguous (line_vals : string * Z * Z * Z) : bool :=
  let '(_, _, n_meth, n_unmeth) := line_vals in
  negb (n_meth =? 0) && negb (n_unmeth =? 0).

End Ingest.

(** ** The sparse chromosome store: a matrix in compressed sparse row form *)

Module Csr.

(** The three arrays of a [scipy.sparse.csr_matrix] and its shape. *)
Record matrix := mkMatrix {
  data : list Z;
  indices : list Z;
  indptr : list Z;
  n_rows : Z;
  n_cols : Z
}.

(** Addition of [int8], the [dtype] of the store. *)
Definition wrap8 (z : Z) : Z := (z + 128) mod 256 - 128.

(** A row under construction: pairs (column, value) in ascending column
    order.  An entry for a column already present is added to it: SciPy sums
    the duplicate entries of a COO matrix when it converts it to CSR. *)
Fixpoint row_add (c v : Z) (row : list (Z * Z)) : list (Z * Z) :=
  match row with
  | [] => [(c, v)]
  | (c', v') :: row' =>
      if c <? c' then (c, v) :: row
      else if c =? c' then (c', wrap8 (v' + v)) :: row'
      else (c', v') :: row_add c v row'
  end.

Definition row_of (r : Z) (coo : list (Z * Z * Z)) : list (Z * Z) :=
  fold_left (fun row l => let '(p, c, v) := l in
                          if p =? r then row_add c v row else row) coo [].

(** The row pointers: running totals of the row lengths, from [acc]. *)
Fixpoint offsets (acc : Z) (rows : list (list (Z * Z))) : list Z :=
  match rows with
  | [] => [acc]
  | row :: rows' => acc :: offsets (acc + Z.of_nat (length row)) rows'
  end.

Definition of_rows (rows : list (list (Z * Z))) (M N : Z) : matrix :=
  mkMatrix (map snd (concat rows)) (map fst (concat rows))
           (offsets 0 rows) M N.

(** [coo_matrix((values, (rows, cols)), shape=(M, N), dtype=int8).tocsr()]
    on the lines (row, col, value) of a [.coo] file.  The constructor raises
    [ValueError] on an index outside the shape. *)
Definition coo_tocsr (coo : list (Z * Z * Z)) (M N : Z) : option matrix :=
  if forallb (fun l => let '(p, c, _) := l in
                       (0 <=? p) && (p <? M) && (0 <=? c) && (c <? N)) coo
  then Some (of_rows (map (fun r => row_of (Z.of_nat r) coo)
                          (seq 0 (Z.to_nat M))) M N)
  else None.

End Csr.

(** ** Ingestion: assembly of the store of one chromosome *)

Module Prepare.

(** The body of [for chrom in coo_files.keys()] in [prepare], up to the
    matrix it saves.  [np.loadtxt] reads a file of a single line as a
    one-dimensional array, on which [coo[:, 2]] raises [IndexError]. *)
Definition prepare_chrom (st : Ingest.state) (n_cells : Z) (chrom : string)
    : option Csr.matrix :=
  chrom_size ← Ingest.chrom_sizes st !! chrom;
  coo ← Ingest.coo_files st !! chrom;
  if (length coo <=? 1)%nat then None
  else Csr.coo_tocsr coo (chrom_size + 1) n_cells.

(** The matrix [prepare] saves for [chrom], from the records of the input
    files; [n_cells = len(cell_names)].  A chromosome is reached only when
    the body has not raised on the chromosomes before it. *)
Definition prepare (cells : list (list (string * Z * Z * Z))) (chrom : string)
    : option Csr.matrix :=
  st ← Ingest._dump_coo_files cells;
  prepare_chrom st (Z.of_nat (length cells)) chrom.

(** The loop [for chrom in coo_files.keys()] of [prepare] as a whole: the
    matrices it saves, with their chromosomes; [chroms] is
    [coo_files.keys()], in the order of the dictionary.  Nothing catches
    what the body raises: the first chromosome on which it raises ends the
    run, and no chromosome after it is assembled. *)
Definition prepare_all (cells : list (list (string * Z * Z * Z)))
    (chroms : list string) : option (list (string * Csr.matrix)) :=
  st ← Ingest._dump_coo_files cells;
  mapM (fun chrom =>
          pair chrom <$> prepare_chrom st (Z.of_nat (length cells)) chrom)
       chroms.

End Prepare.

(** ** NumPy arrays: indexing, slicing and a few array functions *)

Module Np.

(** A negative index counts from the end of the array. *)
Definition norm (len i : Z) : Z := if i <? 0 then i + len else i.

(** [a[i]]; outside the array it raises [IndexError]. *)
Definition get {A} (l : list A) (i : Z) : option A :=
  let j := norm (Z.of_nat (length l)) i in
  if j <? 0 then None else l !! Z.to_nat j.

(** [a[i] = x], on an index inside the array. *)
Definition set {A} (l : list A) (i : Z) (x : A) : list A :=
  <[Z.to_nat (norm (Z.of_nat (length l)) i) := x]> l.

(** A slice bound is brought into [0, len]. *)
Definition clip (len i : Z) : Z := Z.max 0 (Z.min len (norm len i)).

(** [a[lo:hi]]. *)
Definition slice {A} (l : list A) (lo hi : Z) : list A :=
  let len := Z.of_nat (length l) in
  take (Z.to_nat (clip len hi - clip len lo)) (drop (Z.to_nat (clip len lo)) l).

(** [np.diff]. *)
Definition diff (l : list Z) : list Z :=
  zip_with (fun x y => y - x) l (tail l).

Definition count (c : Z) (l : list Z) : Z :=
  Z.of_nat (length (filter (fun x => x = c) l)).

(** [np.bincount] on a non-empty array: one counter for each value from 0
    to the largest; a negative value raises [ValueError]. *)
Definition bincount (l : list Z) : option (list Z) :=
  if forallb (fun x => 0 <=? x) l
  then Some (map (fun c => count (Z.of_nat c) l)
                 (seq 0 (Z.to_nat (fold_right Z.max 0 l + 1))))
  else None.

(** The conversion of an [int64] to [float64]. *)
Definition of_int (z : Z) : float :=
  if z <? 0 then (- PrimFloat.of_uint63 (Uint63.of_Z (- z)))%float
  else PrimFloat.of_uint63 (Uint63.of_Z z).

End Np.

(** ** Region statistics engine *)

Module Region.

Section WithStore.

(** The three arrays of the store of a chromosome, the smoothed track (a
    dictionary from position to value, whose lookup raises [KeyError] on a
    missing key), the number of cells and the number of rows. *)
Variables (data_chrom indices_chrom indptr_chrom : list Z).
Variable smoothed_vals : gmap Z float.
Variable n_cells : nat.
Variable chrom_len : Z.

(** The locals of the main loop of [_calc_mean_shrunken_residuals]:
    [cpg_idx], [nobs_cpg], what of [indptr_diff] lies after [cpg_idx], and
    the two arrays of sums. *)
Record loop_state := mkLoop {
  cpg_idx : Z;
  nobs_cpg : Z;
  diff_rest : list Z;
  smooth_sums : list float;
  meth_sums : list Z
}.

(** [while nobs_cpg == 0: cpg_idx += 1; nobs_cpg = indptr_diff[cpg_idx]].
    Reading [indptr_diff] past its end raises. *)
Fixpoint next_cpg (rest : list Z) (idx nobs : Z) : option (Z * Z * list Z) :=
  if nobs =? 0 then
    match rest with
    | [] => None
    | d :: rest' => next_cpg rest' (idx + 1) d
    end
  else Some (idx, nobs, rest).

(** The body of [for i in range(data.shape[0])], on [indices[i]] and
    [data[i]]. *)
Definition body (start : Z) (st : loop_state) (cell_idx meth_value : Z)
    : option loop_state :=
  '(idx, nobs, rest) ← next_cpg (diff_rest st) (cpg_idx st) (nobs_cpg st);
  let nobs := nobs - 1 in
  old ← Np.get (smooth_sums st) cell_idx;
  sm ← smoothed_vals !! (start + idx);
  let smooth := Np.set (smooth_sums st) cell_idx (old + sm)%float in
  if meth_value =? -1 then Some (mkLoop idx nobs rest smooth (meth_sums st))
  else
    m ← Np.get (meth_sums st) cell_idx;
    Some (mkLoop idx nobs rest smooth
            (Np.set (meth_sums st) cell_idx (m + meth_value))).

Fixpoint loop (start : Z) (indices : list Z) (i : Z) (data : list Z)
    (st : loop_state) : option loop_state :=
  match data with
  | [] => Some st
  | meth_value :: data' =>
      cell_idx ← Np.get indices i;
      st' ← body start st cell_idx meth_value;
      loop start indices (i + 1) data' st'
  end.

(** [n_obs = zeros(n_cells); n_obs[0:n_obs_start.shape[0]] = n_obs_start]:
    the assignment raises when [n_obs_start] is longer than [n_obs]. *)
Definition n_obs_of (indices : list Z) : option (list Z) :=
  n_obs_start ← Np.bincount indices;
  if (length n_obs_start <=? n_cells)%nat
  then Some (n_obs_start ++ replicate (n_cells - length n_obs_start) 0)
  else None.

(** The last loop: one residual per cell. *)
Definition shrink (shrinkage_factor : Z) (n_obs meth : Z) (smooth : float)
    : float :=
  if n_obs >? 0
  then ((Np.of_int meth - smooth) / Np.of_int (n_obs + shrinkage_factor))%float
  else nan.

Definition _calc_mean_shrunken_residuals (start end_ : Z)
    : option (list float) :=
  let shrinkage_factor := 1 in
  let shrunken_resid := replicate n_cells nan in
  if start >? chrom_len then Some shrunken_resid
  else
    let end_ := end_ + 1 in
    let end_ := if end_ >? chrom_len then chrom_len else end_ in
    lo ← Np.get indptr_chrom start;
    hi ← Np.get indptr_chrom end_;
    let data := Np.slice data_chrom lo hi in
    if (length data =? 0)%nat then Some shrunken_resid
    else
      let indices := Np.slice indices_chrom lo hi in
      let indptr :=
        map (fun x => x - lo) (Np.slice indptr_chrom start (end_ + 1)) in
      let indptr_diff := Np.diff indptr in
      n_obs ← n_obs_of indices;
      nobs ← Np.get indptr_diff 0;
      st ← loop start indices 0 data
             (mkLoop 0 nobs (tail indptr_diff)
                     (replicate n_cells 0%float) (replicate n_cells 0));
      Some (zip_with (fun n ms => shrink shrinkage_factor n (fst ms) (snd ms))
                     n_obs (zip (meth_sums st) (smooth_sums st))).

(** [_count_n_cpg]. *)
Definition _count_n_cpg (region_indptr : list Z) : Z :=
  snd (fold_left (fun '(prev_val, n_cpg) val =>
                    if negb (val =? prev_val) then (val, n_cpg + 1)
                    else (prev_val, n_cpg))
                 region_indptr (0, 0)).

(** The loop of [_calc_region_stats] over the sliced entries. *)
Fixpoint count_loop (indices : list Z) (i : Z) (data : list Z)
    (n_meth n_total : list Z) : option (list Z * list Z) :=
  match data with
  | [] => Some (n_meth, n_total)
  | meth_value :: data' =>
      cell_i ← Np.get indices i;
      t ← Np.get n_total cell_i;
      let n_total := Np.set n_total cell_i (t + 1) in
      if meth_value =? -1 then count_loop indices (i + 1) data' n_meth n_total
      else
        m ← Np.get n_meth cell_i;
        count_loop indices (i + 1) data'
          (Np.set n_meth cell_i (m + meth_value)) n_total
  end.

(** [_calc_region_stats].  The function is compiled by Numba ([@njit]).
    Its local [n_obs_cpg] is assigned on two of the three paths only; on the
    third, an empty slice inside the chromosome, the compiled function
    returns the null value of the type of the local, the [int64] 0 (the
    interpreter would raise [UnboundLocalError] there). *)
Definition _calc_region_stats (start end_ : Z)
    : option (list Z * list Z * list float * Z) :=
  let n_meth := replicate n_cells 0 in
  let n_total := replicate n_cells 0 in
  '(n_meth, n_total, n_obs_cpg) ←
    (if start >? chrom_len then Some (n_meth, n_total, 0)
     else
       let end_ := end_ + 1 in
       let end_ := if end_ >? chrom_len then chrom_len else end_ in
       lo ← Np.get indptr_chrom start;
       hi ← Np.get indptr_chrom end_;
       let data := Np.slice data_chrom lo hi in
       if (0 <? length data)%nat then
         let indices := Np.slice indices_chrom lo hi in
         let indptr :=
           map (fun x => x - lo) (Np.slice indptr_chrom start (end_ + 1)) in
         let n_obs_cpg := _count_n_cpg indptr in
         '(n_meth, n_total) ← count_loop indices 0 data n_meth n_total;
         Some (n_meth, n_total, n_obs_cpg)
       else Some (n_meth, n_total, 0));
  Some (n_meth, n_total,
        zip_with (fun m t => (Np.of_int m / Np.of_int t)%float) n_meth n_total,
        n_obs_cpg).

End WithStore.

End Region.

(** ** Baseline smoother *)

Module Smoother.

Section WithNumpy.

(** Two functions of NumPy, taken as they are: [np.log1p] on a number and
    [np.sum] on an array of [float64] (NumPy fixes the order of the
    additions). *)
Variable log1p : float -> float.
Variable np_sum : list float -> float.

(** The attributes of a [Smoother].  [weights] is set only when [weigh] is,
    and only read then; it is left empty otherwise. *)
Record t := mk {
  hbw : Z;
  kernel : list float;
  mfracs : list float;
  cpg_pos : list Z;
  weights : list float;
  weigh : bool
}.

(** [x ** 3], as two multiplications.  NumPy computes the power with
    [pow]; the two agree on the kernel of bandwidth 4 that the theorems on
    smoothed values use, whose cubes are exact, and may differ in the last
    bit elsewhere.  The other theorems on the smoother are on the positions
    of the track and on the lengths of window and kernel, not on the values
    of the kernel. *)
Definition cube (x : float) : float := (x * x * x)%float.

(** The tricube kernel: [(1 - |(j - hbw) / hbw| ** 3) ** 3] for [j] in
    [np.arange(bandwidth)]. *)
Definition tricube (bandwidth : Z) : list float :=
  let hbw := bandwidth / 2 in
  map (fun j => let rel_dist := abs (Np.of_int (j - hbw) / Np.of_int hbw) in
                cube (1 - cube rel_dist))%float
      (seqZ 0 bandwidth).

(** [sparse_mat.getnnz(axis=1)]: the number of entries of each row. *)
Definition getnnz_rows (m : Csr.matrix) : list Z := Np.diff (Csr.indptr m).

(** [np.ravel(np.sum(sparse_mat > 0, axis=1))]: the number of positive
    entries of each row. *)
Definition positive_rows (m : Csr.matrix) : list Z :=
  zip_with (fun lo hi =>
              Z.of_nat (length (filter (fun v => 0 < v)
                                       (Np.slice (Csr.data m) lo hi))))
           (Csr.indptr m) (tail (Csr.indptr m)).

(** [(~np.isnan(a)).nonzero()[0]]: the indices of the values that are not
    NaN. *)
Definition not_nan_positions (a : list float) : list Z :=
  omap (fun ix => if is_nan (snd ix) then None else Some (fst ix))
       (zip (seqZ 0 (Z.of_nat (length a))) a).

(** [Smoother.__init__]. *)
Definition init (sparse_mat : Csr.matrix) (bandwidth : Z) (weigh : bool) : t :=
  let n_obs := getnnz_rows sparse_mat in
  let n_meth := positive_rows sparse_mat in
  let mfracs :=
    zip_with (fun m n => (Np.of_int m / Np.of_int n)%float) n_meth n_obs in
  mk (bandwidth / 2) (tricube bandwidth) mfracs (not_nan_positions mfracs)
     (if weigh then map (fun n => log1p (Np.of_int n)) n_obs else [])
     weigh.

(** [a[mask]] for a boolean array [mask]: the elements of [a] where the mask
    holds; a mask of another length than [a] raises [IndexError]. *)
Definition select {A} (a : list A) (mask : list bool) : option (list A) :=
  if (length a =? length mask)%nat
  then Some (omap (fun xb : A * bool => if snd xb then Some (fst xb) else None)
                  (zip a mask))
  else None.

(** [self.mfracs[i - self.hbw : i + self.hbw]]. *)
Definition window (s : t) (i : Z) : list float :=
  Np.slice (mfracs s) (i - hbw s) (i + hbw s).

(** [~np.isnan(window)]. *)
Definition not_nan (w : list float) : list bool :=
  map (fun x => negb (is_nan x)) w.

(** The body of the loop of [smooth_whole_chrom] at position [i]: the value
    stored in [smoothed[i]].  [except IndexError] turns the failure of
    [self.kernel[nz]] into NaN. *)
Definition smooth_at (s : t) (i : Z) : float :=
  let w := window s i in
  let nz := not_nan w in
  match select (kernel s) nz with
  | None => nan
  | Some k =>
      let wnz := default [] (select w nz) in
      if weigh s then
        let ws :=
          default [] (select (Np.slice (weights s) (i - hbw s) (i + hbw s))
                             nz) in
        (np_sum (zip_with PrimFloat.mul (zip_with PrimFloat.mul wnz k) ws)
         / np_sum (zip_with PrimFloat.mul k ws))%float
      else
        (np_sum (zip_with PrimFloat.mul wnz k) / np_sum k)%float
  end.

(** [smooth_whole_chrom]: the dictionary it returns, in insertion order. *)
Definition smooth_whole_chrom (s : t) : list (Z * float) :=
  map (fun i => (i, smooth_at s i)) (cpg_pos s).

End WithNumpy.

End Smoother.

(** ** Genome scanner: the scan of a data directory *)

Module Scan.

Section WithNumpy.

(** Two functions of NumPy, taken as they are: [np.nanvar] on an array and
    [np.nanquantile] on an array and a level between 0 and 1. *)
Variable nanvar : list float -> float.
Variable nanquantile : list float -> float -> float.

(** [np.nanquantile(a, q)] as [scan] calls it: NumPy raises [ValueError]
    unless the level lies between 0 and 1; a level that is NaN fails the
    test as well. *)
Definition np_nanquantile (a : list float) (q : float) : option float :=
  if (0 <=? q)%float && (q <=? 1)%float then Some (nanquantile a q)
  else None.

(** A file [<chrom>.npz] of the data directory: the chromosome it names,
    its size ([os.path.getsize]), the matrix it holds, and the smoothed
    track of the chromosome, [None] when [smoothed/<chrom>.csv] does not
    exist ([_load_smoothed_chrom] raises then). *)
Record chrom_file := mkFile {
  chrom : string;
  filesize : Z;
  mat : Csr.matrix;
  smoothed_cpg_vals : option (gmap Z float)
}.

(** [sorted(paths, key=getsize, reverse=True)]: in decreasing size, files of
    one size in the order of [paths]. *)
Fixpoint insert_desc (f : chrom_file) (l : list chrom_file)
    : list chrom_file :=
  match l with
  | [] => [f]
  | g :: l' =>
      if filesize g <=? filesize f then f :: l else g :: insert_desc f l'
  end.

Definition sorted_by_size (paths : list chrom_file) : list chrom_file :=
  fold_right insert_desc [] paths.

(** [np.arange(start, stop, step)] for a positive [step]. *)
Definition arange (start stop step : Z) : list Z :=
  map (fun k => start + step * k) (seqZ 0 ((stop - start + step - 1) / step)).

(** [np.nonzero(a)[0]]. *)
Definition nonzero (a : list Z) : list Z :=
  omap (fun ix : Z * Z => if snd ix =? 0 then None else Some (fst ix))
       (zip (seqZ 0 (Z.of_nat (length a))) a).

(** The residuals of an interval of the chromosome of file [f]. *)
Definition residuals (f : chrom_file) (smoothed_vals : gmap Z float)
    (start end_ : Z) : option (list float) :=
  Region._calc_mean_shrunken_residuals
    (Csr.data (mat f)) (Csr.indices (mat f)) (Csr.indptr (mat f))
    smoothed_vals (Z.to_nat (Csr.n_cols (mat f))) (Csr.n_rows (mat f))
    start end_.

(** [_move_windows]: the window centers and the variance of each window. *)
Definition _move_windows (start end_ stepsize half_bw : Z) (f : chrom_file)
    (smoothed_vals : gmap Z float) : option (list Z * list float) :=
  let windows := arange start end_ stepsize in
  smoothed_var ←
    mapM (fun pos => nanvar <$> residuals f smoothed_vals (pos - half_bw)
                                  (pos + half_bw)) windows;
  Some (windows, smoothed_var).

(** The first part of the body of the loop of [scan]: the windows of the
    chromosome of file [f] and their variances. *)
Definition chrom_windows (half_bw stepsize : Z) (f : chrom_file)
    : option (list Z * list float) :=
  smoothed_vals ← smoothed_cpg_vals f;
  let cpg_pos_chrom := nonzero (Np.diff (Csr.indptr (mat f))) in
  first ← head cpg_pos_chrom;
  last_ ← last cpg_pos_chrom;
  _move_windows (first + half_bw + 1) (last_ - half_bw - 1) stepsize half_bw
    f smoothed_vals.

(** What the body of the loop does for one chromosome: the value of
    [var_threshold_value] it passes to [_find_peaks], and the peaks it
    writes with their variance. *)
Record scanned := mkScanned {
  scanned_chrom : string;
  threshold_used : float;
  peaks : list (Z * Z * float)
}.

(** The body of [for mat_path in chrom_paths], from the value of
    [var_threshold_value] before it to the value after it. *)
Definition scan_chrom (half_bw stepsize : Z) (var_threshold : float)
    (var_threshold_value : option float) (f : chrom_file)
    : option (option float * scanned) :=
  '(genomic_positions, window_variances) ← chrom_windows half_bw stepsize f;
  smoothed_vals ← smoothed_cpg_vals f;
  var_threshold_value ←
    match var_threshold_value with
    | None => np_nanquantile window_variances (1 - var_threshold)%float
    | Some v => Some v
    end;
  '(peak_starts, peak_ends) ←
    Peaks._find_peaks window_variances genomic_positions var_threshold_value
      half_bw;
  bed ← mapM (fun se : Z * Z =>
                (fun r => (fst se, snd se, nanvar r))
                  <$> residuals f smoothed_vals (fst se) (snd se))
             (zip peak_starts peak_ends);
  Some (Some var_threshold_value,
        mkScanned (chrom f) var_threshold_value bed).

Fixpoint scan_loop (half_bw stepsize : Z) (var_threshold : float)
    (var_threshold_value : option float) (chrom_paths : list chrom_file)
    : option (list scanned) :=
  match chrom_paths with
  | [] => Some []
  | f :: chrom_paths' =>
      '(value, r) ←
        scan_chrom half_bw stepsize var_threshold var_threshold_value f;
      rs ← scan_loop half_bw stepsize var_threshold value chrom_paths';
      Some (r :: rs)
  end.

(** [scan], on the files [glob] finds in the data directory. *)
Definition scan (paths : list chrom_file) (bandwidth stepsize : Z)
    (var_threshold : float) : option (list scanned) :=
  let half_bw := bandwidth / 2 in
  let chrom_paths := sorted_by_size paths in
  scan_loop half_bw stepsize var_threshold None chrom_paths.

End WithNumpy.

End Scan.

(** ** The smoothed track on disk *)

Module Track.

Section WithNumpy.

Variable log1p : float -> float.
Variable np_sum : list float -> float.

(** The body of the loop of [smooth] for one chromosome: the lines
    [pos,smooth_val] written to [smoothed/<chrom>.csv], in the order of the
    dictionary.  A line is modelled by its two fields. *)
Definition smooth_chrom (mat : Csr.matrix) (bandwidth : Z)
    (use_weights : bool) : list (Z * float) :=
  let sm := Smoother.init log1p mat bandwidth use_weights in
  Smoother.smooth_whole_chrom np_sum sm.

End WithNumpy.

(** [_load_smoothed_chrom] on the lines of [smoothed/<chrom>.csv], [None]
    when the file does not exist: it raises then. *)
Definition _load_smoothed_chrom (smooth_file : option (list (Z * float)))
    : option (gmap Z float) :=
  lines ← smooth_file;
  Some (fold_left (fun typed_dict line => <[fst line := snd line]> typed_dict)
                  lines ∅).

End Track.

(** ** Ingestion: the summary statistics of the cells *)

Module Stats.

(** [mat.getnnz(axis=0)]: the number of entries of each column. *)
Definition getnnz_cols (m : Csr.matrix) : list Z :=
  map (fun c => Np.count (Z.of_nat c) (Csr.indices m))
      (seq 0 (Z.to_nat (Csr.n_cols m))).

(** [np.ravel(np.sum(mat > 0, axis=0))]: the number of positive entries of
    each column. *)
Definition positive_cols (m : Csr.matrix) : list Z :=
  map (fun c =>
         Z.of_nat (length (filter (fun cv => fst cv = Z.of_nat c
                                             /\ 0 < snd cv)
                                  (zip (Csr.indices m) (Csr.data m)))))
      (seq 0 (Z.to_nat (Csr.n_cols m))).

(** The body of [for chrom in coo_files.keys()] in [prepare], on the two
    arrays [n_obs_cell] and [n_meth_cell]. *)
Definition add_chrom (st : Ingest.state) (n_cells : Z)
    (acc : list Z * list Z) (chrom : string) : option (list Z * list Z) :=
  mat ← Prepare.prepare_chrom st n_cells chrom;
  Some (zip_with Z.add (fst acc) (getnnz_cols mat),
        zip_with Z.add (snd acc) (positive_cols mat)).

(** The two arrays [prepare] hands to [_write_summary_stats]; [chroms] is
    [coo_files.keys()], in the order of the dictionary. *)
Definition cell_stats (cells : list (list (string * Z * Z * Z)))
    (chroms : list string) : option (list Z * list Z) :=
  st ← Ingest._dump_coo_files cells;
  let n_cells := length cells in
  Ingest.foldM (add_chrom st (Z.of_nat n_cells)) chroms
    (replicate n_cells 0, replicate n_cells 0).

End Stats.

(** ** Region matrix: the statistics of the regions of a bed file *)

Module Matrix.

Section WithPython.

(** Python's [int] on a text field, [line.strip().split("\t")] on a line,
    and the name [f"bed_col{i + 4}"] of an additional column. *)
Variable py_int : string -> option Z.
Variable strip_split : string -> list string.
Variable bed_col : nat -> string.

(** What [_iter_bed] yields for a line. *)
Record bed_entry := mkBed {
  bed_chrom : string;
  bed_start : Z;
  bed_end : Z;
  is_rev_strand : bool;
  other_columns : option (list string)
}.

Definition strand_of (strand_val : string) : option bool :=
  if String.eqb strand_val "-" || String.eqb strand_val "-1" then Some true
  else if String.eqb strand_val "+" || String.eqb strand_val "1"
       then Some false
       else None.

(** The body of the loop of [_iter_bed] on a line that is no comment;
    [strand_col_i] is the column given on the command line, if any. *)
Definition bed_line (strand_col_i : option Z) (keep_cols : bool)
    (line : string) : option bed_entry :=
  let values := strip_split line in
  is_rev ← match strand_col_i with
           | Some i => Np.get values (i - 1) ≫= strand_of
           | None => Some false
           end;
  chrom ← values !! 0%nat;
  start ← values !! 1%nat ≫= py_int;
  end_ ← values !! 2%nat ≫= py_int;
  Some (mkBed chrom start end_ is_rev
          (if keep_cols then Some (drop 3 values) else None)).

(** [_iter_bed]: the entries of the lines that do not start with [#].  A
    line that cannot be read raises when the loop reaches it. *)
Definition _iter_bed (file_obj : list string) (strand_col_i : option Z)
    (keep_cols : bool) : option (list bed_entry) :=
  mapM (bed_line strand_col_i keep_cols)
       (filter (fun line => String.prefix "#" line = false) file_obj).

(** A line of the output of [matrix], field by field. *)
Record out_row := mkRow {
  chromosome : string;
  start : Z;
  end_ : Z;
  n_sites : Z;
  n_cells : Z;
  cell_name : string;
  n_meth : Z;
  n_obs : Z;
  meth_frac : float;
  shrunken_residual : float;
  bed_cols : list string
}.

(** The locals of [matrix] that the loop changes: the header once it is
    written, the lines written, the two counters, the two sets, the
    previous chromosome, and the store and track of the chromosome at hand
    ([None] for [mat = None]). *)
Record state := mkState {
  header : option (list string);
  rows : list out_row;
  n_regions : Z;
  n_empty_regions : Z;
  observed_chroms : gset string;
  unknown_chroms : gset string;
  prev_chrom : option string;
  loaded : option (Csr.matrix * gmap Z float)
}.

Definition output_header : list string :=
  ["chromosome"; "start"; "end"; "n_sites"; "n_cells"; "cell_name";
   "n_meth"; "n_obs"; "meth_frac"; "shrunken_residual"].

Definition init : state := mkState None [] 0 0 ∅ ∅ None None.

Definition truthy (other : option (list string)) : bool :=
  match other with
  | Some (_ :: _) => true
  | _ => false
  end.

(** [np.nonzero(n_total > 0)[0]]. *)
Definition observed_cells (n_total : list Z) : list Z :=
  Scan.nonzero (map (fun t => if t >? 0 then 1 else 0) n_total).

(** The line written for cell [c] of a region. *)
Definition write_row (cell_names : list string) (keep_other_columns : bool)
    (e : bed_entry) (n_meth n_total : list Z) (mfracs : list float)
    (n_obs_cpgs n_obs_cells : Z) (resid_shrunk : list float) (c : Z)
    : option out_row :=
  name ← Np.get cell_names c;
  m ← Np.get n_meth c;
  t ← Np.get n_total c;
  f ← Np.get mfracs c;
  r ← Np.get resid_shrunk c;
  Some (mkRow (bed_chrom e) (bed_start e) (bed_end e) n_obs_cpgs n_obs_cells
          name m t f r
          (if keep_other_columns && truthy (other_columns e)
           then default [] (other_columns e) else [])).

(** The body of [for bed_entries in _iter_bed(...)]. *)
Definition step (data_dir : gmap string Scan.chrom_file)
    (cell_names : list string) (keep_other_columns : bool)
    (st : state) (e : bed_entry) : option state :=
  let chrom := bed_chrom e in
  let header :=
    match prev_chrom st with
    | None =>
        Some (if truthy (other_columns e) && keep_other_columns
              then output_header
                   ++ map bed_col
                        (seq 0 (length (default [] (other_columns e))))
              else output_header)
    | Some _ => header st
    end in
  if decide (chrom ∈ unknown_chroms st)
  then Some (mkState header (rows st) (n_regions st) (n_empty_regions st)
               (observed_chroms st) (unknown_chroms st) (prev_chrom st)
               (loaded st))
  else
    st1 ←
      (if decide (Some chrom = prev_chrom st)
       then Some (inl (loaded st, observed_chroms st))
       else
         if decide (chrom ∈ observed_chroms st) then None
         else
           match data_dir !! chrom with
           | None => Some (inr tt)
           | Some f =>
               smoothed_vals ← Scan.smoothed_cpg_vals f;
               Some (inl (Some (Scan.mat f, smoothed_vals),
                          {[chrom]} ∪ observed_chroms st))
           end);
    match st1 with
    | inr _ =>
        Some (mkState header (rows st) (n_regions st) (n_empty_regions st)
                ({[chrom]} ∪ observed_chroms st)
                ({[chrom]} ∪ unknown_chroms st) (Some chrom) None)
    | inl (loaded, observed) =>
        '(mat, smoothed_vals) ← loaded;
        let n_cells := Z.to_nat (Csr.n_cols mat) in
        let chrom_len := Csr.n_rows mat in
        '(n_meth, n_total, mfracs, n_obs_cpgs) ←
          Region._calc_region_stats (Csr.data mat) (Csr.indices mat)
            (Csr.indptr mat) n_cells chrom_len (bed_start e) (bed_end e);
        let nz_cells := observed_cells n_total in
        let n_obs_cells := Z.of_nat (length nz_cells) in
        if (length nz_cells =? 0)%nat
        then Some (mkState header (rows st) (n_regions st + 1)
                     (n_empty_regions st + 1) observed (unknown_chroms st)
                     (Some chrom) loaded)
        else
          resid_shrunk ←
            Region._calc_mean_shrunken_residuals (Csr.data mat)
              (Csr.indices mat) (Csr.indptr mat) smoothed_vals n_cells
              chrom_len (bed_start e) (bed_end e);
          new_rows ←
            mapM (write_row cell_names keep_other_columns e n_meth n_total
                    mfracs n_obs_cpgs n_obs_cells resid_shrunk) nz_cells;
          Some (mkState header (rows st ++ new_rows) (n_regions st + 1)
                  (n_empty_regions st) observed (unknown_chroms st)
                  (Some chrom) loaded)
    end.

(** [matrix], on the directory [data_dir] (the file of each chromosome it
    holds), the names of [column_header.txt] and the lines of the bed file:
    the header and the lines written, and the two counters. *)
Definition matrix (data_dir : gmap string Scan.chrom_file)
    (cell_names : list string) (regions : list string)
    (keep_other_columns : bool)
    : option (list string * list out_row * Z * Z) :=
  entries ← _iter_bed regions None keep_other_columns;
  st ← Ingest.foldM (step data_dir cell_names keep_other_columns) entries
         init;
  if n_regions st =? 0 then None
  else Some (default [] (header st), rows st, n_regions st,
             n_empty_regions st).

End WithPython.

End Matrix.

(** ** Ingestion: the names of the cells *)

Module Names.

Section WithPaths.

(** Three functions of Python, taken as they are: [str.lower],
    [os.path.basename] and the first component of [os.path.splitext]. *)
Variable lower : string -> string.
Variable basename : string -> string.
Variable splitext_root : string -> string.

(** [s.endswith(suffix)]. *)
Definition endswith (s suffix : string) : bool :=
  String.eqb (String.substring (String.length s - String.length suffix)
                (String.length suffix) s) suffix.

(** The name [_get_cell_names] gives the file of path [f]. *)
Definition cell_name (f : string) : string :=
  if endswith (lower f) ".gz"
  then splitext_root (splitext_root (basename f))
  else splitext_root (basename f).

(** [_get_cell_names], on the paths of the input files. *)
Definition _get_cell_names (cov_files : list string) : option (list string) :=
  let names := map cell_name cov_files in
  if (size (list_to_set names : gset string) <? length names)%nat
  then None else Some names.

End WithPaths.

End Names.

(** *** Ordered lists of peak ends *)

Section PeakEnds.

Lemma py_max_fold_le (l : list Z) (x : Z) : x <= fold_left Z.max l x.
Proof.
  revert x; induction l as [|y l IH]; intros x; simpl; [lia|].
  specialize (IH (Z.max x y)); lia.
Qed.

Lemma py_max_fold_bound (l : list Z) (x b : Z) :
  x <= b -> Forall (fun e => e <= b) l -> fold_left Z.max l x <= b.
Proof.
  revert x; induction l as [|y l IH]; intros x Hx Hl; simpl; [lia|].
  inversion Hl; subst. apply IH; [lia|assumption].
Qed.

Lemma py_max_snoc (l : list Z) (x : Z) :
  Forall (fun e => e <= x) l -> Peaks.py_max (l ++ [x]) = x.
Proof.
  intros Hl. destruct l as [|y l]; simpl; [reflexivity|].
  inversion Hl; subst. rewrite fold_left_app; simpl.
  pose proof (py_max_fold_bound l y x ltac:(lia) ltac:(assumption)). lia.
Qed.

Lemma sorted_snoc (l : list Z) (x : Z) :
  StronglySorted Z.le l -> Forall (fun e => e <= x) l ->
  StronglySorted Z.le (l ++ [x]).
Proof.
  induction 1 as [|y l Hs IH Hy]; intros Hx; simpl.
  - repeat constructor.
  - inversion Hx; subst. constructor; [auto|].
    apply Forall_app; split; [assumption|repeat constructor; assumption].
Qed.

Lemma sorted_snoc_inv (l : list Z) (x : Z) :
  StronglySorted Z.le (l ++ [x]) ->
  StronglySorted Z.le l /\ Forall (fun e => e <= x) l.
Proof.
  induction l as [|y l IH]; simpl; intros Hs.
  - split; constructor.
  - inversion Hs as [|? ? Hs' Hy]; subst. destruct (IH Hs') as [H1 H2].
    apply Forall_app in Hy as [Hy1 Hy2]. inversion Hy2; subst.
    split; constructor; assumption.
Qed.

Lemma last_snoc_cases {A} (l : list A) :
  l = [] \/ exists l' x, l = l' ++ [x].
Proof.
  destruct l as [|a l] using rev_ind; [left; reflexivity|right; eauto].
Qed.

Lemma sorted_removelast (l : list Z) :
  StronglySorted Z.le l -> StronglySorted Z.le (removelast l).
Proof.
  intros Hs. destruct (last_snoc_cases l) as [->|(l' & x & ->)]; [exact Hs|].
  rewrite removelast_last. apply (sorted_snoc_inv l' x Hs).
Qed.

(** On a list in ascending order, Python's [max] is the last element. *)
Lemma py_max_sorted (l : list Z) (e : Z) :
  StronglySorted Z.le l -> last l = Some e -> Peaks.py_max l = e.
Proof.
  intros Hs Hl. destruct (last_snoc_cases l) as [->|(l' & x & ->)];
    [discriminate|].
  rewrite last_snoc in Hl; injection Hl as <-.
  apply py_max_snoc, (sorted_snoc_inv l' x Hs).
Qed.

Lemma incl_removelast (l : list Z) : incl (removelast l) l.
Proof.
  destruct (last_snoc_cases l) as [->|(l' & x & ->)]; [intros ? []|].
  rewrite removelast_last. intros e He. apply in_or_app; left; exact He.
Qed.

End PeakEnds.

(** *** The ends stay in ascending order along windows in genomic order *)

Section PeakRun.

Variables (var_cutoff : float) (half_bw : Z).

#[local] Abbreviation step := (Peaks.step var_cutoff half_bw).

(** Every end recorded so far lies at or below [q + half_bw]. *)
Definition ends_below (st : Peaks.state) (q : Z) : Prop :=
  Forall (fun e => e <= q + half_bw) (Peaks.peak_ends st).

Lemma step_ends_sorted (st : Peaks.state) (v : float) (p : Z) :
  StronglySorted Z.le (Peaks.peak_ends st) -> ends_below st p ->
  StronglySorted Z.le (Peaks.peak_ends (step st (v, p))).
Proof.
  intros Hs Hb. unfold Peaks.step.
  destruct (var_cutoff <? v)%float, (Peaks.in_peak st); simpl; try exact Hs.
  - destruct (_ && _); simpl; [apply sorted_removelast|]; exact Hs.
  - apply sorted_snoc; assumption.
Qed.

Lemma step_ends_below (st : Peaks.state) (v : float) (p q : Z) :
  p <= q -> ends_below st p -> ends_below (step st (v, p)) q.
Proof.
  unfold ends_below. intros Hpq Hb.
  assert (Hq : Forall (fun e => e <= q + half_bw) (Peaks.peak_ends st))
    by (eapply Forall_impl; [exact Hb|]; simpl; intros; lia).
  unfold Peaks.step.
  destruct (var_cutoff <? v)%float, (Peaks.in_peak st); simpl; try exact Hq.
  - destruct (_ && _); simpl; [|exact Hq].
    rewrite Forall_forall in *. intros e He. apply Hq.
    apply list_elem_of_In, incl_removelast, list_elem_of_In, He.
  - apply Forall_app; split; [exact Hq|]. repeat constructor. lia.
Qed.

Lemma run_ends_sorted (ws : list (float * Z)) (st : Peaks.state) :
  StronglySorted Z.le (map snd ws) ->
  StronglySorted Z.le (Peaks.peak_ends st) ->
  (forall q, In q (map snd ws) -> ends_below st q) ->
  StronglySorted Z.le (Peaks.peak_ends (fold_left step ws st)) /\
  (forall z, Forall (fun q => q <= z) (map snd ws) ->
             (ws = [] -> ends_below st z) ->
             ends_below (fold_left step ws st) z).
Proof.
  revert st; induction ws as [|[v p] ws IH]; intros st Hws Hs Hb; simpl.
  - split; [exact Hs|]. intros z _ Hz; apply Hz; reflexivity.
  - simpl in Hws. inversion Hws as [|? ? Hws' Hp]; subst.
    assert (Hbp : ends_below st p) by (apply Hb; left; reflexivity).
    destruct (IH (step st (v, p)) Hws') as [IH1 IH2].
    + apply step_ends_sorted; assumption.
    + intros q Hq. apply step_ends_below; [|exact Hbp].
      rewrite Forall_forall in Hp. apply Hp, list_elem_of_In, Hq.
    + split; [exact IH1|]. intros z Hz _. apply IH2.
      * inversion Hz; assumption.
      * intros ->. apply step_ends_below; [|exact Hbp].
        inversion Hz; assumption.
Qed.

Lemma step_pos (st : Peaks.state) (v : float) (p : Z) :
  Peaks.pos (step st (v, p)) = Some p.
Proof.
  unfold Peaks.step.
  destruct (var_cutoff <? v)%float, (Peaks.in_peak st); simpl;
    try reflexivity.
  destruct (_ && _); reflexivity.
Qed.

(** The loop variable holds the position of the last window seen. *)
Lemma run_pos (ws : list (float * Z)) (st : Peaks.state) :
  Peaks.pos (fold_left step ws st) =
  match last (map snd ws) with Some p => Some p | None => Peaks.pos st end.
Proof.
  revert st; induction ws as [|[v p] ws IH]; intros st; [reflexivity|].
  cbn [fold_left map snd]. rewrite IH, step_pos.
  destruct ws as [|w ws]; [reflexivity|].
  change (last (p :: map snd (w :: ws))) with (last (map snd (w :: ws))).
  destruct (last (map snd (w :: ws))) eqn:E; [reflexivity|].
  apply last_None in E. discriminate.
Qed.

(** The assertion of [_find_peaks]: an open peak has its start recorded and
    no end yet, and [pos] is bound. *)
Definition balanced (st : Peaks.state) : Prop :=
  if Peaks.in_peak st
  then length (Peaks.peak_starts st) = S (length (Peaks.peak_ends st))
       /\ Peaks.pos st <> None
  else length (Peaks.peak_starts st) = length (Peaks.peak_ends st).

Lemma step_balanced (st : Peaks.state) (w : float * Z) :
  balanced st -> balanced (step st w).
Proof.
  destruct w as [v p]. unfold balanced, Peaks.step.
  destruct (var_cutoff <? v)%float, (Peaks.in_peak st) eqn:Ein; simpl;
    rewrite ?Ein; intros H.
  - destruct H; split; [assumption|discriminate].
  - destruct (Peaks.peak_ends st) as [|e l] eqn:Ee; simpl in H |- *.
    + rewrite length_app; simpl. split; [lia|discriminate].
    + destruct (_ <=? _); simpl.
      * split; [|discriminate].
        assert (Hne : e :: l <> []) by discriminate.
        pose proof (app_removelast_last 0 Hne) as Hl.
        apply (f_equal (@length Z)) in Hl. rewrite length_app in Hl.
        simpl in Hl |- *. simpl in H. lia.
      * rewrite length_app; simpl. simpl in H. split; [lia|discriminate].
  - destruct H. rewrite length_app; simpl. lia.
  - assumption.
Qed.

Lemma run_balanced (ws : list (float * Z)) (st : Peaks.state) :
  balanced st -> balanced (fold_left step ws st).
Proof.
  revert st; induction ws as [|w ws IH]; intros st H; simpl; [exact H|].
  apply IH, step_balanced, H.
Qed.

(** An end recorded inside the loop is [q + half_bw] for a window at [q]
    whose variance does not exceed the threshold. *)
Definition closed_in_loop (all : list (float * Z)) (e : Z) : Prop :=
  exists u q, In (u, q) all /\ (var_cutoff <? u)%float = false
              /\ e = q + half_bw.

Lemma run_ends_closed_in_loop (all ws : list (float * Z)) (st : Peaks.state) :
  incl ws all ->
  Forall (closed_in_loop all) (Peaks.peak_ends st) ->
  Forall (closed_in_loop all) (Peaks.peak_ends (fold_left step ws st)).
Proof.
  revert st; induction ws as [|[v p] ws IH]; intros st Hin H; simpl;
    [exact H|].
  apply IH; [intros x Hx; apply Hin; right; exact Hx|].
  unfold Peaks.step.
  destruct (var_cutoff <? v)%float eqn:Ev, (Peaks.in_peak st); simpl;
    try exact H.
  - destruct (_ && _); simpl; [|exact H].
    rewrite Forall_forall in *. intros e He. apply H.
    apply list_elem_of_In, incl_removelast, list_elem_of_In, He.
  - apply Forall_app; split; [exact H|]. repeat constructor.
    exists v, p. split; [apply Hin; left; reflexivity|]. split; auto.
Qed.

End PeakRun.

(** ** Theorems on peak calling *)

Lemma init_balanced (var_cutoff : float) (half_bw : Z) (ws : list (float * Z)) :
  balanced (Peaks.run var_cutoff half_bw ws).
Proof. apply run_balanced. reflexivity. Qed.

(** [_find_peaks] always returns: its assertion never fails. *)
Lemma find_peaks_total (vars : list float) (centers : list Z)
    (var_cutoff : float) (half_bw : Z) :
  exists starts ends,
    Peaks._find_peaks vars centers var_cutoff half_bw = Some (starts, ends)
    /\ length starts = length ends.
Proof.
  unfold Peaks._find_peaks, Peaks.finish.
  pose proof (init_balanced var_cutoff half_bw (combine vars centers)) as Hb.
  unfold balanced in Hb.
  destruct (Peaks.in_peak _).
  - destruct Hb as [Hl Hp]. destruct (Peaks.pos _) as [p|]; [|congruence].
    assert (E : length (Peaks.peak_starts
              (Peaks.run var_cutoff half_bw (combine vars centers))) =
            length (Peaks.peak_ends
              (Peaks.run var_cutoff half_bw (combine vars centers)) ++ [p]))
      by (rewrite length_app; simpl; lia).
    rewrite E, Nat.eqb_refl. eauto.
  - rewrite Hb, Nat.eqb_refl. eauto.
Qed.

(** C9: when the loop of [_find_peaks] ends inside a peak, the result closes
    that peak at the position of the last window itself, with no
    half-bandwidth added; every end recorded inside the loop is the position
    of a window at or below the threshold plus the half-bandwidth. *)
Theorem find_peaks_open_peak_closed_at_last_position
    (var_cutoff : float) (half_bw : Z) (vars : list float) (centers : list Z) :
  let ws := combine vars centers in
  let st := Peaks.run var_cutoff half_bw ws in
  (Peaks.in_peak st = true ->
   exists p, last (map snd ws) = Some p /\
     Peaks._find_peaks vars centers var_cutoff half_bw
     = Some (Peaks.peak_starts st, Peaks.peak_ends st ++ [p]))
  /\ Forall (closed_in_loop var_cutoff half_bw ws) (Peaks.peak_ends st).
Proof.
  intros ws st. split.
  - intros Hin.
    pose proof (init_balanced var_cutoff half_bw ws) as Hb.
    unfold balanced in Hb. fold st in Hb. rewrite Hin in Hb.
    destruct Hb as [Hl Hp].
    pose proof (run_pos var_cutoff half_bw ws Peaks.init) as Hpos.
    fold (Peaks.run var_cutoff half_bw ws) in Hpos. fold st in Hpos.
    destruct (last (map snd ws)) as [p|] eqn:El.
    + exists p. split; [reflexivity|].
      unfold Peaks._find_peaks, Peaks.finish. fold ws. fold st.
      rewrite Hin, Hpos.
      assert (E : length (Peaks.peak_starts st) =
                  length (Peaks.peak_ends st ++ [p]))
        by (rewrite length_app; simpl; lia).
      rewrite E, Nat.eqb_refl. reflexivity.
    + simpl in Hpos. congruence.
  - apply run_ends_closed_in_loop; [intros x Hx; exact Hx|constructor].
Qed.

(** The scan of one window above the threshold that stays open to the end. *)
Lemma find_peaks_open_peak_closed_at_last_position_witness :
  Peaks._find_peaks [0.1; 0.6; 0.05; 0.6]%float [100; 110; 120; 200] 0.5%float 5
  = Some ([105; 195], [125; 200]).
Proof.
  destruct (find_peaks_open_peak_closed_at_last_position
              0.5%float 5 [0.1; 0.6; 0.05; 0.6]%float [100; 110; 120; 200])
    as [H _].
  destruct (H eq_refl) as (p & Hp & ->).
  vm_compute in Hp. injection Hp as <-. reflexivity.
Defined.

(** The state reached after the windows [pre], in genomic order, has its
    peak ends in ascending order. *)
Lemma run_prefix_sorted (var_cutoff : float) (half_bw : Z)
    (pre : list (float * Z)) :
  StronglySorted Z.le (map snd pre) ->
  StronglySorted Z.le (Peaks.peak_ends (Peaks.run var_cutoff half_bw pre)).
Proof.
  intros Hs. apply run_ends_sorted; [exact Hs|constructor|].
  intros q _. constructor.
Qed.

(** The scenario of the merging rule, for any start [a], spacing [d] and
    half-bandwidth: one peak when the spacing is at most the bandwidth. *)
Lemma find_peaks_scenario_merged (half_bw a d : Z) :
  0 < d <= 2 * half_bw ->
  Peaks._find_peaks [0.1; 0.6; 0.55; 0.05; 0.6]%float
    [a; a + d; a + 2 * d; a + 3 * d; a + 4 * d] 0.5%float half_bw
  = Some ([a + d - half_bw], [a + 4 * d]).
Proof.
  intros Hd. unfold Peaks._find_peaks, Peaks.run. cbn.
  replace (a + 4 * d - half_bw <=? a + 3 * d + half_bw) with true
    by (symmetry; apply Z.leb_le; lia).
  reflexivity.
Qed.

(** With a spacing above the bandwidth the same variances give two peaks. *)
Lemma find_peaks_scenario_split (half_bw a d : Z) :
  2 * half_bw < d ->
  Peaks._find_peaks [0.1; 0.6; 0.55; 0.05; 0.6]%float
    [a; a + d; a + 2 * d; a + 3 * d; a + 4 * d] 0.5%float half_bw
  = Some ([a + d - half_bw; a + 4 * d - half_bw],
          [a + 3 * d + half_bw; a + 4 * d]).
Proof.
  intros Hd. unfold Peaks._find_peaks, Peaks.run. cbn.
  replace (a + 4 * d - half_bw <=? a + 3 * d + half_bw) with false
    by (symmetry; apply Z.leb_gt; lia).
  reflexivity.
Qed.

(** C2 (as amended): along windows in genomic order, entering a peak at a
    window above the threshold compares the candidate start, position minus
    half-bandwidth, with the end of the last closed peak: when that end is at
    or above the candidate start it is dropped and no start is recorded;
    otherwise the candidate start is recorded.  The variances
    [0.1, 0.6, 0.55, 0.05, 0.6] at positions spaced by at most twice the
    half-bandwidth give exactly one peak at threshold 0.5. *)
Theorem find_peaks_merges_touching_peaks :
  (forall (var_cutoff : float) (half_bw : Z) (pre : list (float * Z))
          (v : float) (p : Z),
     StronglySorted Z.le (map snd (pre ++ [(v, p)])) ->
     let st := Peaks.run var_cutoff half_bw pre in
     Peaks.in_peak st = false ->
     (var_cutoff <? v)%float = true ->
     Peaks.run var_cutoff half_bw (pre ++ [(v, p)]) =
     match last (Peaks.peak_ends st) with
     | Some prev_end =>
         if p - half_bw <=? prev_end
         then Peaks.mkState (Peaks.peak_starts st)
                (removelast (Peaks.peak_ends st)) true (Some p)
         else Peaks.mkState (Peaks.peak_starts st ++ [p - half_bw])
                (Peaks.peak_ends st) true (Some p)
     | None => Peaks.mkState (Peaks.peak_starts st ++ [p - half_bw])
                 (Peaks.peak_ends st) true (Some p)
     end)
  /\
  (forall half_bw a d : Z,
     0 < d <= 2 * half_bw ->
     Peaks._find_peaks [0.1; 0.6; 0.55; 0.05; 0.6]%float
       [a; a + d; a + 2 * d; a + 3 * d; a + 4 * d] 0.5%float half_bw
     = Some ([a + d - half_bw], [a + 4 * d])).
Proof.
  split; [|exact find_peaks_scenario_merged].
  intros var_cutoff half_bw pre v p Hs st Hin Hv.
  unfold Peaks.run. rewrite fold_left_app. cbn [fold_left].
  fold (Peaks.run var_cutoff half_bw pre). fold st.
  rewrite map_app in Hs. simpl in Hs.
  apply sorted_snoc_inv in Hs as [Hpre _].
  pose proof (run_prefix_sorted var_cutoff half_bw pre Hpre) as Hends.
  fold st in Hends.
  unfold Peaks.step. rewrite Hv, Hin. cbn [negb].
  destruct (last (Peaks.peak_ends st)) as [e|] eqn:El.
  - rewrite (py_max_sorted _ e Hends El).
    destruct (Peaks.peak_ends st); [discriminate|]. reflexivity.
  - apply last_None in El. rewrite El. reflexivity.
Qed.

(** Two close peaks at bandwidth 10 and step 8: the second entry merges. *)
Lemma find_peaks_merges_touching_peaks_witness :
  Peaks.run 0.5%float 5
    ([(0.6%float, 100); (0.1%float, 108)] ++ [(0.7%float, 116)])
  = Peaks.mkState [95] [] true (Some 116)
  /\ Peaks._find_peaks [0.1; 0.6; 0.55; 0.05; 0.6]%float
       [1000; 1000 + 10; 1000 + 2 * 10; 1000 + 3 * 10; 1000 + 4 * 10]
       0.5%float 1000
     = Some ([1000 + 10 - 1000], [1000 + 4 * 10]).
Proof.
  destruct find_peaks_merges_touching_peaks as [Hrule Hscen].
  split.
  - rewrite (Hrule 0.5%float 5 [(0.6%float, 100); (0.1%float, 108)]
               0.7%float 116).
    + reflexivity.
    + simpl. repeat constructor; lia.
    + reflexivity.
    + reflexivity.
  - apply (Hscen 1000 1000 10). lia.
Defined.

(** C2 as stated fails: evenly spaced windows further apart than the
    bandwidth give two peaks for the same variances. *)
Lemma find_peaks_scenario_two_peaks :
  Peaks._find_peaks [0.1; 0.6; 0.55; 0.05; 0.6]%float [0; 10; 20; 30; 40]
    0.5%float 2
  = Some ([8; 38], [32; 40]).
Proof. reflexivity. Qed.

(** ** Theorems on ingestion *)

Section DumpLine.

(** Both dictionaries have the same keys. *)
Definition same_keys (st : Ingest.state) : Prop :=
  forall c, is_Some (Ingest.coo_files st !! c)
            <-> is_Some (Ingest.chrom_sizes st !! c).

Lemma empty_same_keys : same_keys Ingest.empty.
Proof.
  intros c. simpl. rewrite !lookup_empty.
  split; intros [? ?]; discriminate.
Qed.

Lemma dump_line_ambiguous (cell_n : Z) (st : Ingest.state)
    (chrom : string) (pos n_meth n_unmeth : Z) :
  n_meth <> 0 -> n_unmeth <> 0 ->
  Ingest.dump_line cell_n st (chrom, pos, n_meth, n_unmeth) = Some st.
Proof.
  intros Hm Hu. unfold Ingest.dump_line.
  apply Z.eqb_neq in Hm, Hu. rewrite Hm, Hu. reflexivity.
Qed.

(** A clean record appends one line to the stream of its chromosome and
    leaves every other stream alone. *)
Lemma dump_line_clean (cell_n : Z) (st : Ingest.state)
    (chrom : string) (pos n_meth n_unmeth : Z) :
  same_keys st ->
  n_meth = 0 \/ n_unmeth = 0 ->
  exists st',
    Ingest.dump_line cell_n st (chrom, pos, n_meth, n_unmeth) = Some st'
    /\ Ingest.coo_files st' !! chrom
       = Some (default [] (Ingest.coo_files st !! chrom)
               ++ [(pos, cell_n, if n_meth >? 0 then 1 else -1)])
    /\ (forall c, c <> chrom ->
                  Ingest.coo_files st' !! c = Ingest.coo_files st !! c)
    /\ same_keys st'.
Proof.
  intros Hk Hclean. unfold Ingest.dump_line.
  assert (Hamb : negb (n_meth =? 0) && negb (n_unmeth =? 0) = false).
  { destruct Hclean as [-> | ->]; simpl; [reflexivity|].
    apply andb_false_r. }
  rewrite Hamb.
  destruct (Ingest.coo_files st !! chrom) as [f|] eqn:Ef.
  - destruct (proj1 (Hk chrom)) as [size Es]; [rewrite Ef; eauto|].
    rewrite Es. simpl. rewrite Ef. simpl. eexists. split; [reflexivity|].
    simpl. split; [apply lookup_insert_eq|]. split.
    + intros c Hc. apply lookup_insert_ne. congruence.
    + intros c. simpl. destruct (decide (c = chrom)) as [->|Hc].
      * rewrite lookup_insert_eq. destruct (pos >? size);
          rewrite ?lookup_insert_eq, ?Es; split; eauto.
      * rewrite lookup_insert_ne by congruence.
        destruct (pos >? size); rewrite ?lookup_insert_ne by congruence;
          apply Hk.
  - simpl. rewrite !lookup_insert_eq. simpl. eexists. split; [reflexivity|].
    simpl. split; [apply lookup_insert_eq|]. split.
    + intros c Hc. rewrite !lookup_insert_ne by congruence. reflexivity.
    + intros c. simpl. destruct (decide (c = chrom)) as [->|Hc].
      * rewrite lookup_insert_eq. destruct (pos >? 0);
          rewrite ?lookup_insert_eq; split; eauto.
      * rewrite !lookup_insert_ne by congruence.
        destruct (pos >? 0); rewrite ?lookup_insert_ne by congruence;
          apply Hk.
Qed.

(** The line a record of cell [cell_n] stages for chromosome [c], if any. *)
Definition call_of (c : string) (cell_n : Z) (line_vals : string * Z * Z * Z)
    : option (Z * Z * Z) :=
  let '(chrom, pos, n_meth, _) := line_vals in
  if Ingest.ambiguous line_vals then None
  else if decide (chrom = c)
       then Some (pos, cell_n, if n_meth >? 0 then 1 else -1)
       else None.

(** The lines staged for chromosome [c], cell after cell, record after
    record: the clean calls of that chromosome in streaming order. *)
Definition staged (c : string) (cells : list (Z * list (string * Z * Z * Z)))
    : list (Z * Z * Z) :=
  concat (map (fun cell => omap (call_of c (fst cell)) (snd cell)) cells).

(** The number of clean calls streamed for chromosome [c]. *)
Definition clean_calls (c : string) (cells : list (list (string * Z * Z * Z)))
    : nat :=
  length (filter (fun lv => negb (Ingest.ambiguous lv)
                            && bool_decide (fst (fst (fst lv)) = c))
                 (concat cells)).

Definition lines_of (st : Ingest.state) (c : string) : list (Z * Z * Z) :=
  default [] (Ingest.coo_files st !! c).

(** What holds of the two dictionaries all along [_dump_coo_files]. *)
Record staging_inv (st : Ingest.state) : Prop := {
  inv_keys : same_keys st;
  inv_nonempty : forall c, Ingest.coo_files st !! c <> Some [];
  inv_sizes : forall c size, Ingest.chrom_sizes st !! c = Some size ->
      0 <= size /\ Forall (fun l => fst (fst l) <= size) (lines_of st c)
}.

Lemma empty_staging_inv : staging_inv Ingest.empty.
Proof.
  split; [apply empty_same_keys| |]; simpl.
  - intros c. rewrite lookup_empty. discriminate.
  - intros c size. rewrite lookup_empty. discriminate.
Qed.

Lemma dump_line_lines (cell_n : Z) (st st' : Ingest.state)
    (line_vals : string * Z * Z * Z) (c : string) :
  same_keys st ->
  Ingest.dump_line cell_n st line_vals = Some st' ->
  lines_of st' c = lines_of st c ++ option_list (call_of c cell_n line_vals).
Proof.
  destruct line_vals as [[[chrom pos] n_meth] n_unmeth]. intros Hk Hd.
  unfold call_of. simpl.
  destruct (negb (n_meth =? 0) && negb (n_unmeth =? 0)) eqn:Ea.
  - unfold Ingest.dump_line in Hd. rewrite Ea in Hd. injection Hd as <-.
    simpl. rewrite app_nil_r. reflexivity.
  - destruct (dump_line_clean cell_n st chrom pos n_meth n_unmeth Hk)
      as (st2 & Hd2 & Hnew & Hold & _).
    { apply andb_false_iff in Ea as [Ea|Ea]; apply negb_false_iff in Ea;
        apply Z.eqb_eq in Ea; auto. }
    rewrite Hd2 in Hd; injection Hd as <-. unfold lines_of.
    destruct (decide (chrom = c)) as [<-|Hc]; simpl.
    + rewrite Hnew. reflexivity.
    + rewrite Hold by congruence. rewrite app_nil_r. reflexivity.
Qed.

Lemma dump_line_inv (cell_n : Z) (st st' : Ingest.state)
    (line_vals : string * Z * Z * Z) :
  staging_inv st ->
  Ingest.dump_line cell_n st line_vals = Some st' ->
  staging_inv st'.
Proof.
  destruct line_vals as [[[chrom pos] n_meth] n_unmeth]. intros Hi Hd.
  pose proof (fun c => dump_line_lines cell_n st st' _ c (inv_keys _ Hi) Hd)
    as Hlines.
  unfold call_of in Hlines. simpl in Hlines.
  unfold Ingest.dump_line in Hd.
  destruct (negb (n_meth =? 0) && negb (n_unmeth =? 0)) eqn:Ea.
  { injection Hd as <-. exact Hi. }
  destruct (dump_line_clean cell_n st chrom pos n_meth n_unmeth
              (inv_keys _ Hi)) as (st2 & Hd2 & Hnew & Hold & Hk2).
  { apply andb_false_iff in Ea as [Ea|Ea]; apply negb_false_iff in Ea;
      apply Z.eqb_eq in Ea; auto. }
  unfold Ingest.dump_line in Hd2. rewrite Ea in Hd2.
  rewrite Hd2 in Hd. injection Hd as <-.
  split; [exact Hk2| |].
  - intros c. destruct (decide (c = chrom)) as [->|Hc].
    + rewrite Hnew. intros [=H]. destruct (default _ _); discriminate.
    + rewrite Hold by exact Hc. apply (inv_nonempty _ Hi).
  - intros c size Hs. rewrite Hlines.
    destruct (Ingest.coo_files st !! chrom) as [f|] eqn:Ef.
    + destruct (proj1 (inv_keys _ Hi chrom)) as [sz Es];
        [rewrite Ef; eauto|].
      rewrite Es in Hd2. simpl in Hd2. rewrite Ef in Hd2. simpl in Hd2.
      injection Hd2 as <-. simpl in Hs.
      destruct (decide (chrom = c)) as [<-|Hc]; simpl.
      * destruct (inv_sizes _ Hi chrom sz Es) as [H0 Hf].
        destruct (pos >? sz) eqn:Ep.
        -- rewrite lookup_insert_eq in Hs. injection Hs as <-.
           apply Z.gtb_lt in Ep. split; [lia|].
           apply Forall_app; split; [|repeat constructor; simpl; lia].
           eapply Forall_impl; [exact Hf|]. simpl. intros; lia.
        -- rewrite Es in Hs. injection Hs as <-. split; [exact H0|].
           apply Forall_app; split; [exact Hf|].
           repeat constructor. simpl.
           destruct (Z.gtb_spec pos sz); [discriminate|lia].
      * rewrite app_nil_r. apply (inv_sizes _ Hi).
        destruct (pos >? sz); [|exact Hs].
        rewrite lookup_insert_ne in Hs by exact Hc. exact Hs.
    + assert (Es : Ingest.chrom_sizes st !! chrom = None).
      { destruct (Ingest.chrom_sizes st !! chrom) eqn:E; [|reflexivity].
        destruct (proj2 (inv_keys _ Hi chrom)) as [? H]; [eauto|].
        rewrite Ef in H. discriminate. }
      simpl in Hd2. rewrite !lookup_insert_eq in Hd2. simpl in Hd2.
      injection Hd2 as <-. simpl in Hs.
      destruct (decide (chrom = c)) as [<-|Hc]; simpl.
      * unfold lines_of. rewrite Ef. simpl.
        destruct (pos >? 0) eqn:Ep.
        -- rewrite lookup_insert_eq in Hs. injection Hs as <-.
           apply Z.gtb_lt in Ep. split; [lia|].
           repeat constructor; simpl; lia.
        -- rewrite lookup_insert_eq in Hs. injection Hs as <-.
           split; [lia|]. repeat constructor. simpl.
           destruct (Z.gtb_spec pos 0); [discriminate|lia].
      * rewrite app_nil_r. apply (inv_sizes _ Hi).
        destruct (pos >? 0);
          rewrite ?lookup_insert_ne in Hs by exact Hc; exact Hs.
Qed.

(** The body of the loop never raises on a state of the loop. *)
Lemma dump_line_total (cell_n : Z) (st : Ingest.state)
    (line_vals : string * Z * Z * Z) :
  same_keys st -> is_Some (Ingest.dump_line cell_n st line_vals).
Proof.
  destruct line_vals as [[[chrom pos] n_meth] n_unmeth]. intros Hk.
  destruct (negb (n_meth =? 0) && negb (n_unmeth =? 0)) eqn:Ea.
  - unfold Ingest.dump_line. rewrite Ea. eauto.
  - destruct (dump_line_clean cell_n st chrom pos n_meth n_unmeth Hk)
      as (st2 & Hd2 & _); [|eauto].
    apply andb_false_iff in Ea as [Ea|Ea]; apply negb_false_iff in Ea;
      apply Z.eqb_eq in Ea; auto.
Qed.

Lemma dump_cell_spec (cell : Z * list (string * Z * Z * Z))
    (st : Ingest.state) :
  staging_inv st ->
  exists st', Ingest.dump_cell st cell = Some st' /\ staging_inv st'
    /\ forall c, lines_of st' c
                 = lines_of st c ++ omap (call_of c (fst cell)) (snd cell).
Proof.
  destruct cell as [n recs]. unfold Ingest.dump_cell. simpl.
  revert st; induction recs as [|lv recs IH]; intros st Hi; simpl.
  - exists st. split; [reflexivity|]. split; [exact Hi|].
    intros c. rewrite app_nil_r. reflexivity.
  - destruct (dump_line_total n st lv (inv_keys _ Hi)) as [st1 H1].
    rewrite H1.
    destruct (IH st1 (dump_line_inv _ _ _ _ Hi H1)) as (st' & H' & Hi' & Hl).
    exists st'. split; [exact H'|]. split; [exact Hi'|].
    intros c. rewrite Hl, (dump_line_lines n st st1 lv c (inv_keys _ Hi) H1).
    rewrite <- app_assoc. f_equal.
    destruct (call_of c n lv); reflexivity.
Qed.

Lemma dump_cells_spec (cells : list (Z * list (string * Z * Z * Z)))
    (st : Ingest.state) :
  staging_inv st ->
  exists st', Ingest.foldM Ingest.dump_cell cells st = Some st'
    /\ staging_inv st'
    /\ forall c, lines_of st' c = lines_of st c ++ staged c cells.
Proof.
  revert st; induction cells as [|cell cells IH]; intros st Hi; simpl.
  - exists st. split; [reflexivity|]. split; [exact Hi|].
    intros c. unfold staged. simpl. rewrite app_nil_r. reflexivity.
  - destruct (dump_cell_spec cell st Hi) as (st1 & H1 & Hi1 & Hl1).
    rewrite H1. destruct (IH st1 Hi1) as (st' & H' & Hi' & Hl).
    exists st'. split; [exact H'|]. split; [exact Hi'|].
    intros c. rewrite Hl, Hl1. unfold staged. simpl.
    rewrite <- app_assoc. reflexivity.
Qed.

(** [_dump_coo_files] always returns, and the stream of each chromosome
    holds its clean calls in streaming order. *)
Lemma dump_coo_files_spec (cells : list (list (string * Z * Z * Z))) :
  exists st, Ingest._dump_coo_files cells = Some st /\ staging_inv st
    /\ forall c, lines_of st c = staged c (Ingest.enumerate cells).
Proof.
  destruct (dump_cells_spec (Ingest.enumerate cells) Ingest.empty
              empty_staging_inv) as (st & H & Hi & Hl).
  exists st. split; [exact H|]. split; [exact Hi|].
  intros c. rewrite Hl. unfold lines_of. simpl. rewrite lookup_empty.
  reflexivity.
Qed.

End DumpLine.

(** C4: a record whose two counts are both nonzero leaves every stream as it
    is and raises no error; any other record appends exactly one line to the
    stream of its chromosome, at its position and cell index, with value +1
    when the methylated count is positive and -1 otherwise, and leaves the
    other streams alone. *)
Theorem dump_line_drops_ambiguous_stores_clean
    (cell_n : Z) (st : Ingest.state) (chrom : string)
    (pos n_meth n_unmeth : Z) :
  staging_inv st ->
  (n_meth <> 0 /\ n_unmeth <> 0 ->
   Ingest.dump_line cell_n st (chrom, pos, n_meth, n_unmeth) = Some st)
  /\
  (~ (n_meth <> 0 /\ n_unmeth <> 0) ->
   exists st' v,
     Ingest.dump_line cell_n st (chrom, pos, n_meth, n_unmeth) = Some st'
     /\ Ingest.coo_files st' !! chrom
        = Some (lines_of st chrom ++ [(pos, cell_n, v)])
     /\ (forall c, c <> chrom ->
                   Ingest.coo_files st' !! c = Ingest.coo_files st !! c)
     /\ (0 < n_meth -> v = 1) /\ (n_meth <= 0 -> v = -1)).
Proof.
  intros Hi. split.
  - intros [Hm Hu]. apply dump_line_ambiguous; assumption.
  - intros Hclean.
    destruct (dump_line_clean cell_n st chrom pos n_meth n_unmeth
                (inv_keys _ Hi)) as (st' & Hd & Hnew & Hold & _).
    { destruct (Z.eq_dec n_meth 0); [auto|].
      destruct (Z.eq_dec n_unmeth 0); [auto|]. tauto. }
    exists st', (if n_meth >? 0 then 1 else -1).
    split; [exact Hd|]. split; [exact Hnew|]. split; [exact Hold|].
    destruct (Z.gtb_spec n_meth 0); split; intros; lia.
Qed.

(** Two records of cell 3 on an empty staging area: the ambiguous one is
    dropped, the methylated one is written. *)
Lemma dump_line_drops_ambiguous_stores_clean_witness :
  Ingest.dump_line 3 Ingest.empty ("chr1"%string, 120, 2, 1)
  = Some Ingest.empty
  /\ exists st',
       Ingest.dump_line 3 Ingest.empty ("chr1"%string, 120, 2, 0) = Some st'
       /\ Ingest.coo_files st' !! "chr1"%string = Some [(120, 3, 1)].
Proof.
  split.
  - apply (dump_line_drops_ambiguous_stores_clean 3 Ingest.empty
             "chr1"%string 120 2 1 empty_staging_inv). lia.
  - destruct (proj2 (dump_line_drops_ambiguous_stores_clean 3 Ingest.empty
                       "chr1"%string 120 2 0 empty_staging_inv))
      as (st' & v & Hd & Hnew & _ & Hv & _); [lia|].
    exists st'. split; [exact Hd|]. rewrite Hnew, Hv by lia. reflexivity.
Defined.

(** C10: a record whose two counts are both zero is not dropped; it appends
    one line of value -1 at its position and cell index to the stream of its
    chromosome. *)
Theorem dump_line_both_zero_stored_unmethylated
    (cell_n : Z) (st : Ingest.state) (chrom : string) (pos : Z) :
  staging_inv st ->
  exists st',
    Ingest.dump_line cell_n st (chrom, pos, 0, 0) = Some st'
    /\ Ingest.coo_files st' !! chrom
       = Some (lines_of st chrom ++ [(pos, cell_n, -1)])
    /\ Ingest.ambiguous (chrom, pos, 0, 0) = false.
Proof.
  intros Hi.
  destruct (dump_line_clean cell_n st chrom pos 0 0 (inv_keys _ Hi))
    as (st' & Hd & Hnew & _); [auto|].
  exists st'. split; [exact Hd|]. split; [exact Hnew|reflexivity].
Qed.

(** A both-zero record of cell 0 at position 77. *)
Lemma dump_line_both_zero_stored_unmethylated_witness :
  exists st',
    Ingest.dump_line 0 Ingest.empty ("chrX"%string, 77, 0, 0) = Some st'
    /\ Ingest.coo_files st' !! "chrX"%string = Some ([] ++ [(77, 0, -1)])
    /\ Ingest.ambiguous ("chrX"%string, 77, 0, 0) = false.
Proof.
  exact (dump_line_both_zero_stored_unmethylated 0 Ingest.empty
           "chrX"%string 77 empty_staging_inv).
Defined.

(** ** Theorems on the assembled store *)

Section Assembly.

(** The entries (column, value) the lines [coo] hold for row [r]. *)
Definition entries (r : Z) (coo : list (Z * Z * Z)) : list (Z * Z) :=
  omap (fun l => let '(p, c, v) := l in
                 if p =? r then Some (c, v) else None) coo.

Lemma offsets_sorted (rows : list (list (Z * Z))) (acc : Z) :
  StronglySorted Z.le (Csr.offsets acc rows)
  /\ Forall (fun o => acc <= o) (Csr.offsets acc rows).
Proof.
  revert acc; induction rows as [|row rows IH]; intros acc; simpl.
  - split; repeat constructor. lia.
  - destruct (IH (acc + Z.of_nat (length row))) as [Hs Hb].
    assert (Hacc : Forall (fun o => acc <= o)
                     (Csr.offsets (acc + Z.of_nat (length row)) rows))
      by (eapply Forall_impl; [exact Hb|]; simpl; intros; lia).
    split; constructor; auto. lia.
Qed.

Lemma row_add_cols (c v : Z) (row : list (Z * Z)) (x : Z) :
  x ∈ map fst (Csr.row_add c v row) -> x = c \/ x ∈ map fst row.
Proof.
  induction row as [|[c' v'] row IH]; simpl.
  - intros H. apply list_elem_of_singleton in H. auto.
  - destruct (c <? c'); [|destruct (c =? c')]; simpl; intros H.
    + apply elem_of_cons in H as [->|H]; auto.
    + right. exact H.
    + apply elem_of_cons in H as [->|H]; [right; left|].
      destruct (IH H) as [->|H']; [auto|right; right; exact H'].
Qed.

Lemma row_fold_cols (r : Z) (coo : list (Z * Z * Z)) (row : list (Z * Z))
    (x : Z) :
  x ∈ map fst (fold_left (fun row l => let '(p, c, v) := l in
                 if p =? r then Csr.row_add c v row else row) coo row) ->
  x ∈ map fst row \/ x ∈ map (fun l => snd (fst l)) coo.
Proof.
  revert row; induction coo as [|[[p c] v] coo IH]; intros row; simpl;
    [auto|].
  intros H. apply IH in H as [H|H]; [|right; right; exact H].
  destruct (p =? r); [|auto].
  apply row_add_cols in H as [->|H]; [right; left|auto].
Qed.

Lemma row_add_fresh (c v : Z) (row : list (Z * Z)) :
  c ∉ map fst row -> Csr.row_add c v row ≡ₚ (c, v) :: row.
Proof.
  induction row as [|[c' v'] row IH]; simpl; intros Hc; [reflexivity|].
  apply not_elem_of_cons in Hc as [Hne Hc].
  destruct (c <? c'); [reflexivity|].
  destruct (Z.eqb_spec c c'); [contradiction|].
  rewrite (IH Hc). apply Permutation_swap.
Qed.

(** Without two lines for the same cell, assembling a row adds nothing up:
    the row holds the entries of the lines, in another order. *)
Lemma row_fold_perm (r : Z) (coo : list (Z * Z * Z)) (row : list (Z * Z)) :
  NoDup (map fst row ++ map fst (entries r coo)) ->
  fold_left (fun row l => let '(p, c, v) := l in
               if p =? r then Csr.row_add c v row else row) coo row
  ≡ₚ row ++ entries r coo.
Proof.
  revert row; induction coo as [|[[p c] v] coo IH]; intros row Hnd; simpl.
  - rewrite app_nil_r. reflexivity.
  - unfold entries in *. simpl in *. destruct (p =? r); simpl in *.
    + assert (Hc : c ∉ map fst row).
      { apply NoDup_app in Hnd as (_ & Hd & _). intros Hin.
        apply (Hd c Hin). left. }
      pose proof (row_add_fresh c v row Hc) as Hp.
      rewrite IH.
      * rewrite Hp. simpl. apply Permutation_middle.
      * rewrite Hp. simpl. rewrite <- Permutation_middle in Hnd. exact Hnd.
    + apply IH, Hnd.
Qed.

Lemma entries_keys (r : Z) (coo : list (Z * Z * Z)) :
  NoDup (map (fun l => (fst (fst l), snd (fst l))) coo) ->
  NoDup (map fst (entries r coo)).
Proof.
  induction coo as [|[[p c] v] coo IH]; simpl; intros Hnd; [constructor|].
  apply NoDup_cons in Hnd as [Hn Hnd]. unfold entries in *. simpl.
  destruct (Z.eqb_spec p r) as [->|Hpr]; simpl; [|auto].
  apply NoDup_cons. split; [|auto].
  intros Hin. apply Hn. clear -Hin.
  induction coo as [|[[p' c'] v'] coo IH]; simpl in *;
    [inversion Hin|].
  destruct (Z.eqb_spec p' r) as [->|Hpr]; simpl in *.
  - apply elem_of_cons in Hin as [->|Hin]; [left|right; auto].
  - right; auto.
Qed.

Lemma row_of_perm (r : Z) (coo : list (Z * Z * Z)) :
  NoDup (map (fun l => (fst (fst l), snd (fst l))) coo) ->
  Csr.row_of r coo ≡ₚ entries r coo.
Proof.
  intros Hnd. unfold Csr.row_of. rewrite row_fold_perm; [reflexivity|].
  simpl. apply entries_keys, Hnd.
Qed.

Lemma entries_cons (r p c v : Z) (coo : list (Z * Z * Z)) :
  entries r ((p, c, v) :: coo)
  = if p =? r then (c, v) :: entries r coo else entries r coo.
Proof. unfold entries. simpl. destruct (p =? r); reflexivity. Qed.

Lemma entries_concat_cons (l : Z * Z * Z) (coo : list (Z * Z * Z))
    (rs : list nat) :
  length (concat (map (fun r => entries (Z.of_nat r) (l :: coo)) rs))
  = (length (concat (map (fun r => entries (Z.of_nat r) coo) rs))
     + length (filter (fun r => fst (fst l) = Z.of_nat r) rs))%nat.
Proof.
  destruct l as [[p c] v]. induction rs as [|r rs IH]; [reflexivity|].
  cbn [map concat]. rewrite !length_app, IH, filter_cons, entries_cons.
  cbn [fst]. destruct (Z.eqb_spec p (Z.of_nat r));
    destruct (decide (p = Z.of_nat r)); try contradiction; simpl; lia.
Qed.

Lemma filter_no_hit (rs : list nat) (r0 : nat) :
  r0 ∉ rs -> filter (fun r => Z.of_nat r0 = Z.of_nat r) rs = [].
Proof.
  induction rs as [|r rs IH]; intros Hn; [reflexivity|].
  apply not_elem_of_cons in Hn as [Hne Hn]. rewrite filter_cons.
  destruct (decide (Z.of_nat r0 = Z.of_nat r)) as [E|E]; [|auto].
  apply Nat2Z.inj in E. contradiction.
Qed.

Lemma filter_one_hit (rs : list nat) (r0 : nat) :
  NoDup rs -> r0 ∈ rs ->
  length (filter (fun r => Z.of_nat r0 = Z.of_nat r) rs) = 1%nat.
Proof.
  induction rs as [|r rs IH]; intros Hnd Hin; [inversion Hin|].
  apply NoDup_cons in Hnd as [Hn Hnd]. rewrite filter_cons.
  destruct (decide (Z.of_nat r0 = Z.of_nat r)) as [E|E].
  - apply Nat2Z.inj in E. subst r0. rewrite filter_no_hit by exact Hn.
    reflexivity.
  - apply elem_of_cons in Hin as [->|Hin]; [congruence|]. auto.
Qed.

(** Every line lands in exactly one row of the shape. *)
Lemma entries_concat_length (coo : list (Z * Z * Z)) (M : Z) :
  Forall (fun l => 0 <= fst (fst l) < M) coo ->
  length (concat (map (fun r => entries (Z.of_nat r) coo)
                      (seq 0 (Z.to_nat M)))) = length coo.
Proof.
  induction coo as [|l coo IH]; intros Hr.
  - clear. induction (seq 0 (Z.to_nat M)); simpl; auto.
  - inversion Hr as [|? ? Hl Hr']; subst.
    rewrite entries_concat_cons, IH by auto.
    replace (fst (fst l)) with (Z.of_nat (Z.to_nat (fst (fst l)))) by lia.
    rewrite filter_one_hit; [simpl; lia|apply NoDup_seq|].
    apply elem_of_seq. lia.
Qed.

Lemma rows_perm_length (coo : list (Z * Z * Z)) (rs : list nat) :
  NoDup (map (fun l => (fst (fst l), snd (fst l))) coo) ->
  length (concat (map (fun r => Csr.row_of (Z.of_nat r) coo) rs))
  = length (concat (map (fun r => entries (Z.of_nat r) coo) rs)).
Proof.
  intros Hnd. induction rs as [|r rs IH]; [reflexivity|].
  cbn [map concat]. rewrite !length_app, IH.
  rewrite (Permutation_length (row_of_perm (Z.of_nat r) coo Hnd)).
  reflexivity.
Qed.

Lemma entries_values (r : Z) (coo : list (Z * Z * Z)) (P : Z -> Prop) :
  Forall (fun l => P (snd l)) coo ->
  Forall (fun e => P (snd e)) (entries r coo).
Proof.
  induction 1 as [|[[p c] v] coo Hv _ IH]; [constructor|].
  rewrite entries_cons. destruct (p =? r); [constructor|]; assumption.
Qed.

Lemma rows_values (coo : list (Z * Z * Z)) (rs : list nat) (P : Z -> Prop) :
  NoDup (map (fun l => (fst (fst l), snd (fst l))) coo) ->
  Forall (fun l => P (snd l)) coo ->
  Forall P (map snd (concat (map (fun r => Csr.row_of (Z.of_nat r) coo) rs))).
Proof.
  intros Hnd Hv. induction rs as [|r rs IH]; [constructor|].
  cbn [map concat]. rewrite map_app. apply Forall_app. split; [|exact IH].
  apply Forall_map. rewrite (row_of_perm (Z.of_nat r) coo Hnd).
  apply entries_values, Hv.
Qed.

Lemma rows_cols (coo : list (Z * Z * Z)) (rs : list nat) (P : Z -> Prop) :
  Forall (fun l => P (snd (fst l))) coo ->
  Forall P (map fst (concat (map (fun r => Csr.row_of (Z.of_nat r) coo) rs))).
Proof.
  intros Hc. induction rs as [|r rs IH]; [constructor|].
  cbn [map concat]. rewrite map_app. apply Forall_app. split; [|exact IH].
  apply Forall_forall. intros x Hx. unfold Csr.row_of in Hx.
  apply row_fold_cols in Hx as [Hx|Hx]; [inversion Hx|].
  apply list_elem_of_fmap in Hx as (l & -> & Hl).
  rewrite Forall_forall in Hc. apply Hc, Hl.
Qed.

(** Every staged line carries the value +1 or -1. *)
Lemma staged_values (c : string)
    (cells : list (Z * list (string * Z * Z * Z))) :
  Forall (fun l => snd l = -1 \/ snd l = 1) (staged c cells).
Proof.
  unfold staged. apply Forall_concat, Forall_map, Forall_forall.
  intros [n recs] _. simpl. apply Forall_forall. intros l Hl.
  apply list_elem_of_omap in Hl as ([[[chrom pos] n_meth] n_unmeth] & _ & Hl).
  unfold call_of in Hl. destruct (Ingest.ambiguous _); [discriminate|].
  destruct (decide _); [|discriminate]. injection Hl as <-. simpl.
  destruct (n_meth >? 0); auto.
Qed.

(** The staged lines of a chromosome are as many as its clean calls. *)
Lemma staged_length (c : string) (cells : list (list (string * Z * Z * Z)))
    (idx : list Z) :
  length idx = length cells ->
  length (staged c (combine idx cells)) = clean_calls c cells.
Proof.
  unfold staged, clean_calls. revert idx.
  induction cells as [|recs cells IH]; intros [|n idx] Hlen;
    try discriminate; [reflexivity|].
  cbn [combine map concat fst snd]. rewrite filter_app, !length_app.
  rewrite (IH idx) by (simpl in Hlen; lia). f_equal.
  clear. induction recs as [|[[[chrom pos] n_meth] n_unmeth] recs IH];
    [reflexivity|].
  cbn [omap list_omap]. rewrite filter_cons. unfold call_of at 1.
  cbn [fst]. fold (omap (call_of c n) recs).
  destruct (Ingest.ambiguous _); simpl; [exact IH|].
  destruct (decide (chrom = c)) as [->|Hc].
  - rewrite bool_decide_eq_true_2 by reflexivity. simpl. f_equal. exact IH.
  - rewrite bool_decide_eq_false_2 by exact Hc. simpl. exact IH.
Qed.

End Assembly.

Lemma staged_cols (c : string) (cells : list (list (string * Z * Z * Z)))
    (idx : list Z) (P : Z -> Prop) :
  Forall P idx ->
  Forall (fun l => P (snd (fst l))) (staged c (combine idx cells)).
Proof.
  intros Hidx. unfold staged. apply Forall_concat, Forall_map, Forall_forall.
  intros [n recs] Hin. simpl. apply Forall_forall. intros l Hl.
  apply list_elem_of_omap in Hl as ([[[chrom pos] n_meth] n_unmeth] & _ & Hl).
  unfold call_of in Hl. destruct (Ingest.ambiguous _); [discriminate|].
  destruct (decide _); [|discriminate]. injection Hl as <-. simpl.
  apply list_elem_of_In, in_combine_l in Hin.
  rewrite Forall_forall in Hidx. apply Hidx, list_elem_of_In, Hin.
Qed.

Lemma enumerate_cols (c : string) (cells : list (list (string * Z * Z * Z))) :
  Forall (fun l => 0 <= snd (fst l) < Z.of_nat (length cells))
         (staged c (Ingest.enumerate cells)).
Proof.
  apply (staged_cols c cells _ (fun n => 0 <= n < Z.of_nat (length cells))).
  apply Forall_map, Forall_forall. intros n Hn. apply elem_of_seq in Hn.
  simpl. lia.
Qed.

(** The lines [prepare] loads for a chromosome, when it finds any. *)
Lemma prepare_inv (cells : list (list (string * Z * Z * Z))) (chrom : string)
    (m : Csr.matrix) :
  Prepare.prepare cells chrom = Some m ->
  exists chrom_size,
    0 <= chrom_size
    /\ Csr.coo_tocsr (staged chrom (Ingest.enumerate cells)) (chrom_size + 1)
         (Z.of_nat (length cells)) = Some m.
Proof.
  unfold Prepare.prepare.
  destruct (dump_coo_files_spec cells) as (st & Hd & Hi & Hl).
  rewrite Hd. simpl. unfold Prepare.prepare_chrom.
  destruct (Ingest.chrom_sizes st !! chrom) as [size|] eqn:Es;
    [|discriminate].
  simpl. specialize (Hl chrom). unfold lines_of in Hl.
  destruct (Ingest.coo_files st !! chrom) as [coo|]; [|discriminate].
  simpl in Hl |- *. subst coo.
  destruct (_ <=? _)%nat; [discriminate|].
  intros H. exists size. split; [apply (inv_sizes _ Hi chrom size Es)|exact H].
Qed.

(** [prepare] assembles the store of a chromosome with at least two clean
    calls and no negative position. *)
Lemma prepare_assembles (cells : list (list (string * Z * Z * Z)))
    (chrom : string) :
  (2 <= clean_calls chrom cells)%nat ->
  Forall (fun l => 0 <= fst (fst l)) (staged chrom (Ingest.enumerate cells)) ->
  is_Some (Prepare.prepare cells chrom).
Proof.
  intros Hn Hpos. unfold Prepare.prepare.
  destruct (dump_coo_files_spec cells) as (st & Hd & Hi & Hl).
  rewrite Hd. simpl. unfold Prepare.prepare_chrom.
  rewrite <- (staged_length chrom cells (map Z.of_nat (seq 0 (length cells))))
    in Hn by (rewrite length_map, length_seq; reflexivity).
  fold (Ingest.enumerate cells) in Hn.
  pose proof (Hl chrom) as Hc. unfold lines_of in Hc.
  destruct (Ingest.coo_files st !! chrom) as [coo|] eqn:Ec;
    [|simpl in Hc; rewrite <- Hc in Hn; simpl in Hn; lia].
  simpl in Hc. subst coo.
  destruct (proj1 (inv_keys _ Hi chrom)) as [size Es]; [rewrite Ec; eauto|].
  rewrite Es. simpl.
  destruct (Nat.leb_spec (length (staged chrom (Ingest.enumerate cells))) 1);
    [lia|].
  unfold Csr.coo_tocsr.
  destruct (inv_sizes _ Hi chrom size Es) as [_ Hle].
  unfold lines_of in Hle. rewrite Ec in Hle. simpl in Hle.
  pose proof (enumerate_cols chrom cells) as Hcols.
  rewrite (proj2 (forallb_forall _ _)); [eauto|].
  intros [[p c] v] Hin. apply list_elem_of_In in Hin.
  rewrite Forall_forall in Hpos, Hle, Hcols.
  specialize (Hpos _ Hin). specialize (Hle _ Hin). specialize (Hcols _ Hin).
  simpl in *. rewrite !andb_true_iff, !Z.leb_le, !Z.ltb_lt. lia.
Qed.

(** C5 (as amended): the store [prepare] assembles for a chromosome has
    non-decreasing row pointers and column indices that are valid cell
    indices; when no cell lists the same position of the chromosome in two
    clean records, every stored value is -1 or +1 and the store holds as many
    entries as clean calls were streamed for the chromosome. *)
Theorem prepare_store_invariants
    (cells : list (list (string * Z * Z * Z))) (chrom : string)
    (m : Csr.matrix) :
  Prepare.prepare cells chrom = Some m ->
  StronglySorted Z.le (Csr.indptr m)
  /\ Forall (fun c => 0 <= c < Z.of_nat (length cells)) (Csr.indices m)
  /\ (NoDup (map (fun l => (fst (fst l), snd (fst l)))
               (staged chrom (Ingest.enumerate cells))) ->
      Forall (fun v => v = -1 \/ v = 1) (Csr.data m)
      /\ length (Csr.data m) = clean_calls chrom cells).
Proof.
  intros Hp. apply prepare_inv in Hp as (size & _ & Hm).
  unfold Csr.coo_tocsr in Hm.
  destruct (forallb _ _) eqn:Hchk; [|discriminate].
  injection Hm as <-. simpl.
  split; [apply offsets_sorted|]. split.
  - apply rows_cols, enumerate_cols.
  - intros Hnd. split.
    + apply rows_values; [exact Hnd|apply staged_values].
    + rewrite length_map, rows_perm_length by exact Hnd.
      rewrite entries_concat_length.
      * apply staged_length. rewrite length_map, length_seq. reflexivity.
      * apply Forall_forall. intros [[p c] v] Hin.
        rewrite forallb_forall in Hchk.
        apply list_elem_of_In, Hchk in Hin.
        rewrite !andb_true_iff, !Z.leb_le, !Z.ltb_lt in Hin. simpl. lia.
Qed.

(** Two cells, two chromosomes, one ambiguous record. *)
Lemma prepare_store_invariants_witness :
  exists m,
    Prepare.prepare
      [[("chr1", 5, 1, 0); ("chr1", 3, 1, 1); ("chr1", 7, 0, 2)];
       [("chr1", 5, 0, 4); ("chr2", 3, 1, 0); ("chr1", 2, 1, 0)]]%string
      "chr1"%string = Some m
    /\ StronglySorted Z.le (Csr.indptr m)
    /\ Forall (fun c => 0 <= c < 2) (Csr.indices m)
    /\ Forall (fun v => v = -1 \/ v = 1) (Csr.data m)
    /\ length (Csr.data m) = 4%nat.
Proof.
  eexists. split; [vm_compute; reflexivity|].
  pose proof (prepare_store_invariants
    [[("chr1", 5, 1, 0); ("chr1", 3, 1, 1); ("chr1", 7, 0, 2)];
     [("chr1", 5, 0, 4); ("chr2", 3, 1, 0); ("chr1", 2, 1, 0)]]%string
    "chr1"%string _ eq_refl) as (H1 & H2 & H3).
  split; [exact H1|]. split; [exact H2|].
  apply H3. refine (bool_decide_unpack _ _). vm_compute. exact I.
Defined.

(** C5 as stated fails: a cell that lists position 5 once methylated and
    once unmethylated gets the stored value 0 there, and the store holds two
    entries for three clean calls. *)
Lemma prepare_sums_duplicate_calls :
  exists m,
    Prepare.prepare
      [[("chr1", 5, 1, 0); ("chr1", 5, 0, 3); ("chr1", 7, 0, 2)]]%string
      "chr1"%string = Some m
    /\ Csr.data m = [0; -1]
    /\ ~ Forall (fun v => v = -1 \/ v = 1) (Csr.data m)
    /\ length (Csr.data m) <>
       clean_calls "chr1"%string
         [[("chr1", 5, 1, 0); ("chr1", 5, 0, 3); ("chr1", 7, 0, 2)]]%string.
Proof.
  eexists. split; [vm_compute; reflexivity|]. simpl.
  split; [reflexivity|]. split.
  - intros H. inversion H as [|? ? [E|E] _]; discriminate.
  - vm_compute. discriminate.
Qed.

(** ** Theorems on the region statistics *)

(** *** Indexing and slicing inside the bounds *)

Section NpFacts.

Context {A : Type}.

Lemma get_nonneg (l : list A) (i : Z) :
  0 <= i -> Np.get l i = l !! Z.to_nat i.
Proof.
  intros Hi. unfold Np.get, Np.norm.
  destruct (Z.ltb_spec i 0); [lia|].
  destruct (Z.ltb_spec i 0); [lia|reflexivity].
Qed.

Lemma set_nonneg (l : list A) (i : Z) (x : A) :
  0 <= i -> Np.set l i x = <[Z.to_nat i := x]> l.
Proof.
  intros Hi. unfold Np.set, Np.norm.
  destruct (Z.ltb_spec i 0); [lia|reflexivity].
Qed.

Lemma slice_nonneg (l : list A) (lo hi : Z) :
  0 <= lo <= hi -> hi <= Z.of_nat (length l) ->
  Np.slice l lo hi = take (Z.to_nat (hi - lo)) (drop (Z.to_nat lo) l).
Proof.
  intros Hlo Hhi. unfold Np.slice, Np.clip, Np.norm.
  destruct (Z.ltb_spec lo 0); [lia|]. destruct (Z.ltb_spec hi 0); [lia|].
  repeat f_equal; lia.
Qed.

Lemma slice_length (l : list A) (lo hi : Z) :
  0 <= lo <= hi -> hi <= Z.of_nat (length l) ->
  Z.of_nat (length (Np.slice l lo hi)) = hi - lo.
Proof.
  intros Hlo Hhi. rewrite slice_nonneg by assumption.
  rewrite length_take, length_drop. lia.
Qed.

(** Two adjacent slices make one. *)
Lemma slice_app (l : list A) (lo mid hi : Z) :
  0 <= lo <= mid -> mid <= hi -> hi <= Z.of_nat (length l) ->
  Np.slice l lo mid ++ Np.slice l mid hi = Np.slice l lo hi.
Proof.
  intros Hlo Hmid Hhi. rewrite !slice_nonneg by lia.
  replace (Z.to_nat (hi - lo))
    with (Z.to_nat (mid - lo) + Z.to_nat (hi - mid))%nat by lia.
  rewrite <- take_take_drop, drop_drop. do 3 f_equal. lia.
Qed.

Lemma slice_cons (l : list A) (lo hi : Z) (x : A) :
  0 <= lo < hi -> hi <= Z.of_nat (length l) ->
  l !! Z.to_nat lo = Some x ->
  Np.slice l lo hi = x :: Np.slice l (lo + 1) hi.
Proof.
  intros Hlo Hhi Hx. rewrite !slice_nonneg by lia.
  rewrite (drop_S _ _ _ Hx).
  replace (Z.to_nat (hi - lo)) with (S (Z.to_nat (hi - (lo + 1)))) by lia.
  simpl. do 2 f_equal. f_equal. lia.
Qed.

End NpFacts.

Lemma slice_zip {A B} (l : list A) (k : list B) (lo hi : Z) :
  length l = length k ->
  zip (Np.slice l lo hi) (Np.slice k lo hi) = Np.slice (zip l k) lo hi.
Proof.
  intros Hlen. unfold Np.slice. rewrite length_zip_with, <- Hlen, Nat.min_id.
  rewrite zip_with_drop, zip_with_take. reflexivity.
Qed.

Lemma diff_shift (l : list Z) (a : Z) :
  Np.diff (map (fun x => x - a) l) = Np.diff l.
Proof.
  unfold Np.diff. destruct l as [|x l]; [reflexivity|]. simpl.
  revert x; induction l as [|y l IH]; intros x; simpl; [reflexivity|].
  f_equal; [lia|apply IH].
Qed.

Lemma diff_cons (x y : Z) (l : list Z) :
  Np.diff (x :: y :: l) = (y - x) :: Np.diff (y :: l).
Proof. reflexivity. Qed.

(** *** The main loop follows the rows of the slice *)

Section Tracker.

Variable smoothed_vals : gmap Z float.
Variable start : Z.

(** The main loop on the pairs ([indices[i]], [data[i]]). *)
Fixpoint loop_pairs (st : Region.loop_state) (es : list (Z * Z))
    : option Region.loop_state :=
  match es with
  | [] => Some st
  | (c, v) :: es' =>
      match Region.body smoothed_vals start st c v with
      | Some st' => loop_pairs st' es'
      | None => None
      end
  end.

Lemma loop_as_pairs (indices data : list Z) (i : Z) (st : Region.loop_state) :
  0 <= i -> (Z.to_nat i + length data <= length indices)%nat ->
  Region.loop smoothed_vals start indices i data st
  = loop_pairs st (zip (drop (Z.to_nat i) indices) data).
Proof.
  revert i st; induction data as [|v data IH]; intros i st Hi Hlen; simpl.
  - rewrite zip_with_nil_r. reflexivity.
  - rewrite get_nonneg by exact Hi.
    destruct (lookup_lt_is_Some_2 indices (Z.to_nat i)) as [c Hc];
      [simpl in Hlen; lia|].
    rewrite Hc, (drop_S _ _ _ Hc). simpl.
    destruct (Region.body _ _ _ _ _) as [st'|]; simpl; [|reflexivity].
    rewrite IH by (simpl in Hlen; lia). do 3 f_equal. lia.
Qed.

(** What the body does to the two arrays of sums for an entry of column [c]
    and value [v] in row [start + k]. *)
Definition acc_body (acc : list float * list Z) (e : Z * (Z * Z))
    : option (list float * list Z) :=
  let '(k, (c, v)) := e in
  old ← Np.get (fst acc) c;
  sm ← smoothed_vals !! (start + k);
  let smooth := Np.set (fst acc) c (old + sm)%float in
  if v =? -1 then Some (smooth, snd acc)
  else m ← Np.get (snd acc) c; Some (smooth, Np.set (snd acc) c (m + v)).

(** The entries of consecutive rows, each with the offset of its row. *)
Fixpoint tagged (k : Z) (rows : list (list (Z * Z))) : list (Z * (Z * Z)) :=
  match rows with
  | [] => []
  | row :: rows' => map (pair k) row ++ tagged (k + 1) rows'
  end.

Definition sums (st : Region.loop_state) : list float * list Z :=
  (Region.smooth_sums st, Region.meth_sums st).

Definition len (row : list (Z * Z)) : Z := Z.of_nat (length row).

Lemma body_in_row (k n : Z) (rest : list Z) (sm : list float) (ms : list Z)
    (c v : Z) :
  n <> 0 ->
  Region.body smoothed_vals start (Region.mkLoop k n rest sm ms) c v
  = (fun acc => Region.mkLoop k (n - 1) rest (fst acc) (snd acc))
      <$> acc_body (sm, ms) (k, (c, v)).
Proof.
  intros Hn. unfold Region.body, acc_body. simpl.
  destruct rest; simpl; destruct (Z.eqb_spec n 0); try contradiction; simpl;
    (destruct (Np.get sm c); simpl; [|reflexivity];
     destruct (smoothed_vals !! (start + k)); simpl; [|reflexivity];
     destruct (v =? -1); simpl; [reflexivity|];
     destruct (Np.get ms c); reflexivity).
Qed.

Lemma loop_skip_row (k d : Z) (rest : list Z) (sm : list float) (ms : list Z)
    (es : list (Z * Z)) :
  sums <$> loop_pairs (Region.mkLoop k 0 (d :: rest) sm ms) es
  = sums <$> loop_pairs (Region.mkLoop (k + 1) d rest sm ms) es.
Proof. destruct es as [|[c v] es]; reflexivity. Qed.

Fixpoint fold_acc (acc : list float * list Z) (es : list (Z * (Z * Z)))
    : option (list float * list Z) :=
  match es with
  | [] => Some acc
  | e :: es' =>
      match acc_body acc e with
      | Some acc' => fold_acc acc' es'
      | None => None
      end
  end.

(** The pair [cpg_idx], [nobs_cpg] always designates the row of the entry at
    hand: the loop adds up what a loop over the rows would. *)
Lemma loop_follows_rows (rows : list (list (Z * Z))) :
  forall (row : list (Z * Z)) (k : Z) (sm : list float) (ms : list Z),
    sums <$> loop_pairs (Region.mkLoop k (len row) (map len rows) sm ms)
               (row ++ concat rows)
    = fold_acc (sm, ms) (map (pair k) row ++ tagged (k + 1) rows).
Proof.
  induction rows as [|next rows IH]; intros row;
    induction row as [|[c v] row IHrow]; intros k sm ms.
  - reflexivity.
  - cbn [app map loop_pairs fold_acc].
    rewrite body_in_row by (unfold len; simpl; lia).
    destruct (acc_body (sm, ms) (k, (c, v))) as [[sm' ms']|]; simpl;
      [|reflexivity].
    replace (len ((c, v) :: row) - 1) with (len row)
      by (unfold len; simpl; lia).
    apply IHrow.
  - cbn [app map concat tagged]. change (len []) with 0.
    rewrite loop_skip_row. apply IH.
  - cbn [app map loop_pairs fold_acc].
    rewrite body_in_row by (unfold len; simpl; lia).
    destruct (acc_body (sm, ms) (k, (c, v))) as [[sm' ms']|]; simpl;
      [|reflexivity].
    replace (len ((c, v) :: row) - 1) with (len row)
      by (unfold len; simpl; lia).
    apply IHrow.
Qed.

End Tracker.

(** *** What the two arrays of sums hold after the loop *)

Section Sums.

Variable smoothed_vals : gmap Z float.
Variable start : Z.
Variable n_cells : nat.

(** The smoothed values added for cell [c], in the order of the loop. *)
Definition smooth_of (c : Z) (es : list (Z * (Z * Z))) (s0 : float) : float :=
  fold_left
    (fun s e => (s + default nan (smoothed_vals !! (start + fst e)%Z))%float)
    (filter (fun e => fst (snd e) = c) es) s0.

(** The values other than -1 added for cell [c]. *)
Definition meth_of (c : Z) (es : list (Z * (Z * Z))) (m0 : Z) : Z :=
  fold_left (fun m e => if snd (snd e) =? -1 then m else m + snd (snd e))
            (filter (fun e => fst (snd e) = c) es) m0.

Lemma fold_acc_spec (es : list (Z * (Z * Z))) :
  forall (sm : list float) (ms : list Z),
    length sm = n_cells -> length ms = n_cells ->
    Forall (fun e => 0 <= fst (snd e) < Z.of_nat n_cells) es ->
    Forall (fun e => is_Some (smoothed_vals !! (start + fst e))) es ->
    exists sm' ms',
      fold_acc smoothed_vals start (sm, ms) es = Some (sm', ms')
      /\ length sm' = n_cells /\ length ms' = n_cells
      /\ forall (c : nat) s0 m0,
           sm !! c = Some s0 -> ms !! c = Some m0 ->
           sm' !! c = Some (smooth_of (Z.of_nat c) es s0)
           /\ ms' !! c = Some (meth_of (Z.of_nat c) es m0).
Proof.
  induction es as [|[k [c0 v]] es IH]; intros sm ms Hsm Hms Hcols Hcov.
  - exists sm, ms. simpl. repeat split; auto.
  - apply Forall_cons in Hcols as [Hc0 Hcols'].
    apply Forall_cons in Hcov as [[x Hx] Hcov']. simpl in Hc0, Hx.
    destruct (lookup_lt_is_Some_2 sm (Z.to_nat c0)) as [old Hold]; [lia|].
    destruct (lookup_lt_is_Some_2 ms (Z.to_nat c0)) as [m Hm]; [lia|].
    set (sm1 := <[Z.to_nat c0 := (old + x)%float]> sm).
    set (ms1 := if v =? -1 then ms else <[Z.to_nat c0 := m + v]> ms).
    assert (Hbody : acc_body smoothed_vals start (sm, ms) (k, (c0, v))
                    = Some (sm1, ms1)).
    { unfold acc_body, sm1, ms1. cbn [fst snd].
      rewrite !get_nonneg by lia. rewrite Hold, Hx, Hm. cbn.
      rewrite !set_nonneg by lia. destruct (v =? -1); reflexivity. }
    cbn [fold_acc]. rewrite Hbody.
    destruct (IH sm1 ms1) as (sm' & ms' & Hf & Hl1 & Hl2 & Hres);
      [unfold sm1; rewrite length_insert; exact Hsm
      |unfold ms1; destruct (v =? -1); rewrite ?length_insert; exact Hms
      |exact Hcols'|exact Hcov'|].
    exists sm', ms'. split; [exact Hf|].
    split; [exact Hl1|]. split; [exact Hl2|].
    intros c s0 m0 Hs0 Hm0. unfold smooth_of, meth_of.
    rewrite !filter_cons. cbn [fst snd].
    destruct (decide (c0 = Z.of_nat c)) as [->|Hne].
    + rewrite Nat2Z.id in *. rewrite Hold in Hs0. rewrite Hm in Hm0.
      injection Hs0 as <-. injection Hm0 as <-.
      cbn [fold_left fst snd]. rewrite Hx. cbn [default].
      apply Hres.
      * unfold sm1. rewrite Nat2Z.id. apply list_lookup_insert_eq.
        apply lookup_lt_Some in Hold. exact Hold.
      * unfold ms1. rewrite Nat2Z.id. destruct (v =? -1); [exact Hm|].
        apply list_lookup_insert_eq. apply lookup_lt_Some in Hm. exact Hm.
    + apply Hres.
      * unfold sm1. rewrite list_lookup_insert_ne by lia. exact Hs0.
      * unfold ms1. destruct (v =? -1); [exact Hm0|].
        rewrite list_lookup_insert_ne by lia. exact Hm0.
Qed.

Lemma count_bound (l : list Z) (c : Z) :
  fold_right Z.max 0 l < c -> Np.count c l = 0.
Proof.
  unfold Np.count. induction l as [|x l IH]; simpl; intros Hc; [reflexivity|].
  rewrite filter_cons. destruct (decide (x = c)); [lia|]. apply IH. lia.
Qed.

Lemma max_bound (l : list Z) (b : Z) :
  0 <= b -> Forall (fun x => x <= b) l -> fold_right Z.max 0 l <= b.
Proof.
  intros Hb. induction 1; simpl; lia.
Qed.

(** The array [n_obs]: for each cell, its number of entries in the slice. *)
Lemma n_obs_of_spec (indices : list Z) :
  Forall (fun c => 0 <= c < Z.of_nat n_cells) indices ->
  indices <> [] ->
  exists n_obs,
    Region.n_obs_of n_cells indices = Some n_obs
    /\ length n_obs = n_cells
    /\ forall c : nat, (c < n_cells)%nat ->
                       n_obs !! c = Some (Np.count (Z.of_nat c) indices).
Proof.
  intros Hc Hne. unfold Region.n_obs_of, Np.bincount.
  rewrite (proj2 (forallb_forall _ _)).
  2:{ intros x Hx. rewrite Forall_forall in Hc.
      apply list_elem_of_In, Hc in Hx. apply Z.leb_le. lia. }
  simpl. rewrite length_map, length_seq.
  assert (Hmax : fold_right Z.max 0 indices <= Z.of_nat n_cells - 1).
  { destruct indices as [|x l]; [contradiction|].
    inversion Hc; subst. apply max_bound; [lia|].
    eapply Forall_impl; [exact Hc|]. simpl. intros; lia. }
  assert (Hmax0 : 0 <= fold_right Z.max 0 indices).
  { clear. induction indices; simpl; lia. }
  destruct (Nat.leb_spec (Z.to_nat (fold_right Z.max 0 indices + 1)) n_cells);
    [|lia].
  eexists. split; [reflexivity|]. split.
  - rewrite length_app, length_map, length_seq, length_replicate. lia.
  - intros c Hlt.
    destruct (Nat.lt_ge_cases c (Z.to_nat (fold_right Z.max 0 indices + 1))).
    + rewrite lookup_app_l by (rewrite length_map, length_seq; lia).
      rewrite list_lookup_fmap, lookup_seq_lt by lia. reflexivity.
    + rewrite lookup_app_r by (rewrite length_map, length_seq; lia).
      rewrite lookup_replicate_2
        by (rewrite length_map, length_seq; lia).
      rewrite count_bound by lia. reflexivity.
Qed.

End Sums.

(** *** The rows of a well-formed store *)

Lemma sorted_lookup_le (l : list Z) (i j : nat) (a b : Z) :
  StronglySorted Z.le l -> (i <= j)%nat ->
  l !! i = Some a -> l !! j = Some b -> a <= b.
Proof.
  intros Hs. revert i j. induction Hs as [|x l Hs IH Hx]; intros i j Hij Ha Hb;
    [discriminate|].
  destruct i as [|i], j as [|j]; simpl in *; try lia.
  - injection Ha as <-. injection Hb as <-. lia.
  - injection Ha as <-. rewrite Forall_forall in Hx. apply Hx.
    apply list_elem_of_lookup. eauto.
  - apply (IH i j); [lia|assumption..].
Qed.

Section Store.

Variables (data_chrom indices_chrom indptr_chrom : list Z).
Variable smoothed_vals : gmap Z float.
Variable n_cells : nat.
Variable chrom_len : Z.

(** A store of [chrom_len] rows and [n_cells] columns: one row pointer more
    than rows, non-decreasing from 0 to the number of entries, and one valid
    column index for each value. *)
Record well_formed : Prop := {
  wf_rows : Z.of_nat (length indptr_chrom) = chrom_len + 1;
  wf_sorted : StronglySorted Z.le indptr_chrom;
  wf_first : head indptr_chrom = Some 0;
  wf_last : last indptr_chrom = Some (Z.of_nat (length data_chrom));
  wf_indices : length indices_chrom = length data_chrom;
  wf_cols : Forall (fun c => 0 <= c < Z.of_nat n_cells) indices_chrom
}.

(** The entries (column, value) of row [p], for [0 <= p]. *)
Definition store_row (p : Z) : list (Z * Z) :=
  match indptr_chrom !! Z.to_nat p, indptr_chrom !! Z.to_nat (p + 1) with
  | Some lo, Some hi =>
      zip (Np.slice indices_chrom lo hi) (Np.slice data_chrom lo hi)
  | _, _ => []
  end.

(** The rows of the interval from [start] to [end_], both included, inside
    the chromosome. *)
Definition interval_rows (start end_ : Z) : list Z :=
  seqZ start (Z.min (end_ + 1) chrom_len - start).

(** The observations (position, value) of cell [c] in the interval. *)
Definition observations (start end_ c : Z) : list (Z * Z) :=
  flat_map (fun p => map (fun cv => (p, snd cv))
                         (filter (fun cv => fst cv = c) (store_row p)))
           (interval_rows start end_).

Definition sumZ (l : list Z) : Z := fold_right Z.add 0 l.

(** The signed sum of the methylated calls among observations. *)
Definition methylated_sum (obs : list (Z * Z)) : Z :=
  sumZ (map snd (filter (fun pv => snd pv = 1) obs)).

(** The sum of the smoothed values at the observed positions. *)
Definition smoothed_sum (obs : list (Z * Z)) : float :=
  fold_left (fun s pv => (s + default nan (smoothed_vals !! fst pv))%float)
            obs 0%float.

(** The shrunken residual of cell [c] as the specification words it. *)
Definition shrunken_residual (start end_ c : Z) : float :=
  let obs := observations start end_ c in
  if (length obs =? 0)%nat then nan
  else ((Np.of_int (methylated_sum obs) - smoothed_sum obs)
        / Np.of_int (Z.of_nat (length obs) + 1))%float.

Hypothesis wf : well_formed.

Lemma pointer_at (p : Z) :
  0 <= p <= chrom_len ->
  exists a, indptr_chrom !! Z.to_nat p = Some a
            /\ 0 <= a <= Z.of_nat (length data_chrom).
Proof.
  intros Hp. pose proof (wf_rows wf) as Hlen.
  destruct (lookup_lt_is_Some_2 indptr_chrom (Z.to_nat p)) as [a Ha]; [lia|].
  exists a. split; [exact Ha|]. split.
  - pose proof (wf_first wf) as H0. rewrite head_lookup in H0.
    apply (sorted_lookup_le indptr_chrom 0 (Z.to_nat p) 0 a (wf_sorted wf));
      [lia|assumption..].
  - pose proof (wf_last wf) as H1. rewrite last_lookup in H1.
    apply (sorted_lookup_le indptr_chrom (Z.to_nat p)
             (pred (length indptr_chrom)) a _ (wf_sorted wf));
      [lia|assumption..].
Qed.

Lemma pointers_at (p : Z) :
  0 <= p < chrom_len ->
  exists a b, indptr_chrom !! Z.to_nat p = Some a
              /\ indptr_chrom !! Z.to_nat (p + 1) = Some b
              /\ 0 <= a <= b /\ b <= Z.of_nat (length data_chrom).
Proof.
  intros Hp.
  destruct (pointer_at p) as (a & Ha & Ha'); [lia|].
  destruct (pointer_at (p + 1)) as (b & Hb & Hb'); [lia|].
  exists a, b. repeat split; try assumption; try lia.
  apply (sorted_lookup_le indptr_chrom (Z.to_nat p) (Z.to_nat (p + 1)) a b
           (wf_sorted wf)); [lia|assumption..].
Qed.

Lemma store_row_slice (p a b : Z) :
  indptr_chrom !! Z.to_nat p = Some a ->
  indptr_chrom !! Z.to_nat (p + 1) = Some b ->
  store_row p = Np.slice (zip indices_chrom data_chrom) a b.
Proof.
  intros Ha Hb. unfold store_row. rewrite Ha, Hb.
  apply slice_zip, (wf_indices wf).
Qed.

(** The rows from [s] on, [m] of them, lie one after the other in the
    arrays, and their lengths are the differences of the row pointers. *)
Lemma rows_of_slice (m : nat) :
  forall s : Z,
    0 <= s -> s + Z.of_nat m <= chrom_len ->
    exists lo hi,
      indptr_chrom !! Z.to_nat s = Some lo
      /\ indptr_chrom !! Z.to_nat (s + Z.of_nat m) = Some hi
      /\ 0 <= lo <= hi /\ hi <= Z.of_nat (length data_chrom)
      /\ concat (map store_row (seqZ s (Z.of_nat m)))
         = Np.slice (zip indices_chrom data_chrom) lo hi
      /\ map len (map store_row (seqZ s (Z.of_nat m)))
         = Np.diff (Np.slice indptr_chrom s (s + Z.of_nat m + 1)).
Proof.
  pose proof (wf_rows wf) as Hlen.
  induction m as [|m IH]; intros s Hs Hm.
  - destruct (pointer_at s) as (lo & Hlo & Hlo'); [lia|].
    exists lo, lo. rewrite Z.add_0_r. repeat split; try assumption; try lia.
    + simpl. rewrite slice_nonneg
        by (rewrite ?length_zip_with, ?(wf_indices wf), ?Nat.min_id; lia).
      rewrite Z.sub_diag. reflexivity.
    + simpl. rewrite (slice_cons _ s (s + 1) lo) by (try lia; exact Hlo).
      rewrite slice_nonneg by lia. rewrite Z.sub_diag. reflexivity.
  - destruct (pointers_at s) as (lo & mid & Hlo & Hmid & Hle & Hmid'); [lia|].
    destruct (IH (s + 1)) as (mid' & hi & Hmid2 & Hhi & Hle2 & Hhi' & Hc & Hd);
      [lia..|].
    rewrite Hmid in Hmid2. injection Hmid2 as <-.
    exists lo, hi.
    replace (s + Z.of_nat (S m)) with (s + 1 + Z.of_nat m) by lia.
    split; [exact Hlo|]. split; [exact Hhi|]. split; [lia|].
    split; [exact Hhi'|].
    rewrite seqZ_cons by lia.
    replace (Z.succ s) with (s + 1) by lia.
    replace (Z.pred (Z.of_nat (S m))) with (Z.of_nat m) by lia.
    cbn [map concat]. rewrite Hc, Hd, (store_row_slice s lo mid Hlo Hmid).
    split.
    + apply slice_app; [lia|lia|].
      rewrite length_zip_with, (wf_indices wf), Nat.min_id. lia.
    + rewrite (slice_cons _ s (s + 1 + Z.of_nat m + 1) lo)
        by (try lia; exact Hlo).
      rewrite (slice_cons _ (s + 1) (s + 1 + Z.of_nat m + 1) mid)
        by (try lia; exact Hmid).
      rewrite diff_cons. f_equal. unfold len.
      rewrite slice_length; [reflexivity|lia|].
      rewrite length_zip_with, (wf_indices wf), Nat.min_id. lia.
Qed.

(** *** From the entries of the rows to the observations of a cell *)

Lemma tagged_snd (k : Z) (rows : list (list (Z * Z))) :
  map snd (tagged k rows) = concat rows.
Proof.
  revert k; induction rows as [|row rows IH]; intros k; simpl; [reflexivity|].
  rewrite map_app, IH. f_equal. clear.
  induction row as [|e row IH]; simpl; [reflexivity|]. f_equal. exact IH.
Qed.

Lemma observations_of_row (base k c : Z) (row : list (Z * Z)) :
  map (fun e => (base + fst e, snd (snd e)))
      (filter (fun e => fst (snd e) = c) (map (pair k) row))
  = map (fun cv => (base + k, snd cv)) (filter (fun cv => fst cv = c) row).
Proof.
  induction row as [|[c' v] row IH]; [reflexivity|].
  cbn [map]. rewrite !filter_cons. cbn [fst snd].
  destruct (decide (c' = c)); [cbn [map fst snd]; f_equal|]; exact IH.
Qed.

Lemma observations_of_tagged (c base : Z) (m : nat) :
  forall s k : Z,
    base + k = s ->
    map (fun e => (base + fst e, snd (snd e)))
        (filter (fun e => fst (snd e) = c)
                (tagged k (map store_row (seqZ s (Z.of_nat m)))))
    = flat_map (fun p => map (fun cv => (p, snd cv))
                             (filter (fun cv => fst cv = c) (store_row p)))
               (seqZ s (Z.of_nat m)).
Proof.
  induction m as [|m IH]; intros s k Hk; [reflexivity|].
  rewrite seqZ_cons by lia.
  replace (Z.succ s) with (s + 1) by lia.
  replace (Z.pred (Z.of_nat (S m))) with (Z.of_nat m) by lia.
  cbn [map tagged flat_map]. rewrite filter_app, map_app.
  rewrite observations_of_row, (IH (s + 1) (k + 1)) by lia.
  rewrite Hk. reflexivity.
Qed.

Lemma tagged_covered (base : Z) (m : nat) :
  forall s k : Z,
    base + k = s ->
    Forall (fun p => store_row p <> [] -> is_Some (smoothed_vals !! p))
           (seqZ s (Z.of_nat m)) ->
    Forall (fun e => is_Some (smoothed_vals !! (base + fst e)))
           (tagged k (map store_row (seqZ s (Z.of_nat m)))).
Proof.
  induction m as [|m IH]; intros s k Hk Hcov; [constructor|].
  rewrite seqZ_cons in Hcov |- * by lia.
  replace (Z.succ s) with (s + 1) in * by lia.
  replace (Z.pred (Z.of_nat (S m))) with (Z.of_nat m) in * by lia.
  apply Forall_cons in Hcov as [Hs Hcov].
  cbn [map tagged]. apply Forall_app. split; [|apply IH; [lia|exact Hcov]].
  apply Forall_map, Forall_forall. intros e He. cbn [fst]. rewrite Hk.
  apply Hs. intros Hnil. rewrite Hnil in He. inversion He.
Qed.

Lemma smooth_of_observations (start c : Z) (es : list (Z * (Z * Z)))
    (s0 : float) :
  smooth_of smoothed_vals start c es s0
  = fold_left (fun s pv => (s + default nan (smoothed_vals !! fst pv))%float)
      (map (fun e => (start + fst e, snd (snd e)))
           (filter (fun e => fst (snd e) = c) es)) s0.
Proof.
  unfold smooth_of. revert s0.
  induction (filter (fun e => fst (snd e) = c) es) as [|e l IH]; intros s0;
    [reflexivity|].
  cbn [map fold_left fst]. apply IH.
Qed.

Lemma meth_of_observations (start c : Z) (es : list (Z * (Z * Z))) (m0 : Z) :
  Forall (fun e => snd (snd e) = -1 \/ snd (snd e) = 1) es ->
  meth_of c es m0
  = m0 + methylated_sum
           (map (fun e => (start + fst e, snd (snd e)))
                (filter (fun e => fst (snd e) = c) es)).
Proof.
  intros Hv. unfold meth_of, methylated_sum.
  assert (Hf : Forall (fun e => snd (snd e) = -1 \/ snd (snd e) = 1)
                 (filter (fun e => fst (snd e) = c) es)).
  { apply Forall_forall. intros e He. apply list_elem_of_filter in He as [_ He].
    rewrite Forall_forall in Hv. apply Hv, He. }
  revert m0.
  induction (filter (fun e => fst (snd e) = c) es) as [|e l IH]; intros m0.
  - simpl. lia.
  - apply Forall_cons in Hf as [He Hl]. cbn [map fold_left].
    rewrite (IH Hl), filter_cons. cbn [snd].
    destruct He as [-> | ->]; simpl.
    + destruct (decide (-1 = 1)); [lia|reflexivity].
    + destruct (decide (1 = 1)); [|contradiction]. simpl. lia.
Qed.

Lemma count_of_tagged (c : Z) (es : list (Z * (Z * Z))) :
  Np.count c (map fst (map snd es))
  = Z.of_nat (length (filter (fun e => fst (snd e) = c) es)).
Proof.
  unfold Np.count. f_equal.
  induction es as [|[k [c' v]] es IH]; [reflexivity|].
  cbn [map fst snd]. rewrite !filter_cons. cbn [fst snd].
  destruct (decide (c' = c)); simpl; rewrite IH; reflexivity.
Qed.

Lemma slice_cols (lo hi : Z) :
  0 <= lo <= hi -> hi <= Z.of_nat (length data_chrom) ->
  Forall (fun c => 0 <= c < Z.of_nat n_cells) (Np.slice indices_chrom lo hi).
Proof.
  intros Hlo Hhi. rewrite slice_nonneg by (rewrite ?(wf_indices wf); lia).
  apply Forall_take, Forall_drop, (wf_cols wf).
Qed.

(** The statement of C1 for one cell, on the result array. *)
Definition residual_as_specified (start end_ : Z) (res : list float)
    (c : nat) : Prop :=
  let obs := observations start end_ (Z.of_nat c) in
  (obs = [] -> res !! c = Some nan)
  /\ (obs <> [] ->
      res !! c
      = Some ((Np.of_int (methylated_sum obs) - smoothed_sum obs)
              / Np.of_int (Z.of_nat (length obs) + 1))%float).

Lemma residual_outside (start end_ : Z) (c : nat) :
  (c < n_cells)%nat ->
  observations start end_ (Z.of_nat c) = [] ->
  residual_as_specified start end_ (replicate n_cells nan) c.
Proof.
  intros Hc Hobs. unfold residual_as_specified. cbv zeta. rewrite Hobs.
  split; [intros _; apply lookup_replicate_2; exact Hc|intros H; congruence].
Qed.


End Store.


(** ** Theorems on [_calc_region_stats] *)

Section RegionStats.

Variables (data_chrom indices_chrom indptr_chrom : list Z).
Variable n_cells : nat.
Variable chrom_len : Z.

Abbreviation calc_region_stats :=
  (Region._calc_region_stats data_chrom indices_chrom indptr_chrom n_cells
     chrom_len).
Abbreviation row := (store_row data_chrom indices_chrom indptr_chrom).

(** An interval that starts past the last row pointer: all counts are zero,
    all fractions NaN and no position is covered. *)
Lemma calc_region_stats_outside (start end_ : Z) :
  chrom_len < start ->
  calc_region_stats start end_
  = Some (replicate n_cells 0, replicate n_cells 0, replicate n_cells nan, 0).
Proof.
  intros Hs. unfold Region._calc_region_stats.
  destruct (Z.gtb_spec start chrom_len); [|lia]. cbn.
  rewrite zip_with_replicate. reflexivity.
Qed.

(** [_count_n_cpg] counts the values that differ from the one before. *)
Lemma count_n_cpg_changes (l : list Z) :
  forall prev n : Z,
    snd (fold_left (fun '(prev_val, n_cpg) val =>
                      if negb (val =? prev_val) then (val, n_cpg + 1)
                      else (prev_val, n_cpg)) l (prev, n))
    = n + Z.of_nat (length (filter (fun d => d <> 0) (Np.diff (prev :: l)))).
Proof.
  induction l as [|v l IH]; intros prev n; [simpl; lia|].
  rewrite diff_cons, filter_cons. cbn [fold_left].
  destruct (Z.eqb_spec v prev) as [->|Hne]; cbn [negb].
  - rewrite IH. destruct (decide (prev - prev <> 0)); [lia|reflexivity].
  - rewrite IH. destruct (decide (v - prev <> 0)); [|lia]. simpl. lia.
Qed.

Lemma nonempty_rows (rows : list (list (Z * Z))) :
  length (filter (fun d => d <> 0) (map len rows))
  = length (filter (fun r => r <> []) rows).
Proof.
  induction rows as [|r rows IH]; [reflexivity|].
  cbn [map]. rewrite !filter_cons. unfold len at 1.
  destruct r as [|x r]; simpl.
  - destruct (decide (0 <> 0)); [lia|].
    destruct (decide (@nil (Z * Z) <> [])); [contradiction|exact IH].
  - destruct (decide (Z.pos (Pos.of_succ_nat (length r)) <> 0)); [|lia].
    destruct (decide (x :: r <> [])); [|congruence]. simpl. f_equal. exact IH.
Qed.

Lemma filter_map_rows (ps : list Z) :
  length (filter (fun r => r <> []) (map row ps))
  = length (filter (fun p => row p <> []) ps).
Proof.
  induction ps as [|p ps IH]; [reflexivity|].
  cbn [map]. rewrite !filter_cons.
  destruct (decide (row p <> [])); simpl; rewrite IH; reflexivity.
Qed.

(** The loop over the entries never raises on valid column indices. *)
Lemma count_loop_total (indices : list Z) (data : list Z) :
  Forall (fun c => 0 <= c < Z.of_nat n_cells) indices ->
  forall (i : Z) (n_meth n_total : list Z),
    0 <= i -> (Z.to_nat i + length data <= length indices)%nat ->
    length n_meth = n_cells -> length n_total = n_cells ->
    exists n_meth' n_total',
      Region.count_loop indices i data n_meth n_total
      = Some (n_meth', n_total')
      /\ length n_meth' = n_cells /\ length n_total' = n_cells.
Proof.
  intros Hc. induction data as [|v data IH];
    intros i n_meth n_total Hi Hlen Hm Ht.
  - exists n_meth, n_total. auto.
  - cbn [Region.count_loop]. rewrite get_nonneg by exact Hi.
    destruct (lookup_lt_is_Some_2 indices (Z.to_nat i)) as [c Hci];
      [simpl in Hlen; lia|].
    rewrite Hci. cbn [mbind option_bind].
    assert (Hcr : 0 <= c < Z.of_nat n_cells).
    { rewrite Forall_forall in Hc. apply Hc, list_elem_of_lookup. eauto. }
    rewrite !get_nonneg by lia.
    destruct (lookup_lt_is_Some_2 n_total (Z.to_nat c)) as [t Htc]; [lia|].
    destruct (lookup_lt_is_Some_2 n_meth (Z.to_nat c)) as [m Hmc]; [lia|].
    rewrite Htc, Hmc. cbn [mbind option_bind]. rewrite !set_nonneg by lia.
    destruct (v =? -1);
      (apply IH; [lia|simpl in Hlen; lia|..];
       rewrite ?length_insert; assumption).
Qed.

Hypothesis wf :
  well_formed data_chrom indices_chrom indptr_chrom n_cells chrom_len.

(** An interval inside the chromosome that holds at least one entry: the
    function returns, and its last component counts the rows of the interval
    that hold an entry. *)
Lemma calc_region_stats_covered (start end_ : Z) :
  0 <= start <= end_ -> start <= chrom_len ->
  Exists (fun p => row p <> []) (interval_rows chrom_len start end_) ->
  exists n_meth n_total mfracs,
    calc_region_stats start end_
    = Some (n_meth, n_total, mfracs,
            Z.of_nat (length (filter (fun p => row p <> [])
                                     (interval_rows chrom_len start end_)))).
Proof.
  intros Hse Hle Hex. unfold Region._calc_region_stats.
  pose proof (wf_rows _ _ _ _ _ wf) as Hrows.
  destruct (Z.gtb_spec start chrom_len) as [Hgt|_]; [lia|].
  set (e := if end_ + 1 >? chrom_len then chrom_len else end_ + 1).
  assert (He : e = Z.min (end_ + 1) chrom_len)
    by (unfold e; destruct (Z.gtb_spec (end_ + 1) chrom_len); lia).
  destruct (rows_of_slice _ _ _ _ _ wf (Z.to_nat (e - start)) start)
    as (lo & hi & Hlo & Hhi & Hle1 & Hhi' & Hconcat & Hdiff); [lia|lia|].
  rewrite Z2Nat.id in Hhi, Hconcat, Hdiff by lia.
  replace (start + (e - start)) with e in Hhi, Hdiff by lia.
  unfold interval_rows in Hex |- *. rewrite <- He in Hex |- *.
  rewrite !get_nonneg by lia. rewrite Hlo, Hhi. cbn [mbind option_bind].
  assert (Hdata : Z.of_nat (length (Np.slice data_chrom lo hi)) = hi - lo)
    by (apply slice_length; lia).
  assert (Hidx : Z.of_nat (length (Np.slice indices_chrom lo hi)) = hi - lo)
    by (apply slice_length; rewrite ?(wf_indices _ _ _ _ _ wf); lia).
  assert (Hpos : lo < hi).
  { apply Exists_exists in Hex as (p & Hp & Hne).
    destruct (Z.eq_dec lo hi) as [->|]; [|lia]. exfalso. apply Hne.
    assert (Hnil : concat (map row (seqZ start (e - start))) = []).
    { rewrite Hconcat, slice_nonneg.
      - rewrite Z.sub_diag. reflexivity.
      - lia.
      - rewrite length_zip_with, (wf_indices _ _ _ _ _ wf), Nat.min_id. lia. }
    clear -Hnil Hp. induction (seqZ start (e - start)) as [|q qs IH];
      [inversion Hp|].
    simpl in Hnil. apply app_eq_nil in Hnil as [Hq Hqs].
    apply elem_of_cons in Hp as [->|Hp]; [exact Hq|auto]. }
  destruct (Nat.ltb_spec 0 (length (Np.slice data_chrom lo hi))); [|lia].
  destruct (count_loop_total (Np.slice indices_chrom lo hi)
              (Np.slice data_chrom lo hi)
              (slice_cols _ _ _ _ _ wf lo hi ltac:(lia) ltac:(lia))
              0 (replicate n_cells 0) (replicate n_cells 0))
    as (n_meth & n_total & Hloop & _);
    [lia|simpl; lia|apply length_replicate..|].
  rewrite Hloop. cbn [mbind option_bind].
  do 3 eexists. do 2 f_equal.
  unfold Region._count_n_cpg.
  rewrite (slice_cons _ start (e + 1) lo) by (try lia; exact Hlo).
  cbn [map fold_left]. rewrite Z.sub_diag. cbn [Z.eqb negb].
  rewrite count_n_cpg_changes.
  replace (0 :: map (fun x => x - lo)
                    (Np.slice indptr_chrom (start + 1) (e + 1)))
    with (map (fun x => x - lo)
              (lo :: Np.slice indptr_chrom (start + 1) (e + 1)))
    by (cbn [map]; rewrite Z.sub_diag; reflexivity).
  rewrite diff_shift, <- (slice_cons _ start (e + 1) lo)
    by (try lia; exact Hlo).
  rewrite <- Hdiff, nonempty_rows, filter_map_rows. lia.
Qed.

(** An interval inside the chromosome without any entry: the counts are
    zero, the fractions NaN, and the number of covered positions is the 0
    of the local that no branch assigned. *)
Lemma calc_region_stats_uncovered (start end_ : Z) :
  0 <= start <= end_ -> start <= chrom_len ->
  Forall (fun p => row p = []) (interval_rows chrom_len start end_) ->
  calc_region_stats start end_
  = Some (replicate n_cells 0, replicate n_cells 0, replicate n_cells nan, 0).
Proof.
  intros Hse Hle Hall. unfold Region._calc_region_stats.
  destruct (Z.gtb_spec start chrom_len) as [Hgt|_]; [lia|].
  set (e := if end_ + 1 >? chrom_len then chrom_len else end_ + 1).
  assert (He : e = Z.min (end_ + 1) chrom_len)
    by (unfold e; destruct (Z.gtb_spec (end_ + 1) chrom_len); lia).
  destruct (rows_of_slice _ _ _ _ _ wf (Z.to_nat (e - start)) start)
    as (lo & hi & Hlo & Hhi & Hle1 & Hhi' & Hconcat & Hdiff); [lia|lia|].
  rewrite Z2Nat.id in Hhi, Hconcat, Hdiff by lia.
  replace (start + (e - start)) with e in Hhi, Hdiff by lia.
  unfold interval_rows in Hall. rewrite <- He in Hall.
  rewrite !get_nonneg by lia. rewrite Hlo, Hhi. cbn [mbind option_bind].
  assert (Hnil : concat (map row (seqZ start (e - start))) = []).
  { clear -Hall. induction Hall as [|p ps Hp _ IH]; [reflexivity|].
    simpl. rewrite Hp, IH. reflexivity. }
  rewrite Hconcat in Hnil. apply (f_equal (@length _)) in Hnil.
  rewrite <- slice_zip in Hnil by apply (wf_indices _ _ _ _ _ wf).
  rewrite length_zip_with in Hnil. simpl in Hnil.
  assert (Hdata : Z.of_nat (length (Np.slice data_chrom lo hi)) = hi - lo)
    by (apply slice_length; lia).
  assert (Hidx : Z.of_nat (length (Np.slice indices_chrom lo hi)) = hi - lo)
    by (apply slice_length; rewrite ?(wf_indices _ _ _ _ _ wf); lia).
  destruct (Nat.ltb_spec 0 (length (Np.slice data_chrom lo hi))); [lia|].
  cbn. rewrite zip_with_replicate. reflexivity.
Qed.

(** The rows of an interval: one of them holds an entry, or none does. *)
Lemma covered_or_not (l : list Z) :
  Exists (fun p => row p <> []) l \/ Forall (fun p => row p = []) l.
Proof.
  induction l as [|p l [IH|IH]].
  - right. constructor.
  - left. apply Exists_cons_tl, IH.
  - destruct (row p) eqn:E.
    + right. constructor; assumption.
    + left. apply Exists_cons_hd. rewrite E. discriminate.
Qed.

Lemma filter_rows_none (l : list Z) :
  Forall (fun p => row p = []) l -> filter (fun p => row p <> []) l = [].
Proof.
  induction 1 as [|p l Hp _ IH]; [reflexivity|].
  rewrite filter_cons. destruct (decide (row p <> [])); [contradiction|].
  exact IH.
Qed.

(** On a well-formed store the function returns for every interval, and
    its last component is the number of rows of the interval, clipped to
    the chromosome, that hold an entry. *)
Lemma calc_region_stats_returns (start end_ : Z) :
  0 <= start <= end_ ->
  exists n_meth n_total mfracs,
    calc_region_stats start end_
    = Some (n_meth, n_total, mfracs,
            Z.of_nat (length (filter (fun p => row p <> [])
                                     (interval_rows chrom_len start end_))))
    /\ (Forall (fun p => row p = []) (interval_rows chrom_len start end_) ->
        n_meth = replicate n_cells 0 /\ n_total = replicate n_cells 0
        /\ mfracs = replicate n_cells nan).
Proof.
  intros Hse.
  destruct (Z.lt_ge_cases chrom_len start) as [Hout|Hin].
  { exists (replicate n_cells 0), (replicate n_cells 0),
      (replicate n_cells nan).
    rewrite calc_region_stats_outside by exact Hout.
    unfold interval_rows. rewrite seqZ_nil by lia. auto. }
  destruct (covered_or_not (interval_rows chrom_len start end_))
    as [Hex|Hall].
  - destruct (calc_region_stats_covered _ _ Hse Hin Hex)
      as (n_meth & n_total & mfracs & Hcalc).
    exists n_meth, n_total, mfracs. split; [exact Hcalc|].
    intros Hall. exfalso. apply Exists_exists in Hex as (p & Hp & Hne).
    rewrite Forall_forall in Hall. apply Hne, Hall, Hp.
  - exists (replicate n_cells 0), (replicate n_cells 0),
      (replicate n_cells nan).
    rewrite (calc_region_stats_uncovered _ _ Hse Hin Hall).
    rewrite (filter_rows_none _ Hall). auto.
Qed.

End RegionStats.



(** ** Theorems on the baseline smoother *)

(** The store of scenario 2: one cell, methylated at position 10 and
    unmethylated at position 12, the last row. *)
Definition scenario_store : Csr.matrix :=
  Csr.mkMatrix [1; -1] [0; 0] [0; 0; 0; 0; 0; 0; 0; 0; 0; 0; 0; 1; 1; 2] 13 1.

Example scenario_store_prepared :
  Prepare.prepare [[("chr1", 10, 1, 0); ("chr1", 12, 0, 1)]]%string
    "chr1"%string = Some scenario_store.
Proof. vm_compute. reflexivity. Qed.

(** The sum of an array from left to right, from its first element, for the
    evaluation of examples on arrays of one element. *)
Definition sum_left (l : list float) : float :=
  match l with
  | [] => 0%float
  | x :: l' => fold_left PrimFloat.add l' x
  end.

Lemma slice_length_clip {A} (l : list A) (lo hi : Z) :
  Z.of_nat (length (Np.slice l lo hi))
  = Z.max 0 (Np.clip (Z.of_nat (length l)) hi
             - Np.clip (Z.of_nat (length l)) lo).
Proof.
  unfold Np.slice. rewrite length_take, length_drop.
  unfold Np.clip. lia.
Qed.

Lemma tricube_length (bandwidth : Z) :
  Z.of_nat (length (Smoother.tricube bandwidth)) = Z.max 0 bandwidth.
Proof. unfold Smoother.tricube. rewrite length_map, length_seqZ. lia. Qed.

Section Smoothing.

Variable log1p : float -> float.
Variable np_sum : list float -> float.

Lemma select_mismatch {A} (a : list A) (mask : list bool) :
  length a <> length mask -> Smoother.select a mask = None.
Proof.
  intros H. unfold Smoother.select.
  destruct (Nat.eqb_spec (length a) (length mask)); [contradiction|].
  reflexivity.
Qed.

(** A window of another length than the kernel gives NaN. *)
Lemma smooth_at_mismatch (s : Smoother.t) (i : Z) :
  length (Smoother.window s i) <> length (Smoother.kernel s) ->
  Smoother.smooth_at np_sum s i = nan.
Proof.
  intros H. unfold Smoother.smooth_at.
  rewrite select_mismatch; [reflexivity|].
  unfold Smoother.not_nan. rewrite length_map. congruence.
Qed.

(** The window of a position has the length of the kernel exactly when the
    bandwidth is even and the window lies inside the chromosome. *)
Lemma window_mismatch (s : Smoother.t) (bandwidth i : Z) :
  1 <= bandwidth ->
  Smoother.hbw s = bandwidth / 2 ->
  Z.of_nat (length (Smoother.kernel s)) = bandwidth ->
  0 <= i < Z.of_nat (length (Smoother.mfracs s)) ->
  length (Smoother.window s i) <> length (Smoother.kernel s)
  <-> (i < Smoother.hbw s
       \/ Z.of_nat (length (Smoother.mfracs s)) < i + Smoother.hbw s
       \/ Z.odd bandwidth = true).
Proof.
  intros Hb Hh Hk Hi.
  pose proof (slice_length_clip (Smoother.mfracs s) (i - Smoother.hbw s)
                (i + Smoother.hbw s)) as Hw.
  fold (Smoother.window s i) in Hw.
  pose proof (Z.div_mod bandwidth 2 ltac:(lia)) as Hdm.
  pose proof (Z.mod_pos_bound bandwidth 2 ltac:(lia)) as Hmb.
  rewrite <- Hh in Hdm.
  assert (Hodd : Z.odd bandwidth = true <-> bandwidth mod 2 = 1)
    by (rewrite Zmod_odd; destruct (Z.odd bandwidth); split; intros; lia).
  rewrite Hodd. clear Hodd.
  assert (Hne : length (Smoother.window s i) <> length (Smoother.kernel s)
                <-> Z.of_nat (length (Smoother.window s i)) <> bandwidth)
    by (rewrite <- Hk; lia).
  rewrite Hne, Hw. clear Hne Hw Hk.
  unfold Np.clip, Np.norm.
  destruct (Z.ltb_spec (i - Smoother.hbw s) 0),
           (Z.ltb_spec (i + Smoother.hbw s) 0); split; intros; lia.
Qed.

End Smoothing.

(** C8 (as amended): at a position of the chromosome whose window has not
    the length of the kernel the smoother stores NaN instead of a computed
    value; for a bandwidth of at least 1 this happens exactly when the
    position is closer than the half-bandwidth to the start of the
    chromosome, or the window runs past its end, or the bandwidth is odd. *)
Theorem smooth_at_nan_when_window_not_aligned
    (log1p : float -> float) (np_sum : list float -> float)
    (sparse_mat : Csr.matrix) (bandwidth : Z) (weigh : bool) (i : Z) :
  let s := Smoother.init log1p sparse_mat bandwidth weigh in
  1 <= bandwidth ->
  0 <= i < Z.of_nat (length (Smoother.mfracs s)) ->
  (length (Smoother.window s i) <> length (Smoother.kernel s) ->
   Smoother.smooth_at np_sum s i = nan)
  /\ (length (Smoother.window s i) <> length (Smoother.kernel s)
      <-> (i < Smoother.hbw s
           \/ Z.of_nat (length (Smoother.mfracs s)) < i + Smoother.hbw s
           \/ Z.odd bandwidth = true)).
Proof.
  intros s Hb Hi. split; [apply smooth_at_mismatch|].
  apply (window_mismatch s bandwidth i Hb); [reflexivity| |exact Hi].
  unfold s, Smoother.init. cbn [Smoother.kernel].
  rewrite tricube_length. lia.
Qed.

(** Scenario 2 at position 12: the window runs past the end. *)
Lemma smooth_at_nan_when_window_not_aligned_witness :
  Smoother.smooth_at sum_left
    (Smoother.init (fun x => x) scenario_store 4 false) 12 = nan.
Proof.
  destruct (smooth_at_nan_when_window_not_aligned (fun x => x) sum_left
              scenario_store 4 false 12) as [Hnan Hiff];
    [lia|split; [lia|vm_compute; reflexivity]|].
  apply Hnan, Hiff. right; left. vm_compute. reflexivity.
Defined.

(** C8 as stated fails: in scenario 2 the window of position 12 starts at
    10, inside the chromosome, so nothing is cut at the start; it is cut at
    the end of the chromosome, has 3 elements for a kernel of 4, and the
    smoothed value is NaN. *)
Lemma smooth_at_nan_at_chromosome_end :
  let s := Smoother.init (fun x => x) scenario_store 4 false in
  0 <= 12 - Smoother.hbw s
  /\ length (Smoother.window s 12) = 3%nat
  /\ length (Smoother.kernel s) = 4%nat
  /\ Smoother.smooth_at sum_left s 12 = nan.
Proof. vm_compute. repeat split; congruence. Qed.

(** C7 (as amended): with half-bandwidth 2, a kernel of 4 weights, no
    coverage weighting and raw fractions defined at positions 10 and 12
    only, the window of position 10 holds the positions 8 to 11, so that the
    smoothed value at 10 is the weighted average of the fraction at 10
    alone, whatever the fraction at 12; in scenario 2 it is 1.0. *)
Theorem smooth_at_10_leaves_out_position_12
    (log1p : float -> float) (np_sum : list float -> float) :
  (forall (s : Smoother.t) (f10 f12 k0 k1 k2 k3 : float),
     Smoother.hbw s = 2 ->
     Smoother.kernel s = [k0; k1; k2; k3] ->
     Smoother.weigh s = false ->
     Smoother.mfracs s = replicate 10 nan ++ [f10; nan; f12] ->
     is_nan f10 = false ->
     Smoother.window s 10 = [nan; nan; f10; nan]
     /\ Smoother.smooth_at np_sum s 10
        = (np_sum [f10 * k2] / np_sum [k2])%float)
  /\ ((forall x, np_sum [x] = x) ->
      Smoother.smooth_at np_sum (Smoother.init log1p scenario_store 4 false) 10
      = 1%float).
Proof.
  assert (Hgen : forall (s : Smoother.t) (f10 f12 k0 k1 k2 k3 : float),
     Smoother.hbw s = 2 ->
     Smoother.kernel s = [k0; k1; k2; k3] ->
     Smoother.weigh s = false ->
     Smoother.mfracs s = replicate 10 nan ++ [f10; nan; f12] ->
     is_nan f10 = false ->
     Smoother.window s 10 = [nan; nan; f10; nan]
     /\ Smoother.smooth_at np_sum s 10
        = (np_sum [f10 * k2] / np_sum [k2])%float).
  { intros s f10 f12 k0 k1 k2 k3 Hh Hk Hw Hm Hf.
    assert (Hwin : Smoother.window s 10 = [nan; nan; f10; nan])
      by (unfold Smoother.window; rewrite Hh, Hm; reflexivity).
    split; [exact Hwin|].
    unfold Smoother.smooth_at. rewrite Hwin, Hk, Hw.
    unfold Smoother.not_nan. cbn [map]. rewrite Hf.
    reflexivity. }
  split; [exact Hgen|].
  intros Hone.
  destruct (Hgen (Smoother.init log1p scenario_store 4 false)
              1%float 0%float 0%float 0.669921875%float 1%float
              0.669921875%float) as [_ ->]; try reflexivity.
  rewrite !Hone. reflexivity.
Qed.

(** Scenario 2 with the sums taken from left to right. *)
Lemma smooth_at_10_leaves_out_position_12_witness :
  Smoother.smooth_at sum_left
    (Smoother.init (fun x => x) scenario_store 4 false) 10 = 1%float.
Proof.
  apply (proj2 (smooth_at_10_leaves_out_position_12 (fun x => x) sum_left)).
  intros x. reflexivity.
Defined.

(** Scenario 2 with the call at position 12 turned into a methylated one. *)
Definition scenario_store_12_methylated : Csr.matrix :=
  Csr.mkMatrix [1; 1] [0; 0] [0; 0; 0; 0; 0; 0; 0; 0; 0; 0; 0; 1; 1; 2] 13 1.

(** C7 as stated fails: in scenario 2 the window of position 10 is
    [mfracs[8:12]], the fractions at positions 8, 9, 10 and 11; the fraction
    0.0 of position 12 is not in it, a single fraction is averaged, and the
    smoothed value at 10 is 1.0, the same as when the fraction at 12 is
    1.0. *)
Lemma smooth_at_10_is_no_blend :
  let s := Smoother.init (fun x => x) scenario_store 4 false in
  let s' := Smoother.init (fun x => x) scenario_store_12_methylated 4 false in
  Smoother.window s 10 = Np.slice (Smoother.mfracs s) 8 12
  /\ Smoother.window s 10 = [nan; nan; 1%float; nan]
  /\ Smoother.mfracs s !! 12%nat = Some 0%float
  /\ Smoother.select (Smoother.window s 10)
       (Smoother.not_nan (Smoother.window s 10)) = Some [1%float]
  /\ Smoother.smooth_whole_chrom sum_left s = [(10, 1%float); (12, nan)]
  /\ Smoother.mfracs s' !! 12%nat = Some 1%float
  /\ Smoother.smooth_at sum_left s' 10 = Smoother.smooth_at sum_left s 10.
Proof. vm_compute. repeat split; reflexivity. Qed.

(** ** Theorems on the scan of a data directory *)

Section ScanOrder.

(** [g] is at most as large as [f]. *)
Definition not_larger (f g : Scan.chrom_file) : Prop :=
  Scan.filesize g <= Scan.filesize f.

Lemma insert_desc_perm (f : Scan.chrom_file) (l : list Scan.chrom_file) :
  Scan.insert_desc f l ≡ₚ f :: l.
Proof.
  induction l as [|g l IH]; simpl; [reflexivity|].
  destruct (Scan.filesize g <=? Scan.filesize f); [reflexivity|].
  rewrite IH. apply Permutation_swap.
Qed.

Lemma sorted_by_size_perm (paths : list Scan.chrom_file) :
  Scan.sorted_by_size paths ≡ₚ paths.
Proof.
  induction paths as [|f paths IH]; simpl; [reflexivity|].
  rewrite insert_desc_perm, IH. reflexivity.
Qed.

Lemma insert_desc_sorted (f : Scan.chrom_file) (l : list Scan.chrom_file) :
  StronglySorted not_larger l ->
  StronglySorted not_larger (Scan.insert_desc f l).
Proof.
  induction 1 as [|g l Hs IH Hg]; simpl; [repeat constructor|].
  destruct (Z.leb_spec (Scan.filesize g) (Scan.filesize f)).
  - constructor; [constructor; assumption|].
    constructor; [exact H|].
    eapply Forall_impl; [exact Hg|]. unfold not_larger. intros; lia.
  - constructor; [exact IH|]. rewrite insert_desc_perm.
    constructor; [unfold not_larger; lia|exact Hg].
Qed.

Lemma sorted_by_size_sorted (paths : list Scan.chrom_file) :
  StronglySorted not_larger (Scan.sorted_by_size paths).
Proof.
  induction paths as [|f paths IH]; simpl; [constructor|].
  apply insert_desc_sorted, IH.
Qed.

End ScanOrder.

Section ScanThreshold.

Variable nanvar : list float -> float.
Variable nanquantile : list float -> float -> float.
Variables (half_bw stepsize : Z) (var_threshold : float).

Abbreviation scan_chrom :=
  (Scan.scan_chrom nanvar nanquantile half_bw stepsize var_threshold).
Abbreviation scan_loop :=
  (Scan.scan_loop nanvar nanquantile half_bw stepsize var_threshold).

(** The threshold in force in the body of the loop: the one that is set,
    or the quantile of the variances at hand, whose level is then between
    0 and 1. *)
Lemma threshold_in_force {A} (value : option float) (variances : list float)
    (k : float -> option A) (res : A) :
  match value with
  | None => Scan.np_nanquantile nanquantile variances
              (1 - var_threshold)%float
  | Some v => Some v
  end ≫= k = Some res ->
  exists t,
    match value with
    | None => Scan.np_nanquantile nanquantile variances
                (1 - var_threshold)%float
    | Some v => Some v
    end = Some t
    /\ t = match value with
           | None => nanquantile variances (1 - var_threshold)%float
           | Some v => v
           end
    /\ k t = Some res.
Proof.
  destruct value as [v|]; [intros H; exists v; auto|].
  unfold Scan.np_nanquantile. destruct (_ && _); [|discriminate].
  intros H. eexists. eauto.
Qed.

(** The body of the loop computes a threshold only when none is set, and
    leaves the one it used set. *)
Lemma scan_chrom_threshold (value : option float) (f : Scan.chrom_file)
    (value' : option float) (r : Scan.scanned) :
  scan_chrom value f = Some (value', r) ->
  Scan.scanned_chrom r = Scan.chrom f
  /\ value' = Some (Scan.threshold_used r)
  /\ exists positions variances,
       Scan.chrom_windows nanvar half_bw stepsize f
       = Some (positions, variances)
       /\ Scan.threshold_used r
          = match value with
            | None => nanquantile variances (1 - var_threshold)%float
            | Some v => v
            end.
Proof.
  unfold Scan.scan_chrom. intros H.
  destruct (Scan.chrom_windows nanvar half_bw stepsize f)
    as [[positions variances]|]; [|discriminate].
  cbn [mbind option_bind] in H.
  destruct (Scan.smoothed_cpg_vals f) as [sm|]; [|discriminate].
  cbn [mbind option_bind] in H.
  destruct (threshold_in_force _ _ _ _ H) as (t & _ & Ht & H').
  clear H. cbn beta in H'.
  destruct (Peaks._find_peaks _ _ _ _) as [[starts ends]|]; [|discriminate].
  cbn [mbind option_bind] in H'.
  destruct (mapM _ _) as [bed|]; [|discriminate].
  cbn [mbind option_bind] in H'. injection H' as <- <-.
  cbn. repeat split; eauto.
Qed.

Lemma scan_loop_chroms (chrom_paths : list Scan.chrom_file) :
  forall (value : option float) (results : list Scan.scanned),
    scan_loop value chrom_paths = Some results ->
    map Scan.scanned_chrom results = map Scan.chrom chrom_paths.
Proof.
  induction chrom_paths as [|f fs IH]; intros value results H; simpl in H.
  - injection H as <-. reflexivity.
  - destruct (scan_chrom value f) as [[value' r]|] eqn:E; [|discriminate].
    cbn [mbind option_bind] in H.
    destruct (scan_loop value' fs) as [rs|] eqn:E'; [|discriminate].
    cbn [mbind option_bind] in H. injection H as <-.
    cbn [map]. rewrite (IH _ _ E').
    destruct (scan_chrom_threshold _ _ _ _ E) as [-> _]. reflexivity.
Qed.

(** Once a threshold is set, every later chromosome uses it. *)
Lemma scan_loop_reuses (chrom_paths : list Scan.chrom_file) :
  forall (v : float) (results : list Scan.scanned),
    scan_loop (Some v) chrom_paths = Some results ->
    Forall (fun r => Scan.threshold_used r = v) results.
Proof.
  induction chrom_paths as [|f fs IH]; intros v results H; simpl in H.
  - injection H as <-. constructor.
  - destruct (scan_chrom (Some v) f) as [[value' r]|] eqn:E; [|discriminate].
    cbn [mbind option_bind] in H.
    destruct (scan_loop value' fs) as [rs|] eqn:E'; [|discriminate].
    cbn [mbind option_bind] in H. injection H as <-.
    destruct (scan_chrom_threshold _ _ _ _ E) as (_ & -> & _ & _ & _ & Hr).
    constructor; [exact Hr|]. rewrite Hr in E'. apply (IH _ _ E').
Qed.

(** What the body of the loop of [scan] returns for a chromosome. *)
Lemma scan_chrom_peaks (value : option float) (f : Scan.chrom_file)
    (value' : option float) (r : Scan.scanned) :
  Scan.scan_chrom nanvar nanquantile half_bw stepsize var_threshold value f
  = Some (value', r) ->
  exists positions variances peak_starts peak_ends,
    Scan.chrom_windows nanvar half_bw stepsize f = Some (positions, variances)
    /\ Peaks._find_peaks variances positions (Scan.threshold_used r) half_bw
       = Some (peak_starts, peak_ends)
    /\ map fst (Scan.peaks r) = zip peak_starts peak_ends.
Proof.
  unfold Scan.scan_chrom. intros H.
  destruct (Scan.chrom_windows nanvar half_bw stepsize f)
    as [[positions variances]|]; [|discriminate].
  cbn [mbind option_bind] in H.
  destruct (Scan.smoothed_cpg_vals f) as [sm|]; [|discriminate].
  cbn [mbind option_bind] in H.
  destruct (threshold_in_force _ _ _ _ H) as (t & _ & _ & H').
  clear H. cbn beta in H'.
  destruct (Peaks._find_peaks _ _ _ _) as [[starts ends]|] eqn:Ep;
    [|discriminate].
  cbn [mbind option_bind] in H'.
  destruct (mapM _ _) as [bed|] eqn:Eb; [|discriminate].
  cbn [mbind option_bind] in H'. injection H' as <- <-.
  exists positions, variances, starts, ends.
  split; [reflexivity|]. split; [exact Ep|]. cbn [Scan.peaks].
  apply mapM_Some_1 in Eb. clear -Eb.
  induction Eb as [|se b l k Hb _ IH]; [reflexivity|].
  cbn [map]. rewrite IH. f_equal.
  destruct (Scan.residuals _ _ _ _) as [res|]; [|discriminate].
  simpl in Hb. injection Hb as <-. destruct se; reflexivity.
Qed.

Lemma scan_loop_results (chrom_paths : list Scan.chrom_file) :
  forall (value : option float) (results : list Scan.scanned),
    Scan.scan_loop nanvar nanquantile half_bw stepsize var_threshold value
      chrom_paths = Some results ->
    Forall2 (fun f r =>
               exists v v',
                 Scan.scan_chrom nanvar nanquantile half_bw stepsize
                   var_threshold v f = Some (v', r))
            chrom_paths results.
Proof.
  induction chrom_paths as [|f fs IH]; intros value results H; simpl in H.
  - injection H as <-. constructor.
  - destruct (Scan.scan_chrom _ _ _ _ _ value f) as [[value' r]|] eqn:E;
      [|discriminate].
    cbn [mbind option_bind] in H.
    destruct (Scan.scan_loop _ _ _ _ _ value' fs) as [rs|] eqn:E';
      [|discriminate].
    cbn [mbind option_bind] in H. injection H as <-.
    constructor; [eauto|]. apply (IH _ _ E').
Qed.


(** The peaks of every chromosome of the loop, once a threshold is set:
    what [_find_peaks] returns for this threshold on the windows of the
    chromosome. *)
Lemma scan_loop_peaks (chrom_paths : list Scan.chrom_file) :
  forall (v : float) (results : list Scan.scanned),
    scan_loop (Some v) chrom_paths = Some results ->
    Forall2 (fun f r =>
               Scan.scanned_chrom r = Scan.chrom f
               /\ Scan.threshold_used r = v
               /\ exists positions variances peak_starts peak_ends,
                    Scan.chrom_windows nanvar half_bw stepsize f
                    = Some (positions, variances)
                    /\ Peaks._find_peaks variances positions v half_bw
                       = Some (peak_starts, peak_ends)
                    /\ map fst (Scan.peaks r) = zip peak_starts peak_ends)
            chrom_paths results.
Proof.
  induction chrom_paths as [|f fs IH]; intros v results H; simpl in H.
  - injection H as <-. constructor.
  - destruct (scan_chrom (Some v) f) as [[value' r]|] eqn:E; [|discriminate].
    cbn [mbind option_bind] in H.
    destruct (scan_loop value' fs) as [rs|] eqn:E'; [|discriminate].
    cbn [mbind option_bind] in H. injection H as <-.
    destruct (scan_chrom_threshold _ _ _ _ E) as (Hc & -> & _ & _ & _ & Hr).
    pose proof (scan_chrom_peaks _ _ _ _ E) as Hp. rewrite Hr in Hp, E'.
    constructor; [auto|]. apply (IH _ _ E').
Qed.

End ScanThreshold.

(** C3: [scan] goes through the files in decreasing size.  The threshold
    is the quantile of level 1 minus the cutoff of the window variances of
    the first, largest chromosome, computed once; the peaks written for
    every chromosome, the first one and each one after it, are those that
    [_find_peaks] returns for this one threshold on the windows of the
    chromosome. *)
Theorem scan_threshold_from_largest_chromosome
    (nanvar : list float -> float) (nanquantile : list float -> float -> float)
    (paths : list Scan.chrom_file) (bandwidth stepsize : Z)
    (var_threshold : float) (results : list Scan.scanned) :
  Scan.scan nanvar nanquantile paths bandwidth stepsize var_threshold
  = Some results ->
  let chrom_paths := Scan.sorted_by_size paths in
  chrom_paths ≡ₚ paths
  /\ StronglySorted not_larger chrom_paths
  /\ match chrom_paths with
     | [] => results = []
     | largest :: _ =>
         Forall (fun f => Scan.filesize f <= Scan.filesize largest) paths
         /\ exists positions variances,
              Scan.chrom_windows nanvar (bandwidth / 2) stepsize largest
              = Some (positions, variances)
              /\ Forall2
                   (fun f r =>
                      Scan.scanned_chrom r = Scan.chrom f
                      /\ Scan.threshold_used r
                         = nanquantile variances (1 - var_threshold)%float
                      /\ exists positions_f variances_f peak_starts peak_ends,
                           Scan.chrom_windows nanvar (bandwidth / 2) stepsize
                             f
                           = Some (positions_f, variances_f)
                           /\ Peaks._find_peaks variances_f positions_f
                                (nanquantile variances
                                   (1 - var_threshold)%float)
                                (bandwidth / 2)
                              = Some (peak_starts, peak_ends)
                           /\ map fst (Scan.peaks r)
                              = zip peak_starts peak_ends)
                   chrom_paths results
     end.
Proof.
  intros H. unfold Scan.scan in H. cbv zeta in H |- *.
  pose proof (sorted_by_size_perm paths) as Hperm.
  pose proof (sorted_by_size_sorted paths) as Hsorted.
  set (chrom_paths := Scan.sorted_by_size paths) in *.
  split; [exact Hperm|]. split; [exact Hsorted|].
  destruct chrom_paths as [|largest rest]; simpl in H.
  - injection H as <-. reflexivity.
  - split.
    + rewrite <- Hperm. inversion Hsorted as [|? ? _ Hall]; subst.
      constructor; [lia|exact Hall].
    + destruct (Scan.scan_chrom _ _ _ _ _ None largest)
        as [[value' r]|] eqn:E; [|discriminate].
      cbn [mbind option_bind] in H.
      destruct (Scan.scan_loop _ _ _ _ _ value' rest) as [rs|] eqn:E';
        [|discriminate].
      cbn [mbind option_bind] in H. injection H as <-.
      destruct (scan_chrom_threshold _ _ _ _ _ _ _ _ _ E)
        as (Hc & -> & positions & variances & Hw & Hr).
      pose proof (scan_chrom_peaks _ _ _ _ _ _ _ _ _ E) as Hp.
      rewrite Hr in Hp, E'.
      exists positions, variances. split; [exact Hw|].
      constructor; [auto|].
      apply (scan_loop_peaks _ _ _ _ _ _ _ _ E').
Qed.

(** A data directory of two chromosomes, the larger file listed last, and
    two stand-ins for [np.nanvar] and [np.nanquantile] to run [scan] on it:
    the sum of the squared deviations from the mean, and a multiple of the
    largest value. *)
Definition example_nanvar (l : list float) : float :=
  let xs := filter (fun x => is_nan x = false) l in
  let n := Np.of_int (Z.of_nat (length xs)) in
  let mean := (sum_left xs / n)%float in
  (sum_left (map (fun x => (x - mean) * (x - mean)) xs) / n)%float.

Definition example_nanquantile (l : list float) (q : float) : float :=
  let xs := filter (fun x => is_nan x = false) l in
  (q * fold_left (fun a x => if (a <? x)%float then x else a) xs 0)%float.

Definition example_chr1 : Scan.chrom_file :=
  Scan.mkFile "chr1" 900
    (Csr.mkMatrix [1; 1; -1; 1] [0; 0; 1; 0] [0; 0; 1; 1; 1; 3; 3; 3; 3; 4]
       9 2)
    (Some (<[1 := 0.5%float]> (<[4 := 0.5%float]> (<[8 := 0.75%float]> ∅)))).

Definition example_chr2 : Scan.chrom_file :=
  Scan.mkFile "chr2" 500
    (Csr.mkMatrix [1; -1; 1] [0; 1; 0] [0; 0; 2; 2; 3] 4 3)
    (Some (<[1 := 0.5%float]> (<[3 := 0.75%float]> ∅))).

Definition example_threshold : float :=
  example_nanquantile [nan; nan; 0.0625%float; nan; nan] (1 - 0.5)%float.

Lemma scan_threshold_from_largest_chromosome_witness :
  let chrom_paths := Scan.sorted_by_size [example_chr2; example_chr1] in
  chrom_paths ≡ₚ [example_chr2; example_chr1]
  /\ StronglySorted not_larger chrom_paths
  /\ match chrom_paths with
     | [] => [Scan.mkScanned "chr1" example_threshold [(4, 5, 0.0625%float)];
              Scan.mkScanned "chr2" example_threshold []] = []
     | largest :: _ =>
         Forall (fun f => Scan.filesize f <= Scan.filesize largest)
                [example_chr2; example_chr1]
         /\ exists positions variances,
              Scan.chrom_windows example_nanvar (1 / 2) 1 largest
              = Some (positions, variances)
              /\ Forall2
                   (fun f r =>
                      Scan.scanned_chrom r = Scan.chrom f
                      /\ Scan.threshold_used r
                         = example_nanquantile variances (1 - 0.5)%float
                      /\ exists positions_f variances_f peak_starts peak_ends,
                           Scan.chrom_windows example_nanvar (1 / 2) 1 f
                           = Some (positions_f, variances_f)
                           /\ Peaks._find_peaks variances_f positions_f
                                (example_nanquantile variances
                                   (1 - 0.5)%float)
                                (1 / 2)
                              = Some (peak_starts, peak_ends)
                           /\ map fst (Scan.peaks r)
                              = zip peak_starts peak_ends)
                   chrom_paths
                   [Scan.mkScanned "chr1" example_threshold
                      [(4, 5, 0.0625%float)];
                    Scan.mkScanned "chr2" example_threshold []]
     end.
Proof.
  apply (scan_threshold_from_largest_chromosome example_nanvar
           example_nanquantile [example_chr2; example_chr1] 1 1 0.5%float).
  vm_compute. reflexivity.
Defined.

(** ** The stores of [prepare] are well formed *)

Lemma offsets_length (rows : list (list (Z * Z))) (acc : Z) :
  length (Csr.offsets acc rows) = S (length rows).
Proof.
  revert acc; induction rows as [|row rows IH]; intros acc; simpl;
    [reflexivity|].
  rewrite IH. reflexivity.
Qed.

Lemma offsets_last (rows : list (list (Z * Z))) (acc : Z) :
  last (Csr.offsets acc rows)
  = Some (acc + Z.of_nat (length (concat rows))).
Proof.
  revert acc; induction rows as [|row rows IH]; intros acc.
  - simpl. f_equal. lia.
  - cbn [Csr.offsets concat]. rewrite length_app.
    specialize (IH (acc + Z.of_nat (length row))).
    destruct (Csr.offsets (acc + Z.of_nat (length row)) rows) eqn:E;
      [destruct rows; discriminate|].
    cbn [last]. rewrite IH. f_equal. lia.
Qed.

Lemma offsets_head (rows : list (list (Z * Z))) (acc : Z) :
  head (Csr.offsets acc rows) = Some acc.
Proof. destruct rows; reflexivity. Qed.

(** A store assembled by [prepare] meets what the region statistics ask of
    a store. *)
Lemma prepare_well_formed (cells : list (list (string * Z * Z * Z)))
    (chrom : string) (m : Csr.matrix) :
  Prepare.prepare cells chrom = Some m ->
  well_formed (Csr.data m) (Csr.indices m) (Csr.indptr m) (length cells)
    (Csr.n_rows m).
Proof.
  intros Hp. apply prepare_inv in Hp as (size & Hsize & Hm).
  unfold Csr.coo_tocsr in Hm.
  destruct (forallb _ _); [|discriminate]. injection Hm as <-.
  split; cbn [Csr.of_rows Csr.data Csr.indices Csr.indptr Csr.n_rows].
  - rewrite offsets_length, length_map, length_seq. lia.
  - apply offsets_sorted.
  - apply offsets_head.
  - rewrite offsets_last, length_map. reflexivity.
  - rewrite !length_map. reflexivity.
  - apply rows_cols, enumerate_cols.
Qed.

(** * Further properties *)

(** ** Peak calling: the peaks are apart and in order *)

(** Each peak ends at or after its start, and the next one starts after
    it. *)
Definition peaks_apart (starts ends : list Z) : Prop :=
  (forall (i : nat) (s e : Z),
     starts !! i = Some s -> ends !! i = Some e -> s <= e)
  /\ (forall (i : nat) (e s : Z),
        ends !! i = Some e -> starts !! S i = Some s -> e < s).

Section PeaksApart.

Variables (var_cutoff : float) (half_bw : Z).
Hypothesis half_bw_nonneg : 0 <= half_bw.

(** What holds of the state before a window at position [q] or later. *)
Record apart_inv (st : Peaks.state) (q : Z) : Prop := {
  ai_apart : peaks_apart (Peaks.peak_starts st) (Peaks.peak_ends st);
  ai_balanced :
    length (Peaks.peak_starts st)
    = (if Peaks.in_peak st then S (length (Peaks.peak_ends st))
       else length (Peaks.peak_ends st));
  ai_sorted : StronglySorted Z.le (Peaks.peak_ends st);
  ai_ends : Forall (fun e => e <= q + half_bw) (Peaks.peak_ends st);
  ai_starts : Forall (fun s => s <= q) (Peaks.peak_starts st)
}.

Lemma apart_inv_init (q : Z) : apart_inv Peaks.init q.
Proof.
  split; simpl; try constructor; intros i ? ?; rewrite lookup_nil;
    discriminate.
Qed.

Lemma lookup_removelast (l : list Z) (i : nat) (x : Z) :
  removelast l !! i = Some x -> l !! i = Some x.
Proof.
  destruct (last_snoc_cases l) as [->|(l' & y & ->)]; [discriminate|].
  rewrite removelast_last. intros H. apply lookup_app_l_Some. exact H.
Qed.

Lemma step_apart (st : Peaks.state) (v : float) (p q : Z) :
  p <= q -> apart_inv st p ->
  apart_inv (Peaks.step var_cutoff half_bw st (v, p)) q.
Proof.
  intros Hpq [[Hse Hes] Hbal Hsorted Hends Hstarts].
  assert (Hends_q : Forall (fun e => e <= q + half_bw) (Peaks.peak_ends st))
    by (eapply Forall_impl; [exact Hends|]; simpl; intros; lia).
  assert (Hstarts_q : Forall (fun s => s <= q) (Peaks.peak_starts st))
    by (eapply Forall_impl; [exact Hstarts|]; simpl; intros; lia).
  unfold Peaks.step.
  destruct (var_cutoff <? v)%float; destruct (Peaks.in_peak st) eqn:Ein;
    cbn [negb].
  - split; simpl; rewrite ?Ein; try assumption. split; assumption.
  - destruct (last_snoc_cases (Peaks.peak_ends st))
      as [Enil|(ends' & last_end & Eends)].
    + rewrite Enil in *. cbn [Peaks.truthy andb].
      split; simpl; rewrite ?Enil; try assumption.
      * split.
        -- intros i s e _ He. rewrite lookup_nil in He. discriminate.
        -- intros i e s He. rewrite lookup_nil in He. discriminate.
      * rewrite length_app. simpl in *. lia.
      * apply Forall_app. split; [assumption|]. repeat constructor. lia.
    + assert (Hmax : Peaks.py_max (Peaks.peak_ends st) = last_end).
      { apply py_max_sorted; [exact Hsorted|].
        rewrite Eends. apply last_snoc. }
      assert (Htruthy : Peaks.truthy (Peaks.peak_ends st) = true)
        by (rewrite Eends; destruct ends'; reflexivity).
      rewrite Htruthy, Hmax. cbn [andb].
      destruct (Z.leb_spec (p - half_bw) last_end) as [Hmerge|Hnew].
      * split; simpl.
        -- split.
           ++ intros i s e Hs He. apply (Hse i s e Hs).
              apply lookup_removelast, He.
           ++ intros i e s He Hs. apply (Hes i e s); [|exact Hs].
              apply lookup_removelast, He.
        -- rewrite Hbal, Eends, removelast_last, length_app. simpl. lia.
        -- apply sorted_removelast, Hsorted.
        -- rewrite Forall_forall in Hends_q |- *. intros e He.
           apply Hends_q.
           apply list_elem_of_In, incl_removelast, list_elem_of_In, He.
        -- exact Hstarts_q.
      * split; simpl; try assumption.
        -- split.
           ++ intros i s e Hs He. apply (Hse i s e); [|exact He].
              apply lookup_lt_Some in He.
              rewrite lookup_app_l in Hs by lia. exact Hs.
           ++ intros i e s He Hs.
              destruct (Nat.lt_ge_cases (S i) (length (Peaks.peak_starts st)))
                as [Hlt|Hge].
              ** rewrite lookup_app_l in Hs by exact Hlt.
                 apply (Hes i e s He Hs).
              ** pose proof (lookup_lt_Some _ _ _ He) as Hi.
                 rewrite lookup_app_r in Hs by exact Hge.
                 assert (Ei : (S i - length (Peaks.peak_starts st) = 0)%nat)
                   by lia.
                 rewrite Ei in Hs. injection Hs as <-.
                 assert (He' : e <= last_end).
                 { apply (sorted_lookup_le (Peaks.peak_ends st) i
                            (length ends') e last_end Hsorted).
                   - rewrite Eends, length_app in Hi. simpl in Hi. lia.
                   - exact He.
                   - rewrite Eends. apply list_lookup_middle. reflexivity. }
                 lia.
        -- rewrite length_app. simpl. lia.
        -- apply Forall_app. split; [assumption|]. repeat constructor. lia.
  - split; simpl; try assumption.
    + split.
      * intros i s e Hs He.
        destruct (Nat.lt_ge_cases i (length (Peaks.peak_ends st)))
          as [Hlt|Hge].
        -- rewrite lookup_app_l in He by exact Hlt. apply (Hse i s e Hs He).
        -- rewrite lookup_app_r in He by exact Hge.
           pose proof (lookup_lt_Some _ _ _ Hs) as Hi.
           assert (Ei : (i - length (Peaks.peak_ends st) = 0)%nat) by lia.
           rewrite Ei in He. injection He as <-.
           rewrite Forall_forall in Hstarts.
           assert (s <= p) by (apply Hstarts, list_elem_of_lookup; eauto).
           lia.
      * intros i e s He Hs.
        pose proof (lookup_lt_Some _ _ _ Hs) as Hi.
        rewrite lookup_app_l in He by lia. apply (Hes i e s He Hs).
    + rewrite length_app. simpl. lia.
    + apply sorted_snoc; assumption.
    + apply Forall_app. split; [assumption|]. repeat constructor. lia.
  - split; simpl; rewrite ?Ein; try assumption. split; assumption.
Qed.

Lemma run_apart (ws : list (float * Z)) :
  forall (st : Peaks.state) (z : Z),
    StronglySorted Z.le (map snd ws) ->
    Forall (fun q => q <= z) (map snd ws) ->
    (forall q, q ∈ map snd ws \/ q = z -> apart_inv st q) ->
    apart_inv (fold_left (Peaks.step var_cutoff half_bw) ws st) z.
Proof.
  induction ws as [|[v p] ws IH]; intros st z Hs Hz Hinv; simpl.
  - apply Hinv. right. reflexivity.
  - simpl in Hs, Hz. inversion Hs as [|? ? Hs' Hp]; subst.
    apply Forall_cons in Hz as [Hpz Hz].
    apply IH; [exact Hs'|exact Hz|].
    intros q Hq. apply step_apart.
    + destruct Hq as [Hq| ->]; [|exact Hpz].
      rewrite Forall_forall in Hp. apply Hp, Hq.
    + apply Hinv. left. left.
Qed.

End PeaksApart.

Lemma combine_sorted (vars : list float) (centers : list Z) :
  StronglySorted Z.le centers ->
  StronglySorted Z.le (map snd (combine vars centers)).
Proof.
  intros Hs. revert vars. induction Hs as [|c centers Hs IH Hc];
    intros [|v vars]; simpl; try constructor; [apply IH|].
  rewrite Forall_forall in Hc |- *. intros x Hx. apply Hc.
  apply list_elem_of_fmap in Hx as ([v' x'] & -> & Hin).
  apply list_elem_of_In, in_combine_r, list_elem_of_In in Hin. exact Hin.
Qed.

Lemma find_peaks_sorted_apart (smoothed_vars : list float)
    (swindow_centers : list Z) (var_cutoff : float) (half_bw : Z) :
  0 <= half_bw ->
  StronglySorted Z.le swindow_centers ->
  exists peak_starts peak_ends,
    Peaks._find_peaks smoothed_vars swindow_centers var_cutoff half_bw
    = Some (peak_starts, peak_ends)
    /\ length peak_starts = length peak_ends
    /\ peaks_apart peak_starts peak_ends.
Proof.
  intros Hbw Hsorted.
  apply (combine_sorted smoothed_vars) in Hsorted.
  unfold Peaks._find_peaks, Peaks.run.
  set (ws := combine smoothed_vars swindow_centers) in *.
  destruct (last_snoc_cases ws) as [->|(ws' & [v p] & Ews)].
  { exists [], []. split; [reflexivity|]. split; [reflexivity|].
    split; intros i ? ?; rewrite lookup_nil; discriminate. }
  assert (Hz : Forall (fun q => q <= p) (map snd ws)).
  { rewrite Ews, map_app in Hsorted |- *. simpl in *.
    apply sorted_snoc_inv in Hsorted as [_ Hle].
    apply Forall_app. split; [exact Hle|]. repeat constructor. lia. }
  pose proof (run_apart var_cutoff half_bw Hbw ws Peaks.init p Hsorted Hz
                (fun q _ => apart_inv_init half_bw q)) as Hinv.
  pose proof (run_pos var_cutoff half_bw ws Peaks.init) as Hpos.
  assert (Hlast : last (map snd ws) = Some p)
    by (rewrite Ews, map_app; apply last_snoc).
  rewrite Hlast in Hpos.
  destruct Hinv as [[Hse Hes] Hbal _ _ Hstarts].
  unfold Peaks.finish. rewrite Hpos.
  set (st := fold_left (Peaks.step var_cutoff half_bw) ws Peaks.init) in *.
  destruct (Peaks.in_peak st).
  - assert (Hlen : length (Peaks.peak_starts st)
                   = length (Peaks.peak_ends st ++ [p]))
      by (rewrite length_app; simpl; lia).
    rewrite Hlen, Nat.eqb_refl. do 2 eexists.
    split; [reflexivity|]. split; [exact Hlen|]. split.
    + intros i s e Hs He.
      destruct (Nat.lt_ge_cases i (length (Peaks.peak_ends st))) as [Hlt|Hge].
      * rewrite lookup_app_l in He by exact Hlt. apply (Hse i s e Hs He).
      * rewrite lookup_app_r in He by exact Hge.
        pose proof (lookup_lt_Some _ _ _ Hs) as Hi.
        assert (Ei : (i - length (Peaks.peak_ends st) = 0)%nat) by lia.
        rewrite Ei in He. injection He as <-.
        rewrite Forall_forall in Hstarts.
        apply Hstarts, list_elem_of_lookup. eauto.
    + intros i e s He Hs.
      pose proof (lookup_lt_Some _ _ _ Hs) as Hi.
      rewrite lookup_app_l in He by lia. apply (Hes i e s He Hs).
  - rewrite Hbal, Nat.eqb_refl. do 2 eexists.
    split; [reflexivity|]. split; [exact Hbal|]. split; assumption.
Qed.

(** A window of a position and a half-bandwidth within the range of
    [int64]. *)
Definition in_int64 (half_bw pos : Z) : Prop :=
  - 2 ^ 63 <= pos - half_bw /\ pos + half_bw < 2 ^ 63.

Lemma wrap64_in_range (z : Z) :
  - 2 ^ 63 <= z < 2 ^ 63 -> Peaks.wrap64 z = z.
Proof.
  intros Hz. unfold Peaks.wrap64. rewrite Z.mod_small; lia.
Qed.

(** On windows within the range of [int64] the compiled arithmetic is the
    arithmetic of the integers. *)
Lemma find_peaks_int64_exact (smoothed_vars : list float)
    (swindow_centers : list Z) (var_cutoff : float) (half_bw : Z) :
  0 <= half_bw ->
  Forall (in_int64 half_bw) swindow_centers ->
  Peaks._find_peaks_int64 smoothed_vars swindow_centers var_cutoff half_bw
  = Peaks._find_peaks smoothed_vars swindow_centers var_cutoff half_bw.
Proof.
  intros Hh Hall. unfold Peaks._find_peaks_int64, Peaks._find_peaks, Peaks.run.
  f_equal.
  assert (Hws : Forall (fun w : float * Z => in_int64 half_bw (snd w))
                       (combine smoothed_vars swindow_centers)).
  { apply Forall_forall. intros [v q] Hin.
    apply list_elem_of_In, in_combine_r in Hin.
    rewrite Forall_forall in Hall. apply Hall, list_elem_of_In, Hin. }
  revert Hws. generalize (combine smoothed_vars swindow_centers).
  generalize Peaks.init. intros st ws Hws. revert st.
  induction Hws as [|[v q] ws [Hlo Hhi] _ IH]; intros st; [reflexivity|].
  cbn [fold_left]. rewrite <- IH. f_equal.
  unfold Peaks.step_int64, Peaks.step. cbn [snd] in Hlo, Hhi.
  rewrite !wrap64_in_range by lia. reflexivity.
Qed.

(** Beyond that range the end of a peak wraps around and lies before its
    start. *)
Example find_peaks_int64_wraps :
  Peaks._find_peaks_int64 [1; 0]%float [2 ^ 63 - 2; 2 ^ 63 - 1] 0.5%float 5
  = Some ([9223372036854775801], [-9223372036854775804]).
Proof. vm_compute. reflexivity. Qed.

(** X1: over windows in genomic order, with a half-bandwidth that is not
    negative and as long as no window reaches beyond the range of [int64],
    the compiled [_find_peaks] returns as many ends as starts, every peak
    ends at or after its start, and every peak starts after the end of the
    one before: the peaks do not overlap and come in ascending order. *)
Theorem find_peaks_apart (smoothed_vars : list float)
    (swindow_centers : list Z) (var_cutoff : float) (half_bw : Z) :
  0 <= half_bw ->
  StronglySorted Z.le swindow_centers ->
  Forall (in_int64 half_bw) swindow_centers ->
  exists peak_starts peak_ends,
    Peaks._find_peaks_int64 smoothed_vars swindow_centers var_cutoff half_bw
    = Some (peak_starts, peak_ends)
    /\ length peak_starts = length peak_ends
    /\ peaks_apart peak_starts peak_ends.
Proof.
  intros Hh Hs Hall. rewrite find_peaks_int64_exact by assumption.
  apply find_peaks_sorted_apart; assumption.
Qed.

(** Three runs above the threshold, the last two close to each other. *)
Lemma find_peaks_apart_witness :
  exists peak_starts peak_ends,
    Peaks._find_peaks_int64 [0.9; 0.1; 0.1; 0.8; 0.2; 0.7]%float
      [10; 20; 30; 40; 50; 60] 0.5%float 6
    = Some (peak_starts, peak_ends)
    /\ length peak_starts = length peak_ends
    /\ peaks_apart peak_starts peak_ends.
Proof.
  apply find_peaks_apart; [lia|repeat constructor; lia|].
  repeat (constructor; [unfold in_int64; lia|]). constructor.
Defined.

(** ** Peak calling: when there is no peak *)

Section NoPeak.

Variables (var_cutoff : float) (half_bw : Z).

Definition above (w : float * Z) : Prop := (var_cutoff <? fst w)%float = true.

Lemma run_below (ws : list (float * Z)) :
  Forall (fun w => ~ above w) ws ->
  forall st,
    Peaks.peak_starts st = [] -> Peaks.peak_ends st = [] ->
    Peaks.in_peak st = false ->
    let st' := fold_left (Peaks.step var_cutoff half_bw) ws st in
    Peaks.peak_starts st' = [] /\ Peaks.peak_ends st' = []
    /\ Peaks.in_peak st' = false.
Proof.
  induction 1 as [|[v p] ws Hw _ IH]; intros st Hs He Hi; simpl; [auto|].
  apply IH; unfold Peaks.step; unfold above in Hw; simpl in Hw;
    (destruct (var_cutoff <? v)%float; [exfalso; apply Hw; reflexivity|]);
    rewrite Hi; simpl; first [assumption|reflexivity].
Qed.

Lemma step_keeps_starts (st : Peaks.state) (w : float * Z) :
  Peaks.peak_starts st <> [] ->
  Peaks.peak_starts (Peaks.step var_cutoff half_bw st w) <> [].
Proof.
  destruct w as [v p]. intros Hne. unfold Peaks.step.
  destruct (var_cutoff <? v)%float, (Peaks.in_peak st); simpl; try exact Hne.
  destruct (_ && _); simpl; [exact Hne|].
  destruct (Peaks.peak_starts st); [contradiction|discriminate].
Qed.

Lemma run_keeps_starts (ws : list (float * Z)) (st : Peaks.state) :
  Peaks.peak_starts st <> [] ->
  Peaks.peak_starts (fold_left (Peaks.step var_cutoff half_bw) ws st) <> [].
Proof.
  revert st; induction ws as [|w ws IH]; intros st Hne; simpl; [exact Hne|].
  apply IH, step_keeps_starts, Hne.
Qed.

Lemma run_above (ws : list (float * Z)) :
  Exists above ws ->
  forall st,
    Peaks.peak_starts st = [] -> Peaks.peak_ends st = [] ->
    Peaks.in_peak st = false ->
    Peaks.peak_starts (fold_left (Peaks.step var_cutoff half_bw) ws st) <> [].
Proof.
  induction ws as [|[v p] ws IH]; intros Hex st Hs He Hi;
    [inversion Hex|].
  cbn [fold_left]. destruct (var_cutoff <? v)%float eqn:Ev.
  - apply run_keeps_starts. unfold Peaks.step. rewrite Ev, Hi, He, Hs.
    simpl. discriminate.
  - apply IH.
    + apply Exists_cons in Hex as [Hex|Hex]; [|exact Hex].
      unfold above in Hex. simpl in Hex. congruence.
    + unfold Peaks.step. rewrite Ev, Hi. exact Hs.
    + unfold Peaks.step. rewrite Ev, Hi. exact He.
    + unfold Peaks.step. rewrite Ev, Hi. reflexivity.
Qed.

Lemma below_or_above (ws : list (float * Z)) :
  Forall (fun w => (var_cutoff <? fst w)%float = false) ws
  \/ Exists above ws.
Proof.
  induction ws as [|w ws [IH|IH]].
  - left. constructor.
  - destruct (var_cutoff <? fst w)%float eqn:E.
    + right. apply Exists_cons. left. exact E.
    + left. constructor; assumption.
  - right. apply Exists_cons. right. exact IH.
Qed.

End NoPeak.

(** X3: [_find_peaks] returns no peak exactly when no window has a variance
    above the threshold. *)
Theorem find_peaks_none_iff (smoothed_vars : list float)
    (swindow_centers : list Z) (var_cutoff : float) (half_bw : Z) :
  Peaks._find_peaks smoothed_vars swindow_centers var_cutoff half_bw
  = Some ([], [])
  <-> Forall (fun w => (var_cutoff <? fst w)%float = false)
             (combine smoothed_vars swindow_centers).
Proof.
  unfold Peaks._find_peaks, Peaks.run.
  set (ws := combine smoothed_vars swindow_centers). split.
  - intros H.
    destruct (below_or_above var_cutoff ws) as [Hall|Hex]; [exact Hall|].
    exfalso.
    pose proof (run_above var_cutoff half_bw ws Hex Peaks.init
                  eq_refl eq_refl eq_refl) as Hne.
    unfold Peaks.finish in H.
    destruct (Peaks.in_peak _); [destruct (Peaks.pos _)|];
      try discriminate;
      destruct (_ =? _)%nat; try discriminate; congruence.
  - intros Hall.
    assert (Hall' : Forall (fun w => ~ above var_cutoff w) ws)
      by (eapply Forall_impl; [exact Hall|]; unfold above; simpl;
          intros; congruence).
    destruct (run_below var_cutoff half_bw ws Hall' Peaks.init
                eq_refl eq_refl eq_refl) as (Hs & He & Hi).
    unfold Peaks.finish. rewrite Hi, Hs, He. reflexivity.
Qed.

Lemma ltb_nan_l (v : float) : (nan <? v)%float = false.
Proof. rewrite ltb_spec. reflexivity. Qed.

Lemma ltb_nan_r (v : float) : (v <? nan)%float = false.
Proof.
  rewrite ltb_spec. unfold SFltb. change (Prim2SF nan) with S754_nan.
  destruct (Prim2SF v) as [s|s| |s m e]; try reflexivity;
    destruct s; reflexivity.
Qed.

Lemma find_peaks_nan (smoothed_vars : list float)
    (swindow_centers : list Z) (half_bw : Z) :
  Peaks._find_peaks smoothed_vars swindow_centers nan half_bw = Some ([], []).
Proof.
  unfold Peaks._find_peaks, Peaks.run.
  destruct (run_below nan half_bw (combine smoothed_vars swindow_centers))
    with (st := Peaks.init) as (Hs & He & Hi); try reflexivity.
  - apply Forall_forall. intros w _. unfold above. rewrite ltb_nan_l.
    discriminate.
  - unfold Peaks.finish. rewrite Hi, Hs, He. reflexivity.
Qed.

(** ** The scan: windows, peaks and failures *)

Lemma arange_sorted (start stop step : Z) :
  1 <= step ->
  StronglySorted Z.lt (Scan.arange start stop step)
  /\ Forall (fun pos => start <= pos < stop) (Scan.arange start stop step).
Proof.
  intros Hstep. unfold Scan.arange.
  set (n := (stop - start + step - 1) / step).
  assert (Hn : step * (n - 1) < stop - start).
  { pose proof (Z.mul_div_le (stop - start + step - 1) step ltac:(lia)).
    fold n in H. nia. }
  clearbody n.
  assert (Hgen : forall (k : nat) (m : Z),
            0 <= m -> m + Z.of_nat k <= n ->
            StronglySorted Z.lt
              (map (fun j => start + step * j) (seqZ m (Z.of_nat k)))
            /\ Forall (fun pos => start + step * m <= pos < stop)
                 (map (fun j => start + step * j) (seqZ m (Z.of_nat k)))).
  { induction k as [|k IH]; intros m Hm Hk; [split; constructor|].
    rewrite seqZ_cons by lia.
    replace (Z.succ m) with (m + 1) by lia.
    replace (Z.pred (Z.of_nat (S k))) with (Z.of_nat k) by lia.
    destruct (IH (m + 1)) as [Hs Hb]; [lia..|].
    cbn [map]. split.
    - constructor; [exact Hs|].
      eapply Forall_impl; [exact Hb|]. simpl. intros; nia.
    - constructor; [nia|].
      eapply Forall_impl; [exact Hb|]. simpl. intros; nia. }
  destruct (Z.le_gt_cases n 0) as [Hle|Hgt].
  - rewrite seqZ_nil by exact Hle. split; constructor.
  - destruct (Hgen (Z.to_nat n) 0) as [Hs Hb]; [lia..|].
    rewrite Z2Nat.id in Hs, Hb by lia. split; [exact Hs|].
    eapply Forall_impl; [exact Hb|]. simpl. intros; lia.
Qed.

Section ScanFacts.

Variable nanvar : list float -> float.
Variable nanquantile : list float -> float -> float.
Variables (half_bw stepsize : Z) (var_threshold : float).

(** The windows of a chromosome, when [_move_windows] returns. *)
Lemma chrom_windows_spec (f : Scan.chrom_file) (positions : list Z)
    (variances : list float) :
  Scan.chrom_windows nanvar half_bw stepsize f = Some (positions, variances) ->
  exists first last_,
    head (Scan.nonzero (Np.diff (Csr.indptr (Scan.mat f)))) = Some first
    /\ last (Scan.nonzero (Np.diff (Csr.indptr (Scan.mat f)))) = Some last_
    /\ positions
       = Scan.arange (first + half_bw + 1) (last_ - half_bw - 1) stepsize
    /\ length variances = length positions.
Proof.
  unfold Scan.chrom_windows, Scan._move_windows. intros H.
  destruct (Scan.smoothed_cpg_vals f) as [sm|]; [|discriminate].
  cbn [mbind option_bind] in H.
  destruct (head _) as [first|]; [|discriminate].
  destruct (last _) as [last_|]; [|discriminate].
  cbn [mbind option_bind] in H.
  destruct (mapM _ _) as [vars|] eqn:E; [|discriminate].
  cbn [mbind option_bind] in H. injection H as <- <-.
  exists first, last_. repeat split. symmetry. apply (length_mapM _ _ _ E).
Qed.

End ScanFacts.

(** X5: in [scan], with a step of at least 1, the window centers of a
    chromosome are strictly increasing, each window lies strictly between
    the first and the last covered position of the chromosome, and there is
    one variance for each window. *)
Theorem chrom_windows_inside (nanvar : list float -> float)
    (half_bw stepsize : Z) (f : Scan.chrom_file) (positions : list Z)
    (variances : list float) :
  1 <= stepsize ->
  Scan.chrom_windows nanvar half_bw stepsize f = Some (positions, variances) ->
  length variances = length positions
  /\ StronglySorted Z.lt positions
  /\ exists first last_,
       head (Scan.nonzero (Np.diff (Csr.indptr (Scan.mat f)))) = Some first
       /\ last (Scan.nonzero (Np.diff (Csr.indptr (Scan.mat f)))) = Some last_
       /\ Forall (fun pos => first < pos - half_bw /\ pos + half_bw < last_ - 1)
                 positions.
Proof.
  intros Hstep H.
  destruct (chrom_windows_spec _ _ _ _ _ _ H)
    as (first & last_ & Hf & Hl & -> & Hlen).
  destruct (arange_sorted (first + half_bw + 1) (last_ - half_bw - 1)
              stepsize Hstep) as [Hs Hb].
  split; [exact Hlen|]. split; [exact Hs|].
  exists first, last_. split; [exact Hf|]. split; [exact Hl|].
  eapply Forall_impl; [exact Hb|]. simpl. intros; lia.
Qed.

Lemma chrom_windows_inside_witness :
  length [nan; nan; 0.0625%float; nan; nan] = length [2; 3; 4; 5; 6]
  /\ StronglySorted Z.lt [2; 3; 4; 5; 6]
  /\ exists first last_,
       head (Scan.nonzero (Np.diff (Csr.indptr (Scan.mat example_chr1))))
       = Some first
       /\ last (Scan.nonzero (Np.diff (Csr.indptr (Scan.mat example_chr1))))
          = Some last_
       /\ Forall (fun pos => first < pos - 0 /\ pos + 0 < last_ - 1)
                 [2; 3; 4; 5; 6].
Proof.
  apply (chrom_windows_inside example_nanvar 0 1 example_chr1); [lia|].
  vm_compute. reflexivity.
Defined.

(** X6: when [scan] returns, with a bandwidth that is not negative and a
    step of at least 1, the peaks written for each chromosome do not
    overlap and come in ascending order. *)
Theorem scan_peaks_apart (nanvar : list float -> float)
    (nanquantile : list float -> float -> float)
    (paths : list Scan.chrom_file) (bandwidth stepsize : Z)
    (var_threshold : float) (results : list Scan.scanned) :
  0 <= bandwidth -> 1 <= stepsize ->
  Scan.scan nanvar nanquantile paths bandwidth stepsize var_threshold
  = Some results ->
  Forall (fun r => peaks_apart (map (fun p => fst (fst p)) (Scan.peaks r))
                               (map (fun p => snd (fst p)) (Scan.peaks r)))
         results.
Proof.
  intros Hbw Hstep H. unfold Scan.scan in H. cbv zeta in H.
  apply scan_loop_results in H.
  assert (Hh : 0 <= bandwidth / 2) by (apply Z.div_pos; lia).
  induction H as [|f r fs rs (v & v' & Hr) _ IH]; constructor; [|exact IH].
  destruct (scan_chrom_peaks _ _ _ _ _ _ _ _ _ Hr)
    as (positions & variances & starts & ends & Hw & Hp & Hz).
  destruct (chrom_windows_spec _ _ _ _ _ _ Hw)
    as (first & last_ & _ & _ & -> & _).
  destruct (arange_sorted (first + bandwidth / 2 + 1)
              (last_ - bandwidth / 2 - 1) stepsize Hstep) as [Hs _].
  destruct (find_peaks_sorted_apart variances
              (Scan.arange (first + bandwidth / 2 + 1)
                 (last_ - bandwidth / 2 - 1) stepsize)
              (Scan.threshold_used r) (bandwidth / 2) Hh)
    as (starts' & ends' & Hp' & Hlen & Hap).
  { clear -Hs. induction Hs; constructor; [assumption|].
    eapply Forall_impl; [eassumption|]. simpl. intros; lia. }
  rewrite Hp in Hp'. injection Hp' as <- <-.
  assert (E1 : map (fun p => fst (fst p)) (Scan.peaks r) = starts).
  { rewrite <- (fst_zip starts ends) by lia. rewrite <- Hz.
    rewrite <- list_fmap_compose. reflexivity. }
  assert (E2 : map (fun p => snd (fst p)) (Scan.peaks r) = ends).
  { rewrite <- (snd_zip starts ends) by lia. rewrite <- Hz.
    rewrite <- list_fmap_compose. reflexivity. }
  rewrite E1, E2. exact Hap.
Qed.

Lemma scan_peaks_apart_witness :
  Forall (fun r => peaks_apart (map (fun p => fst (fst p)) (Scan.peaks r))
                               (map (fun p => snd (fst p)) (Scan.peaks r)))
         [Scan.mkScanned "chr1" example_threshold [(4, 5, 0.0625%float)];
          Scan.mkScanned "chr2" example_threshold []].
Proof.
  apply (scan_peaks_apart example_nanvar example_nanquantile
           [example_chr2; example_chr1] 1 1 0.5%float); [lia|lia|].
  vm_compute. reflexivity.
Defined.

Lemma is_nan_eq (v : float) : is_nan v = true -> v = nan.
Proof.
  unfold is_nan. rewrite FloatAxioms.eqb_spec. intros H.
  rewrite <- (SF2Prim_Prim2SF v).
  destruct (Prim2SF v) as [[|]|[|]| |[|] m e]; try discriminate;
    try reflexivity; exfalso; unfold SFeqb, SFcompare in H;
    rewrite Z.compare_refl, Pos.compare_cont_refl in H; discriminate.
Qed.

(** X2: the assertion at the end of [_find_peaks] never fails: whatever the
    variances, the positions, the threshold and the half-bandwidth, the
    function returns, with as many peak ends as peak starts. *)
Theorem find_peaks_assertion_holds (smoothed_vars : list float)
    (swindow_centers : list Z) (var_cutoff : float) (half_bw : Z) :
  exists peak_starts peak_ends,
    Peaks._find_peaks smoothed_vars swindow_centers var_cutoff half_bw
    = Some (peak_starts, peak_ends)
    /\ length peak_starts = length peak_ends.
Proof. apply find_peaks_total. Qed.

(** X4: with a threshold that is NaN no window is above the threshold and
    [_find_peaks] returns no peak, whatever the variances. *)
Theorem find_peaks_nan_threshold (smoothed_vars : list float)
    (swindow_centers : list Z) (var_cutoff : float) (half_bw : Z) :
  is_nan var_cutoff = true ->
  Peaks._find_peaks smoothed_vars swindow_centers var_cutoff half_bw
  = Some ([], []).
Proof. intros H. rewrite (is_nan_eq _ H). apply find_peaks_nan. Qed.

Lemma find_peaks_nan_threshold_witness :
  Peaks._find_peaks [0.5%float; 0.75%float] [10; 20] (0 / 0)%float 5
  = Some ([], []).
Proof. apply find_peaks_nan_threshold. vm_compute. reflexivity. Defined.

(** X8: whenever [scan] returns and the quantile computed on the largest
    chromosome is NaN, no peak was written for any chromosome. *)
Theorem scan_nan_threshold_no_peaks (nanvar : list float -> float)
    (nanquantile : list float -> float -> float)
    (paths : list Scan.chrom_file) (bandwidth stepsize : Z)
    (var_threshold : float) (results : list Scan.scanned)
    (largest : Scan.chrom_file) (positions : list Z)
    (variances : list float) :
  Scan.scan nanvar nanquantile paths bandwidth stepsize var_threshold
  = Some results ->
  head (Scan.sorted_by_size paths) = Some largest ->
  Scan.chrom_windows nanvar (bandwidth / 2) stepsize largest
  = Some (positions, variances) ->
  is_nan (nanquantile variances (1 - var_threshold)%float) = true ->
  Forall (fun r => Scan.peaks r = []) results.
Proof.
  intros H Hhead Hw Hnan. unfold Scan.scan in H. cbv zeta in H.
  destruct (Scan.sorted_by_size paths) as [|f fs]; [discriminate|].
  injection Hhead as ->. simpl in H.
  destruct (Scan.scan_chrom _ _ _ _ _ None largest) as [[value' r]|] eqn:E;
    [|discriminate].
  cbn [mbind option_bind] in H.
  destruct (Scan.scan_loop _ _ _ _ _ value' fs) as [rs|] eqn:E';
    [|discriminate].
  cbn [mbind option_bind] in H. injection H as <-.
  destruct (scan_chrom_threshold _ _ _ _ _ _ _ _ _ E)
    as (_ & -> & positions' & variances' & Hw' & Ht).
  rewrite Hw in Hw'. injection Hw' as <- <-.
  rewrite Ht, (is_nan_eq _ Hnan) in E'.
  assert (Hall : Forall (fun r => Scan.threshold_used r = nan) (r :: rs)).
  { constructor; [rewrite Ht; apply is_nan_eq, Hnan|].
    apply (scan_loop_reuses _ _ _ _ _ _ _ _ E'). }
  assert (Hres : Forall2 (fun f r =>
               exists v v',
                 Scan.scan_chrom nanvar nanquantile (bandwidth / 2) stepsize
                   var_threshold v f = Some (v', r))
            (largest :: fs) (r :: rs)).
  { constructor; [eauto|]. apply (scan_loop_results _ _ _ _ _ _ _ _ E'). }
  clear -Hall Hres.
  induction Hres as [|g s gs ss (v & v' & Hs) _ IH]; [constructor|].
  apply Forall_cons in Hall as [Hn Hall]. constructor; [|apply IH, Hall].
  destruct (scan_chrom_peaks _ _ _ _ _ _ _ _ _ Hs)
    as (pos & vars & starts & ends & _ & Hp & Hz).
  rewrite Hn, find_peaks_nan in Hp. injection Hp as <- <-.
  destruct (Scan.peaks s); [reflexivity|discriminate].
Qed.

(** A stand-in for [np.nanquantile] that, like it, gives NaN on an array
    without a number. *)
Definition example_nanquantile_or_nan (l : list float) (q : float) : float :=
  match filter (fun x => is_nan x = false) l with
  | [] => nan
  | _ => example_nanquantile l q
  end.

(** With a step of 3 no window of the larger chromosome holds a covered
    position: every variance is NaN, and so is the quantile. *)
Lemma scan_nan_threshold_no_peaks_witness :
  Forall (fun r => Scan.peaks r = [])
         [Scan.mkScanned "chr1" nan []; Scan.mkScanned "chr2" nan []].
Proof.
  apply (scan_nan_threshold_no_peaks example_nanvar example_nanquantile_or_nan
           [example_chr2; example_chr1] 1 3 0.5%float _ example_chr1
           [2; 5] [nan; nan]); vm_compute; reflexivity.
Defined.

(** ** Region statistics: the counts of each cell *)

(** The values of cell [c] among entries (column, value). *)
Definition of_cell (c : Z) (es : list (Z * Z)) : list Z :=
  map snd (filter (fun cv => fst cv = c) es).

Lemma of_cell_observations (data_chrom indices_chrom indptr_chrom : list Z)
    (chrom_len start end_ c : Z) :
  map snd (observations data_chrom indices_chrom indptr_chrom chrom_len
             start end_ c)
  = of_cell c (concat (map (store_row data_chrom indices_chrom indptr_chrom)
                           (interval_rows chrom_len start end_))).
Proof.
  unfold observations, of_cell.
  induction (interval_rows chrom_len start end_) as [|p ps IH];
    [reflexivity|].
  cbn [flat_map map concat]. rewrite filter_app, !map_app, IH. f_equal.
  rewrite map_map. reflexivity.
Qed.

Lemma methylated_length (obs : list (Z * Z)) :
  Forall (fun v => v = -1 \/ v = 1) (map snd obs) ->
  sumZ (filter (fun v => v <> -1) (map snd obs))
  = Z.of_nat (length (filter (fun pv => snd pv = 1) obs)).
Proof.
  induction obs as [|[p v] obs IH]; intros Hv; [reflexivity|].
  cbn [map snd] in Hv |- *. apply Forall_cons in Hv as [Hv Hobs].
  rewrite !filter_cons. cbn [snd].
  destruct Hv as [-> | ->].
  - destruct (decide (-1 <> -1)); [contradiction|].
    destruct (decide (-1 = 1)); [lia|]. apply IH, Hobs.
  - destruct (decide (1 <> -1)); [|lia].
    destruct (decide (1 = 1)); [|contradiction].
    cbn [sumZ fold_right length]. unfold sumZ in IH. rewrite IH by exact Hobs.
    lia.
Qed.

Section RegionCounts.

Variables (data_chrom indices_chrom indptr_chrom : list Z).
Variable n_cells : nat.
Variable chrom_len : Z.

(** What the loop of [_calc_region_stats] adds to the two arrays. *)
Lemma count_loop_spec (indices data : list Z) :
  Forall (fun c => 0 <= c < Z.of_nat n_cells) indices ->
  forall (i : Z) (n_meth n_total : list Z),
    0 <= i -> (Z.to_nat i + length data <= length indices)%nat ->
    length n_meth = n_cells -> length n_total = n_cells ->
    exists n_meth' n_total',
      Region.count_loop indices i data n_meth n_total
      = Some (n_meth', n_total')
      /\ length n_meth' = n_cells /\ length n_total' = n_cells
      /\ forall (c : nat) (m0 t0 : Z),
           n_meth !! c = Some m0 -> n_total !! c = Some t0 ->
           n_total' !! c
           = Some (t0 + Z.of_nat (length (of_cell (Z.of_nat c)
                      (zip (drop (Z.to_nat i) indices) data))))
           /\ n_meth' !! c
              = Some (m0 + sumZ (filter (fun v => v <> -1)
                                   (of_cell (Z.of_nat c)
                                      (zip (drop (Z.to_nat i) indices) data)))).
Proof.
  intros Hc. induction data as [|v data IH];
    intros i n_meth n_total Hi Hlen Hm Ht.
  - exists n_meth, n_total. split; [reflexivity|]. split; [exact Hm|].
    split; [exact Ht|]. intros c m0 t0 Hm0 Ht0.
    rewrite zip_with_nil_r. unfold of_cell. simpl.
    rewrite !Z.add_0_r. auto.
  - cbn [Region.count_loop]. rewrite get_nonneg by exact Hi.
    destruct (lookup_lt_is_Some_2 indices (Z.to_nat i)) as [ci Hci];
      [simpl in Hlen; lia|].
    rewrite Hci. cbn [mbind option_bind].
    assert (Hcr : 0 <= ci < Z.of_nat n_cells).
    { rewrite Forall_forall in Hc. apply Hc, list_elem_of_lookup. eauto. }
    rewrite !get_nonneg by lia.
    destruct (lookup_lt_is_Some_2 n_total (Z.to_nat ci)) as [t Htc]; [lia|].
    destruct (lookup_lt_is_Some_2 n_meth (Z.to_nat ci)) as [m Hmc]; [lia|].
    rewrite Htc, Hmc. cbn [mbind option_bind]. rewrite !set_nonneg by lia.
    set (n_total1 := <[Z.to_nat ci := t + 1]> n_total).
    set (n_meth1 := if v =? -1 then n_meth
                    else <[Z.to_nat ci := m + v]> n_meth).
    assert (Hstep : (if v =? -1
                     then Region.count_loop indices (i + 1) data n_meth
                            n_total1
                     else Region.count_loop indices (i + 1) data
                            (<[Z.to_nat ci := m + v]> n_meth) n_total1)
                    = Region.count_loop indices (i + 1) data n_meth1 n_total1)
      by (unfold n_meth1; destruct (v =? -1); reflexivity).
    rewrite Hstep.
    destruct (IH (i + 1) n_meth1 n_total1)
      as (n_meth' & n_total' & Hloop & Hl1 & Hl2 & Hres);
      [lia|simpl in Hlen; lia
      |unfold n_meth1; destruct (v =? -1); rewrite ?length_insert; exact Hm
      |unfold n_total1; rewrite length_insert; exact Ht|].
    exists n_meth', n_total'. split; [exact Hloop|].
    split; [exact Hl1|]. split; [exact Hl2|].
    intros c m0 t0 Hm0 Ht0.
    rewrite (drop_S _ _ _ Hci). cbn [zip_with]. unfold of_cell.
    rewrite filter_cons. cbn [fst].
    replace (Z.to_nat (i + 1)) with (S (Z.to_nat i)) in Hres by lia.
    unfold of_cell in Hres.
    destruct (decide (ci = Z.of_nat c)) as [->|Hne].
    + rewrite Nat2Z.id in *. rewrite Hmc in Hm0. rewrite Htc in Ht0.
      injection Hm0 as <-. injection Ht0 as <-.
      destruct (Hres c (if v =? -1 then m else m + v) (t + 1)) as [Hrt Hrm].
      * unfold n_meth1. destruct (v =? -1); [exact Hmc|].
        rewrite Nat2Z.id. apply list_lookup_insert_eq.
        apply lookup_lt_Some in Hmc. exact Hmc.
      * unfold n_total1. rewrite Nat2Z.id. apply list_lookup_insert_eq.
        apply lookup_lt_Some in Htc. exact Htc.
      * rewrite Hrt, Hrm. cbn [map snd length]. rewrite filter_cons.
        split; [f_equal; lia|]. f_equal.
        destruct (Z.eqb_spec v (-1)) as [->|Hv].
        -- destruct (decide (-1 <> -1)); [contradiction|reflexivity].
        -- destruct (decide (v <> -1)); [|contradiction].
           cbn [sumZ fold_right]. unfold sumZ. lia.
    + apply Hres.
      * unfold n_meth1. destruct (v =? -1); [exact Hm0|].
        rewrite list_lookup_insert_ne by lia. exact Hm0.
      * unfold n_total1. rewrite list_lookup_insert_ne by lia. exact Ht0.
Qed.

End RegionCounts.

(** The counts that [_calc_region_stats] returns for an interval with an
    entry, cell by cell. *)
Lemma region_stats_counts
    (data_chrom indices_chrom indptr_chrom : list Z) (n_cells : nat)
    (chrom_len start end_ : Z) :
  well_formed data_chrom indices_chrom indptr_chrom n_cells chrom_len ->
  Forall (fun v => v = -1 \/ v = 1) data_chrom ->
  0 <= start <= end_ ->
  Exists (fun p => store_row data_chrom indices_chrom indptr_chrom p <> [])
         (interval_rows chrom_len start end_) ->
  exists n_meth n_total mfracs,
    Region._calc_region_stats data_chrom indices_chrom indptr_chrom n_cells
      chrom_len start end_
    = Some (n_meth, n_total, mfracs,
            Z.of_nat (length (filter
              (fun p => store_row data_chrom indices_chrom indptr_chrom p
                        <> [])
              (interval_rows chrom_len start end_))))
    /\ length n_total = n_cells
    /\ forall c : nat, (c < n_cells)%nat ->
         let obs := observations data_chrom indices_chrom indptr_chrom
                      chrom_len start end_ (Z.of_nat c) in
         let meth := filter (fun pv => snd pv = 1) obs in
         n_total !! c = Some (Z.of_nat (length obs))
         /\ n_meth !! c = Some (Z.of_nat (length meth))
         /\ mfracs !! c
            = Some (Np.of_int (Z.of_nat (length meth))
                    / Np.of_int (Z.of_nat (length obs)))%float.
Proof.
  intros wf Hvals Hse Hex.
  assert (Hle : start <= chrom_len).
  { apply Exists_exists in Hex as (p & Hp & _). unfold interval_rows in Hp.
    apply elem_of_seqZ in Hp. lia. }
  destruct (calc_region_stats_covered _ _ _ _ _ wf start end_ Hse Hle Hex)
    as (n_meth & n_total & mfracs & Hcalc).
  exists n_meth, n_total, mfracs. split; [exact Hcalc|].
  unfold Region._calc_region_stats in Hcalc.
  pose proof (wf_rows _ _ _ _ _ wf) as Hrows.
  destruct (Z.gtb_spec start chrom_len) as [Hgt|_]; [lia|].
  set (e := if end_ + 1 >? chrom_len then chrom_len else end_ + 1) in Hcalc.
  assert (He : e = Z.min (end_ + 1) chrom_len)
    by (unfold e; destruct (Z.gtb_spec (end_ + 1) chrom_len); lia).
  destruct (rows_of_slice _ _ _ _ _ wf (Z.to_nat (e - start)) start)
    as (lo & hi & Hlo & Hhi & Hle1 & Hhi' & Hconcat & _); [lia|lia|].
  rewrite Z2Nat.id in Hhi, Hconcat by lia.
  replace (start + (e - start)) with e in Hhi by lia.
  rewrite !get_nonneg in Hcalc by lia. rewrite Hlo, Hhi in Hcalc.
  cbn [mbind option_bind] in Hcalc.
  assert (Hdata : Z.of_nat (length (Np.slice data_chrom lo hi)) = hi - lo)
    by (apply slice_length; lia).
  assert (Hidx : Z.of_nat (length (Np.slice indices_chrom lo hi)) = hi - lo)
    by (apply slice_length; rewrite ?(wf_indices _ _ _ _ _ wf); lia).
  assert (Hpos : lo < hi).
  { pose proof Hex as Hex'. unfold interval_rows in Hex'.
    rewrite <- He in Hex'. apply Exists_exists in Hex' as (p & Hp & Hne).
    destruct (Z.eq_dec lo hi) as [->|]; [|lia]. exfalso. apply Hne.
    assert (Hnil : concat (map (store_row data_chrom indices_chrom
                                  indptr_chrom)
                               (seqZ start (e - start))) = []).
    { rewrite Hconcat, slice_nonneg.
      - rewrite Z.sub_diag. reflexivity.
      - lia.
      - rewrite length_zip_with, (wf_indices _ _ _ _ _ wf), Nat.min_id. lia. }
    clear -Hnil Hp. induction (seqZ start (e - start)) as [|q qs IH];
      [inversion Hp|].
    simpl in Hnil. apply app_eq_nil in Hnil as [Hq Hqs].
    apply elem_of_cons in Hp as [->|Hp]; [exact Hq|auto]. }
  destruct (Nat.ltb_spec 0 (length (Np.slice data_chrom lo hi))); [|lia].
  destruct (count_loop_spec n_cells (Np.slice indices_chrom lo hi)
              (Np.slice data_chrom lo hi)
              (slice_cols _ _ _ _ _ wf lo hi ltac:(lia) ltac:(lia))
              0 (replicate n_cells 0) (replicate n_cells 0))
    as (n_meth' & n_total' & Hloop & Hl1 & Hl2 & Hres);
    [lia|simpl; lia|apply length_replicate..|].
  rewrite Hloop in Hcalc. cbn [mbind option_bind] in Hcalc.
  injection Hcalc as <- <- <- _. split; [exact Hl2|].
  change (Z.to_nat 0) with 0%nat in Hres. rewrite drop_0 in Hres.
  rewrite slice_zip, <- Hconcat in Hres by apply (wf_indices _ _ _ _ _ wf).
  intros c Hc. cbv zeta.
  destruct (Hres c 0 0) as [Ht Hm]; [apply lookup_replicate_2; exact Hc..|].
  assert (Hobs : of_cell (Z.of_nat c)
                   (concat (map (store_row data_chrom indices_chrom
                                   indptr_chrom)
                                (seqZ start (e - start))))
                 = map snd (observations data_chrom indices_chrom
                              indptr_chrom chrom_len start end_ (Z.of_nat c))).
  { rewrite of_cell_observations. unfold interval_rows. rewrite <- He.
    reflexivity. }
  rewrite Hobs in Ht, Hm. rewrite length_map, Z.add_0_l in Ht.
  rewrite Z.add_0_l, methylated_length in Hm.
  - split; [exact Ht|]. split; [exact Hm|].
    rewrite lookup_zip_with, Hm, Ht. reflexivity.
  - rewrite <- Hobs. unfold of_cell. apply Forall_forall. intros v Hv.
    apply list_elem_of_fmap in Hv as ([c' v'] & -> & Hin).
    apply list_elem_of_filter in Hin as [_ Hin]. rewrite Hconcat in Hin.
    rewrite <- slice_zip in Hin by apply (wf_indices _ _ _ _ _ wf).
    assert (Hv' : v' ∈ Np.slice data_chrom lo hi).
    { rewrite <- (snd_zip (Np.slice indices_chrom lo hi)) by lia.
      apply list_elem_of_fmap. exists (c', v'). auto. }
    rewrite slice_nonneg in Hv' by lia.
    assert (Hall : Forall (fun v => v = -1 \/ v = 1)
                     (take (Z.to_nat (hi - lo))
                           (drop (Z.to_nat lo) data_chrom)))
      by (apply Forall_take, Forall_drop, Hvals).
    rewrite Forall_forall in Hall. apply Hall, Hv'.
Qed.



(** ** Residuals: a position without smoothed value *)

Lemma fold_acc_missing (smoothed_vals : gmap Z float) (start : Z)
    (es : list (Z * (Z * Z))) :
  Exists (fun e => smoothed_vals !! (start + fst e) = None) es ->
  forall acc, fold_acc smoothed_vals start acc es = None.
Proof.
  induction 1 as [[k [c v]] es Hx|e es _ IH]; intros acc; cbn [fold_acc].
  - unfold acc_body. cbn [fst] in Hx. rewrite Hx.
    destruct (Np.get (fst acc) c); reflexivity.
  - destruct (acc_body smoothed_vals start acc e); [apply IH|reflexivity].
Qed.

Lemma tagged_missing (data_chrom indices_chrom indptr_chrom : list Z)
    (smoothed_vals : gmap Z float) (base : Z) (m : nat) :
  forall s k : Z,
    base + k = s ->
    Exists (fun p => store_row data_chrom indices_chrom indptr_chrom p <> []
                     /\ smoothed_vals !! p = None)
           (seqZ s (Z.of_nat m)) ->
    Exists (fun e => smoothed_vals !! (base + fst e) = None)
           (tagged k (map (store_row data_chrom indices_chrom indptr_chrom)
                          (seqZ s (Z.of_nat m)))).
Proof.
  induction m as [|m IH]; intros s k Hk Hex; [inversion Hex|].
  rewrite seqZ_cons in Hex |- * by lia.
  replace (Z.succ s) with (s + 1) in * by lia.
  replace (Z.pred (Z.of_nat (S m))) with (Z.of_nat m) in * by lia.
  cbn [map tagged]. apply Exists_app.
  apply Exists_cons in Hex as [[Hne Hnone]|Hex].
  - left. destruct (store_row _ _ _ s) as [|cv row]; [contradiction|].
    left. cbn [fst]. rewrite Hk. exact Hnone.
  - right. apply IH; [lia|exact Hex].
Qed.



(** ** Ingestion: what [_dump_coo_files] returns *)

Definition size_of (st : Ingest.state) (c : string) : Z :=
  default 0 (Ingest.chrom_sizes st !! c).

(** The largest of [size] and the positions of the lines. *)
Definition largest_position (size : Z) (lines : list (Z * Z * Z)) : Z :=
  fold_left Z.max (map (fun l => fst (fst l)) lines) size.

Lemma dump_line_size (cell_n : Z) (st st' : Ingest.state)
    (line_vals : string * Z * Z * Z) (c : string) :
  same_keys st ->
  Ingest.dump_line cell_n st line_vals = Some st' ->
  size_of st' c
  = largest_position (size_of st c) (option_list (call_of c cell_n line_vals)).
Proof.
  destruct line_vals as [[[chrom pos] n_meth] n_unmeth]. intros Hk Hd.
  unfold call_of, largest_position, size_of. simpl.
  unfold Ingest.dump_line in Hd.
  destruct (negb (n_meth =? 0) && negb (n_unmeth =? 0)) eqn:Ea.
  { injection Hd as <-. reflexivity. }
  destruct (Ingest.coo_files st !! chrom) as [f|] eqn:Ef.
  - destruct (proj1 (Hk chrom)) as [size Es]; [rewrite Ef; eauto|].
    rewrite Es in Hd. simpl in Hd. rewrite Ef in Hd. simpl in Hd.
    injection Hd as <-. simpl.
    destruct (decide (chrom = c)) as [<-|Hc]; simpl.
    + rewrite Es. simpl. destruct (Z.gtb_spec pos size).
      * rewrite lookup_insert_eq. simpl. lia.
      * rewrite Es. simpl. lia.
    + destruct (pos >? size); [|reflexivity].
      rewrite lookup_insert_ne by exact Hc. reflexivity.
  - assert (Es : Ingest.chrom_sizes st !! chrom = None).
    { destruct (Ingest.chrom_sizes st !! chrom) eqn:E; [|reflexivity].
      destruct (proj2 (Hk chrom)) as [? H]; [eauto|].
      rewrite Ef in H. discriminate. }
    simpl in Hd. rewrite !lookup_insert_eq in Hd. simpl in Hd.
    injection Hd as <-. simpl.
    destruct (decide (chrom = c)) as [<-|Hc]; simpl.
    + rewrite Es. simpl. destruct (Z.gtb_spec pos 0).
      * rewrite lookup_insert_eq. simpl. lia.
      * rewrite lookup_insert_eq. simpl. lia.
    + destruct (pos >? 0); rewrite ?lookup_insert_ne by exact Hc;
        reflexivity.
Qed.

Lemma largest_position_app (size : Z) (l k : list (Z * Z * Z)) :
  largest_position size (l ++ k) = largest_position (largest_position size l) k.
Proof. unfold largest_position. rewrite map_app, fold_left_app. reflexivity. Qed.

Lemma dump_cell_size (cell : Z * list (string * Z * Z * Z)) :
  forall st st' : Ingest.state,
    staging_inv st ->
    Ingest.dump_cell st cell = Some st' ->
    forall c, size_of st' c
              = largest_position (size_of st c)
                  (omap (call_of c (fst cell)) (snd cell)).
Proof.
  destruct cell as [n recs]. unfold Ingest.dump_cell. simpl.
  induction recs as [|lv recs IH]; intros st st' Hi Hd c; simpl in Hd.
  - injection Hd as <-. reflexivity.
  - destruct (Ingest.dump_line n st lv) as [st1|] eqn:H1; [|discriminate].
    rewrite (IH st1 st' (dump_line_inv _ _ _ _ Hi H1) Hd c).
    rewrite (dump_line_size n st st1 lv c (inv_keys _ Hi) H1).
    rewrite <- largest_position_app. f_equal. simpl.
    destruct (call_of c n lv); reflexivity.
Qed.

Lemma dump_cells_size (cells : list (Z * list (string * Z * Z * Z))) :
  forall st st' : Ingest.state,
    staging_inv st ->
    Ingest.foldM Ingest.dump_cell cells st = Some st' ->
    forall c, size_of st' c = largest_position (size_of st c) (staged c cells).
Proof.
  induction cells as [|cell cells IH]; intros st st' Hi Hd c; simpl in Hd.
  - injection Hd as <-. reflexivity.
  - destruct (Ingest.dump_cell st cell) as [st1|] eqn:H1; [|discriminate].
    destruct (dump_cell_spec cell st Hi) as (st1' & H1' & Hi1 & _).
    rewrite H1 in H1'. injection H1' as <-.
    rewrite (IH st1 st' Hi1 Hd c), (dump_cell_size cell st st1 Hi H1 c).
    rewrite <- largest_position_app. reflexivity.
Qed.


(** ** Ingestion: when [prepare] assembles a store *)

(** The body of the loop of [prepare] returns for a chromosome exactly
    when at least two clean calls were read for it and none of them has a
    negative position. *)
Lemma prepare_chrom_iff (cells : list (list (string * Z * Z * Z)))
    (chrom : string) :
  is_Some (Prepare.prepare cells chrom)
  <-> (2 <= clean_calls chrom cells)%nat
      /\ Forall (fun l => 0 <= fst (fst l))
                (staged chrom (Ingest.enumerate cells)).
Proof.
  split; [|intros [Hn Hpos]; apply prepare_assembles; assumption].
  intros [m Hp]. unfold Prepare.prepare in Hp.
  destruct (dump_coo_files_spec cells) as (st & Hd & Hi & Hl).
  rewrite Hd in Hp. simpl in Hp. unfold Prepare.prepare_chrom in Hp.
  destruct (Ingest.chrom_sizes st !! chrom) as [size|]; [|discriminate].
  simpl in Hp. specialize (Hl chrom). unfold lines_of in Hl.
  destruct (Ingest.coo_files st !! chrom) as [coo|]; [|discriminate].
  simpl in Hl, Hp. subst coo.
  destruct (Nat.leb_spec (length (staged chrom (Ingest.enumerate cells))) 1)
    as [|Hlen]; [discriminate|].
  unfold Csr.coo_tocsr in Hp.
  destruct (forallb _ _) eqn:Hchk; [|discriminate]. split.
  - rewrite <- (staged_length chrom cells
                  (map Z.of_nat (seq 0 (length cells))))
      by (rewrite length_map, length_seq; reflexivity).
    exact Hlen.
  - apply Forall_forall. intros [[p c] v] Hin.
    rewrite forallb_forall in Hchk. apply list_elem_of_In, Hchk in Hin.
    rewrite !andb_true_iff, !Z.leb_le, !Z.ltb_lt in Hin. simpl. lia.
Qed.

(** A chromosome with a single clean call comes first: the run raises on
    it, and the chromosome after it, whose two clean calls the body would
    assemble, is never reached. *)
Example prepare_all_stops_at_first_failure :
  Prepare.prepare_all
    [[("chr1", 5, 1, 0); ("chr2", 3, 1, 0); ("chr2", 4, 0, 1)]]%string
    ["chr1"; "chr2"]%string = None
  /\ is_Some (Prepare.prepare
                [[("chr1", 5, 1, 0); ("chr2", 3, 1, 0);
                  ("chr2", 4, 0, 1)]]%string "chr2"%string).
Proof. split; [vm_compute; reflexivity|vm_compute; eauto]. Qed.


(** ** Ingestion: the rows of an assembled store *)

Lemma offsets_lookup (rows : list (list (Z * Z))) :
  forall (acc : Z) (i : nat),
    (i <= length rows)%nat ->
    Csr.offsets acc rows !! i
    = Some (acc + Z.of_nat (length (concat (take i rows)))).
Proof.
  induction rows as [|row rows IH]; intros acc i Hi.
  - destruct i; [|simpl in Hi; lia]. simpl. f_equal. lia.
  - destruct i as [|i]; simpl; [f_equal; lia|].
    rewrite IH by (simpl in Hi; lia). rewrite length_app. f_equal. lia.
Qed.

(** The rows a store was built from are the rows read back from it. *)
Lemma store_row_of_rows (rows : list (list (Z * Z))) (p : Z)
    (row : list (Z * Z)) :
  0 <= p -> rows !! Z.to_nat p = Some row ->
  store_row (map snd (concat rows)) (map fst (concat rows))
    (Csr.offsets 0 rows) p = row.
Proof.
  intros Hp Hrow. unfold store_row.
  pose proof (lookup_lt_Some _ _ _ Hrow) as Hlt.
  replace (Z.to_nat (p + 1)) with (S (Z.to_nat p)) by lia.
  rewrite !offsets_lookup by lia.
  rewrite (take_S_r _ _ _ Hrow), concat_app, length_app. simpl.
  rewrite app_nil_r, !Z.add_0_l.
  set (before := concat (take (Z.to_nat p) rows)).
  assert (Hsplit : concat rows
                   = before ++ row ++ concat (drop (S (Z.to_nat p)) rows)).
  { unfold before. rewrite <- (take_drop_middle _ _ _ Hrow) at 1.
    rewrite concat_app. reflexivity. }
  rewrite !slice_nonneg
    by (rewrite ?length_map, ?Hsplit, ?length_app; lia).
  replace (Z.to_nat (Z.of_nat (length before + length row)
                     - Z.of_nat (length before))) with (length row) by lia.
  rewrite Nat2Z.id, Hsplit, !map_app.
  rewrite !drop_app_length' by (rewrite length_map; reflexivity).
  rewrite !take_app_length' by (rewrite length_map; reflexivity).
  apply zip_fst_snd.
Qed.

Lemma store_row_outside (data indices indptr : list Z) (p : Z) :
  p < 0 \/ Z.of_nat (length indptr) <= p + 1 ->
  store_row data indices indptr p = [].
Proof.
  intros [Hp|Hp]; unfold store_row.
  - replace (Z.to_nat (p + 1)) with (Z.to_nat p) by lia.
    destruct (indptr !! Z.to_nat p) as [lo|]; [|reflexivity].
    unfold Np.slice. rewrite Z.sub_diag. reflexivity.
  - rewrite (lookup_ge_None_2 indptr (Z.to_nat (p + 1))) by lia.
    destruct (indptr !! Z.to_nat p); reflexivity.
Qed.

Lemma entries_elem (r : Z) (coo : list (Z * Z * Z)) (c v : Z) :
  (c, v) ∈ entries r coo <-> (r, c, v) ∈ coo.
Proof.
  unfold entries. rewrite list_elem_of_omap. split.
  - intros ([[p c'] v'] & Hin & Heq).
    destruct (Z.eqb_spec p r) as [->|]; [|discriminate].
    injection Heq as <- <-. exact Hin.
  - intros Hin. exists (r, c, v). split; [exact Hin|].
    rewrite Z.eqb_refl. reflexivity.
Qed.

(** A clean call of cell [i] on chromosome [chrom]. *)
Definition clean_call_in (cells : list (list (string * Z * Z * Z)))
    (chrom : string) (p c v : Z) : Prop :=
  exists (i : nat) cell n_meth n_unmeth,
    c = Z.of_nat i /\ cells !! i = Some cell
    /\ (chrom, p, n_meth, n_unmeth) ∈ cell
    /\ (n_meth = 0 \/ n_unmeth = 0)
    /\ v = (if n_meth >? 0 then 1 else -1).

Lemma call_of_clean (chrom : string) (n p c v : Z)
    (cell : list (string * Z * Z * Z)) :
  (p, c, v) ∈ omap (call_of chrom n) cell
  <-> c = n /\ exists n_meth n_unmeth,
        (chrom, p, n_meth, n_unmeth) ∈ cell
        /\ (n_meth = 0 \/ n_unmeth = 0)
        /\ v = (if n_meth >? 0 then 1 else -1).
Proof.
  rewrite list_elem_of_omap. split.
  - intros ([[[ch pos] n_meth] n_unmeth] & Hin & Hcall).
    unfold call_of, Ingest.ambiguous in Hcall.
    destruct (negb (n_meth =? 0) && negb (n_unmeth =? 0)) eqn:Ea;
      [discriminate|].
    destruct (decide (ch = chrom)) as [->|]; [|discriminate].
    injection Hcall as <- <- <-. split; [reflexivity|].
    exists n_meth, n_unmeth. split; [exact Hin|]. split; [|reflexivity].
    apply andb_false_iff in Ea as [Ea|Ea]; apply negb_false_iff in Ea;
      apply Z.eqb_eq in Ea; auto.
  - intros (-> & n_meth & n_unmeth & Hin & Hclean & ->).
    exists (chrom, p, n_meth, n_unmeth). split; [exact Hin|].
    unfold call_of, Ingest.ambiguous.
    assert (Ea : negb (n_meth =? 0) && negb (n_unmeth =? 0) = false).
    { destruct Hclean as [-> | ->]; simpl; [reflexivity|].
      apply andb_false_r. }
    rewrite Ea. destruct (decide (chrom = chrom)); [reflexivity|contradiction].
Qed.

Lemma elem_of_concat {A} (x : A) (ls : list (list A)) :
  x ∈ concat ls <-> exists l, x ∈ l /\ l ∈ ls.
Proof.
  induction ls as [|k ls IH]; simpl.
  - split; [intros H; inversion H|intros (l & _ & H); inversion H].
  - rewrite elem_of_app, IH. split.
    + intros [H|(l & H1 & H2)]; [exists k|exists l]; split; auto;
        [left|right; exact H2].
    + intros (l & H1 & H2). apply elem_of_cons in H2 as [->|H2]; eauto.
Qed.

Lemma staged_elem (cells : list (list (string * Z * Z * Z))) (chrom : string)
    (p c v : Z) :
  (p, c, v) ∈ staged chrom (Ingest.enumerate cells)
  <-> clean_call_in cells chrom p c v.
Proof.
  unfold staged, clean_call_in. rewrite elem_of_concat. split.
  - intros (l & Hin & Hl). apply list_elem_of_fmap in Hl as ([n cell] & -> & Hc).
    cbn [fst snd] in Hin. apply call_of_clean in Hin
      as (-> & n_meth & n_unmeth & Hin & Hclean & ->).
    unfold Ingest.enumerate in Hc.
    apply list_elem_of_lookup in Hc as [i Hi].
    apply lookup_zip_with_Some in Hi as (n' & cell' & Heq & Hn & Hcell).
    injection Heq as <- <-.
    rewrite list_lookup_fmap in Hn.
    destruct (seq 0 (length cells) !! i) as [j|] eqn:Ej; [|discriminate].
    apply lookup_seq in Ej as [-> _]. injection Hn as <-.
    exists i, cell, n_meth, n_unmeth. auto.
  - intros (i & cell & n_meth & n_unmeth & -> & Hcell & Hin & Hclean & ->).
    exists (omap (call_of chrom (Z.of_nat i)) cell). split.
    + apply call_of_clean. split; [reflexivity|]. eauto.
    + apply list_elem_of_fmap. exists (Z.of_nat i, cell).
      split; [reflexivity|]. unfold Ingest.enumerate.
      apply list_elem_of_lookup. exists i.
      apply lookup_zip_with_Some. exists (Z.of_nat i), cell.
      split; [reflexivity|]. split; [|exact Hcell].
      rewrite list_lookup_fmap, lookup_seq_lt
        by (apply lookup_lt_Some in Hcell; exact Hcell).
      reflexivity.
Qed.

(** The rows of the store [prepare] assembles. *)
Lemma prepare_rows (cells : list (list (string * Z * Z * Z))) (chrom : string)
    (m : Csr.matrix) :
  Prepare.prepare cells chrom = Some m ->
  Forall (fun l => 0 <= fst (fst l) < Csr.n_rows m)
         (staged chrom (Ingest.enumerate cells))
  /\ forall p,
       store_row (Csr.data m) (Csr.indices m) (Csr.indptr m) p
       = if decide (0 <= p < Csr.n_rows m)
         then Csr.row_of p (staged chrom (Ingest.enumerate cells))
         else [].
Proof.
  intros Hp. apply prepare_inv in Hp as (size & Hsize & Hm).
  unfold Csr.coo_tocsr in Hm.
  destruct (forallb _ _) eqn:Hchk; [|discriminate]. injection Hm as <-.
  cbn [Csr.of_rows Csr.data Csr.indices Csr.indptr Csr.n_rows]. split.
  - apply Forall_forall. intros [[p c] v] Hin.
    rewrite forallb_forall in Hchk. apply list_elem_of_In, Hchk in Hin.
    rewrite !andb_true_iff, !Z.leb_le, !Z.ltb_lt in Hin. simpl. lia.
  - intros p. destruct (decide (0 <= p < size + 1)) as [Hin|Hout].
    + apply store_row_of_rows; [lia|].
      rewrite list_lookup_fmap, lookup_seq_lt by lia. simpl.
      rewrite Z2Nat.id by lia. reflexivity.
    + apply store_row_outside.
      rewrite offsets_length, length_map, length_seq. lia.
Qed.

(** X13: when no cell lists a position of the chromosome in two clean
    records, the store [prepare] assembles holds the value [v] at row [p]
    and column [c] exactly when the input file of index [c] has a clean
    record of the chromosome at position [p], with [v] = +1 for a positive
    methylated count and -1 otherwise. *)
Theorem prepare_store_round_trip
    (cells : list (list (string * Z * Z * Z))) (chrom : string)
    (m : Csr.matrix) :
  Prepare.prepare cells chrom = Some m ->
  NoDup (map (fun l => (fst (fst l), snd (fst l)))
             (staged chrom (Ingest.enumerate cells))) ->
  forall p c v,
    (c, v) ∈ store_row (Csr.data m) (Csr.indices m) (Csr.indptr m) p
    <-> clean_call_in cells chrom p c v.
Proof.
  intros Hp Hnd p c v. rewrite <- staged_elem.
  destruct (prepare_rows cells chrom m Hp) as [Hrange Hrow].
  rewrite Hrow. destruct (decide (0 <= p < Csr.n_rows m)) as [Hin|Hout].
  - rewrite (row_of_perm p _ Hnd). apply entries_elem.
  - split; [intros H; inversion H|]. intros H. exfalso. apply Hout.
    rewrite Forall_forall in Hrange. apply (Hrange _ H).
Qed.

Lemma prepare_store_round_trip_witness :
  exists m,
    Prepare.prepare
      [[("chr1", 5, 1, 0); ("chr1", 3, 1, 1); ("chr1", 7, 0, 2)];
       [("chr1", 5, 0, 4); ("chr2", 3, 1, 0); ("chr1", 2, 1, 0)]]%string
      "chr1"%string = Some m
    /\ (1, -1) ∈ store_row (Csr.data m) (Csr.indices m) (Csr.indptr m) 5.
Proof.
  eexists. split; [vm_compute; reflexivity|].
  apply (prepare_store_round_trip
           [[("chr1", 5, 1, 0); ("chr1", 3, 1, 1); ("chr1", 7, 0, 2)];
            [("chr1", 5, 0, 4); ("chr2", 3, 1, 0); ("chr1", 2, 1, 0)]]%string
           "chr1"%string).
  - vm_compute. reflexivity.
  - refine (bool_decide_unpack _ _). vm_compute. exact I.
  - exists 1%nat, [("chr1", 5, 0, 4); ("chr2", 3, 1, 0); ("chr1", 2, 1, 0)]%string,
      0, 4.
    split; [reflexivity|]. split; [reflexivity|].
    split; [left|split; [left; reflexivity|reflexivity]].
Defined.

Lemma row_add_sorted (c v : Z) (row : list (Z * Z)) :
  StronglySorted Z.lt (map fst row) ->
  StronglySorted Z.lt (map fst (Csr.row_add c v row)).
Proof.
  induction row as [|[c' v'] row IH]; simpl; intros Hs.
  - repeat constructor.
  - apply StronglySorted_inv in Hs as [Hs Hall].
    destruct (Z.ltb_spec c c') as [Hlt|Hge]; simpl.
    + constructor; [constructor; assumption|].
      constructor; [exact Hlt|].
      eapply Forall_impl; [exact Hall|]. simpl. intros; lia.
    + destruct (Z.eqb_spec c c') as [->|Hne]; simpl.
      * constructor; assumption.
      * constructor; [apply IH, Hs|].
        apply Forall_forall. intros x Hx.
        apply row_add_cols in Hx as [->|Hx]; [lia|].
        rewrite Forall_forall in Hall. apply Hall, Hx.
Qed.

Lemma row_add_nonempty (c v : Z) (row : list (Z * Z)) :
  Csr.row_add c v row <> [].
Proof.
  destruct row as [|[c' v'] row]; simpl; [discriminate|].
  destruct (c <? c'); [discriminate|]. destruct (c =? c'); discriminate.
Qed.

Lemma row_of_sorted (r : Z) (coo : list (Z * Z * Z)) :
  StronglySorted Z.lt (map fst (Csr.row_of r coo)).
Proof.
  unfold Csr.row_of.
  assert (Hgen : forall row,
            StronglySorted Z.lt (map fst row) ->
            StronglySorted Z.lt
              (map fst (fold_left
                 (fun row l => let '(p, c, v) := l in
                               if p =? r then Csr.row_add c v row else row)
                 coo row))).
  { induction coo as [|[[p c] v] coo IH]; intros row Hs; simpl; [exact Hs|].
    apply IH. destruct (p =? r); [apply row_add_sorted|]; exact Hs. }
  apply Hgen. constructor.
Qed.

Lemma row_of_nonempty (r c v : Z) (coo : list (Z * Z * Z)) :
  (r, c, v) ∈ coo -> Csr.row_of r coo <> [].
Proof.
  unfold Csr.row_of.
  assert (Hkeep : forall (coo : list (Z * Z * Z)) row,
            row <> [] ->
            fold_left
              (fun row l => let '(p, c, v) := l in
                            if p =? r then Csr.row_add c v row else row)
              coo row <> []).
  { clear. induction coo as [|[[p c] v] coo IH]; intros row Hne; simpl;
      [exact Hne|].
    apply IH. destruct (p =? r); [apply row_add_nonempty|exact Hne]. }
  intros Hin. generalize (@nil (Z * Z)) at 1. revert Hin.
  induction coo as [|[[p' c'] v'] coo IH]; intros Hin row; [inversion Hin|].
  simpl. apply elem_of_cons in Hin as [Heq|Hin].
  - injection Heq as <- <- <-. rewrite Z.eqb_refl.
    apply Hkeep, row_add_nonempty.
  - apply IH, Hin.
Qed.

(** X14: every row of a store assembled by [prepare] lists its cells in
    strictly increasing order, so that no cell comes twice in a row,
    whatever the input files hold. *)
Theorem prepare_rows_sorted (cells : list (list (string * Z * Z * Z)))
    (chrom : string) (m : Csr.matrix) (p : Z) :
  Prepare.prepare cells chrom = Some m ->
  StronglySorted Z.lt
    (map fst (store_row (Csr.data m) (Csr.indices m) (Csr.indptr m) p)).
Proof.
  intros Hp. destruct (prepare_rows cells chrom m Hp) as [_ Hrow].
  rewrite Hrow. destruct (decide (0 <= p < Csr.n_rows m)).
  - apply row_of_sorted.
  - constructor.
Qed.

(** Cell 1 lists position 5 twice, after cell 0 and before it. *)
Lemma prepare_rows_sorted_witness :
  StronglySorted Z.lt (map fst [(0, 1); (1, 0)]).
Proof.
  apply (prepare_rows_sorted
           [[("chr1", 5, 1, 0)];
            [("chr1", 5, 0, 4); ("chr1", 2, 1, 0); ("chr1", 5, 3, 0)]]%string
           "chr1"%string
           (Csr.mkMatrix [1; 1; 0] [1; 0; 1] [0; 0; 0; 1; 1; 1; 3] 6 2) 5).
  vm_compute. reflexivity.
Defined.

Lemma largest_position_attained (lines : list (Z * Z * Z)) :
  forall size,
    largest_position size lines = size
    \/ largest_position size lines ∈ map (fun l => fst (fst l)) lines.
Proof.
  unfold largest_position.
  induction lines as [|l lines IH]; intros size; simpl; [auto|].
  destruct (IH (Z.max size (fst (fst l)))) as [H|H].
  - rewrite H. destruct (Z.max_spec size (fst (fst l))) as [[_ ->]|[_ ->]];
      [right; left|left; reflexivity].
  - right. right. exact H.
Qed.

Lemma largest_position_bound (lines : list (Z * Z * Z)) :
  forall size,
    size <= largest_position size lines
    /\ Forall (fun l => fst (fst l) <= largest_position size lines) lines.
Proof.
  unfold largest_position.
  induction lines as [|l lines IH]; intros size; simpl;
    [split; [lia|constructor]|].
  destruct (IH (Z.max size (fst (fst l)))) as [H1 H2].
  split; [lia|]. constructor; [lia|exact H2].
Qed.

(** The lines [prepare] loads for a chromosome and the shape it gives the
    store. *)
Lemma prepare_inv_size (cells : list (list (string * Z * Z * Z)))
    (chrom : string) (m : Csr.matrix) :
  Prepare.prepare cells chrom = Some m ->
  (2 <= length (staged chrom (Ingest.enumerate cells)))%nat
  /\ Csr.coo_tocsr (staged chrom (Ingest.enumerate cells))
       (largest_position 0 (staged chrom (Ingest.enumerate cells)) + 1)
       (Z.of_nat (length cells)) = Some m.
Proof.
  unfold Prepare.prepare.
  destruct (dump_coo_files_spec cells) as (st & Hd & Hi & Hl).
  rewrite Hd. simpl. unfold Prepare.prepare_chrom.
  pose proof (dump_cells_size (Ingest.enumerate cells) Ingest.empty st
                empty_staging_inv Hd chrom) as Hs.
  unfold size_of in Hs. simpl in Hs. rewrite lookup_empty in Hs.
  simpl in Hs.
  destruct (Ingest.chrom_sizes st !! chrom) as [size|] eqn:Es;
    [|discriminate].
  simpl in Hs |- *. specialize (Hl chrom). unfold lines_of in Hl.
  destruct (Ingest.coo_files st !! chrom) as [coo|]; [|discriminate].
  simpl in Hl |- *. subst coo size.
  destruct (Nat.leb_spec (length (staged chrom (Ingest.enumerate cells))) 1)
    as [|Hlen]; [discriminate|].
  intros Hm. split; [lia|exact Hm].
Qed.

Lemma prepare_shape (cells : list (list (string * Z * Z * Z)))
    (chrom : string) (m : Csr.matrix) :
  Prepare.prepare cells chrom = Some m ->
  Csr.n_cols m = Z.of_nat (length cells)
  /\ Csr.n_rows m
     = largest_position 0 (staged chrom (Ingest.enumerate cells)) + 1
  /\ store_row (Csr.data m) (Csr.indices m) (Csr.indptr m) (Csr.n_rows m - 1)
     <> [].
Proof.
  intros Hp. destruct (prepare_rows cells chrom m Hp) as [Hrange Hrow].
  destruct (prepare_inv_size cells chrom m Hp) as [Hlen Hm].
  unfold Csr.coo_tocsr in Hm.
  destruct (forallb _ _); [|discriminate].
  assert (Hcols : Csr.n_cols m = Z.of_nat (length cells))
    by (injection Hm as <-; reflexivity).
  assert (Hrows : Csr.n_rows m
                  = largest_position 0
                      (staged chrom (Ingest.enumerate cells)) + 1)
    by (injection Hm as <-; reflexivity).
  clear Hm. split; [exact Hcols|]. split; [exact Hrows|].
  set (coo := staged chrom (Ingest.enumerate cells)) in *.
  pose proof (largest_position_bound coo 0) as [Hpos Hle].
  rewrite Hrow, Hrows.
  destruct (decide (0 <= largest_position 0 coo + 1 - 1
                    < largest_position 0 coo + 1)) as [_|Hout]; [|lia].
  replace (largest_position 0 coo + 1 - 1) with (largest_position 0 coo)
    by lia.
  assert (Hex : exists c v, (largest_position 0 coo, c, v) ∈ coo).
  { destruct (largest_position_attained coo 0) as [H0|Hin].
    - destruct coo as [|[[p c] v] coo']; [simpl in Hlen; lia|].
      exists c, v. rewrite H0.
      apply Forall_cons in Hrange as [Hp0 _].
      apply Forall_cons in Hle as [Hp1 _]. simpl in Hp0, Hp1.
      replace p with 0 by lia. left.
    - apply list_elem_of_fmap in Hin as ([[p c] v] & Heq & Hin).
      exists c, v. rewrite Heq. exact Hin. }
  destruct Hex as (c & v & Hin). apply (row_of_nonempty _ c v), Hin.
Qed.

(** X15: a store assembled by [prepare] has one column for each input file
    and one row for each position from 0 to the largest position of a
    clean call of the chromosome, and its last row holds an entry. *)
Theorem prepare_store_shape (cells : list (list (string * Z * Z * Z)))
    (chrom : string) (m : Csr.matrix) :
  Prepare.prepare cells chrom = Some m ->
  Csr.n_cols m = Z.of_nat (length cells)
  /\ Csr.n_rows m
     = largest_position 0 (staged chrom (Ingest.enumerate cells)) + 1
  /\ store_row (Csr.data m) (Csr.indices m) (Csr.indptr m) (Csr.n_rows m - 1)
     <> [].
Proof. apply prepare_shape. Qed.

Lemma prepare_store_shape_witness :
  exists m,
    Prepare.prepare
      [[("chr1", 5, 1, 0); ("chr1", 3, 1, 1); ("chr1", 7, 0, 2)];
       [("chr1", 5, 0, 4); ("chr2", 3, 1, 0); ("chr1", 2, 1, 0)]]%string
      "chr1"%string = Some m
    /\ Csr.n_cols m = 2 /\ Csr.n_rows m = 8.
Proof.
  eexists. split; [vm_compute; reflexivity|].
  destruct (prepare_store_shape
           [[("chr1", 5, 1, 0); ("chr1", 3, 1, 1); ("chr1", 7, 0, 2)];
            [("chr1", 5, 0, 4); ("chr2", 3, 1, 0); ("chr1", 2, 1, 0)]]%string
           "chr1"%string _ eq_refl) as (Hc & Hr & _).
  split; [exact Hc|exact Hr].
Defined.

(** ** Smoothing: the positions of the smoothed track *)

(** The indices, counted from [s], of the values of an array that a test
    does not drop. *)
Lemma positions_from {A} (drop_it : A -> bool) (a : list A) :
  forall (s : Z),
    let l := omap (fun ix : Z * A =>
                     if drop_it (snd ix) then None else Some (fst ix))
                  (zip (seqZ s (Z.of_nat (length a))) a) in
    StronglySorted Z.lt l
    /\ forall i, i ∈ l <-> s <= i
                           /\ exists x, a !! Z.to_nat (i - s) = Some x
                                        /\ drop_it x = false.
Proof.
  induction a as [|x a IH]; intros s; cbv zeta.
  - simpl. split; [constructor|]. intros i. split; [intros H; inversion H|].
    intros (_ & y & Hy & _). discriminate.
  - cbn [length]. rewrite seqZ_cons by lia.
    replace (Z.pred (Z.of_nat (S (length a)))) with (Z.of_nat (length a))
      by lia.
    replace (Z.succ s) with (s + 1) by lia.
    destruct (IH (s + 1)) as [Hs Hmem]. cbv zeta in Hs, Hmem.
    cbn [zip_with omap list_omap fst snd].
    fold (omap (fun ix : Z * A =>
                  if drop_it (snd ix) then None else Some (fst ix))
               (zip (seqZ (s + 1) (Z.of_nat (length a))) a)).
    assert (Htail : forall i,
              s + 1 <= i ->
              a !! Z.to_nat (i - (s + 1)) = (x :: a) !! Z.to_nat (i - s)).
    { intros i Hi. replace (Z.to_nat (i - s))
        with (S (Z.to_nat (i - (s + 1)))) by lia. reflexivity. }
    destruct (drop_it x) eqn:Ex.
    + split; [exact Hs|]. intros i. rewrite Hmem. split.
      * intros (Hi & y & Hy & Hn). split; [lia|]. exists y.
        rewrite <- Htail by lia. auto.
      * intros (Hi & y & Hy & Hn).
        destruct (Z.eq_dec i s) as [->|Hne].
        -- rewrite Z.sub_diag in Hy. simpl in Hy. congruence.
        -- split; [lia|]. exists y. rewrite Htail by lia. auto.
    + split.
      * constructor; [exact Hs|]. apply Forall_forall. intros i Hi.
        apply Hmem in Hi. lia.
      * intros i. rewrite elem_of_cons, Hmem. split.
        -- intros [->|(Hi & y & Hy & Hn)].
           ++ split; [lia|]. exists x. rewrite Z.sub_diag. auto.
           ++ split; [lia|]. exists y. rewrite <- Htail by lia. auto.
        -- intros (Hi & y & Hy & Hn).
           destruct (Z.eq_dec i s) as [->|Hne]; [left; reflexivity|].
           right. split; [lia|]. exists y. rewrite Htail by lia. auto.
Qed.

(** [not_nan_positions] lists, in increasing order, the indices of the
    values that are not NaN. *)
Lemma not_nan_positions_spec (a : list float) :
  StronglySorted Z.lt (Smoother.not_nan_positions a)
  /\ forall i, i ∈ Smoother.not_nan_positions a
               <-> 0 <= i /\ exists x, a !! Z.to_nat i = Some x
                                       /\ is_nan x = false.
Proof.
  destruct (positions_from is_nan a 0) as [Hs Hmem]. cbv zeta in Hs, Hmem.
  split; [exact Hs|]. intros i. unfold Smoother.not_nan_positions.
  rewrite Hmem, Z.sub_0_r. reflexivity.
Qed.

(** The raw fraction of a row without entry is NaN. *)
Lemma mfracs_covered (m : Csr.matrix) (i : nat) (x : float) :
  zip_with (fun m n => (Np.of_int m / Np.of_int n)%float)
    (Smoother.positive_rows m) (Smoother.getnnz_rows m) !! i = Some x ->
  is_nan x = false ->
  exists n, Smoother.getnnz_rows m !! i = Some n /\ n <> 0.
Proof.
  intros Hx Hnan.
  apply lookup_zip_with_Some in Hx as (k & n & -> & Hk & Hn).
  exists n. split; [exact Hn|]. intros ->.
  unfold Smoother.positive_rows in Hk. unfold Smoother.getnnz_rows, Np.diff in Hn.
  apply lookup_zip_with_Some in Hk as (lo & hi & -> & Hlo & Hhi).
  apply lookup_zip_with_Some in Hn as (lo' & hi' & Hd & Hlo' & Hhi').
  rewrite Hlo in Hlo'. rewrite Hhi in Hhi'.
  injection Hlo' as <-. injection Hhi' as <-.
  assert (hi = lo) by lia. subst hi.
  unfold Np.slice in Hnan. rewrite Z.sub_diag in Hnan.
  vm_compute in Hnan. discriminate.
Qed.

(** X16: the smoothed track holds each of its positions once, in
    increasing order, and each of them is a row of the store that holds an
    entry: a position without coverage gets no smoothed value. *)
Theorem smooth_whole_chrom_positions (log1p : float -> float)
    (np_sum : list float -> float) (sparse_mat : Csr.matrix)
    (bandwidth : Z) (weigh : bool) :
  let track := Smoother.smooth_whole_chrom np_sum
                 (Smoother.init log1p sparse_mat bandwidth weigh) in
  StronglySorted Z.lt (map fst track)
  /\ forall p, p ∈ map fst track ->
       0 <= p
       /\ exists n, Smoother.getnnz_rows sparse_mat !! Z.to_nat p = Some n
                    /\ n <> 0.
Proof.
  cbv zeta. unfold Smoother.smooth_whole_chrom.
  rewrite map_map. cbn [fst]. rewrite map_id.
  unfold Smoother.init. cbn [Smoother.cpg_pos].
  destruct (not_nan_positions_spec
              (zip_with (fun m n => (Np.of_int m / Np.of_int n)%float)
                 (Smoother.positive_rows sparse_mat)
                 (Smoother.getnnz_rows sparse_mat))) as [Hs Hmem].
  split; [exact Hs|]. intros p Hp. apply Hmem in Hp as (Hp & x & Hx & Hnan).
  split; [exact Hp|]. apply (mfracs_covered _ _ _ Hx Hnan).
Qed.

(** X17: with an odd bandwidth every value of the smoothed track is NaN:
    the kernel has one weight more than the longest window. *)
Theorem smooth_odd_bandwidth_all_nan (log1p : float -> float)
    (np_sum : list float -> float) (sparse_mat : Csr.matrix)
    (bandwidth : Z) (weigh : bool) :
  1 <= bandwidth -> Z.odd bandwidth = true ->
  Forall (fun pv => snd pv = nan)
         (Smoother.smooth_whole_chrom np_sum
            (Smoother.init log1p sparse_mat bandwidth weigh)).
Proof.
  intros Hb Hodd. unfold Smoother.smooth_whole_chrom.
  apply Forall_map, Forall_forall. intros i Hi. cbn [snd].
  set (s := Smoother.init log1p sparse_mat bandwidth weigh) in *.
  destruct (not_nan_positions_spec (Smoother.mfracs s)) as [_ Hmem].
  change (Smoother.cpg_pos s)
    with (Smoother.not_nan_positions (Smoother.mfracs s)) in Hi.
  apply Hmem in Hi as (Hi & x & Hx & _).
  apply lookup_lt_Some in Hx.
  apply smooth_at_mismatch.
  apply (window_mismatch s bandwidth i Hb); [reflexivity| |lia|auto].
  unfold s, Smoother.init. cbn [Smoother.kernel].
  rewrite tricube_length. lia.
Qed.

Lemma smooth_odd_bandwidth_all_nan_witness :
  Forall (fun pv => snd pv = nan)
         (Smoother.smooth_whole_chrom sum_left
            (Smoother.init (fun x => x) scenario_store 5 false)).
Proof.
  apply smooth_odd_bandwidth_all_nan; [lia|reflexivity].
Defined.

(** ** The scan returns on a data directory that is complete *)

(** On a well-formed store whose smoothed track covers the observed
    positions of the interval, the residuals are computed, one for
    each cell. *)
Lemma residuals_length (data_chrom indices_chrom indptr_chrom : list Z)
    (smoothed_vals : gmap Z float) (n_cells : nat)
    (chrom_len start end_ : Z) :
  well_formed data_chrom indices_chrom indptr_chrom n_cells chrom_len ->
  0 <= start <= end_ ->
  Forall (fun p => store_row data_chrom indices_chrom indptr_chrom p <> []
                   -> is_Some (smoothed_vals !! p))
         (interval_rows chrom_len start end_) ->
  exists resid,
    Region._calc_mean_shrunken_residuals data_chrom indices_chrom
      indptr_chrom smoothed_vals n_cells chrom_len start end_ = Some resid
    /\ length resid = n_cells.
Proof.
  intros wf Hse Hcov. unfold Region._calc_mean_shrunken_residuals.
  pose proof (wf_rows _ _ _ _ _ wf) as Hrows.
  destruct (Z.gtb_spec start chrom_len) as [Hgt|Hle];
    [eexists; split; [reflexivity|apply length_replicate]|].
  set (e := if end_ + 1 >? chrom_len then chrom_len else end_ + 1).
  assert (He : e = Z.min (end_ + 1) chrom_len)
    by (unfold e; destruct (Z.gtb_spec (end_ + 1) chrom_len); lia).
  destruct (rows_of_slice _ _ _ _ _ wf (Z.to_nat (e - start)) start)
    as (lo & hi & Hlo & Hhi & Hle1 & Hhi' & Hconcat & Hdiff); [lia|lia|].
  rewrite Z2Nat.id in Hhi, Hconcat, Hdiff by lia.
  replace (start + (e - start)) with e in Hhi, Hdiff by lia.
  unfold interval_rows in Hcov. rewrite <- He in Hcov.
  set (rows := map (store_row data_chrom indices_chrom indptr_chrom)
                   (seqZ start (e - start))) in *.
  rewrite !get_nonneg by lia. rewrite Hlo, Hhi. cbn [mbind option_bind].
  assert (Hdata : Z.of_nat (length (Np.slice data_chrom lo hi)) = hi - lo)
    by (apply slice_length; lia).
  assert (Hidx : Z.of_nat (length (Np.slice indices_chrom lo hi)) = hi - lo)
    by (apply slice_length; rewrite ?(wf_indices _ _ _ _ _ wf); lia).
  assert (Hzip : zip (Np.slice indices_chrom lo hi) (Np.slice data_chrom lo hi)
                 = concat rows)
    by (rewrite Hconcat; apply slice_zip, (wf_indices _ _ _ _ _ wf)).
  destruct (Nat.eqb_spec (length (Np.slice data_chrom lo hi)) 0) as [Hz|Hnz];
    [eexists; split; [reflexivity|apply length_replicate]|].
  destruct (n_obs_of_spec n_cells (Np.slice indices_chrom lo hi))
    as (n_obs & Hn & Hnlen & _).
  { apply (slice_cols _ _ _ _ _ wf); lia. }
  { intros Hnil. rewrite Hnil in Hidx. simpl in Hidx. lia. }
  rewrite Hn. cbn [mbind option_bind].
  rewrite diff_shift, <- Hdiff.
  destruct rows as [|row0 rows'] eqn:Erows.
  { simpl in Hzip. apply (f_equal (@length _)) in Hzip.
    rewrite length_zip_with in Hzip. simpl in Hzip. lia. }
  cbn [map]. rewrite get_nonneg by lia. change (Z.to_nat 0) with 0%nat.
  cbn [lookup list_lookup tail mbind option_bind].
  rewrite loop_as_pairs by (simpl; lia).
  rewrite drop_0, Hzip. cbn [concat].
  pose proof (loop_follows_rows smoothed_vals start rows' row0 0
                (replicate n_cells 0%float) (replicate n_cells 0)) as Hloop.
  change (map (pair 0) row0 ++ tagged (0 + 1) rows')
    with (tagged 0 (row0 :: rows')) in Hloop.
  destruct (fold_acc_spec smoothed_vals start n_cells
              (tagged 0 (row0 :: rows'))
              (replicate n_cells 0%float) (replicate n_cells 0))
    as (sm' & ms' & Hfold & Hl1 & Hl2 & _).
  { apply length_replicate. }
  { apply length_replicate. }
  { apply Forall_forall. intros x Hx.
    assert (Hin : fst (snd x) ∈ Np.slice indices_chrom lo hi).
    { rewrite <- (fst_zip _ (Np.slice data_chrom lo hi)) by lia.
      rewrite Hzip, <- (tagged_snd 0 (row0 :: rows')).
      apply list_elem_of_fmap. exists (snd x). split; [reflexivity|].
      apply list_elem_of_fmap. exists x. split; [reflexivity|exact Hx]. }
    pose proof (slice_cols _ _ _ _ _ wf lo hi ltac:(lia) ltac:(lia)) as Hall.
    rewrite Forall_forall in Hall. apply Hall, Hin. }
  { rewrite <- Erows. unfold rows.
    rewrite <- (Z2Nat.id (e - start)) in Hcov |- * by lia.
    apply tagged_covered; [lia|exact Hcov]. }
  rewrite Hfold in Hloop.
  destruct (loop_pairs _ _ _ _) as [st|]; [|discriminate].
  cbn [mbind option_bind]. eexists. split; [reflexivity|].
  simpl in Hloop. injection Hloop as Hs1 Hs2.
  rewrite length_zip_with, length_zip_with, Hs1, Hs2, Hl1, Hl2, Hnlen. lia.
Qed.

Lemma residuals_return (data_chrom indices_chrom indptr_chrom : list Z)
    (smoothed_vals : gmap Z float) (n_cells : nat)
    (chrom_len start end_ : Z) :
  well_formed data_chrom indices_chrom indptr_chrom n_cells chrom_len ->
  0 <= start <= end_ ->
  Forall (fun p => store_row data_chrom indices_chrom indptr_chrom p <> []
                   -> is_Some (smoothed_vals !! p))
         (interval_rows chrom_len start end_) ->
  is_Some (Region._calc_mean_shrunken_residuals data_chrom indices_chrom
             indptr_chrom smoothed_vals n_cells chrom_len start end_).
Proof.
  intros wf Hse Hcov.
  destruct (residuals_length _ _ _ _ _ _ _ _ wf Hse Hcov) as (r & -> & _).
  eauto.
Qed.

(** [nonzero] lists, in increasing order, the indices of the values other
    than 0. *)
Lemma nonzero_spec (a : list Z) :
  StronglySorted Z.lt (Scan.nonzero a)
  /\ forall i, i ∈ Scan.nonzero a
               <-> 0 <= i /\ exists x, a !! Z.to_nat i = Some x /\ x <> 0.
Proof.
  destruct (positions_from (fun x => x =? 0) a 0) as [Hs Hmem].
  cbv zeta in Hs, Hmem. split; [exact Hs|]. intros i.
  unfold Scan.nonzero. rewrite Hmem, Z.sub_0_r.
  split; intros (Hi & x & Hx & Hn); (split; [exact Hi|]); exists x;
    (split; [exact Hx|]); [apply Z.eqb_neq|apply Z.eqb_neq]; exact Hn.
Qed.

(** A row with an entry is a position where the row pointers differ. *)
Lemma store_row_nonzero (data indices indptr : list Z) (p : Z) :
  store_row data indices indptr p <> [] ->
  p ∈ Scan.nonzero (Np.diff indptr).
Proof.
  intros Hne. apply nonzero_spec.
  destruct (Z.lt_ge_cases p 0) as [Hneg|Hpos].
  { exfalso. apply Hne, store_row_outside. left. exact Hneg. }
  split; [exact Hpos|]. unfold store_row in Hne.
  replace (Z.to_nat (p + 1)) with (S (Z.to_nat p)) in Hne by lia.
  destruct (indptr !! Z.to_nat p) as [lo|] eqn:Elo; [|contradiction].
  destruct (indptr !! S (Z.to_nat p)) as [hi|] eqn:Ehi; [|contradiction].
  exists (hi - lo). split.
  - unfold Np.diff. apply lookup_zip_with_Some. exists lo, hi.
    split; [reflexivity|]. split; [exact Elo|].
    rewrite lookup_tail. exact Ehi.
  - intros Hz. apply Hne. replace hi with lo by lia.
    unfold Np.slice. rewrite Z.sub_diag. reflexivity.
Qed.

(** Every peak start is a window position minus the half-bandwidth. *)
Lemma step_starts (var_cutoff : float) (half_bw : Z) (P : Z -> Prop)
    (st : Peaks.state) (w : float * Z) :
  P (snd w - half_bw) ->
  Forall P (Peaks.peak_starts st) ->
  Forall P (Peaks.peak_starts (Peaks.step var_cutoff half_bw st w)).
Proof.
  destruct w as [v q]. intros Hq Hst. unfold Peaks.step.
  destruct (var_cutoff <? v)%float.
  - destruct (negb (Peaks.in_peak st)); [|exact Hst].
    destruct (_ && _); [exact Hst|].
    cbn. apply Forall_app. split; [exact Hst|]. repeat constructor. exact Hq.
  - destruct (Peaks.in_peak st); exact Hst.
Qed.

Lemma find_peaks_starts (smoothed_vars : list float)
    (swindow_centers : list Z) (var_cutoff : float) (half_bw : Z)
    (P : Z -> Prop) (peak_starts peak_ends : list Z) :
  Forall (fun q => P (q - half_bw)) swindow_centers ->
  Peaks._find_peaks smoothed_vars swindow_centers var_cutoff half_bw
  = Some (peak_starts, peak_ends) ->
  Forall P peak_starts.
Proof.
  intros Hc Hf. unfold Peaks._find_peaks, Peaks.finish in Hf.
  assert (Hrun : Forall P (Peaks.peak_starts
                   (Peaks.run var_cutoff half_bw
                      (combine smoothed_vars swindow_centers)))).
  { unfold Peaks.run.
    assert (Hws : Forall (fun w : float * Z => P (snd w - half_bw))
                    (combine smoothed_vars swindow_centers)).
    { apply Forall_forall. intros [v q] Hin.
      apply list_elem_of_In, in_combine_r in Hin.
      rewrite Forall_forall in Hc. apply Hc, list_elem_of_In, Hin. }
    assert (Hinit : Forall P (Peaks.peak_starts Peaks.init))
      by constructor.
    revert Hinit. generalize Peaks.init. revert Hws.
    generalize (combine smoothed_vars swindow_centers).
    induction 1 as [|w ws Hw _ IH]; intros st Hst; [exact Hst|].
    simpl. apply IH, step_starts; assumption. }
  destruct (Peaks.in_peak _).
  - destruct (Peaks.pos _); [|discriminate].
    destruct (_ =? _)%nat; [|discriminate]. injection Hf as <- _. exact Hrun.
  - destruct (_ =? _)%nat; [|discriminate]. injection Hf as <- _. exact Hrun.
Qed.

(** A file of the data directory that [scan] can work on: a well-formed
    store with at least one entry, and a smoothed track with a value for
    every position that holds an entry. *)
Definition scannable (f : Scan.chrom_file) : Prop :=
  let row := store_row (Csr.data (Scan.mat f)) (Csr.indices (Scan.mat f))
               (Csr.indptr (Scan.mat f)) in
  well_formed (Csr.data (Scan.mat f)) (Csr.indices (Scan.mat f))
    (Csr.indptr (Scan.mat f)) (Z.to_nat (Csr.n_cols (Scan.mat f)))
    (Csr.n_rows (Scan.mat f))
  /\ (exists p, row p <> [])
  /\ exists smoothed_vals,
       Scan.smoothed_cpg_vals f = Some smoothed_vals
       /\ Forall (fun p => row p <> [] -> is_Some (smoothed_vals !! p))
                 (seqZ 0 (Csr.n_rows (Scan.mat f))).

(** The level [1 - var_threshold] that [scan] passes to [np.nanquantile]
    lies between 0 and 1, as it does for every cutoff between 0 and 1. *)
Definition valid_level (var_threshold : float) : Prop :=
  (0 <=? 1 - var_threshold)%float && (1 - var_threshold <=? 1)%float = true.

Section ScanReturns.

Variable nanvar : list float -> float.
Variable nanquantile : list float -> float -> float.
Variables (half_bw stepsize : Z) (var_threshold : float).
Hypothesis half_bw_nonneg : 0 <= half_bw.
Hypothesis stepsize_pos : 1 <= stepsize.
Hypothesis level_valid : valid_level var_threshold.

Lemma scannable_residuals (f : Scan.chrom_file)
    (smoothed_vals : gmap Z float) (start end_ : Z) :
  scannable f -> Scan.smoothed_cpg_vals f = Some smoothed_vals ->
  0 <= start <= end_ ->
  is_Some (Scan.residuals f smoothed_vals start end_).
Proof.
  intros (wf & _ & sm & Hsm & Hcov) Hsm' Hse.
  rewrite Hsm in Hsm'. injection Hsm' as <-.
  unfold Scan.residuals. apply residuals_return; [exact wf|exact Hse|].
  apply Forall_forall. intros p Hp. rewrite Forall_forall in Hcov.
  apply Hcov. unfold interval_rows in Hp.
  apply elem_of_seqZ in Hp. apply elem_of_seqZ. lia.
Qed.

Lemma scan_chrom_returns (value : option float) (f : Scan.chrom_file) :
  scannable f ->
  is_Some (Scan.scan_chrom nanvar nanquantile half_bw stepsize var_threshold
             value f).
Proof.
  intros Hf. pose proof Hf as (wf & [p0 Hp0] & sm & Hsm & Hcov).
  unfold Scan.scan_chrom, Scan.chrom_windows, Scan._move_windows.
  rewrite Hsm. cbn [mbind option_bind].
  destruct (nonzero_spec (Np.diff (Csr.indptr (Scan.mat f)))) as [_ Hmem].
  apply store_row_nonzero in Hp0.
  destruct (Scan.nonzero (Np.diff (Csr.indptr (Scan.mat f))))
    as [|first rest] eqn:Enz; [inversion Hp0|].
  assert (Hfirst : 0 <= first) by (apply Hmem; left).
  cbn [head]. cbn [mbind option_bind].
  destruct (last (first :: rest)) as [last_|] eqn:El;
    [|rewrite last_cons in El; destruct (last rest); discriminate].
  cbn [mbind option_bind].
  destruct (arange_sorted (first + half_bw + 1) (last_ - half_bw - 1)
              stepsize stepsize_pos) as [Hs Hb].
  set (windows := Scan.arange (first + half_bw + 1) (last_ - half_bw - 1)
                    stepsize) in *.
  destruct (mapM_is_Some_2
              (fun pos => nanvar <$> Scan.residuals f sm (pos - half_bw)
                                       (pos + half_bw)) windows)
    as [variances Hv].
  { apply Forall_forall. intros pos Hpos. simpl. apply fmap_is_Some.
    rewrite Forall_forall in Hb. apply Hb in Hpos.
    apply scannable_residuals; [exact Hf|exact Hsm|lia]. }
  rewrite Hv. cbn [mbind option_bind].
  set (threshold := match value with
                    | Some v => v
                    | None => nanquantile variances (1 - var_threshold)%float
                    end).
  assert (Ht : match value with
               | Some v => Some v
               | None => Scan.np_nanquantile nanquantile variances
                           (1 - var_threshold)%float
               end = Some threshold).
  { unfold threshold, Scan.np_nanquantile. destruct value; [reflexivity|].
    rewrite level_valid. reflexivity. }
  rewrite Ht. cbn [mbind option_bind].
  destruct (find_peaks_sorted_apart variances windows threshold half_bw
              half_bw_nonneg) as (starts & ends & Hp & Hlen & Hap).
  { clear -Hs. induction Hs; constructor; [assumption|].
    eapply Forall_impl; [eassumption|]. simpl. intros; lia. }
  rewrite Hp. cbn [mbind option_bind].
  pose proof (find_peaks_starts variances windows threshold half_bw
                (fun s => 0 <= s) starts ends) as Hst.
  destruct (mapM_is_Some_2
              (fun se : Z * Z =>
                 (fun r => (fst se, snd se, nanvar r))
                   <$> Scan.residuals f sm (fst se) (snd se))
              (zip starts ends)) as [bed Hbed].
  { apply Forall_forall. intros [s e] Hin. simpl. apply fmap_is_Some.
    apply list_elem_of_lookup in Hin as [i Hi].
    apply lookup_zip_with_Some in Hi as (s' & e' & Heq & Hs' & He').
    injection Heq as <- <-.
    apply scannable_residuals; [exact Hf|exact Hsm|]. split.
    - assert (Hall : Forall (fun s => 0 <= s) starts).
      { apply Hst; [|exact Hp]. eapply Forall_impl; [exact Hb|].
        simpl. intros; lia. }
      rewrite Forall_forall in Hall. apply Hall, list_elem_of_lookup. eauto.
    - apply (proj1 Hap i s e Hs' He'). }
  rewrite Hbed. cbn [mbind option_bind]. eauto.
Qed.

Lemma scan_loop_returns (chrom_paths : list Scan.chrom_file) :
  Forall scannable chrom_paths ->
  forall value,
    is_Some (Scan.scan_loop nanvar nanquantile half_bw stepsize var_threshold
               value chrom_paths).
Proof.
  induction 1 as [|f fs Hf _ IH]; intros value; simpl; [eauto|].
  destruct (scan_chrom_returns value f Hf) as [[value' r] Hr].
  rewrite Hr. cbn [mbind option_bind].
  destruct (IH value') as [rs Hrs]. rewrite Hrs. cbn. eauto.
Qed.

End ScanReturns.

Lemma scan_scannable (nanvar : list float -> float)
    (nanquantile : list float -> float -> float)
    (paths : list Scan.chrom_file) (bandwidth stepsize : Z)
    (var_threshold : float) :
  0 <= bandwidth -> 1 <= stepsize -> valid_level var_threshold ->
  Forall scannable paths ->
  exists results,
    Scan.scan nanvar nanquantile paths bandwidth stepsize var_threshold
    = Some results
    /\ length results = length paths.
Proof.
  intros Hbw Hstep Hlevel Hall. unfold Scan.scan. cbv zeta.
  assert (Hh : 0 <= bandwidth / 2) by (apply Z.div_pos; lia).
  destruct (scan_loop_returns nanvar nanquantile (bandwidth / 2) stepsize
              var_threshold Hh Hstep Hlevel (Scan.sorted_by_size paths))
    with (value := @None float) as [results Hres].
  { rewrite sorted_by_size_perm. exact Hall. }
  exists results. split; [exact Hres|].
  apply scan_loop_chroms in Hres. apply (f_equal (@length _)) in Hres.
  rewrite !length_map in Hres. rewrite Hres.
  apply Permutation_length, sorted_by_size_perm.
Qed.


Lemma example_chr1_scannable : scannable example_chr1.
Proof.
  split; [|split].
  - split; [reflexivity|repeat constructor; lia|reflexivity..|].
    repeat constructor; lia.
  - exists 1. vm_compute. discriminate.
  - eexists. split; [reflexivity|].
    change (seqZ 0 (Csr.n_rows (Scan.mat example_chr1)))
      with [0; 1; 2; 3; 4; 5; 6; 7; 8].
    repeat constructor;
      first [ intros H; exfalso; apply H; reflexivity
            | intros _; eexists; reflexivity ].
Defined.

Lemma example_chr2_scannable : scannable example_chr2.
Proof.
  split; [|split].
  - split; [reflexivity|repeat constructor; lia|reflexivity..|].
    repeat constructor; lia.
  - exists 1. vm_compute. discriminate.
  - eexists. split; [reflexivity|].
    change (seqZ 0 (Csr.n_rows (Scan.mat example_chr2)))
      with [0; 1; 2; 3].
    repeat constructor;
      first [ intros H; exfalso; apply H; reflexivity
            | intros _; eexists; reflexivity ].
Defined.


(** ** The scan raises on a chromosome it cannot work on *)

Lemma scan_loop_fails (nanvar : list float -> float)
    (nanquantile : list float -> float -> float) (half_bw stepsize : Z)
    (var_threshold : float) (chrom_paths : list Scan.chrom_file) :
  Exists (fun f => Scan.chrom_windows nanvar half_bw stepsize f = None)
         chrom_paths ->
  forall value,
    Scan.scan_loop nanvar nanquantile half_bw stepsize var_threshold value
      chrom_paths = None.
Proof.
  induction chrom_paths as [|f fs IH]; intros Hex value; [inversion Hex|].
  simpl. apply Exists_cons in Hex as [Hf|Hfs].
  - unfold Scan.scan_chrom. rewrite Hf. reflexivity.
  - destruct (Scan.scan_chrom _ _ _ _ _ value f) as [[value' r]|];
      [|reflexivity].
    cbn [mbind option_bind]. rewrite (IH Hfs). reflexivity.
Qed.

(** X7: a chromosome of the data directory without smoothed track, or whose
    store holds no entry, makes [scan] raise, whatever the other
    chromosomes. *)
Theorem scan_missing_track_raises (nanvar : list float -> float)
    (nanquantile : list float -> float -> float)
    (paths : list Scan.chrom_file) (bandwidth stepsize : Z)
    (var_threshold : float) :
  Exists (fun f => Scan.smoothed_cpg_vals f = None
                   \/ Forall (fun n => n = 0)
                         (Np.diff (Csr.indptr (Scan.mat f)))) paths ->
  Scan.scan nanvar nanquantile paths bandwidth stepsize var_threshold = None.
Proof.
  intros Hex. unfold Scan.scan. cbv zeta.
  apply scan_loop_fails.
  rewrite Exists_exists in Hex |- *. destruct Hex as (f & Hin & Hf).
  exists f. split; [rewrite sorted_by_size_perm; exact Hin|].
  unfold Scan.chrom_windows. destruct Hf as [Hf|Hf]; [rewrite Hf; reflexivity|].
  destruct (Scan.smoothed_cpg_vals f); [|reflexivity].
  cbn [mbind option_bind].
  destruct (Scan.nonzero (Np.diff (Csr.indptr (Scan.mat f))))
    as [|first rest] eqn:Enz; [reflexivity|].
  exfalso.
  assert (Hmem : first ∈ Scan.nonzero (Np.diff (Csr.indptr (Scan.mat f))))
    by (rewrite Enz; left).
  apply nonzero_spec in Hmem as (_ & n & Hn & Hne).
  rewrite Forall_forall in Hf. apply Hne, Hf, list_elem_of_lookup. eauto.
Qed.

Lemma scan_missing_track_raises_witness :
  Scan.scan example_nanvar example_nanquantile
    [example_chr1;
     Scan.mkFile "chr3" 700 (Scan.mat example_chr2) None; example_chr2]
    1 1 0.5%float = None
  /\ Scan.scan example_nanvar example_nanquantile
       [example_chr1;
        Scan.mkFile "chr3" 700 (Csr.mkMatrix [] [] [0; 0; 0] 2 3) (Some ∅)]
       1 1 0.5%float = None.
Proof.
  split; apply scan_missing_track_raises; right; left.
  - left. reflexivity.
  - right. repeat constructor.
Defined.

(** ** Floating-point division of counts *)

Lemma iter_pos_nat {A} (f : A -> A) (p : positive) (x : A) :
  SpecFloat.iter_pos f p x = Nat.iter (Pos.to_nat p) f x.
Proof.
  revert x; induction p as [p IH|p IH|]; intros x; cbn [SpecFloat.iter_pos].
  - rewrite !IH, Pos2Nat.inj_xI, <- Nat.iter_succ_r, <- Nat.iter_add.
    f_equal. lia.
  - rewrite !IH, Pos2Nat.inj_xO, <- Nat.iter_add. f_equal. lia.
  - reflexivity.
Qed.

Lemma shr_1_digits (mrs : shr_record) (q : positive) :
  shr_m mrs = Zpos q -> (1 < digits2_pos q)%positive ->
  exists q', shr_m (shr_1 mrs) = Zpos q'
             /\ Pos.succ (digits2_pos q') = digits2_pos q.
Proof.
  destruct mrs as [m r s]. simpl. intros -> Hd.
  destruct q as [q|q|]; simpl in *; [eauto..|lia].
Qed.

Lemma shr_iter_digits (k : nat) :
  forall (mrs : shr_record) (q : positive),
    shr_m mrs = Zpos q -> (k < Pos.to_nat (digits2_pos q))%nat ->
    exists q', shr_m (Nat.iter k shr_1 mrs) = Zpos q'
               /\ (Pos.to_nat (digits2_pos q') + k = Pos.to_nat (digits2_pos q))%nat.
Proof.
  induction k as [|k IH]; intros mrs q Hq Hk.
  - exists q. simpl. split; [exact Hq|lia].
  - rewrite Nat.iter_succ_r.
    destruct (shr_1_digits mrs q Hq) as (q1 & H1 & Hd1); [lia|].
    destruct (IH (shr_1 mrs) q1 H1) as (q' & H' & Hd'); [lia|].
    exists q'. split; [exact H'|lia].
Qed.

(** A shift by less than the number of digits keeps the mantissa positive. *)
Lemma shr_digits (mrs : shr_record) (q : positive) (e n : Z) :
  shr_m mrs = Zpos q -> n < Zpos (digits2_pos q) ->
  exists q', shr_m (fst (shr mrs e n)) = Zpos q'
             /\ Zpos (digits2_pos q') = Zpos (digits2_pos q) - Z.max 0 n
             /\ snd (shr mrs e n) = e + Z.max 0 n.
Proof.
  intros Hq Hn. destruct n as [|p|p]; unfold shr; cbn [fst snd].
  - exists q. split; [exact Hq|]. split; lia.
  - rewrite iter_pos_nat.
    destruct (shr_iter_digits (Pos.to_nat p) mrs q Hq) as (q' & H' & Hd');
      [lia|].
    exists q'. split; [exact H'|]. split; lia.
  - exists q. split; [exact Hq|]. split; lia.
Qed.

Lemma digits2_iter (k : positive) (m : positive) :
  digits2_pos (Pos.iter xO m k) = (digits2_pos m + k)%positive.
Proof.
  induction k as [|k IH] using Pos.peano_ind.
  - simpl. lia.
  - rewrite Pos.iter_succ. simpl. rewrite IH. lia.
Qed.

Lemma digits2_lower (m : positive) :
  2 ^ (Zpos (digits2_pos m) - 1) <= Zpos m.
Proof.
  induction m as [m IH|m IH|]; simpl digits2_pos.
  - rewrite Pos2Z.inj_succ.
    replace (Z.succ (Zpos (digits2_pos m)) - 1)
      with (Z.succ (Zpos (digits2_pos m) - 1)) by lia.
    rewrite Z.pow_succ_r by lia. lia.
  - rewrite Pos2Z.inj_succ.
    replace (Z.succ (Zpos (digits2_pos m)) - 1)
      with (Z.succ (Zpos (digits2_pos m) - 1)) by lia.
    rewrite Z.pow_succ_r by lia. lia.
  - simpl. lia.
Qed.

Lemma digits2_succ (q : positive) :
  Zpos (digits2_pos q) <= Zpos (digits2_pos (Pos.succ q))
  <= Zpos (digits2_pos q) + 1.
Proof.
  induction q as [q IH|q IH|]; simpl; lia.
Qed.

Lemma digits2_bound (m : positive) (k : Z) :
  0 <= k -> Zpos m < 2 ^ k -> Zpos (digits2_pos m) <= k.
Proof.
  intros Hk Hm. pose proof (digits2_lower m) as Hl.
  destruct (Z.le_gt_cases (Zpos (digits2_pos m)) k) as [|Hgt]; [assumption|].
  assert (2 ^ k <= 2 ^ (Zpos (digits2_pos m) - 1))
    by (apply Z.pow_le_mono_r; lia).
  lia.
Qed.

(** Rounding a positive mantissa of at most 64 digits with an exponent near 0. *)
Lemma binary_round_aux_finite (sx : bool) (q : positive) (e : Z) (l : location) :
  -60 <= e <= 60 -> Zpos (digits2_pos q) <= 130 ->
  53 <= Zpos (digits2_pos q) ->
  exists m' e', binary_round_aux prec emax sx (Zpos q) e l
                = S754_finite sx m' e'.
Proof.
  intros He Hd Hd53. unfold binary_round_aux, shr_fexp.
  set (n1 := fexp prec emax (Zdigits2 (Zpos q) + e) - e).
  assert (Hn1 : n1 = Zpos (digits2_pos q) - 53).
  { unfold n1, fexp, emin, prec, emax. simpl Zdigits2. lia. }
  destruct (shr_digits (shr_record_of_loc (Zpos q) l) q e n1)
    as (q1 & Hq1 & Hd1 & He1).
  { destruct l as [|[| |]]; reflexivity. }
  { lia. }
  destruct (shr (shr_record_of_loc (Zpos q) l) e n1) as [mrs1 e1].
  simpl in Hq1, He1.
  set (m2 := round_nearest_even (shr_m mrs1) (loc_of_shr_record mrs1)).
  assert (Hm2 : exists q2, m2 = Zpos q2
                 /\ 53 <= Zpos (digits2_pos q2) <= 54).
  { unfold m2, round_nearest_even. rewrite Hq1.
    pose proof (digits2_succ q1).
    replace (Zpos q1 + 1) with (Zpos (Pos.succ q1)) by lia.
    destruct (loc_of_shr_record mrs1) as [|[| |]];
      [exists q1; split; [reflexivity|lia]
      |destruct (Z.even (Zpos q1));
         [exists q1|exists (Pos.succ q1)]; (split; [reflexivity|lia])
      |exists q1; split; [reflexivity|lia]
      |exists (Pos.succ q1); split; [reflexivity|lia]]. }
  destruct Hm2 as (q2 & -> & Hd2).
  set (n2 := fexp prec emax (Zdigits2 (Zpos q2) + e1) - e1).
  assert (Hn2 : n2 = Zpos (digits2_pos q2) - 53).
  { unfold n2, fexp, emin, prec, emax. simpl Zdigits2. lia. }
  destruct (shr_digits (shr_record_of_loc (Zpos q2) loc_Exact) q2 e1 n2)
    as (q3 & Hq3 & Hd3 & He3); [reflexivity|lia|].
  destruct (shr (shr_record_of_loc (Zpos q2) loc_Exact) e1 n2) as [mrs3 e3].
  simpl in Hq3, He3. rewrite Hq3.
  destruct (Z.leb_spec e3 (emax - prec)) as [_|Hgt]; [eauto|].
  unfold emax, prec in Hgt. lia.
Qed.

Lemma shr_1_nonneg (mrs : shr_record) :
  0 <= shr_m mrs -> 0 <= shr_m (shr_1 mrs).
Proof.
  destruct mrs as [m r s]. simpl. intros Hm.
  destruct m as [|[q|q|]|q]; simpl; lia.
Qed.

Lemma shr_nonneg (mrs : shr_record) (e n : Z) :
  0 <= shr_m mrs -> 0 <= shr_m (fst (shr mrs e n)).
Proof.
  intros Hm. destruct n as [|p|p]; unfold shr; cbn [fst]; try exact Hm.
  rewrite iter_pos_nat. induction (Pos.to_nat p) as [|k IH]; [exact Hm|].
  simpl. apply shr_1_nonneg, IH.
Qed.

(** Rounding a mantissa that is not negative never gives NaN. *)
Lemma binary_round_aux_not_nan (sx : bool) (mx ex : Z) (lx : location) :
  0 <= mx -> binary_round_aux prec emax sx mx ex lx <> S754_nan.
Proof.
  intros Hm. unfold binary_round_aux, shr_fexp.
  pose proof (shr_nonneg (shr_record_of_loc mx lx) ex
                (fexp prec emax (Zdigits2 mx + ex) - ex)) as H1.
  destruct (shr (shr_record_of_loc mx lx) ex _) as [mrs1 e1].
  cbn [fst] in H1.
  assert (H1' : 0 <= shr_m mrs1)
    by (apply H1; destruct lx as [|[| |]]; exact Hm).
  set (m2 := round_nearest_even (shr_m mrs1) (loc_of_shr_record mrs1)).
  assert (Hm2 : 0 <= m2).
  { unfold m2, round_nearest_even.
    destruct (loc_of_shr_record mrs1) as [|[| |]];
      try destruct (Z.even (shr_m mrs1)); lia. }
  pose proof (shr_nonneg (shr_record_of_loc m2 loc_Exact) e1
                (fexp prec emax (Zdigits2 m2 + e1) - e1) Hm2) as H3.
  destruct (shr (shr_record_of_loc m2 loc_Exact) e1 _) as [mrs3 e3].
  cbn [fst] in H3.
  destruct (shr_m mrs3) as [|q|q]; [discriminate| |lia].
  destruct (e3 <=? emax - prec); discriminate.
Qed.

Lemma binary_round_finite (sx : bool) (m : positive) :
  Zpos m < 2 ^ 63 ->
  exists m' e', binary_round prec emax sx m 0 = S754_finite sx m' e'.
Proof.
  intros Hm. pose proof (digits2_bound m 63 ltac:(lia) Hm) as Hd.
  unfold binary_round, shl_align.
  assert (Hf : fexp prec emax (Zpos (digits2_pos m) + 0)
               = Zpos (digits2_pos m) - 53)
    by (unfold fexp, emin, prec, emax; lia).
  rewrite Hf.
  destruct (Zpos (digits2_pos m) - 53 - 0) as [|k|k] eqn:Ek.
  - apply binary_round_aux_finite; lia.
  - apply binary_round_aux_finite; lia.
  - apply binary_round_aux_finite; rewrite ?digits2_iter; lia.
Qed.

Lemma of_uint63_finite (u : Uint63.int) :
  (Uint63.to_Z u = 0 /\ Prim2SF (of_uint63 u) = S754_zero false)
  \/ (Uint63.to_Z u <> 0
      /\ exists m e, Prim2SF (of_uint63 u) = S754_finite false m e).
Proof.
  rewrite of_uint63_spec. pose proof (Uint63.to_Z_bounded u) as Hb.
  unfold binary_normalize. destruct (Uint63.to_Z u) as [|m|m] eqn:Eu.
  - left. auto.
  - right. split; [lia|]. apply binary_round_finite.
    change Uint63.wB with (2 ^ 63) in Hb. lia.
  - lia.
Qed.

Lemma SFeqb_refl (s : spec_float) : s <> S754_nan -> SFeqb s s = true.
Proof.
  destruct s as [[|]|[|]| |[|] m e]; intros H; try reflexivity;
    try contradiction; unfold SFeqb, SFcompare;
    rewrite Z.compare_refl, Pos.compare_cont_refl; reflexivity.
Qed.

Lemma is_nan_SF (x : float) : Prim2SF x <> S754_nan -> is_nan x = false.
Proof.
  intros H. unfold is_nan. rewrite FloatAxioms.eqb_spec, SFeqb_refl by exact H.
  reflexivity.
Qed.

Lemma div_core_nonneg (m1 m2 : positive) (e1 e2 : Z) :
  0 <= fst (fst (SFdiv_core_binary prec emax (Zpos m1) e1 (Zpos m2) e2)).
Proof.
  unfold SFdiv_core_binary. cbv zeta.
  set (s := e1 - e2 - _).
  set (m' := match s with
             | 0 => Z.pos m1
             | Z.pos _ => Z.shiftl (Z.pos m1) s
             | Z.neg _ => 0
             end).
  assert (Hm' : 0 <= m').
  { unfold m'. destruct s; try lia. apply Z.shiftl_nonneg. lia. }
  pose proof (Z_div_mod m' (Zpos m2) ltac:(lia)) as Hdm.
  destruct (Z.div_eucl m' (Z.pos m2)) as [q r]. cbn [fst].
  destruct Hdm as [Heq Hr]. nia.
Qed.

(** The quotient of a count by a positive count is a number. *)
Lemma of_int_div_not_nan (a b : Z) :
  0 <= a -> 0 < b < 2 ^ 63 ->
  is_nan (Np.of_int a / Np.of_int b) = false.
Proof.
  intros Ha Hb. apply is_nan_SF. rewrite div_spec. unfold Np.of_int.
  destruct (Z.ltb_spec a 0); [lia|]. destruct (Z.ltb_spec b 0); [lia|].
  destruct (of_uint63_finite (Uint63.of_Z b)) as [[Hz _]|[_ (mb & eb & ->)]].
  { rewrite Uint63.of_Z_spec in Hz. change Uint63.wB with (2 ^ 63) in Hz.
    rewrite Z.mod_small in Hz by lia. lia. }
  destruct (of_uint63_finite (Uint63.of_Z a)) as [[_ ->]|[_ (ma & ea & ->)]].
  - discriminate.
  - unfold SF64div, SFdiv.
    pose proof (div_core_nonneg ma mb ea eb) as Hq.
    destruct (SFdiv_core_binary prec emax (Z.pos ma) ea (Z.pos mb) eb)
      as [[mz ez] lz].
    apply binary_round_aux_not_nan. exact Hq.
Qed.

Section SmoothCovers.

Variable m : Csr.matrix.
Variable n_cells : nat.
Hypothesis wf :
  well_formed (Csr.data m) (Csr.indices m) (Csr.indptr m) n_cells
    (Csr.n_rows m).

Lemma store_row_pointers (p : Z) :
  store_row (Csr.data m) (Csr.indices m) (Csr.indptr m) p <> [] ->
  0 <= p
  /\ exists lo hi,
       Csr.indptr m !! Z.to_nat p = Some lo
       /\ Csr.indptr m !! S (Z.to_nat p) = Some hi
       /\ 0 <= lo < hi /\ hi <= Z.of_nat (length (Csr.data m)).
Proof.
  intros Hne.
  destruct (Z.lt_ge_cases p 0) as [Hneg|Hpos].
  { exfalso. apply Hne, store_row_outside. left. exact Hneg. }
  destruct (Z.lt_ge_cases p (Csr.n_rows m)) as [Hin|Hout].
  2:{ exfalso. apply Hne, store_row_outside. right.
      rewrite (wf_rows _ _ _ _ _ wf). lia. }
  split; [exact Hpos|].
  destruct (pointers_at _ _ _ _ _ wf p) as (lo & hi & Hlo & Hhi & Hle & Hhi');
    [lia|].
  replace (Z.to_nat (p + 1)) with (S (Z.to_nat p)) in Hhi by lia.
  exists lo, hi. split; [exact Hlo|]. split; [exact Hhi|].
  split; [|exact Hhi'].
  destruct (Z.eq_dec lo hi) as [->|]; [|lia]. exfalso. apply Hne.
  unfold store_row.
  replace (Z.to_nat (p + 1)) with (S (Z.to_nat p)) by lia.
  rewrite Hlo, Hhi. unfold Np.slice. rewrite Z.sub_diag. reflexivity.
Qed.

(** The raw fraction of a row with an entry is a number. *)
Lemma mfracs_defined (p : Z) :
  Z.of_nat (length (Csr.data m)) < 2 ^ 63 ->
  store_row (Csr.data m) (Csr.indices m) (Csr.indptr m) p <> [] ->
  p ∈ Smoother.not_nan_positions
        (zip_with (fun m n => (Np.of_int m / Np.of_int n)%float)
           (Smoother.positive_rows m) (Smoother.getnnz_rows m)).
Proof.
  intros Hsize Hne.
  destruct (store_row_pointers p Hne)
    as (Hp & lo & hi & Hlo & Hhi & Hlt & Hhi').
  apply not_nan_positions_spec. split; [exact Hp|].
  eexists. split.
  - apply lookup_zip_with_Some. do 2 eexists. split; [reflexivity|]. split.
    + unfold Smoother.positive_rows. apply lookup_zip_with_Some.
      exists lo, hi. split; [reflexivity|]. split; [exact Hlo|].
      rewrite lookup_tail. exact Hhi.
    + unfold Smoother.getnnz_rows, Np.diff. apply lookup_zip_with_Some.
      exists lo, hi. split; [reflexivity|]. split; [exact Hlo|].
      rewrite lookup_tail. exact Hhi.
  - apply of_int_div_not_nan; lia.
Qed.

End SmoothCovers.

(** X19: on a well-formed store with fewer than 2^63 entries, every
    position that holds an entry gets a value in the smoothed track: its
    raw fraction is a quotient by a positive count, which is not NaN. *)
Theorem smooth_whole_chrom_covers (log1p : float -> float)
    (np_sum : list float -> float) (sparse_mat : Csr.matrix)
    (n_cells : nat) (bandwidth : Z) (weigh : bool) (p : Z) :
  well_formed (Csr.data sparse_mat) (Csr.indices sparse_mat)
    (Csr.indptr sparse_mat) n_cells (Csr.n_rows sparse_mat) ->
  Z.of_nat (length (Csr.data sparse_mat)) < 2 ^ 63 ->
  store_row (Csr.data sparse_mat) (Csr.indices sparse_mat)
    (Csr.indptr sparse_mat) p <> [] ->
  p ∈ map fst (Smoother.smooth_whole_chrom np_sum
                 (Smoother.init log1p sparse_mat bandwidth weigh)).
Proof.
  intros wf Hsize Hne. unfold Smoother.smooth_whole_chrom.
  rewrite map_map. cbn [fst]. rewrite map_id.
  apply (mfracs_defined sparse_mat n_cells wf p Hsize Hne).
Qed.

Lemma smooth_whole_chrom_covers_witness :
  1 ∈ map fst (Smoother.smooth_whole_chrom sum_left
                 (Smoother.init (fun x => x) (Scan.mat example_chr2) 4 false)).
Proof.
  apply (smooth_whole_chrom_covers _ _ _ 3).
  - split; [reflexivity|repeat constructor; lia|reflexivity..|].
    repeat constructor; lia.
  - vm_compute. reflexivity.
  - vm_compute. discriminate.
Defined.

(** ** From ingestion to the scan *)

Lemma load_smoothed_keys (lines : list (Z * float)) (p : Z) :
  forall d : gmap Z float,
    is_Some (fold_left (fun typed_dict line =>
                          <[fst line := snd line]> typed_dict) lines d !! p)
    <-> p ∈ map fst lines \/ is_Some (d !! p).
Proof.
  induction lines as [|[q v] lines IH]; intros d; simpl.
  - split; [auto|]. intros [H|H]; [inversion H|exact H].
  - rewrite IH, elem_of_cons. destruct (decide (p = q)) as [->|Hne].
    + rewrite lookup_insert_eq. split; eauto.
    + rewrite lookup_insert_ne by congruence. tauto.
Qed.

(** The store [prepare] assembles for a chromosome and a track with a line
    for each position for which [smooth] writes one make a file [scan] can
    work on, whatever the smoothed values are. *)
Lemma prepared_scannable (log1p : float -> float)
    (cells : list (list (string * Z * Z * Z))) (f : Scan.chrom_file)
    (bandwidth : Z) (use_weights : bool) (track : list (Z * float)) :
  Prepare.prepare cells (Scan.chrom f) = Some (Scan.mat f) ->
  Z.of_nat (length (Csr.data (Scan.mat f))) < 2 ^ 63 ->
  Scan.smoothed_cpg_vals f = Track._load_smoothed_chrom (Some track) ->
  map fst track
  = Smoother.cpg_pos (Smoother.init log1p (Scan.mat f) bandwidth
                        use_weights) ->
  scannable f.
Proof.
  intros Hp Hsize Hsm Hpos.
  pose proof (prepare_well_formed cells _ _ Hp) as wf.
  destruct (prepare_shape cells _ _ Hp) as (Hcols & _ & Hlast).
  unfold scannable. cbv zeta. rewrite Hcols, Nat2Z.id.
  split; [exact wf|]. split; [eauto|].
  eexists. split; [exact Hsm|].
  apply Forall_forall. intros p _ Hne.
  apply load_smoothed_keys. left. rewrite Hpos.
  apply (mfracs_defined (Scan.mat f) (length cells) wf p Hsize Hne).
Qed.


(** The store of chromosome chr1 of two input files, and the track the
    smoother writes for it with a bandwidth of 4. *)
Definition example_prepared : Scan.chrom_file :=
  Scan.mkFile "chr1" 640
    (Csr.mkMatrix [1; 1; -1; -1] [1; 0; 1; 0] [0; 0; 0; 1; 1; 1; 3; 3; 4]
       8 2)
    (Track._load_smoothed_chrom
       (Some (Track.smooth_chrom (fun x => x) sum_left
                (Csr.mkMatrix [1; 1; -1; -1] [1; 0; 1; 0]
                   [0; 0; 0; 1; 1; 1; 3; 3; 4] 8 2) 4 false))).


(** ** Ingestion: a record with a coverage column *)

(** X21: in a format whose fourth field is the coverage, a line is staged
    exactly when its methylated count is 0 or equals its coverage; it is
    staged as +1 when the methylated count is positive and as -1
    otherwise, and dropped in every other case. *)
Theorem line_to_values_coverage_staged (py_int : string -> option Z)
    (line : list string) (c_col p_col m_col u_col : nat)
    (cell_n : Z) (st : Ingest.state)
    (chrom : string) (pos n_meth coverage : Z) :
  staging_inv st ->
  line !! c_col = Some chrom ->
  line !! p_col ≫= py_int = Some pos ->
  line !! m_col ≫= py_int = Some n_meth ->
  line !! u_col ≫= py_int = Some coverage ->
  exists line_vals st',
    Ingest._line_to_values py_int line c_col p_col m_col u_col true
    = Some line_vals
    /\ Ingest.dump_line cell_n st line_vals = Some st'
    /\ lines_of st' chrom
       = lines_of st chrom
         ++ (if (n_meth =? 0) || (coverage =? n_meth)
             then [(pos, cell_n, if n_meth >? 0 then 1 else -1)]
             else [])
    /\ forall c, c <> chrom -> lines_of st' c = lines_of st c.
Proof.
  intros Hi Hc Hp Hm Hu.
  exists (chrom, pos, n_meth, coverage - n_meth).
  destruct (dump_line_total cell_n st (chrom, pos, n_meth, coverage - n_meth)
              (inv_keys _ Hi)) as [st' Hd].
  exists st'. split.
  { unfold Ingest._line_to_values. rewrite Hc, Hp, Hm, Hu. reflexivity. }
  split; [exact Hd|].
  pose proof (fun c => dump_line_lines cell_n st st' _ c (inv_keys _ Hi) Hd)
    as Hlines.
  unfold call_of, Ingest.ambiguous in Hlines. split.
  - rewrite Hlines. f_equal.
    destruct (decide (chrom = chrom)) as [_|]; [|contradiction].
    destruct (Z.eqb_spec n_meth 0) as [->|Hn]; [reflexivity|].
    destruct (Z.eqb_spec (coverage - n_meth) 0) as [Hz|Hz];
      destruct (Z.eqb_spec coverage n_meth); try lia; reflexivity.
  - intros c Hne. rewrite Hlines.
    destruct (negb (n_meth =? 0) && negb (coverage - n_meth =? 0));
      [apply app_nil_r|].
    destruct (decide (chrom = c)); [congruence|apply app_nil_r].
Qed.

(** A line of an allc file with 3 methylated reads out of 3, then one with
    1 out of 3. *)
Lemma line_to_values_coverage_staged_witness :
  let py_int := fun s : string =>
    if String.eqb s "120" then Some 120
    else if String.eqb s "3" then Some 3
    else if String.eqb s "1" then Some 1 else None in
  (exists line_vals st',
     Ingest._line_to_values py_int ["chr1"; "120"; "+"; "CGA"; "3"; "3"; "1"]
       0 1 4 5 true = Some line_vals
     /\ Ingest.dump_line 0 Ingest.empty line_vals = Some st'
     /\ lines_of st' "chr1" = [(120, 0, 1)])
  /\ exists line_vals st',
       Ingest._line_to_values py_int
         ["chr1"; "120"; "+"; "CGA"; "1"; "3"; "1"] 0 1 4 5 true
       = Some line_vals
       /\ Ingest.dump_line 0 Ingest.empty line_vals = Some st'
       /\ lines_of st' "chr1" = [].
Proof.
  intros py_int. split.
  - destruct (line_to_values_coverage_staged py_int
                ["chr1"; "120"; "+"; "CGA"; "3"; "3"; "1"]%string 0 1 4 5 0
                Ingest.empty "chr1" 120 3 3 empty_staging_inv)
      as (lv & st' & H1 & H2 & H3 & _); try reflexivity.
    exists lv, st'. auto.
  - destruct (line_to_values_coverage_staged py_int
                ["chr1"; "120"; "+"; "CGA"; "1"; "3"; "1"]%string 0 1 4 5 0
                Ingest.empty "chr1" 120 1 3 empty_staging_inv)
      as (lv & st' & H1 & H2 & H3 & _); try reflexivity.
    exists lv, st'. auto.
Defined.

(** ** Ingestion: the cell names are distinct *)

Lemma size_list_to_set_le (l : list string) :
  (size (list_to_set l : gset string) <= length l)%nat.
Proof.
  induction l as [|x l IH]; [rewrite list_to_set_nil, size_empty; lia|].
  rewrite list_to_set_cons, size_union_alt, size_singleton. simpl.
  pose proof (subseteq_size (list_to_set l ∖ {[x]} : gset string)
                (list_to_set l)) as Hsub.
  specialize (Hsub ltac:(set_solver)). lia.
Qed.

Lemma size_list_to_set_NoDup (l : list string) :
  size (list_to_set l : gset string) = length l -> NoDup l.
Proof.
  induction l as [|x l IH]; intros Hs; [constructor|].
  pose proof (size_list_to_set_le l) as Hle.
  destruct (decide (x ∈ l)) as [Hin|Hout].
  - exfalso. simpl in Hs.
    assert (E : ({[x]} ∪ list_to_set l : gset string) = list_to_set l)
      by set_solver.
    rewrite E in Hs. lia.
  - constructor; [exact Hout|]. apply IH.
    rewrite list_to_set_cons, size_union, size_singleton in Hs
      by set_solver.
    simpl in Hs. lia.
Qed.

(** X22: [_get_cell_names] returns exactly when no two input files get the
    same name once directory and extension are removed; it then returns
    one name for each file, in the order of the files, all distinct. *)
Theorem get_cell_names_distinct (lower basename splitext_root : string -> string)
    (cov_files : list string) :
  (is_Some (Names._get_cell_names lower basename splitext_root cov_files)
   <-> NoDup (map (Names.cell_name lower basename splitext_root) cov_files))
  /\ forall names,
       Names._get_cell_names lower basename splitext_root cov_files
       = Some names ->
       names = map (Names.cell_name lower basename splitext_root) cov_files
       /\ NoDup names /\ length names = length cov_files.
Proof.
  unfold Names._get_cell_names. cbv zeta.
  set (names := map (Names.cell_name lower basename splitext_root) cov_files).
  pose proof (size_list_to_set_le names) as Hle.
  destruct (Nat.ltb_spec (size (list_to_set names : gset string))
              (length names)) as [Hlt|Hge].
  - split.
    + split; [intros [? H]; discriminate|].
      intros Hnd. apply (size_list_to_set (C := gset string)) in Hnd. lia.
    + intros ? H. discriminate.
  - assert (Hnd : NoDup names) by (apply size_list_to_set_NoDup; lia).
    split; [split; eauto|].
    intros ? [= <-]. split; [reflexivity|]. split; [exact Hnd|].
    unfold names. apply length_map.
Qed.

(** ** The region matrix: chromosomes, counters and lines *)

Lemma foldM_app {A B} (f : B -> A -> option B) (l k : list A) (b : B) :
  Ingest.foldM f (l ++ k) b
  = match Ingest.foldM f l b with
    | Some b' => Ingest.foldM f k b'
    | None => None
    end.
Proof.
  revert b; induction l as [|a l IH]; intros b; simpl; [reflexivity|].
  destruct (f b a); [apply IH|reflexivity].
Qed.

Section MatrixLoop.

Variable bed_col : nat -> string.
Variable data_dir : gmap string Scan.chrom_file.
Variable cell_names : list string.
Variable keep_other_columns : bool.

Abbreviation matrix_step :=
  (Matrix.step bed_col data_dir cell_names keep_other_columns).

(** The bed entries on a chromosome of the data directory. *)
Definition known (e : Matrix.bed_entry) : bool :=
  bool_decide (is_Some (data_dir !! Matrix.bed_chrom e)).

(** What holds of the locals of [matrix] all along the loop. *)
Record matrix_inv (st : Matrix.state) : Prop := {
  mi_unknown : forall c, c ∈ Matrix.unknown_chroms st -> data_dir !! c = None;
  mi_prev : forall c, Matrix.prev_chrom st = Some c ->
                      c ∈ Matrix.observed_chroms st
                      /\ (c ∈ Matrix.unknown_chroms st
                          \/ is_Some (data_dir !! c));
  mi_empty : 0 <= Matrix.n_empty_regions st <= Matrix.n_regions st;
  mi_rows : Forall (fun r => 0 < Matrix.n_obs r /\ 0 < Matrix.n_cells r)
                   (Matrix.rows st)
}.

Lemma matrix_inv_init : matrix_inv Matrix.init.
Proof.
  split; simpl; [set_solver|discriminate|lia|constructor].
Qed.

Lemma observed_cells_positive (n_total : list Z) (c : Z) :
  c ∈ Matrix.observed_cells n_total ->
  0 <= c /\ exists t, n_total !! Z.to_nat c = Some t /\ 0 < t.
Proof.
  intros Hc. apply nonzero_spec in Hc as (Hc & x & Hx & Hne).
  split; [exact Hc|]. rewrite list_lookup_fmap in Hx.
  destruct (n_total !! Z.to_nat c) as [t|]; [|discriminate].
  exists t. split; [reflexivity|]. simpl in Hx. injection Hx as <-.
  destruct (Z.gtb_spec t 0); lia.
Qed.

Lemma write_rows_positive (e : Matrix.bed_entry) (n_meth n_total : list Z)
    (mfracs : list float) (n_obs_cpgs : Z) (resid : list float)
    (new_rows : list Matrix.out_row) :
  let nz_cells := Matrix.observed_cells n_total in
  nz_cells <> [] ->
  mapM (Matrix.write_row cell_names keep_other_columns e n_meth n_total
          mfracs n_obs_cpgs (Z.of_nat (length nz_cells)) resid) nz_cells
  = Some new_rows ->
  Forall (fun r => 0 < Matrix.n_obs r /\ 0 < Matrix.n_cells r) new_rows.
Proof.
  intros nz_cells Hne Hm. apply mapM_Some_1 in Hm.
  assert (Hlen : 0 < Z.of_nat (length nz_cells))
    by (destruct nz_cells; [contradiction|simpl; lia]).
  assert (Hall : Forall (fun c => c ∈ Matrix.observed_cells n_total) nz_cells)
    by (apply Forall_forall; auto).
  revert Hall. generalize dependent (Z.of_nat (length nz_cells)).
  clear Hne. intros n_obs_cells Hm Hlen.
  induction Hm as [|c r cs rs Hr _ IH]; intros Hall; constructor.
  - apply Forall_cons in Hall as [Hc _].
    apply observed_cells_positive in Hc as (Hc & t & Ht & Hpos).
    unfold Matrix.write_row in Hr.
    destruct (Np.get cell_names c); [|discriminate].
    destruct (Np.get n_meth c); [|discriminate].
    cbn [mbind option_bind] in Hr.
    rewrite (get_nonneg n_total), Ht in Hr by exact Hc.
    cbn [mbind option_bind] in Hr.
    destruct (Np.get mfracs c); [|discriminate].
    destruct (Np.get resid c); [|discriminate].
    cbn [mbind option_bind] in Hr. injection Hr as <-. simpl. lia.
  - apply IH. apply Forall_cons in Hall as [_ Hall]. exact Hall.
Qed.

(** One turn of the loop: the invariant is kept, the set of observed
    chromosomes grows, an entry on a chromosome of the directory is counted
    and makes its chromosome the previous one, any other entry is not
    counted. *)
Lemma matrix_step_spec (st st' : Matrix.state) (e : Matrix.bed_entry) :
  matrix_inv st ->
  matrix_step st e = Some st' ->
  matrix_inv st'
  /\ Matrix.observed_chroms st ⊆ Matrix.observed_chroms st'
  /\ Matrix.n_regions st'
     = Matrix.n_regions st + (if known e then 1 else 0)
  /\ (known e = true ->
      Matrix.prev_chrom st' = Some (Matrix.bed_chrom e)
      /\ (Some (Matrix.bed_chrom e) <> Matrix.prev_chrom st ->
          Matrix.bed_chrom e ∉ Matrix.observed_chroms st))
  /\ (known e = false ->
      Matrix.prev_chrom st' = Matrix.prev_chrom st
      \/ Matrix.bed_chrom e ∉ Matrix.observed_chroms st).
Proof.
  intros Hi Hs. unfold Matrix.step in Hs. cbv zeta in Hs.
  set (hdr := match Matrix.prev_chrom st with
              | Some _ => Matrix.header st
              | None => _
              end) in Hs.
  clearbody hdr. unfold known.
  destruct (decide (Matrix.bed_chrom e ∈ Matrix.unknown_chroms st))
    as [Hunk|Hnunk].
  { injection Hs as <-. pose proof (mi_unknown _ Hi _ Hunk) as Hnone.
    rewrite bool_decide_eq_false_2
      by (rewrite Hnone; intros [? ?]; discriminate).
    split; [destruct Hi; split; assumption|].
    split; [reflexivity|]. split; [simpl; lia|].
    split; [discriminate|]. intros _. left. reflexivity. }
  destruct (decide (Some (Matrix.bed_chrom e) = Matrix.prev_chrom st))
    as [Hprev|Hnprev].
  - cbn [mbind option_bind] in Hs.
    destruct (mi_prev _ Hi _ (eq_sym Hprev)) as [Hobs [Hunk|Hknown]];
      [contradiction|].
    rewrite bool_decide_eq_true_2 by exact Hknown.
    destruct (Matrix.loaded st) as [[mat sm]|]; [|discriminate].
    cbn [mbind option_bind] in Hs.
    destruct (Region._calc_region_stats _ _ _ _ _ _ _)
      as [[[[n_meth n_total] mfracs] n_obs_cpgs]|]; [|discriminate].
    cbn [mbind option_bind] in Hs.
    destruct (Nat.eqb_spec (length (Matrix.observed_cells n_total)) 0)
      as [Hz|Hnz].
    + injection Hs as <-. simpl. split.
      * split; simpl; [apply (mi_unknown _ Hi)| |
                       pose proof (mi_empty _ Hi); lia|apply (mi_rows _ Hi)].
        intros c [= <-]. auto.
      * split; [reflexivity|]. split; [reflexivity|].
        split; [|discriminate]. intros _. split; [reflexivity|].
        intros H. contradiction.
    + destruct (Region._calc_mean_shrunken_residuals _ _ _ _ _ _ _ _)
        as [resid|]; [|discriminate].
      cbn [mbind option_bind] in Hs.
      destruct (mapM _ _) as [new_rows|] eqn:Erows; [|discriminate].
      cbn [mbind option_bind] in Hs. injection Hs as <-. simpl. split.
      * split; simpl; [apply (mi_unknown _ Hi)| |
                       pose proof (mi_empty _ Hi); lia|].
        -- intros c [= <-]. auto.
        -- apply Forall_app. split; [apply (mi_rows _ Hi)|].
           apply (write_rows_positive _ _ _ _ _ _ _
                    ltac:(intros E; rewrite E in Hnz; contradiction) Erows).
      * split; [reflexivity|]. split; [reflexivity|].
        split; [|discriminate]. intros _. split; [reflexivity|].
        intros H. contradiction.
  - destruct (decide (Matrix.bed_chrom e ∈ Matrix.observed_chroms st))
      as [Hobs|Hnobs]; [discriminate|].
    destruct (data_dir !! Matrix.bed_chrom e) as [f|] eqn:Ef.
    + rewrite bool_decide_eq_true_2 by eauto.
      destruct (Scan.smoothed_cpg_vals f) as [sm|]; [|discriminate].
      cbn [mbind option_bind] in Hs.
      destruct (Region._calc_region_stats _ _ _ _ _ _ _)
        as [[[[n_meth n_total] mfracs] n_obs_cpgs]|]; [|discriminate].
      cbn [mbind option_bind] in Hs.
      destruct (Nat.eqb_spec (length (Matrix.observed_cells n_total)) 0)
        as [Hz|Hnz].
      * injection Hs as <-. simpl. split.
        -- split; simpl; [apply (mi_unknown _ Hi)| |
                          pose proof (mi_empty _ Hi); lia
                          |apply (mi_rows _ Hi)].
           intros c [= <-]. split; [set_solver|]. right. rewrite Ef. eauto.
        -- split; [set_solver|]. split; [reflexivity|].
           split; [|discriminate]. intros _. split; [reflexivity|].
           intros _. exact Hnobs.
      * destruct (Region._calc_mean_shrunken_residuals _ _ _ _ _ _ _ _)
          as [resid|]; [|discriminate].
        cbn [mbind option_bind] in Hs.
        destruct (mapM _ _) as [new_rows|] eqn:Erows; [|discriminate].
        cbn [mbind option_bind] in Hs. injection Hs as <-. simpl. split.
        -- split; simpl; [apply (mi_unknown _ Hi)| |
                          pose proof (mi_empty _ Hi); lia|].
           ++ intros c [= <-]. split; [set_solver|]. right. rewrite Ef. eauto.
           ++ apply Forall_app. split; [apply (mi_rows _ Hi)|].
              apply (write_rows_positive _ _ _ _ _ _ _
                       ltac:(intros E; rewrite E in Hnz; contradiction)
                       Erows).
        -- split; [set_solver|]. split; [reflexivity|].
           split; [|discriminate]. intros _. split; [reflexivity|].
           intros _. exact Hnobs.
    + rewrite bool_decide_eq_false_2 by (intros [? ?]; discriminate).
      cbn [mbind option_bind] in Hs. injection Hs as <-. simpl. split.
      * split; simpl; [| |apply (mi_empty _ Hi)|apply (mi_rows _ Hi)].
        -- intros c Hc. apply elem_of_union in Hc as [Hc|Hc];
             [apply elem_of_singleton in Hc; subst c; exact Ef
             |apply (mi_unknown _ Hi _ Hc)].
        -- intros c [= <-]. split; [set_solver|]. left. set_solver.
      * split; [set_solver|]. split; [lia|]. split; [discriminate|].
        intros _. right. exact Hnobs.
Qed.

End MatrixLoop.

Section MatrixFacts.

Variable bed_col : nat -> string.
Variable data_dir : gmap string Scan.chrom_file.
Variable cell_names : list string.
Variable keep_other_columns : bool.

Abbreviation matrix_loop :=
  (Ingest.foldM (Matrix.step bed_col data_dir cell_names keep_other_columns)).

Lemma matrix_loop_spec (entries : list Matrix.bed_entry) :
  forall st st' : Matrix.state,
    matrix_inv data_dir st ->
    matrix_loop entries st = Some st' ->
    matrix_inv data_dir st'
    /\ Matrix.observed_chroms st ⊆ Matrix.observed_chroms st'
    /\ Matrix.n_regions st'
       = Matrix.n_regions st
         + Z.of_nat (length (filter (fun e => known data_dir e = true)
                                    entries)).
Proof.
  induction entries as [|e entries IH]; intros st st' Hi Hl; simpl in Hl.
  - injection Hl as <-. split; [exact Hi|]. split; [reflexivity|].
    simpl. lia.
  - destruct (Matrix.step _ _ _ _ st e) as [st1|] eqn:Hs; [|discriminate].
    destruct (matrix_step_spec _ _ _ _ _ _ _ Hi Hs)
      as (Hi1 & Hsub & Hn & _ & _).
    destruct (IH st1 st' Hi1 Hl) as (Hi' & Hsub' & Hn').
    split; [exact Hi'|]. split; [set_solver|].
    rewrite Hn', Hn, filter_cons.
    destruct (known data_dir e); simpl;
      [destruct (decide (true = true)); [simpl; lia|contradiction]
      |destruct (decide (false = true)); [discriminate|lia]].
Qed.

(** Once a chromosome of the directory was left, an entry that comes back
    to it stops the loop. *)
Lemma matrix_loop_left (chrom : string) (entries : list Matrix.bed_entry) :
  is_Some (data_dir !! chrom) ->
  Exists (fun e => Matrix.bed_chrom e = chrom) entries ->
  forall st : Matrix.state,
    matrix_inv data_dir st ->
    Matrix.prev_chrom st <> Some chrom ->
    chrom ∈ Matrix.observed_chroms st ->
    matrix_loop entries st = None.
Proof.
  intros Hknown Hex.
  induction entries as [|e entries IH]; intros st Hi Hprev Hobs;
    [inversion Hex|].
  simpl. destruct (Matrix.step _ _ _ _ st e) as [st1|] eqn:Hs; [|reflexivity].
  destruct (matrix_step_spec _ _ _ _ _ _ _ Hi Hs)
    as (Hi1 & Hsub & _ & Hk & Hu).
  destruct (decide (Matrix.bed_chrom e = chrom)) as [Heq|Hne].
  - exfalso. subst chrom.
    destruct Hk as [_ Hk];
      [unfold known; apply bool_decide_eq_true_2, Hknown|].
    apply Hk; [congruence|exact Hobs].
  - apply Exists_cons in Hex as [Heq|Hex]; [contradiction|].
    apply IH; [exact Hex|exact Hi1| |set_solver].
    destruct (known data_dir e) eqn:Eknown.
    + destruct Hk as [-> _]; [reflexivity|]. congruence.
    + destruct Hu as [->|Hn]; [reflexivity|exact Hprev|].
      intros Hp. destruct (mi_prev _ _ Hi1 _ Hp) as [_ [Hunk|_]].
      * apply (mi_unknown _ _ Hi1) in Hunk. destruct Hknown as [? Hk'].
        congruence.
      * clear IH. unfold Matrix.step in Hs. cbv zeta in Hs.
        destruct (decide (Matrix.bed_chrom e ∈ Matrix.unknown_chroms st));
          [injection Hs as <-; simpl in Hp; contradiction|].
        destruct (decide (Some (Matrix.bed_chrom e) = Matrix.prev_chrom st))
          as [Hpe|Hpe].
        { cbn [mbind option_bind] in Hs.
          destruct (Matrix.loaded st) as [[mat sm]|]; [|discriminate].
          cbn [mbind option_bind] in Hs.
          destruct (Region._calc_region_stats _ _ _ _ _ _ _)
            as [[[[? ?] ?] ?]|]; [|discriminate].
          cbn [mbind option_bind] in Hs.
          destruct (_ =? _)%nat.
          - injection Hs as <-. simpl in Hp. congruence.
          - destruct (Region._calc_mean_shrunken_residuals _ _ _ _ _ _ _ _);
              [|discriminate].
            cbn [mbind option_bind] in Hs.
            destruct (mapM _ _); [|discriminate].
            injection Hs as <-. simpl in Hp. congruence. }
        destruct (decide (Matrix.bed_chrom e ∈ Matrix.observed_chroms st));
          [discriminate|].
        unfold known in Eknown. apply bool_decide_eq_false_1 in Eknown.
        destruct (data_dir !! Matrix.bed_chrom e) eqn:Ef;
          [exfalso; apply Eknown; eauto|].
        cbn [mbind option_bind] in Hs. injection Hs as <-. simpl in Hp.
        congruence.
Qed.

End MatrixFacts.

(** X23: when [matrix] returns, the number of regions it reports is the
    number of bed entries on a chromosome of the data directory and is
    positive, the number of empty regions lies between 0 and it, and every
    line written has a positive number of observations and a positive
    number of cells. *)
Theorem matrix_counts (py_int : string -> option Z)
    (strip_split : string -> list string) (bed_col : nat -> string)
    (data_dir : gmap string Scan.chrom_file) (cell_names regions : list string)
    (keep_other_columns : bool) (header : list string)
    (rows : list Matrix.out_row) (n_regions n_empty_regions : Z) :
  Matrix.matrix py_int strip_split bed_col data_dir cell_names regions
    keep_other_columns
  = Some (header, rows, n_regions, n_empty_regions) ->
  exists entries,
    Matrix._iter_bed py_int strip_split regions None keep_other_columns
    = Some entries
    /\ n_regions
       = Z.of_nat (length (filter (fun e => known data_dir e = true) entries))
    /\ 0 < n_regions
    /\ 0 <= n_empty_regions <= n_regions
    /\ Forall (fun r => 0 < Matrix.n_obs r /\ 0 < Matrix.n_cells r) rows.
Proof.
  unfold Matrix.matrix. intros H.
  destruct (Matrix._iter_bed _ _ _ _ _) as [entries|]; [|discriminate].
  cbn [mbind option_bind] in H.
  destruct (Ingest.foldM _ entries Matrix.init) as [st|] eqn:Hl;
    [|discriminate].
  cbn [mbind option_bind] in H.
  destruct (matrix_loop_spec _ _ _ _ _ _ _ (matrix_inv_init data_dir) Hl)
    as (Hi & _ & Hn).
  destruct (Z.eqb_spec (Matrix.n_regions st) 0) as [|Hnz]; [discriminate|].
  injection H as _ <- <- <-.
  exists entries. split; [reflexivity|]. simpl in Hn.
  split; [exact Hn|]. pose proof (mi_empty _ _ Hi).
  split; [lia|]. split; [assumption|]. apply (mi_rows _ _ Hi).
Qed.


(** X25: a bed file that comes back to a chromosome of the data directory
    after an entry on another chromosome of the directory makes [matrix]
    raise. *)
Theorem matrix_unsorted_raises (py_int : string -> option Z)
    (strip_split : string -> list string) (bed_col : nat -> string)
    (data_dir : gmap string Scan.chrom_file) (cell_names regions : list string)
    (keep_other_columns : bool)
    (before between after : list Matrix.bed_entry)
    (e1 e2 : Matrix.bed_entry) :
  Matrix._iter_bed py_int strip_split regions None keep_other_columns
  = Some (before ++ e1 :: between ++ e2 :: after) ->
  is_Some (data_dir !! Matrix.bed_chrom e1) ->
  is_Some (data_dir !! Matrix.bed_chrom e2) ->
  Matrix.bed_chrom e2 <> Matrix.bed_chrom e1 ->
  Exists (fun e => Matrix.bed_chrom e = Matrix.bed_chrom e1) after ->
  Matrix.matrix py_int strip_split bed_col data_dir cell_names regions
    keep_other_columns = None.
Proof.
  intros Hb Hk1 Hk2 Hne Hex. unfold Matrix.matrix. rewrite Hb.
  cbn [mbind option_bind].
  assert (Hloop : Ingest.foldM
                    (Matrix.step bed_col data_dir cell_names
                       keep_other_columns)
                    (before ++ e1 :: between ++ e2 :: after) Matrix.init
                  = None); [|rewrite Hloop; reflexivity].
  rewrite foldM_app.
  destruct (Ingest.foldM _ before Matrix.init) as [sta|] eqn:Ha;
    [|reflexivity].
  destruct (matrix_loop_spec _ _ _ _ _ _ _ (matrix_inv_init data_dir) Ha)
    as (Hia & _ & _).
  cbn [Ingest.foldM].
  destruct (Matrix.step _ _ _ _ sta e1) as [stb|] eqn:Hs1; [|reflexivity].
  destruct (matrix_step_spec _ _ _ _ _ _ _ Hia Hs1)
    as (Hib & _ & _ & Hp1 & _).
  destruct Hp1 as [Hp1 _];
    [unfold known; apply bool_decide_eq_true_2, Hk1|].
  destruct (mi_prev _ _ Hib _ Hp1) as [Hobs1 _].
  rewrite foldM_app.
  destruct (Ingest.foldM _ between stb) as [stc|] eqn:Hc; [|reflexivity].
  destruct (matrix_loop_spec _ _ _ _ _ _ _ Hib Hc) as (Hic & Hsubc & _).
  cbn [Ingest.foldM].
  destruct (Matrix.step _ _ _ _ stc e2) as [std|] eqn:Hs2; [|reflexivity].
  destruct (matrix_step_spec _ _ _ _ _ _ _ Hic Hs2)
    as (Hid & Hsubd & _ & Hp2 & _).
  destruct Hp2 as [Hp2 _];
    [unfold known; apply bool_decide_eq_true_2, Hk2|].
  apply (matrix_loop_left bed_col data_dir cell_names keep_other_columns
           (Matrix.bed_chrom e1) after Hk1 Hex std Hid).
  - rewrite Hp2. congruence.
  - set_solver.
Qed.

(** Stand-ins for Python's [int] and [line.strip().split("\t")], to run
    [matrix] on a bed file of three lines. *)
Definition example_int (s : string) : option Z :=
  if String.eqb s "0" then Some 0
  else if String.eqb s "2" then Some 2
  else if String.eqb s "3" then Some 3
  else if String.eqb s "8" then Some 8 else None.

Fixpoint example_split_at (sep : Ascii.ascii) (field : string) (s : string)
    : list string :=
  match s with
  | EmptyString => [String.rev field]
  | String c s' =>
      if Ascii.eqb c sep then String.rev field :: example_split_at sep "" s'
      else example_split_at sep (String c field) s'
  end.

Definition tab : Ascii.ascii := Ascii.ascii_of_nat 9.

Definition example_split (line : string) : list string :=
  example_split_at tab "" line.

Definition example_bed_line (fields : list string) : string :=
  String.concat (String tab "") fields.

Definition example_dir : gmap string Scan.chrom_file :=
  <["chr1" := example_chr1]> (<["chr2" := example_chr2]> ∅).


Lemma matrix_unsorted_raises_witness :
  Matrix.matrix example_int example_split (fun _ => "bed_col"%string)
    example_dir ["cell_a"; "cell_b"; "cell_c"]%string
    [example_bed_line ["chr1"; "0"; "8"]; example_bed_line ["chr2"; "0"; "3"];
     example_bed_line ["chr1"; "2"; "3"]] false = None.
Proof.
  eapply (matrix_unsorted_raises _ _ _ _ _ _ _ [] []
            [Matrix.mkBed "chr1" 2 3 false None]
            (Matrix.mkBed "chr1" 0 8 false None)
            (Matrix.mkBed "chr2" 0 3 false None)).
  - vm_compute. reflexivity.
  - eexists. reflexivity.
  - eexists. reflexivity.
  - discriminate.
  - left. reflexivity.
Defined.

(** A bed file of a comment and four regions: the second one is on a
    chromosome that the data directory does not hold, the third one lies
    inside its chromosome and holds no entry, and is counted as empty. *)
Lemma matrix_counts_witness :
  exists entries,
    Matrix._iter_bed example_int example_split
      ["# regions"%string; example_bed_line ["chr1"; "0"; "8"];
       example_bed_line ["chr9"; "0"; "8"];
       example_bed_line ["chr2"; "2"; "2"];
       example_bed_line ["chr2"; "2"; "3"]] None false = Some entries
    /\ 3 = Z.of_nat (length (filter (fun e => known example_dir e = true)
                                    entries))
    /\ 0 < 3 /\ 0 <= 1 <= 3.
Proof.
  edestruct (matrix_counts example_int example_split
               (fun _ => "bed_col"%string) example_dir
               ["cell_a"; "cell_b"; "cell_c"]%string
               ["# regions"%string; example_bed_line ["chr1"; "0"; "8"];
                example_bed_line ["chr9"; "0"; "8"];
                example_bed_line ["chr2"; "2"; "2"];
                example_bed_line ["chr2"; "2"; "3"]] false)
    as (entries & H1 & H2 & H3 & H4 & _); [vm_compute; reflexivity|].
  exists entries. auto.
Defined.

(** ** The peaks of the scan lie inside the covered part *)

Lemma step_ends (var_cutoff : float) (half_bw : Z) (P : Z -> Prop)
    (st : Peaks.state) (w : float * Z) :
  P (snd w + half_bw) -> P (snd w) ->
  Forall P (Peaks.peak_ends st) ->
  Forall P (Peaks.peak_ends (Peaks.step var_cutoff half_bw st w))
  /\ Peaks.pos (Peaks.step var_cutoff half_bw st w) = Some (snd w).
Proof.
  destruct w as [v q]. intros Hq Hq' Hst. unfold Peaks.step.
  destruct (var_cutoff <? v)%float.
  - destruct (negb (Peaks.in_peak st)); [|split; [exact Hst|reflexivity]].
    destruct (_ && _); [|split; [exact Hst|reflexivity]].
    split; [|reflexivity]. cbn. apply Forall_forall. intros e He.
    rewrite Forall_forall in Hst.
    apply Hst, list_elem_of_In, incl_removelast, list_elem_of_In, He.
  - destruct (Peaks.in_peak st); (split; [|reflexivity]); [|exact Hst].
    cbn. apply Forall_app. split; [exact Hst|]. repeat constructor. exact Hq.
Qed.

Lemma find_peaks_ends (smoothed_vars : list float)
    (swindow_centers : list Z) (var_cutoff : float) (half_bw : Z)
    (P : Z -> Prop) (peak_starts peak_ends : list Z) :
  Forall (fun q => P (q + half_bw) /\ P q) swindow_centers ->
  Peaks._find_peaks smoothed_vars swindow_centers var_cutoff half_bw
  = Some (peak_starts, peak_ends) ->
  Forall P peak_ends.
Proof.
  intros Hc Hf. unfold Peaks._find_peaks, Peaks.finish in Hf.
  assert (Hrun : let st := Peaks.run var_cutoff half_bw
                             (combine smoothed_vars swindow_centers) in
                 Forall P (Peaks.peak_ends st)
                 /\ forall p, Peaks.pos st = Some p -> P p).
  { unfold Peaks.run. cbv zeta.
    assert (Hws : Forall (fun w : float * Z =>
                            P (snd w + half_bw) /\ P (snd w))
                    (combine smoothed_vars swindow_centers)).
    { apply Forall_forall. intros [v q] Hin.
      apply list_elem_of_In, in_combine_r in Hin.
      rewrite Forall_forall in Hc. apply Hc, list_elem_of_In, Hin. }
    assert (Hinit : Forall P (Peaks.peak_ends Peaks.init)
                    /\ forall p, Peaks.pos Peaks.init = Some p -> P p)
      by (split; [constructor|discriminate]).
    revert Hinit. generalize Peaks.init. revert Hws.
    generalize (combine smoothed_vars swindow_centers).
    induction 1 as [|w ws [Hw Hw'] _ IH]; intros st Hst; [exact Hst|].
    simpl. apply IH.
    destruct (step_ends var_cutoff half_bw P st w Hw Hw' (proj1 Hst))
      as [He Hp].
    split; [exact He|]. intros p. rewrite Hp. intros [= <-]. exact Hw'. }
  cbv zeta in Hrun. destruct Hrun as [Hends Hpos].
  destruct (Peaks.in_peak _).
  - destruct (Peaks.pos _) as [p|]; [|discriminate].
    destruct (_ =? _)%nat; [|discriminate]. injection Hf as _ <-.
    apply Forall_app. split; [exact Hends|]. repeat constructor.
    apply Hpos. reflexivity.
  - destruct (_ =? _)%nat; [|discriminate]. injection Hf as _ <-.
    exact Hends.
Qed.

(** X26: when [scan] returns, with a bandwidth that is not negative and a
    step of at least 1, every peak written for a chromosome starts after
    the first covered position of the chromosome and ends before its last
    covered position. *)
Theorem scan_peaks_inside (nanvar : list float -> float)
    (nanquantile : list float -> float -> float)
    (paths : list Scan.chrom_file) (bandwidth stepsize : Z)
    (var_threshold : float) (results : list Scan.scanned) :
  0 <= bandwidth -> 1 <= stepsize ->
  Scan.scan nanvar nanquantile paths bandwidth stepsize var_threshold
  = Some results ->
  Forall2 (fun f r =>
             exists first last_,
               head (Scan.nonzero (Np.diff (Csr.indptr (Scan.mat f))))
               = Some first
               /\ last (Scan.nonzero (Np.diff (Csr.indptr (Scan.mat f))))
                  = Some last_
               /\ Forall (fun p => first < fst (fst p)
                                   /\ snd (fst p) < last_ - 1)
                         (Scan.peaks r))
          (Scan.sorted_by_size paths) results.
Proof.
  intros Hbw Hstep H. unfold Scan.scan in H. cbv zeta in H.
  apply scan_loop_results in H.
  assert (Hh : 0 <= bandwidth / 2) by (apply Z.div_pos; lia).
  eapply Forall2_impl; [exact H|]. clear H.
  intros f r (v & v' & Hr).
  destruct (scan_chrom_peaks _ _ _ _ _ _ _ _ _ Hr)
    as (positions & variances & starts & ends & Hw & Hp & Hz).
  destruct (chrom_windows_spec _ _ _ _ _ _ Hw)
    as (first & last_ & Hfirst & Hlast & -> & _).
  destruct (arange_sorted (first + bandwidth / 2 + 1)
              (last_ - bandwidth / 2 - 1) stepsize Hstep) as [_ Hb].
  exists first, last_. split; [exact Hfirst|]. split; [exact Hlast|].
  assert (Hs : Forall (fun s => first < s) starts).
  { refine (find_peaks_starts _ _ _ _ _ _ _ _ Hp).
    eapply Forall_impl; [exact Hb|]. simpl. intros; lia. }
  assert (He : Forall (fun e => e < last_ - 1) ends).
  { refine (find_peaks_ends _ _ _ _ _ _ _ _ Hp).
    eapply Forall_impl; [exact Hb|]. simpl. intros; lia. }
  apply Forall_forall. intros [[s e] x] Hin.
  assert (Hse : (s, e) ∈ zip starts ends).
  { rewrite <- Hz. apply list_elem_of_fmap. exists (s, e, x). auto. }
  rewrite Forall_forall in Hs, He. cbn [fst snd]. split.
  - apply Hs. apply (elem_of_zip_l _ _ _ _ Hse).
  - apply He. apply (elem_of_zip_r _ _ _ _ Hse).
Qed.

Lemma scan_peaks_inside_witness :
  Forall2 (fun f r =>
             exists first last_,
               head (Scan.nonzero (Np.diff (Csr.indptr (Scan.mat f))))
               = Some first
               /\ last (Scan.nonzero (Np.diff (Csr.indptr (Scan.mat f))))
                  = Some last_
               /\ Forall (fun p => first < fst (fst p)
                                   /\ snd (fst p) < last_ - 1)
                         (Scan.peaks r))
          (Scan.sorted_by_size [example_chr2; example_chr1])
          [Scan.mkScanned "chr1" example_threshold [(4, 5, 0.0625%float)];
           Scan.mkScanned "chr2" example_threshold []].
Proof.
  apply (scan_peaks_inside example_nanvar example_nanquantile
           [example_chr2; example_chr1] 1 1 0.5%float); [lia|lia|].
  vm_compute. reflexivity.
Defined.

(** ** Ingestion: the summary statistics count the clean calls *)

(** The column and the value of a staged line. *)
Definition entry_of (l : Z * Z * Z) : Z * Z := (snd (fst l), snd l).

Lemma entries_concat_miss (l : Z * Z * Z) (coo : list (Z * Z * Z))
    (rs : list nat) :
  Forall (fun r => Z.of_nat r <> fst (fst l)) rs ->
  concat (map (fun r => entries (Z.of_nat r) (l :: coo)) rs)
  = concat (map (fun r => entries (Z.of_nat r) coo) rs).
Proof.
  destruct l as [[p c] v]. induction 1 as [|r rs Hr _ IH]; [reflexivity|].
  cbn [map concat]. rewrite IH, entries_cons. cbn [fst] in Hr.
  destruct (Z.eqb_spec p (Z.of_nat r)); [congruence|reflexivity].
Qed.

Lemma entries_concat_hit (l : Z * Z * Z) (coo : list (Z * Z * Z))
    (rs : list nat) (r0 : nat) :
  NoDup rs -> r0 ∈ rs -> fst (fst l) = Z.of_nat r0 ->
  concat (map (fun r => entries (Z.of_nat r) (l :: coo)) rs)
  ≡ₚ entry_of l :: concat (map (fun r => entries (Z.of_nat r) coo) rs).
Proof.
  destruct l as [[p c] v]. cbn [fst]. intros Hnd Hin ->.
  induction rs as [|r rs IH]; [inversion Hin|].
  apply NoDup_cons in Hnd as [Hr Hnd]. cbn [map concat].
  rewrite entries_cons. destruct (Z.eqb_spec (Z.of_nat r0) (Z.of_nat r)) as [E|E].
  - apply Nat2Z.inj in E. subst r.
    rewrite entries_concat_miss; [reflexivity|].
    apply Forall_forall. intros r Hrin. cbn [fst]. intros E.
    apply Nat2Z.inj in E. subst r. contradiction.
  - apply elem_of_cons in Hin as [->|Hin]; [contradiction|].
    rewrite (IH Hnd Hin). symmetry. apply Permutation_middle.
Qed.

Lemma entries_concat_perm (coo : list (Z * Z * Z)) (M : Z) :
  Forall (fun l => 0 <= fst (fst l) < M) coo ->
  concat (map (fun r => entries (Z.of_nat r) coo) (seq 0 (Z.to_nat M)))
  ≡ₚ map entry_of coo.
Proof.
  induction 1 as [|l coo Hl _ IH].
  - induction (seq 0 (Z.to_nat M)); simpl; auto.
  - rewrite (entries_concat_hit l coo _ (Z.to_nat (fst (fst l))));
      [cbn [map]; rewrite IH; reflexivity|apply NoDup_seq| |lia].
    apply elem_of_seq. lia.
Qed.

Lemma rows_perm (coo : list (Z * Z * Z)) (rs : list nat) :
  NoDup (map (fun l => (fst (fst l), snd (fst l))) coo) ->
  concat (map (fun r => Csr.row_of (Z.of_nat r) coo) rs)
  ≡ₚ concat (map (fun r => entries (Z.of_nat r) coo) rs).
Proof.
  intros Hnd. induction rs as [|r rs IH]; [reflexivity|].
  cbn [map concat]. rewrite IH, (row_of_perm (Z.of_nat r) coo Hnd).
  reflexivity.
Qed.

(** The entries of an assembled store are the staged lines, up to their
    order. *)
Lemma prepare_entries (cells : list (list (string * Z * Z * Z)))
    (chrom : string) (m : Csr.matrix) :
  Prepare.prepare cells chrom = Some m ->
  NoDup (map (fun l => (fst (fst l), snd (fst l)))
             (staged chrom (Ingest.enumerate cells))) ->
  Csr.n_cols m = Z.of_nat (length cells)
  /\ length (Csr.indices m) = length (Csr.data m)
  /\ zip (Csr.indices m) (Csr.data m)
     ≡ₚ map entry_of (staged chrom (Ingest.enumerate cells)).
Proof.
  intros Hp Hnd. apply prepare_inv in Hp as (size & _ & Hm).
  unfold Csr.coo_tocsr in Hm.
  destruct (forallb _ _) eqn:Hchk; [|discriminate]. injection Hm as <-.
  cbn [Csr.of_rows Csr.data Csr.indices Csr.n_cols].
  split; [reflexivity|]. split; [rewrite !length_map; reflexivity|].
  rewrite zip_fst_snd, (rows_perm _ _ Hnd). apply entries_concat_perm.
  apply Forall_forall. intros [[p c] v] Hin.
  rewrite forallb_forall in Hchk. apply list_elem_of_In, Hchk in Hin.
  rewrite !andb_true_iff, !Z.leb_le, !Z.ltb_lt in Hin. simpl. lia.
Qed.

Lemma count_fst (c : Z) (es : list (Z * Z)) :
  Np.count c (map fst es)
  = Z.of_nat (length (filter (fun cv => fst cv = c) es)).
Proof.
  unfold Np.count. f_equal. induction es as [|[c' v] es IH]; [reflexivity|].
  cbn [map fst]. rewrite !filter_cons. cbn [fst].
  destruct (decide (c' = c)); simpl; rewrite IH; reflexivity.
Qed.


Lemma filter_all {A} (P : A -> Prop) `{forall x, Decision (P x)}
    (l : list A) :
  Forall P l -> filter P l = l.
Proof.
  induction 1 as [|x l Hx _ IH]; [reflexivity|].
  rewrite filter_cons, decide_True by exact Hx. f_equal. exact IH.
Qed.

Lemma filter_none {A} (P : A -> Prop) `{forall x, Decision (P x)}
    (l : list A) :
  Forall (fun x => ~ P x) l -> filter P l = [].
Proof.
  induction 1 as [|x l Hx _ IH]; [reflexivity|].
  rewrite filter_cons, decide_False by exact Hx. exact IH.
Qed.

Lemma calls_col (chrom : string) (n : Z) (cell : list (string * Z * Z * Z)) :
  Forall (fun l => snd (fst l) = n) (omap (call_of chrom n) cell).
Proof.
  apply Forall_forall. intros l Hl.
  apply list_elem_of_omap in Hl as ([[[ch pos] nm] nu] & _ & Hl).
  unfold call_of in Hl. destruct (Ingest.ambiguous _); [discriminate|].
  destruct (decide _); [|discriminate]. injection Hl as <-. reflexivity.
Qed.

(** The staged lines of cell [n] are the clean calls of its file. *)
Lemma staged_filter_cell (chrom : string)
    (recs : list (list (string * Z * Z * Z))) :
  forall (idx : list Z) (j : nat) (n : Z) (cell : list (string * Z * Z * Z)),
    NoDup idx -> idx !! j = Some n -> recs !! j = Some cell ->
    filter (fun l => snd (fst l) = n) (staged chrom (combine idx recs))
    = omap (call_of chrom n) cell.
Proof.
  assert (Hother : forall (idx : list Z) (recs : list (list (string * Z * Z * Z)))
                     (n : Z),
            n ∉ idx ->
            filter (fun l => snd (fst l) = n) (staged chrom (combine idx recs))
            = []).
  { intros idx recs0 n Hn. apply filter_none.
    pose proof (staged_cols chrom recs0 idx (fun m => m <> n)) as Hc.
    eapply Forall_impl; [apply Hc|simpl; auto].
    apply Forall_forall. intros m Hm ->. contradiction. }
  induction recs as [|rec recs IH]; intros idx j n cell Hnd Hj Hcell;
    [discriminate|].
  destruct idx as [|n0 idx]; [discriminate|].
  apply NoDup_cons in Hnd as [Hn0 Hnd].
  unfold staged. cbn [combine map concat fst snd].
  fold (staged chrom (combine idx recs)). rewrite filter_app.
  destruct j as [|j]; simpl in Hj, Hcell.
  - injection Hj as ->. injection Hcell as ->.
    rewrite (filter_all _ _ (calls_col chrom n cell)).
    rewrite (Hother idx recs n Hn0). apply app_nil_r.
  - rewrite (IH idx j n cell Hnd Hj Hcell).
    rewrite filter_none; [reflexivity|].
    eapply Forall_impl; [apply (calls_col chrom n0 rec)|].
    simpl. intros l -> ->. apply Hn0, list_elem_of_lookup. eauto.
Qed.

Lemma enumerate_filter_cell (chrom : string)
    (cells : list (list (string * Z * Z * Z))) (i : nat)
    (cell : list (string * Z * Z * Z)) :
  cells !! i = Some cell ->
  filter (fun l => snd (fst l) = Z.of_nat i)
         (staged chrom (Ingest.enumerate cells))
  = omap (call_of chrom (Z.of_nat i)) cell.
Proof.
  intros Hi. apply (staged_filter_cell chrom cells _ i); [| |exact Hi].
  - apply NoDup_fmap; [intros ? ?; apply Nat2Z.inj|apply NoDup_seq].
  - rewrite list_lookup_fmap, lookup_seq_lt
      by (apply lookup_lt_Some in Hi; exact Hi).
    reflexivity.
Qed.

Lemma filter_map_length {A B} (f : A -> B) (P : B -> Prop)
    `{forall y, Decision (P y)} (l : list A) :
  length (filter P (map f l)) = length (filter (fun x => P (f x)) l).
Proof.
  induction l as [|x l IH]; [reflexivity|].
  cbn [map]. rewrite !filter_cons.
  destruct (decide (P (f x))); simpl; rewrite IH; reflexivity.
Qed.

(** The two column counts of an assembled store, for the cell of index
    [i]. *)
Lemma prepare_col_counts (cells : list (list (string * Z * Z * Z)))
    (chrom : string) (m : Csr.matrix) (i : nat)
    (cell : list (string * Z * Z * Z)) :
  Prepare.prepare cells chrom = Some m ->
  NoDup (map (fun l => (fst (fst l), snd (fst l)))
             (staged chrom (Ingest.enumerate cells))) ->
  cells !! i = Some cell ->
  Stats.getnnz_cols m !! i
  = Some (Z.of_nat (length (omap (call_of chrom (Z.of_nat i)) cell)))
  /\ Stats.positive_cols m !! i
     = Some (Z.of_nat (length (filter (fun l => 0 < snd l)
                                 (omap (call_of chrom (Z.of_nat i)) cell)))).
Proof.
  intros Hp Hnd Hi.
  destruct (prepare_entries cells chrom m Hp Hnd) as (Hcols & Hlen & Hperm).
  pose proof (lookup_lt_Some _ _ _ Hi) as Hlt.
  unfold Stats.getnnz_cols, Stats.positive_cols.
  rewrite !list_lookup_fmap, !lookup_seq_lt by lia. cbn [fmap option_fmap option_map].
  split; f_equal.
  - rewrite <- (fst_zip (Csr.indices m) (Csr.data m)) by lia.
    rewrite count_fst. f_equal. rewrite Hperm.
    rewrite <- (enumerate_filter_cell chrom cells i cell Hi).
    rewrite filter_map_length. reflexivity.
  - f_equal. rewrite Hperm.
    rewrite <- (enumerate_filter_cell chrom cells i cell Hi).
    rewrite filter_map_length, list_filter_filter.
    f_equal. apply list_filter_iff. intros [[p c] v]. unfold entry_of.
    simpl. tauto.
Qed.

(** The clean calls of a file, counted chromosome by chromosome. *)
Lemma calls_by_chrom (Q2 : Z * Z * Z -> Prop) (Q3 : string * Z * Z * Z -> Prop)
    `{forall l, Decision (Q2 l)} `{forall lv, Decision (Q3 lv)}
    (n : Z) (chroms : list string) (cell : list (string * Z * Z * Z)) :
  NoDup chroms ->
  (forall ch lv l, call_of ch n lv = Some l -> (Q2 l <-> Q3 lv)) ->
  Forall (fun lv => Ingest.ambiguous lv = false ->
                    fst (fst (fst lv)) ∈ chroms) cell ->
  sum_list (map (fun ch => length (filter Q2 (omap (call_of ch n) cell)))
                chroms)
  = length (filter (fun lv => Ingest.ambiguous lv = false /\ Q3 lv) cell).
Proof.
  intros Hnd HQ Hall. induction Hall as [|lv cell Hlv _ IH].
  - simpl. clear. induction chroms; simpl; auto.
  - assert (Hone : forall (chs : list string) (ch0 : string) (a : nat),
              NoDup chs -> ch0 ∈ chs ->
              sum_list (map (fun ch => if decide (ch = ch0) then a else 0%nat)
                            chs) = a).
    { clear. intros chs ch0 a Hnd Hin.
      induction chs as [|ch chs IH]; [inversion Hin|].
      apply NoDup_cons in Hnd as [Hch Hnd]. cbn [map sum_list sum_list_with].
      destruct (decide (ch = ch0)) as [->|Hne].
      - assert (E : sum_list (map (fun ch => if decide (ch = ch0)
                                             then a else 0%nat) chs) = 0%nat).
        { clear -Hch. induction chs as [|c chs IH]; [reflexivity|].
          apply not_elem_of_cons in Hch as [Hne Hch].
          cbn [map sum_list sum_list_with].
          rewrite decide_False by congruence. rewrite IH by exact Hch.
          reflexivity. }
        rewrite E. unfold id. lia.
      - apply elem_of_cons in Hin as [->|Hin]; [contradiction|].
        rewrite IH by assumption. reflexivity. }
    assert (Hsplit : forall chs,
              sum_list (map (fun ch =>
                               length (filter Q2
                                         (omap (call_of ch n) (lv :: cell))))
                            chs)
              = (sum_list (map (fun ch =>
                                  length (filter Q2
                                            (option_list (call_of ch n lv))))
                               chs)
                 + sum_list (map (fun ch =>
                                    length (filter Q2
                                              (omap (call_of ch n) cell)))
                                 chs))%nat).
    { intros chs. induction chs as [|ch chs IHc]; [reflexivity|].
      cbn [map sum_list sum_list_with]. rewrite IHc.
      cbn [omap list_omap]. fold (omap (call_of ch n) cell).
      destruct (call_of ch n lv) as [l|].
      - change (option_list (Some l)) with [l].
        rewrite !filter_cons, filter_nil.
        destruct (decide (Q2 l)); simpl; unfold id; lia.
      - change (option_list (@None (Z * Z * Z))) with (@nil (Z * Z * Z)).
        rewrite filter_nil. simpl. unfold id. lia. }
    rewrite Hsplit, IH, filter_cons. clear Hsplit IH.
    destruct lv as [[[ch0 pos] nm] nu].
    destruct (Ingest.ambiguous (ch0, pos, nm, nu)) eqn:Ea.
    + rewrite decide_False by (intros [E _]; discriminate).
      assert (E : sum_list (map (fun ch =>
                     length (filter Q2
                               (option_list (call_of ch n (ch0, pos, nm, nu)))))
                     chroms) = 0%nat).
      { clear -Ea. induction chroms as [|ch chs IH]; [reflexivity|].
        cbn [map sum_list sum_list_with]. rewrite IH.
        unfold call_of. rewrite Ea. reflexivity. }
      rewrite E. reflexivity.
    + specialize (Hlv eq_refl). cbn [fst] in Hlv.
      set (l0 := (pos, n, if nm >? 0 then 1 else -1)).
      assert (Hcall : forall ch,
                call_of ch n (ch0, pos, nm, nu)
                = if decide (ch0 = ch) then Some l0 else None)
        by (intros ch; unfold call_of; rewrite Ea; reflexivity).
      assert (E : sum_list (map (fun ch =>
                     length (filter Q2
                               (option_list (call_of ch n (ch0, pos, nm, nu)))))
                     chroms)
                  = if decide (Q2 l0) then 1%nat else 0%nat).
      { rewrite <- (Hone chroms ch0 (if decide (Q2 l0) then 1%nat else 0%nat)
                      Hnd Hlv).
        f_equal. apply map_ext. intros ch. rewrite Hcall.
        destruct (decide (ch0 = ch)) as [->|Hne].
        - rewrite decide_True by reflexivity.
          change (option_list (Some l0)) with [l0].
          rewrite filter_cons, filter_nil. destruct (decide (Q2 l0));
            reflexivity.
        - rewrite decide_False by congruence. reflexivity. }
      rewrite E.
      pose proof (HQ ch0 (ch0, pos, nm, nu) l0) as Hiff.
      rewrite Hcall, decide_True in Hiff by reflexivity.
      specialize (Hiff eq_refl).
      destruct (decide (Q2 l0)) as [Hq|Hq].
      * rewrite decide_True by (split; [reflexivity|apply Hiff, Hq]).
        reflexivity.
      * rewrite decide_False by (intros [_ Hq3]; apply Hq, Hiff, Hq3).
        reflexivity.
Qed.

(** What the loop over the chromosomes adds to the two arrays. *)
Lemma add_chroms_spec (cells : list (list (string * Z * Z * Z)))
    (st : Ingest.state) (chroms : list string) :
  Ingest._dump_coo_files cells = Some st ->
  Forall (fun chrom =>
            NoDup (map (fun l => (fst (fst l), snd (fst l)))
                       (staged chrom (Ingest.enumerate cells)))) chroms ->
  forall (acc res : list Z * list Z),
    Ingest.foldM (Stats.add_chrom st (Z.of_nat (length cells))) chroms acc
    = Some res ->
    forall (i : nat) (cell : list (string * Z * Z * Z)) (a0 b0 : Z),
      cells !! i = Some cell ->
      fst acc !! i = Some a0 -> snd acc !! i = Some b0 ->
      fst res !! i
      = Some (a0 + Z.of_nat (sum_list (map (fun ch =>
                 length (omap (call_of ch (Z.of_nat i)) cell)) chroms)))
      /\ snd res !! i
         = Some (b0 + Z.of_nat (sum_list (map (fun ch =>
                    length (filter (fun l => 0 < snd l)
                              (omap (call_of ch (Z.of_nat i)) cell)))
                    chroms))).
Proof.
  intros Hd Hall. induction Hall as [|chrom chroms Hnd _ IH];
    intros acc res Hf i cell a0 b0 Hi Ha Hb; simpl in Hf.
  - injection Hf as <-. simpl. rewrite !Z.add_0_r. auto.
  - destruct (Stats.add_chrom st _ acc chrom) as [acc1|] eqn:Hadd;
      [|discriminate].
    unfold Stats.add_chrom in Hadd.
    destruct (Prepare.prepare_chrom st _ chrom) as [m|] eqn:Hm;
      [|discriminate].
    cbn [mbind option_bind] in Hadd. injection Hadd as <-.
    assert (Hp : Prepare.prepare cells chrom = Some m)
      by (unfold Prepare.prepare; rewrite Hd; exact Hm).
    destruct (prepare_col_counts cells chrom m i cell Hp Hnd Hi) as [Hn Hpos].
    destruct (IH _ res Hf i cell
                (a0 + Z.of_nat (length (omap (call_of chrom (Z.of_nat i)) cell)))
                (b0 + Z.of_nat (length (filter (fun l => 0 < snd l)
                                   (omap (call_of chrom (Z.of_nat i)) cell))))
                Hi) as [Hr1 Hr2].
    + cbn [fst]. rewrite lookup_zip_with, Ha, Hn. reflexivity.
    + cbn [snd]. rewrite lookup_zip_with, Hb, Hpos. reflexivity.
    + rewrite Hr1, Hr2. cbn [map sum_list sum_list_with]. unfold id.
      split; f_equal; lia.
Qed.

(** X27: when no cell lists a position of a chromosome in two clean
    records, the summary statistics [prepare] writes give, for every cell,
    the number of clean records of its file as number of observations and
    the number of those with a positive methylated count as number of
    methylated sites. *)
Theorem cell_stats_count_clean_calls
    (cells : list (list (string * Z * Z * Z))) (chroms : list string)
    (n_obs_cell n_meth_cell : list Z) :
  NoDup chroms ->
  (forall chrom, staged chrom (Ingest.enumerate cells) <> [] ->
                 chrom ∈ chroms) ->
  Forall (fun chrom =>
            NoDup (map (fun l => (fst (fst l), snd (fst l)))
                       (staged chrom (Ingest.enumerate cells)))) chroms ->
  Stats.cell_stats cells chroms = Some (n_obs_cell, n_meth_cell) ->
  forall (i : nat) (cell : list (string * Z * Z * Z)),
    cells !! i = Some cell ->
    n_obs_cell !! i
    = Some (Z.of_nat (length (filter (fun lv => Ingest.ambiguous lv = false)
                                     cell)))
    /\ n_meth_cell !! i
       = Some (Z.of_nat (length (filter
                 (fun lv => Ingest.ambiguous lv = false
                            /\ 0 < snd (fst lv)) cell))).
Proof.
  intros Hnd Hkeys Hall Hs i cell Hi. unfold Stats.cell_stats in Hs.
  destruct (Ingest._dump_coo_files cells) as [st|] eqn:Hd; [|discriminate].
  cbn [mbind option_bind] in Hs.
  pose proof (lookup_lt_Some _ _ _ Hi) as Hlt.
  destruct (add_chroms_spec cells st chroms Hd Hall _ _ Hs i cell 0 0 Hi)
    as [Hr1 Hr2]; [apply lookup_replicate_2; exact Hlt..|].
  cbn [fst snd] in Hr1, Hr2. rewrite Hr1, Hr2, !Z.add_0_l.
  assert (Hin : Forall (fun lv => Ingest.ambiguous lv = false ->
                                  fst (fst (fst lv)) ∈ chroms) cell).
  { apply Forall_forall. intros [[[ch pos] nm] nu] Hlv Ha. cbn [fst].
    apply Hkeys. intros Hnil.
    assert (Hmem : (pos, Z.of_nat i, if nm >? 0 then 1 else -1)
                   ∈ staged ch (Ingest.enumerate cells)).
    { apply staged_elem. exists i, cell, nm, nu.
      split; [reflexivity|]. split; [exact Hi|]. split; [exact Hlv|].
      split; [|reflexivity]. unfold Ingest.ambiguous in Ha.
      apply andb_false_iff in Ha as [Ha|Ha]; apply negb_false_iff in Ha;
        apply Z.eqb_eq in Ha; auto. }
    rewrite Hnil in Hmem. inversion Hmem. }
  split; do 2 f_equal.
  - rewrite (list_filter_iff (fun lv => Ingest.ambiguous lv = false)
               (fun lv => Ingest.ambiguous lv = false /\ True))
      by (intros; tauto).
    rewrite <- (calls_by_chrom (fun _ => True) (fun _ => True)
                  (Z.of_nat i) chroms cell Hnd ltac:(tauto) Hin).
    f_equal. apply map_ext. intros ch. rewrite filter_all; [reflexivity|].
    apply Forall_forall. auto.
  - assert (HQ : forall ch (lv : string * Z * Z * Z) (l : Z * Z * Z),
              call_of ch (Z.of_nat i) lv = Some l ->
              (0 < snd l <-> 0 < snd (fst lv))).
    { intros ch [[[ch0 pos] nm] nu] l Hcall. unfold call_of in Hcall.
      destruct (Ingest.ambiguous _); [discriminate|].
      destruct (decide _); [|discriminate]. injection Hcall as <-.
      cbn [fst snd]. destruct (Z.gtb_spec nm 0); lia. }
    rewrite <- (calls_by_chrom (fun l => 0 < snd l)
                  (fun lv => 0 < snd (fst lv)) (Z.of_nat i) chroms cell
                  Hnd HQ Hin).
    reflexivity.
Qed.

(** Two files with calls on one chromosome; the second record of the first
    file is ambiguous. *)
Lemma cell_stats_count_clean_calls_witness :
  [2; 2] !! 0%nat = Some 2 /\ [1; 1] !! 0%nat = Some 1.
Proof.
  refine (cell_stats_count_clean_calls
            [[("chr1", 5, 1, 0); ("chr1", 3, 1, 1); ("chr1", 7, 0, 2)];
             [("chr1", 5, 0, 4); ("chr1", 2, 1, 0)]]%string
            ["chr1"%string] [2; 2] [1; 1] _ _ _ _ 0%nat
            [("chr1", 5, 1, 0); ("chr1", 3, 1, 1); ("chr1", 7, 0, 2)]%string
            eq_refl).
  - constructor; [intros H; inversion H|constructor].
  - intros chrom Hne. destruct (decide (chrom = "chr1"%string)) as [->|Hc];
      [left|]. exfalso. apply Hne.
    unfold staged, Ingest.enumerate, call_of. simpl.
    rewrite !decide_False by congruence. reflexivity.
  - constructor; [|constructor].
    refine (bool_decide_unpack _ _). vm_compute. exact I.
  - vm_compute. reflexivity.
Defined.

(** ** The lines that matrix writes *)

(** Two increasing lists with the same elements are the same list. *)
Lemma sorted_lt_eq (l1 : list Z) :
  forall l2 : list Z,
    StronglySorted Z.lt l1 -> StronglySorted Z.lt l2 ->
    (forall x, x ∈ l1 <-> x ∈ l2) -> l1 = l2.
Proof.
  induction l1 as [|x1 l1 IH]; intros [|x2 l2] H1 H2 Hmem.
  - reflexivity.
  - exfalso. apply (not_elem_of_nil x2), Hmem. left.
  - exfalso. apply (not_elem_of_nil x1), Hmem. left.
  - apply StronglySorted_inv in H1 as [H1 Hx1].
    apply StronglySorted_inv in H2 as [H2 Hx2].
    rewrite Forall_forall in Hx1, Hx2.
    assert (Heq : x1 = x2).
    { pose proof (proj1 (Hmem x1) ltac:(left)) as Ha.
      pose proof (proj2 (Hmem x2) ltac:(left)) as Hb.
      apply elem_of_cons in Ha as [Ha|Ha]; [exact Ha|].
      apply elem_of_cons in Hb as [Hb|Hb]; [symmetry; exact Hb|].
      apply Hx2 in Ha. apply Hx1 in Hb. lia. }
    subst x2. f_equal. apply IH; [exact H1|exact H2|].
    intros y. split; intros Hy.
    + pose proof (Hx1 _ Hy).
      pose proof (proj1 (Hmem y) ltac:(right; exact Hy)) as Ha.
      apply elem_of_cons in Ha as [Ha|Ha]; [lia|exact Ha].
    + pose proof (Hx2 _ Hy).
      pose proof (proj2 (Hmem y) ltac:(right; exact Hy)) as Ha.
      apply elem_of_cons in Ha as [Ha|Ha]; [lia|exact Ha].
Qed.

Lemma seqZ_sorted (n : nat) :
  forall m : Z, StronglySorted Z.lt (seqZ m (Z.of_nat n)).
Proof.
  induction n as [|n IH]; intros m; [constructor|].
  rewrite seqZ_cons by lia.
  replace (Z.pred (Z.of_nat (S n))) with (Z.of_nat n) by lia.
  constructor; [apply IH|]. apply Forall_forall. intros x Hx.
  apply elem_of_seqZ in Hx. lia.
Qed.

Lemma filter_sorted (P : Z -> Prop) `{!forall c, Decision (P c)}
    (l : list Z) :
  StronglySorted Z.lt l -> StronglySorted Z.lt (filter P l).
Proof.
  induction 1 as [|x l _ IH Hx]; [constructor|].
  rewrite filter_cons. destruct (decide (P x)); [|exact IH].
  constructor; [exact IH|]. apply Forall_forall. intros y Hy.
  apply list_elem_of_filter in Hy as [_ Hy]. rewrite Forall_forall in Hx.
  apply Hx, Hy.
Qed.

(** The cells that [matrix] writes a line for: those with a positive
    count, in increasing order. *)
Lemma observed_cells_filter (n_total : list Z) (n_cols : Z)
    (P : Z -> Prop) `{!forall c, Decision (P c)} :
  length n_total = Z.to_nat n_cols ->
  (forall c t, 0 <= c -> n_total !! Z.to_nat c = Some t -> (0 < t <-> P c)) ->
  Matrix.observed_cells n_total = filter P (seqZ 0 n_cols).
Proof.
  intros Hlen Hp. apply sorted_lt_eq.
  - apply nonzero_spec.
  - apply filter_sorted.
    destruct (Z.le_gt_cases 0 n_cols) as [Hn|Hn].
    + rewrite <- (Z2Nat.id n_cols) by exact Hn. apply seqZ_sorted.
    + rewrite seqZ_nil by lia. constructor.
  - intros c. rewrite list_elem_of_filter, elem_of_seqZ. split.
    + intros Hc. apply observed_cells_positive in Hc as (Hc & t & Ht & Hpos).
      pose proof (lookup_lt_Some _ _ _ Ht) as Hlt.
      split; [apply (Hp c t Hc Ht), Hpos|lia].
    + intros [Hc Hr]. unfold Matrix.observed_cells.
      apply nonzero_spec. split; [lia|].
      destruct (lookup_lt_is_Some_2 n_total (Z.to_nat c)) as [t Ht]; [lia|].
      exists (if t >? 0 then 1 else 0).
      rewrite list_lookup_fmap, Ht. split; [reflexivity|].
      apply (Hp c t) in Hc; [|lia|exact Ht].
      destruct (Z.gtb_spec t 0); lia.
Qed.

Section MatrixRows.

Variable bed_col : nat -> string.
Variable data_dir : gmap string Scan.chrom_file.
Variable cell_names : list string.
Variable keep_other_columns : bool.

(** The store at hand is the one of the previous chromosome, when the
    directory holds it. *)
Definition loaded_ok (st : Matrix.state) : Prop :=
  forall c, Matrix.prev_chrom st = Some c ->
            c ∉ Matrix.unknown_chroms st ->
            exists f sm, data_dir !! c = Some f
                         /\ Scan.smoothed_cpg_vals f = Some sm
                         /\ Matrix.loaded st = Some (Scan.mat f, sm).

(** Line [r] holds, for the region of entry [e], what [_calc_region_stats]
    returned at cell [c]. *)
Definition row_of_cell (e : Matrix.bed_entry) (n_meth n_total : list Z)
    (mfracs : list float) (n_obs_cpgs : Z) (c : Z) (r : Matrix.out_row)
    : Prop :=
  Np.get cell_names c = Some (Matrix.cell_name r)
  /\ Np.get n_meth c = Some (Matrix.n_meth r)
  /\ Np.get n_total c = Some (Matrix.n_obs r)
  /\ Np.get mfracs c = Some (Matrix.meth_frac r)
  /\ Matrix.n_sites r = n_obs_cpgs
  /\ Matrix.n_cells r = Z.of_nat (length (Matrix.observed_cells n_total))
  /\ Matrix.chromosome r = Matrix.bed_chrom e
  /\ Matrix.start r = Matrix.bed_start e
  /\ Matrix.end_ r = Matrix.bed_end e.

(** The lines of the region of entry [e]: none on a chromosome that the
    directory does not hold, and else one for each cell with a positive
    count. *)
Definition rows_of_region (e : Matrix.bed_entry)
    (new_rows : list Matrix.out_row) : Prop :=
  match data_dir !! Matrix.bed_chrom e with
  | None => new_rows = []
  | Some f =>
      exists n_meth n_total mfracs n_obs_cpgs,
        Region._calc_region_stats (Csr.data (Scan.mat f))
          (Csr.indices (Scan.mat f)) (Csr.indptr (Scan.mat f))
          (Z.to_nat (Csr.n_cols (Scan.mat f))) (Csr.n_rows (Scan.mat f))
          (Matrix.bed_start e) (Matrix.bed_end e)
        = Some (n_meth, n_total, mfracs, n_obs_cpgs)
        /\ Forall2 (row_of_cell e n_meth n_total mfracs n_obs_cpgs)
                   (Matrix.observed_cells n_total) new_rows
  end.

Lemma write_rows_fields (e : Matrix.bed_entry)
    (n_meth n_total : list Z) (mfracs : list float)
    (n_obs_cpgs : Z) (resid : list float)
    (new_rows : list Matrix.out_row) :
  mapM (Matrix.write_row cell_names keep_other_columns e n_meth n_total
          mfracs n_obs_cpgs
          (Z.of_nat (length (Matrix.observed_cells n_total))) resid)
       (Matrix.observed_cells n_total)
  = Some new_rows ->
  Forall2 (row_of_cell e n_meth n_total mfracs n_obs_cpgs)
          (Matrix.observed_cells n_total) new_rows.
Proof.
  intros Hm. apply mapM_Some_1 in Hm.
  eapply Forall2_impl; [exact Hm|]. intros c r Hw.
  unfold Matrix.write_row in Hw.
  destruct (Np.get cell_names c) as [name|] eqn:Hname; [|discriminate].
  destruct (Np.get n_meth c) as [m|] eqn:Hmeth; [|discriminate].
  destruct (Np.get n_total c) as [t|] eqn:Htot; [|discriminate].
  destruct (Np.get mfracs c) as [fr|] eqn:Hfr; [|discriminate].
  destruct (Np.get resid c) as [rs|]; [|discriminate].
  cbn [mbind option_bind] in Hw. injection Hw as <-.
  unfold row_of_cell. cbn. rewrite Hname, Hmeth, Htot, Hfr.
  repeat split; reflexivity.
Qed.

(** One turn of the loop appends the lines of the region of its entry. *)
Lemma matrix_step_rows (st st' : Matrix.state) (e : Matrix.bed_entry) :
  (forall c, c ∈ Matrix.unknown_chroms st -> data_dir !! c = None) ->
  loaded_ok st ->
  Matrix.step bed_col data_dir cell_names keep_other_columns st e
  = Some st' ->
  (forall c, c ∈ Matrix.unknown_chroms st' -> data_dir !! c = None)
  /\ loaded_ok st'
  /\ exists new_rows, Matrix.rows st' = Matrix.rows st ++ new_rows
                      /\ rows_of_region e new_rows.
Proof.
  intros Hu Hl Hs. unfold Matrix.step in Hs. cbv zeta in Hs.
  set (hdr := match Matrix.prev_chrom st with
              | Some _ => Matrix.header st
              | None => _
              end) in Hs.
  clearbody hdr. unfold rows_of_region.
  destruct (decide (Matrix.bed_chrom e ∈ Matrix.unknown_chroms st))
    as [Hunk|Hnunk].
  { injection Hs as <-. split; [exact Hu|]. split; [exact Hl|].
    exists []. simpl. rewrite app_nil_r, (Hu _ Hunk). auto. }
  assert (Htail : forall f sm observed,
    data_dir !! Matrix.bed_chrom e = Some f ->
    Scan.smoothed_cpg_vals f = Some sm ->
    ('(n_meth, n_total, mfracs, n_obs_cpgs) ←
       Region._calc_region_stats (Csr.data (Scan.mat f))
         (Csr.indices (Scan.mat f)) (Csr.indptr (Scan.mat f))
         (Z.to_nat (Csr.n_cols (Scan.mat f))) (Csr.n_rows (Scan.mat f))
         (Matrix.bed_start e) (Matrix.bed_end e);
     if (length (Matrix.observed_cells n_total) =? 0)%nat
     then Some (Matrix.mkState hdr (Matrix.rows st) (Matrix.n_regions st + 1)
                  (Matrix.n_empty_regions st + 1) observed
                  (Matrix.unknown_chroms st) (Some (Matrix.bed_chrom e))
                  (Some (Scan.mat f, sm)))
     else
       resid_shrunk ←
         Region._calc_mean_shrunken_residuals (Csr.data (Scan.mat f))
           (Csr.indices (Scan.mat f)) (Csr.indptr (Scan.mat f)) sm
           (Z.to_nat (Csr.n_cols (Scan.mat f))) (Csr.n_rows (Scan.mat f))
           (Matrix.bed_start e) (Matrix.bed_end e);
       new_rows ←
         mapM (Matrix.write_row cell_names keep_other_columns e n_meth
                 n_total mfracs n_obs_cpgs
                 (Z.of_nat (length (Matrix.observed_cells n_total)))
                 resid_shrunk) (Matrix.observed_cells n_total);
       Some (Matrix.mkState hdr (Matrix.rows st ++ new_rows)
               (Matrix.n_regions st + 1) (Matrix.n_empty_regions st)
               observed (Matrix.unknown_chroms st)
               (Some (Matrix.bed_chrom e)) (Some (Scan.mat f, sm))))
    = Some st' ->
    (forall c, c ∈ Matrix.unknown_chroms st' -> data_dir !! c = None)
    /\ loaded_ok st'
    /\ exists new_rows,
         Matrix.rows st' = Matrix.rows st ++ new_rows
         /\ exists n_meth n_total mfracs n_obs_cpgs,
              Region._calc_region_stats (Csr.data (Scan.mat f))
                (Csr.indices (Scan.mat f)) (Csr.indptr (Scan.mat f))
                (Z.to_nat (Csr.n_cols (Scan.mat f)))
                (Csr.n_rows (Scan.mat f))
                (Matrix.bed_start e) (Matrix.bed_end e)
              = Some (n_meth, n_total, mfracs, n_obs_cpgs)
              /\ Forall2 (row_of_cell e n_meth n_total mfracs n_obs_cpgs)
                         (Matrix.observed_cells n_total) new_rows).
  { intros f sm observed Ef Hsm Ht.
    destruct (Region._calc_region_stats _ _ _ _ _ _ _)
      as [[[[n_meth n_total] mfracs] n_obs_cpgs]|] eqn:Hcalc; [|discriminate].
    cbn [mbind option_bind] in Ht.
    destruct (Nat.eqb_spec (length (Matrix.observed_cells n_total)) 0)
      as [Hz|Hnz].
    - injection Ht as <-. split; [exact Hu|]. split.
      + intros c [= <-] _. exists f, sm. auto.
      + exists []. simpl. rewrite app_nil_r. split; [reflexivity|].
        exists n_meth, n_total, mfracs, n_obs_cpgs. split; [reflexivity|].
        apply length_zero_iff_nil in Hz. rewrite Hz. constructor.
    - destruct (Region._calc_mean_shrunken_residuals _ _ _ _ _ _ _ _)
        as [resid|]; [|discriminate].
      cbn [mbind option_bind] in Ht.
      destruct (mapM _ _) as [new_rows|] eqn:Erows; [|discriminate].
      cbn [mbind option_bind] in Ht. injection Ht as <-.
      split; [exact Hu|]. split.
      + intros c [= <-] _. exists f, sm. auto.
      + exists new_rows. split; [reflexivity|].
        exists n_meth, n_total, mfracs, n_obs_cpgs. split; [reflexivity|].
        apply (write_rows_fields _ _ _ _ _ _ _ Erows). }
  destruct (decide (Some (Matrix.bed_chrom e) = Matrix.prev_chrom st))
    as [Hprev|Hnprev].
  - cbn [mbind option_bind] in Hs.
    destruct (Hl _ (eq_sym Hprev) Hnunk) as (f & sm & Ef & Hsm & Hload).
    rewrite Hload in Hs. cbn [mbind option_bind] in Hs. rewrite Ef.
    apply (Htail f sm _ Ef Hsm Hs).
  - destruct (decide (Matrix.bed_chrom e ∈ Matrix.observed_chroms st));
      [discriminate|].
    destruct (data_dir !! Matrix.bed_chrom e) as [f|] eqn:Ef.
    + destruct (Scan.smoothed_cpg_vals f) as [sm|] eqn:Hsm; [|discriminate].
      cbn [mbind option_bind] in Hs. apply (Htail f sm _ eq_refl Hsm Hs).
    + cbn [mbind option_bind] in Hs. injection Hs as <-. simpl. split.
      * intros c Hc. apply elem_of_union in Hc as [Hc|Hc];
          [apply elem_of_singleton in Hc; subst c; exact Ef|apply Hu, Hc].
      * split.
        -- intros c [= <-] Hc. exfalso.
           apply Hc, elem_of_union_l, elem_of_singleton. reflexivity.
        -- exists []. rewrite app_nil_r. auto.
Qed.

Lemma matrix_loop_rows (entries : list Matrix.bed_entry) :
  forall st st' : Matrix.state,
    (forall c, c ∈ Matrix.unknown_chroms st -> data_dir !! c = None) ->
    loaded_ok st ->
    Ingest.foldM (Matrix.step bed_col data_dir cell_names keep_other_columns)
      entries st = Some st' ->
    exists new_rows,
      Matrix.rows st' = Matrix.rows st ++ concat new_rows
      /\ Forall2 rows_of_region entries new_rows.
Proof.
  induction entries as [|e entries IH]; intros st st' Hu Hl Hf; simpl in Hf.
  - injection Hf as <-. exists []. simpl. rewrite app_nil_r.
    split; [reflexivity|constructor].
  - destruct (Matrix.step _ _ _ _ st e) as [st1|] eqn:Hs; [|discriminate].
    destruct (matrix_step_rows _ _ _ Hu Hl Hs)
      as (Hu1 & Hl1 & new1 & Hr1 & Hall1).
    destruct (IH st1 st' Hu1 Hl1 Hf) as (new2 & Hr2 & Hall2).
    exists (new1 :: new2). rewrite Hr2, Hr1, <- app_assoc.
    split; [reflexivity|]. constructor; assumption.
Qed.

(** The lines that [matrix] returns, region by region. *)
Lemma matrix_rows_by_region (py_int : string -> option Z)
    (strip_split : string -> list string) (regions : list string)
    (hdr : list string) (rows : list Matrix.out_row)
    (n_regions n_empty_regions : Z) :
  Matrix.matrix py_int strip_split bed_col data_dir cell_names regions
    keep_other_columns
  = Some (hdr, rows, n_regions, n_empty_regions) ->
  exists entries new_rows,
    Matrix._iter_bed py_int strip_split regions None keep_other_columns
    = Some entries
    /\ rows = concat new_rows
    /\ Forall2 rows_of_region entries new_rows.
Proof.
  intros Hm. unfold Matrix.matrix in Hm.
  destruct (Matrix._iter_bed _ _ _ _ _) as [entries|]; [|discriminate].
  cbn [mbind option_bind] in Hm.
  destruct (Ingest.foldM _ entries Matrix.init) as [st|] eqn:Hf;
    [|discriminate].
  cbn [mbind option_bind] in Hm.
  destruct (Matrix.n_regions st =? 0); [discriminate|].
  injection Hm as _ <- _ _.
  destruct (matrix_loop_rows entries Matrix.init st) as (new_rows & Hr & Hall);
    [simpl; set_solver|intros c Hc; discriminate|exact Hf|].
  exists entries, new_rows. auto.
Qed.

End MatrixRows.

(** What the counts of a region are, on a well-formed store with values -1
    and +1: the positions with an entry, the cells with an observation
    and, for each of these cells, its observations. *)
Lemma region_counts (f : Scan.chrom_file) (start end_ : Z)
    (n_meth n_total : list Z) (mfracs : list float) (n_obs_cpgs : Z) :
  let obs := observations (Csr.data (Scan.mat f)) (Csr.indices (Scan.mat f))
               (Csr.indptr (Scan.mat f)) (Csr.n_rows (Scan.mat f))
               start end_ in
  well_formed (Csr.data (Scan.mat f)) (Csr.indices (Scan.mat f))
    (Csr.indptr (Scan.mat f)) (Z.to_nat (Csr.n_cols (Scan.mat f)))
    (Csr.n_rows (Scan.mat f)) ->
  Forall (fun v => v = -1 \/ v = 1) (Csr.data (Scan.mat f)) ->
  0 <= start <= end_ ->
  Region._calc_region_stats (Csr.data (Scan.mat f))
    (Csr.indices (Scan.mat f)) (Csr.indptr (Scan.mat f))
    (Z.to_nat (Csr.n_cols (Scan.mat f))) (Csr.n_rows (Scan.mat f))
    start end_
  = Some (n_meth, n_total, mfracs, n_obs_cpgs) ->
  Matrix.observed_cells n_total
  = filter (fun c => obs c <> []) (seqZ 0 (Csr.n_cols (Scan.mat f)))
  /\ forall c, c ∈ Matrix.observed_cells n_total ->
       let meth := filter (fun pv => snd pv = 1) (obs c) in
       0 <= c
       /\ Np.get n_total c = Some (Z.of_nat (length (obs c)))
       /\ 0 < Z.of_nat (length (obs c))
       /\ Np.get n_meth c = Some (Z.of_nat (length meth))
       /\ Np.get mfracs c
          = Some (Np.of_int (Z.of_nat (length meth))
                  / Np.of_int (Z.of_nat (length (obs c))))%float
       /\ n_obs_cpgs
          = Z.of_nat (length (filter
              (fun p => store_row (Csr.data (Scan.mat f))
                          (Csr.indices (Scan.mat f))
                          (Csr.indptr (Scan.mat f)) p <> [])
              (interval_rows (Csr.n_rows (Scan.mat f)) start end_))).
Proof.
  intros obs wf Hvals Hse Hcalc.
  assert (Hnone : Matrix.observed_cells
                    (replicate (Z.to_nat (Csr.n_cols (Scan.mat f))) 0)
                  = []).
  { destruct (Matrix.observed_cells _) as [|c cs] eqn:Ecs; [reflexivity|].
    assert (Hc : c ∈ Matrix.observed_cells
                       (replicate (Z.to_nat (Csr.n_cols (Scan.mat f))) 0))
      by (rewrite Ecs; left).
    apply observed_cells_positive in Hc as (_ & t & Ht & Hpos).
    apply lookup_replicate in Ht as [-> _]. lia. }
  assert (Hempty : Forall
            (fun p => store_row (Csr.data (Scan.mat f))
                        (Csr.indices (Scan.mat f))
                        (Csr.indptr (Scan.mat f)) p = [])
            (interval_rows (Csr.n_rows (Scan.mat f)) start end_) ->
          Region._calc_region_stats (Csr.data (Scan.mat f))
            (Csr.indices (Scan.mat f)) (Csr.indptr (Scan.mat f))
            (Z.to_nat (Csr.n_cols (Scan.mat f))) (Csr.n_rows (Scan.mat f))
            start end_
          = Some (replicate (Z.to_nat (Csr.n_cols (Scan.mat f))) 0,
                  replicate (Z.to_nat (Csr.n_cols (Scan.mat f))) 0,
                  replicate (Z.to_nat (Csr.n_cols (Scan.mat f))) nan, 0) ->
          Matrix.observed_cells n_total
          = filter (fun c => obs c <> [])
                   (seqZ 0 (Csr.n_cols (Scan.mat f)))
          /\ forall c, c ∈ Matrix.observed_cells n_total -> False).
  { intros Hall Hzero. rewrite Hcalc in Hzero. injection Hzero as _ -> _ _.
    rewrite Hnone. split; [|intros c Hc; inversion Hc].
    symmetry. apply filter_none, Forall_forall. intros c _ Hne. apply Hne.
    unfold obs, observations. clear -Hall.
    induction Hall as [|p ps Hp _ IH]; [reflexivity|].
    cbn [flat_map]. rewrite Hp, IH. reflexivity. }
  destruct (Z.ltb_spec (Csr.n_rows (Scan.mat f)) start) as [Hout|Hin].
  { destruct Hempty as [Hcs Hno].
    - unfold interval_rows. rewrite seqZ_nil by lia. constructor.
    - apply calc_region_stats_outside, Hout.
    - split; [exact Hcs|]. intros c Hc. destruct (Hno c Hc). }
  destruct (covered_or_not (Csr.data (Scan.mat f))
              (Csr.indices (Scan.mat f)) (Csr.indptr (Scan.mat f))
              (interval_rows (Csr.n_rows (Scan.mat f)) start end_))
    as [Hex|Hall].
  2:{ destruct Hempty as [Hcs Hno].
      - exact Hall.
      - apply (calc_region_stats_uncovered _ _ _ _ _ wf _ _ Hse Hin Hall).
      - split; [exact Hcs|]. intros c Hc. destruct (Hno c Hc). }
  destruct (region_stats_counts _ _ _ _ _ _ _ wf Hvals Hse Hex)
    as (nm & nt & mf & Hcalc' & Hlen & Hres).
  rewrite Hcalc in Hcalc'. injection Hcalc' as <- <- <- Hsites.
  assert (Hcount : forall c t, 0 <= c -> n_total !! Z.to_nat c = Some t ->
                               t = Z.of_nat (length (obs c))).
  { intros c t Hc Ht.
    assert (Hlt : (Z.to_nat c < Z.to_nat (Csr.n_cols (Scan.mat f)))%nat)
      by (rewrite <- Hlen; apply (lookup_lt_Some _ _ _ Ht)).
    destruct (Hres _ Hlt) as (H1 & _). cbv zeta in H1.
    rewrite Z2Nat.id in H1 by exact Hc. fold obs in H1. congruence. }
  split.
  - apply observed_cells_filter; [exact Hlen|]. intros c t Hc Ht.
    rewrite (Hcount c t Hc Ht). destruct (obs c); simpl; split; intros H;
      try lia; try congruence.
  - intros c Hc. cbv zeta.
    apply observed_cells_positive in Hc as (Hc & t & Ht & Hpos).
    pose proof (Hcount c t Hc Ht) as ->.
    assert (Hlt : (Z.to_nat c < Z.to_nat (Csr.n_cols (Scan.mat f)))%nat)
      by (rewrite <- Hlen; apply (lookup_lt_Some _ _ _ Ht)).
    destruct (Hres _ Hlt) as (_ & H2 & H3). cbv zeta in H2, H3.
    rewrite Z2Nat.id in H2, H3 by exact Hc. fold obs in H2, H3.
    rewrite (get_nonneg n_total), (get_nonneg n_meth), (get_nonneg mfracs)
      by exact Hc.
    auto 10.
Qed.

(** Line [r] is the line of a cell of [cell_names] on a chromosome of the
    directory, and holds the counts of that cell between [start] and [end],
    both included: the positive number of its observations, the number of
    those that are methylated, their quotient, the number of positions of
    the region that hold an entry, and the number of cells with an
    observation in the region. *)
Definition counted_row (data_dir : gmap string Scan.chrom_file)
    (cell_names : list string) (r : Matrix.out_row) : Prop :=
  exists f c,
    data_dir !! Matrix.chromosome r = Some f
    /\ 0 <= c
    /\ cell_names !! Z.to_nat c = Some (Matrix.cell_name r)
    /\ let obs := observations (Csr.data (Scan.mat f))
                    (Csr.indices (Scan.mat f)) (Csr.indptr (Scan.mat f))
                    (Csr.n_rows (Scan.mat f)) (Matrix.start r)
                    (Matrix.end_ r) in
       let meth := filter (fun pv => snd pv = 1) (obs c) in
       0 < Matrix.n_obs r
       /\ Matrix.n_obs r = Z.of_nat (length (obs c))
       /\ Matrix.n_meth r = Z.of_nat (length meth)
       /\ Matrix.meth_frac r
          = (Np.of_int (Z.of_nat (length meth))
             / Np.of_int (Z.of_nat (length (obs c))))%float
       /\ Matrix.n_sites r
          = Z.of_nat (length (filter
              (fun p => store_row (Csr.data (Scan.mat f))
                          (Csr.indices (Scan.mat f))
                          (Csr.indptr (Scan.mat f)) p <> [])
              (interval_rows (Csr.n_rows (Scan.mat f)) (Matrix.start r)
                 (Matrix.end_ r))))
       /\ Matrix.n_cells r
          = Z.of_nat (length (filter (fun c' => obs c' <> [])
                                     (seqZ 0 (Csr.n_cols (Scan.mat f))))).



(** The pairs of region and cell that [matrix] writes a line for: on a
    chromosome of the directory, the cells with an observation in the
    region, in increasing order. *)
Definition region_cells (data_dir : gmap string Scan.chrom_file)
    (e : Matrix.bed_entry) : list (Matrix.bed_entry * Z) :=
  match data_dir !! Matrix.bed_chrom e with
  | None => []
  | Some f =>
      map (pair e)
          (filter (fun c => observations (Csr.data (Scan.mat f))
                              (Csr.indices (Scan.mat f))
                              (Csr.indptr (Scan.mat f))
                              (Csr.n_rows (Scan.mat f)) (Matrix.bed_start e)
                              (Matrix.bed_end e) c <> [])
                  (seqZ 0 (Csr.n_cols (Scan.mat f))))
  end.



(** ** Matrix returns on a complete directory and a sorted bed file *)

(** A list in which equal elements are next to each other. *)
Definition grouped (l : list string) : Prop :=
  forall (i j k : nat) (x : string),
    (i <= j <= k)%nat -> l !! i = Some x -> l !! k = Some x ->
    l !! j = Some x.

Lemma grouped_last (done todo : list string) (x : string) :
  grouped (done ++ x :: todo) -> x ∈ done -> last done = Some x.
Proof.
  intros Hg Hx. apply list_elem_of_lookup in Hx as [i Hi].
  pose proof (lookup_lt_Some _ _ _ Hi) as Hlt.
  rewrite last_lookup.
  rewrite <- (lookup_app_l done (x :: todo)) by lia.
  apply (Hg i _ (length done)); [lia|rewrite lookup_app_l by lia; exact Hi|].
  rewrite list_lookup_middle; reflexivity.
Qed.

(** A chromosome file that [matrix] can use with the names [cell_names]:
    a well-formed store with values -1 and +1 and at most as many columns
    as there are names, and a smoothed track with a value for every
    position that holds an entry. *)
Definition usable (cell_names : list string) (f : Scan.chrom_file) : Prop :=
  let row := store_row (Csr.data (Scan.mat f)) (Csr.indices (Scan.mat f))
               (Csr.indptr (Scan.mat f)) in
  well_formed (Csr.data (Scan.mat f)) (Csr.indices (Scan.mat f))
    (Csr.indptr (Scan.mat f)) (Z.to_nat (Csr.n_cols (Scan.mat f)))
    (Csr.n_rows (Scan.mat f))
  /\ Forall (fun v => v = -1 \/ v = 1) (Csr.data (Scan.mat f))
  /\ (Z.to_nat (Csr.n_cols (Scan.mat f)) <= length cell_names)%nat
  /\ exists smoothed_vals,
       Scan.smoothed_cpg_vals f = Some smoothed_vals
       /\ Forall (fun p => row p <> [] -> is_Some (smoothed_vals !! p))
                 (seqZ 0 (Csr.n_rows (Scan.mat f))).

(** The region of [e] starts past the end of the chromosome of [f], or
    holds an entry of its store. *)
Definition region_covered (f : Scan.chrom_file) (e : Matrix.bed_entry)
    : Prop :=
  Csr.n_rows (Scan.mat f) < Matrix.bed_start e
  \/ (0 <= Matrix.bed_start e <= Matrix.bed_end e
      /\ Exists (fun p => store_row (Csr.data (Scan.mat f))
                            (Csr.indices (Scan.mat f))
                            (Csr.indptr (Scan.mat f)) p <> [])
                (interval_rows (Csr.n_rows (Scan.mat f))
                   (Matrix.bed_start e) (Matrix.bed_end e))).

Section MatrixReturns.

Variable bed_col : nat -> string.
Variable data_dir : gmap string Scan.chrom_file.
Variable cell_names : list string.
Variable keep_other_columns : bool.

Hypothesis dir_usable :
  forall chrom f, data_dir !! chrom = Some f -> usable cell_names f.

(** The statistics, the residuals and the lines of a covered region. *)
Lemma matrix_region_returns (e : Matrix.bed_entry) (f : Scan.chrom_file)
    (sm : gmap Z float) (mk_empty : Matrix.state)
    (mk_rows : list Matrix.out_row -> Matrix.state) :
  usable cell_names f -> Scan.smoothed_cpg_vals f = Some sm ->
  region_covered f e ->
  exists st',
    ('(n_meth, n_total, mfracs, n_obs_cpgs) ←
       Region._calc_region_stats (Csr.data (Scan.mat f))
         (Csr.indices (Scan.mat f)) (Csr.indptr (Scan.mat f))
         (Z.to_nat (Csr.n_cols (Scan.mat f))) (Csr.n_rows (Scan.mat f))
         (Matrix.bed_start e) (Matrix.bed_end e);
     if (length (Matrix.observed_cells n_total) =? 0)%nat
     then Some mk_empty
     else
       resid_shrunk ←
         Region._calc_mean_shrunken_residuals (Csr.data (Scan.mat f))
           (Csr.indices (Scan.mat f)) (Csr.indptr (Scan.mat f)) sm
           (Z.to_nat (Csr.n_cols (Scan.mat f))) (Csr.n_rows (Scan.mat f))
           (Matrix.bed_start e) (Matrix.bed_end e);
       new_rows ←
         mapM (Matrix.write_row cell_names keep_other_columns e n_meth
                 n_total mfracs n_obs_cpgs
                 (Z.of_nat (length (Matrix.observed_cells n_total)))
                 resid_shrunk) (Matrix.observed_cells n_total);
       Some (mk_rows new_rows))
    = Some st'
    /\ (st' = mk_empty \/ exists new_rows, st' = mk_rows new_rows).
Proof.
  intros (wf & Hvals & Hnames & sm' & Hsm' & Hcov) Hsm [Hout|[Hse Hex]].
  - rewrite calc_region_stats_outside by exact Hout.
    cbn [mbind option_bind].
    destruct (Matrix.observed_cells _) as [|c cs] eqn:Ecs; [simpl; eauto|].
    assert (Hc : c ∈ Matrix.observed_cells
                       (replicate (Z.to_nat (Csr.n_cols (Scan.mat f))) 0))
      by (rewrite Ecs; left).
    apply observed_cells_positive in Hc as (_ & t & Ht & Hpos).
    apply lookup_replicate in Ht as [-> _]. lia.
  - rewrite Hsm in Hsm'. injection Hsm' as <-.
    destruct (region_stats_counts _ _ _ _ _ _ _ wf Hvals Hse Hex)
      as (n_meth & n_total & mfracs & -> & Hlen & Hres).
    cbn [mbind option_bind].
    destruct (_ =? _)%nat; [eauto|].
    destruct (residuals_length _ _ _ sm _ _ _ _ wf Hse)
      as (resid & -> & Hrlen).
    { apply Forall_forall. intros p Hp. rewrite Forall_forall in Hcov.
      apply Hcov. unfold interval_rows in Hp.
      apply elem_of_seqZ in Hp. apply elem_of_seqZ. lia. }
    cbn [mbind option_bind].
    destruct (mapM _ _) as [new_rows|] eqn:Erows; [simpl; eauto|].
    exfalso. apply eq_None_not_Some in Erows. apply Erows.
    apply mapM_is_Some, Forall_forall. intros c Hc. simpl.
    apply observed_cells_positive in Hc as (Hc & t & Ht & _).
    pose proof (lookup_lt_Some _ _ _ Ht) as Hlt. rewrite Hlen in Hlt.
    destruct (Hres _ Hlt) as (_ & Hm & Hf). cbv zeta in Hm, Hf.
    unfold Matrix.write_row.
    rewrite (get_nonneg cell_names), (get_nonneg n_meth),
      (get_nonneg n_total), (get_nonneg mfracs), (get_nonneg resid)
      by exact Hc.
    destruct (lookup_lt_is_Some_2 cell_names (Z.to_nat c)) as [name ->];
      [lia|].
    destruct (lookup_lt_is_Some_2 resid (Z.to_nat c)) as [r ->]; [lia|].
    rewrite Hm, Ht, Hf. simpl. eauto.
Qed.

(** One turn of the loop returns when its entry goes on with the previous
    chromosome or opens a chromosome not seen before. *)
Lemma matrix_step_returns (st : Matrix.state) (e : Matrix.bed_entry) :
  loaded_ok data_dir st ->
  (Some (Matrix.bed_chrom e) <> Matrix.prev_chrom st ->
   Matrix.bed_chrom e ∉ Matrix.observed_chroms st) ->
  (forall f, data_dir !! Matrix.bed_chrom e = Some f -> region_covered f e) ->
  exists st',
    Matrix.step bed_col data_dir cell_names keep_other_columns st e
    = Some st'
    /\ Matrix.observed_chroms st'
       ⊆ {[Matrix.bed_chrom e]} ∪ Matrix.observed_chroms st
    /\ Matrix.unknown_chroms st'
       ⊆ {[Matrix.bed_chrom e]} ∪ Matrix.unknown_chroms st
    /\ (Matrix.prev_chrom st' = Some (Matrix.bed_chrom e)
        \/ Matrix.bed_chrom e ∈ Matrix.unknown_chroms st
           /\ Matrix.prev_chrom st' = Matrix.prev_chrom st).
Proof.
  intros Hl Hnew Hreg. unfold Matrix.step. cbv zeta.
  set (hdr := match Matrix.prev_chrom st with
              | Some _ => Matrix.header st
              | None => _
              end).
  clearbody hdr.
  destruct (decide (Matrix.bed_chrom e ∈ Matrix.unknown_chroms st))
    as [Hunk|Hnunk].
  { eexists. split; [reflexivity|]. simpl.
    split; [set_solver|]. split; [set_solver|]. right. auto. }
  destruct (decide (Some (Matrix.bed_chrom e) = Matrix.prev_chrom st))
    as [Hprev|Hnprev].
  - cbn [mbind option_bind].
    destruct (Hl _ (eq_sym Hprev) Hnunk) as (f & sm & Ef & Hsm & Hload).
    rewrite Hload. cbn [mbind option_bind].
    edestruct (matrix_region_returns e f sm) as (st' & -> & Hst');
      [exact (dir_usable _ _ Ef)|exact Hsm|exact (Hreg _ Ef)|].
    exists st'. split; [reflexivity|].
    destruct Hst' as [->|[new_rows ->]]; simpl;
      (split; [set_solver|]); (split; [set_solver|]); left; reflexivity.
  - destruct (decide (Matrix.bed_chrom e ∈ Matrix.observed_chroms st))
      as [Hobs|_]; [exfalso; apply (Hnew Hnprev Hobs)|].
    destruct (data_dir !! Matrix.bed_chrom e) as [f|] eqn:Ef.
    + pose proof (dir_usable _ _ Ef) as Hf.
      pose proof Hf as (_ & _ & _ & sm & Hsm & _).
      rewrite Hsm. cbn [mbind option_bind].
      edestruct (matrix_region_returns e f sm) as (st' & -> & Hst');
        [exact Hf|exact Hsm|exact (Hreg _ eq_refl)|].
      exists st'. split; [reflexivity|].
      destruct Hst' as [->|[new_rows ->]]; simpl;
        (split; [set_solver|]); (split; [set_solver|]); left; reflexivity.
    + cbn [mbind option_bind]. eexists. split; [reflexivity|]. simpl.
      split; [set_solver|]. split; [set_solver|]. left. reflexivity.
Qed.

Lemma matrix_loop_returns (todo : list Matrix.bed_entry) :
  forall (done : list Matrix.bed_entry) (st : Matrix.state),
    grouped (map Matrix.bed_chrom done ++ map Matrix.bed_chrom todo) ->
    (forall c, c ∈ Matrix.unknown_chroms st -> data_dir !! c = None) ->
    loaded_ok data_dir st ->
    (forall c, c ∈ Matrix.observed_chroms st ->
               c ∈ map Matrix.bed_chrom done) ->
    (forall c, c ∈ Matrix.unknown_chroms st ->
               c ∈ map Matrix.bed_chrom done) ->
    Matrix.prev_chrom st = last (map Matrix.bed_chrom done) ->
    Forall (fun e => forall f, data_dir !! Matrix.bed_chrom e = Some f ->
                               region_covered f e) todo ->
    is_Some (Ingest.foldM
               (Matrix.step bed_col data_dir cell_names keep_other_columns)
               todo st).
Proof.
  induction todo as [|e todo IH];
    intros done st Hg Hmiss Hl Hobs Hunk Hprev Hreg; [simpl; eauto|].
  apply Forall_cons in Hreg as [He Hreg]. cbn [map] in Hg.
  destruct (matrix_step_returns st e Hl) as (st' & Hs & Ho & Hu & Hp);
    [|exact He|].
  { intros Hne Hin. apply Hobs, (grouped_last _ _ _ Hg) in Hin.
    rewrite <- Hprev in Hin. congruence. }
  simpl. rewrite Hs. apply (IH (done ++ [e]) st').
  - rewrite map_app, <- app_assoc. exact Hg.
  - apply (matrix_step_rows _ _ _ _ _ _ _ Hmiss Hl Hs).
  - apply (matrix_step_rows _ _ _ _ _ _ _ Hmiss Hl Hs).
  - intros c Hc. rewrite map_app. cbn [map]. apply elem_of_app.
    apply Ho, elem_of_union in Hc as [Hc|Hc];
      [apply elem_of_singleton in Hc; subst c; right; left
      |left; apply Hobs, Hc].
  - intros c Hc. rewrite map_app. cbn [map]. apply elem_of_app.
    apply Hu, elem_of_union in Hc as [Hc|Hc];
      [apply elem_of_singleton in Hc; subst c; right; left
      |left; apply Hunk, Hc].
  - rewrite map_app. cbn [map]. rewrite last_snoc.
    destruct Hp as [->|[Hin ->]]; [reflexivity|].
    rewrite Hprev. apply Hunk, (grouped_last _ _ _ Hg) in Hin. exact Hin.
  - exact Hreg.
Qed.

End MatrixReturns.


